(** * mailrules: the rule language front end and the rule engine

    A shallow embedding of
    - [rules/rules.go]: predicates, the four rule variants, their match
      step ([Message]) and action step ([Action]), and [messageMIME];
    - the later revision of [rules.go] in which a stream rule posts to a
      URL and keeps a [done] set (module [rules_http]);
    - the lexer ([NextToken] and its scanners), [Parser.Lex],
      [Parser.Parse] and the two yacc grammars of package [parse].

    Go values are modelled as follows: [int], [rune] and status codes are
    [Z]; buffer offsets, which are never negative, are [nat]; [string] and
    [[]byte] are [string] (a list of bytes); a nil-able pointer or
    interface is an [option]; a panic is the outcome [Panic]. *)

From Stdlib Require Import ZArith Lia Ascii String List Bool.
From stdpp Require Import base gmap strings list pretty.

Import ListNotations.
Open Scope string_scope.
Open Scope Z_scope.

(** ** Go primitives *)

Definition dquote : ascii := "034"%char.
Definition newline : ascii := "010"%char.
Definition tab : ascii := "009"%char.
Definition carriage_return : ascii := "013"%char.
Definition nul : ascii := "000"%char.

(** [rune(c)] for a byte [c]. *)
Definition rune (c : ascii) : Z := Z.of_nat (nat_of_ascii c).

(** [len(s)] *)
Definition len (s : string) : nat := String.length s.

(** [s[i:j]]; the callers below only slice within bounds. *)
Definition slice (s : string) (i j : nat) : string :=
  String.substring i (j - i) s.

(** [s[i:]] *)
Fixpoint slice_from (s : string) (i : nat) : string :=
  match i, s with
  | O, _ => s
  | S i', String _ s' => slice_from s' i'
  | S _, EmptyString => EmptyString
  end.

(** [s[1:len(s)-1]]: a Go slice expression panics when [len(s) < 2]. *)
Definition strip_quotes (s : string) : option string :=
  if (2 <=? len s)%nat then Some (slice s 1 (len s - 1)) else None.

(** [strings.HasPrefix] *)
Definition HasPrefix (s p : string) : bool := String.prefix p s.

(** [strings.ReplaceAll(s, old, new)] for a non-empty [old]: the
    non-overlapping occurrences of [old] are replaced from left to right.
    [skip] counts the bytes of a match that are still to be dropped. *)
Fixpoint ReplaceAll_go (skip : nat) (s old new : string) : string :=
  match s with
  | EmptyString => EmptyString
  | String c s' =>
      match skip with
      | S k => ReplaceAll_go k s' old new
      | O =>
          if String.prefix old s
          then new ++ ReplaceAll_go (len old - 1) s' old new
          else String c (ReplaceAll_go O s' old new)
      end
  end.

Definition ReplaceAll (s old new : string) : string := ReplaceAll_go O s old new.

(** [strings.ToLower] on ASCII text (header values are ASCII). *)
Definition lower_byte (c : ascii) : ascii :=
  let n := nat_of_ascii c in
  if ((65 <=? n) && (n <=? 90))%nat then ascii_of_nat (n + 32) else c.

Fixpoint ToLower (s : string) : string :=
  match s with
  | EmptyString => EmptyString
  | String c s' => String (lower_byte c) (ToLower s')
  end.

(** A Go computation that may panic. *)
Inductive outcome (A : Type) : Type :=
| Ret (a : A)
| Panic.
Arguments Ret {A} a.
Arguments Panic {A}.

(** Go [error] values: a formatted message ([fmt.Errorf]), a message
    wrapping a cause ([%w]), or the join of errors ([errors.Join]). *)
Inductive error : Type :=
| Errorf (msg : string)
| Wrapf (msg : string) (cause : error)
| Join (e : error) (more : error).

(** [err.Error()] *)
Fixpoint error_string (e : error) : string :=
  match e with
  | Errorf msg => msg
  | Wrapf msg cause => msg ++ ": " ++ error_string cause
  | Join e more => error_string e ++ String "010"%char (error_string more)
  end.

(** ** unicode/utf8 *)
Module utf8.

Definition RuneError : Z := 65533.
Definition RuneSelf : Z := 128.

(** Size and range of the second byte that the first byte [p0 >= 0x80] of
    an encoding asks for ([first] and [acceptRanges] of the package);
    [None] is an invalid first byte. *)
Definition first (p0 : Z) : option (nat * Z * Z) :=
  if p0 <? 194 then None
  else if p0 <=? 223 then Some (2%nat, 128, 191)
  else if p0 =? 224 then Some (3%nat, 160, 191)
  else if p0 <=? 236 then Some (3%nat, 128, 191)
  else if p0 =? 237 then Some (3%nat, 128, 159)
  else if p0 <=? 239 then Some (3%nat, 128, 191)
  else if p0 =? 240 then Some (4%nat, 144, 191)
  else if p0 <=? 243 then Some (4%nat, 128, 191)
  else if p0 =? 244 then Some (4%nat, 128, 143)
  else None.

Definition is_cont (b : Z) : bool := (128 <=? b) && (b <=? 191).

(** [utf8.DecodeRune(p)]: the rune and its width in bytes. *)
Definition DecodeRune (p : string) : Z * nat :=
  match p with
  | EmptyString => (RuneError, 0%nat)
  | String c0 p1 =>
      let p0 := rune c0 in
      if p0 <? RuneSelf then (p0, 1%nat) else
      match first p0 with
      | None => (RuneError, 1%nat)
      | Some (sz, lo, hi) =>
          if (len p <? sz)%nat then (RuneError, 1%nat) else
          match p1 with
          | EmptyString => (RuneError, 1%nat)
          | String c1 p2 =>
              let b1 := rune c1 in
              if (b1 <? lo) || (hi <? b1) then (RuneError, 1%nat) else
              if (sz <=? 2)%nat
              then (Z.lor (Z.shiftl (Z.land p0 31) 6) (Z.land b1 63), 2%nat) else
              match p2 with
              | EmptyString => (RuneError, 1%nat)
              | String c2 p3 =>
                  let b2 := rune c2 in
                  if negb (is_cont b2) then (RuneError, 1%nat) else
                  if (sz <=? 3)%nat
                  then (Z.lor (Z.lor (Z.shiftl (Z.land p0 15) 12)
                                     (Z.shiftl (Z.land b1 63) 6))
                              (Z.land b2 63), 3%nat) else
                  match p3 with
                  | EmptyString => (RuneError, 1%nat)
                  | String c3 _ =>
                      let b3 := rune c3 in
                      if negb (is_cont b3) then (RuneError, 1%nat) else
                      (Z.lor (Z.lor (Z.lor (Z.shiftl (Z.land p0 7) 18)
                                           (Z.shiftl (Z.land b1 63) 12))
                                    (Z.shiftl (Z.land b2 63) 6))
                             (Z.land b3 63), 4%nat)
                  end
              end
          end
      end
  end.

End utf8.

(** A Go [(value, error)] result. *)
Inductive res (A : Type) : Type :=
| Ok (a : A)
| Err (e : error).
Arguments Ok {A} a.
Arguments Err {A} e.

(** ** github.com/emersion/go-imap: the data the rules read *)
Module imap.

(** Modelled from the spec: [imap.SeqSet] belongs to the go-imap library;
    it is used as the set of message identifiers (unique, unordered) of
    the data model: [AddNum] inserts, [AddSet] is union, [Contains] is
    membership and [Empty] tests emptiness.  Identifiers are IMAP UIDs
    ([uint32]). *)
Abbreviation SeqSet := (gset N).

Definition AddNum (s : SeqSet) (q : N) : SeqSet := {[ q ]} ∪ s.
Definition AddSet (s t : SeqSet) : SeqSet := s ∪ t.
Definition Contains (s : SeqSet) (q : N) : bool := bool_decide (q ∈ s).
Definition Empty (s : SeqSet) : bool := bool_decide (s = ∅).

Record Address := { MailboxName : string; HostName : string }.

(** The method [Address] of an address. *)
Definition Address_Address (a : Address) : string :=
  MailboxName a ++ "@" ++ HostName a.

Record Envelope := {
  To : list Address;
  From : list Address;
  Subject : string
}.

(** A fetched message.  [Envelope] is a pointer that is nil when the
    envelope was not among the fetched items; a body section maps to a
    nil-able literal; [Body] lists the sections in iteration order. *)
Record Message := {
  SeqNum : N;
  Uid : N;
  Envelope_ : option Envelope;
  Flags : list string;
  Body : list (string * option string)
}.

Definition FlaggedFlag : string := "\Flagged".

Inductive FlagsOp := AddFlags | RemoveFlags.

Inductive FetchItem := FetchUid | FetchRFC822Header | FetchRFC822Text | FetchBody.

End imap.

(** ** net/mail, mime and mime/multipart: headers and parts *)
Module mail.

(** A [textproto.MIMEHeader]: canonical key to its values. *)
Abbreviation Header := (gmap string (list string)).

(** [Header.Get]: the first value of the key, or the empty string. *)
Definition Get (h : Header) (key : string) : string :=
  match h !! key with
  | Some (v :: _) => v
  | _ => EmptyString
  end.

Record Message := { Header_ : Header; Body : string }.

(** A [*multipart.Part]: its header, the bytes of its body in the
    message, and whether its reader decodes these bytes from
    quoted-printable as they are read. *)
Record Part := {
  PartHeader : Header;
  PartBody : string;
  PartQuotedPrintable : bool
}.

(** [multipart.Reader.NextPart] on a part of the body with header
    [header] and bytes [body].  As a special case, when the transfer
    encoding of the part is quoted-printable, in whatever case of
    letters, that header is hidden and the body is decoded as it is read
    ([Header.Del] and [quotedprintable.NewReader] in [nextPart]). *)
Definition NextPart (header : Header) (body : string) : Part :=
  if bool_decide (ToLower (Get header "Content-Transfer-Encoding") = "quoted-printable")
  then {| PartHeader := delete "Content-Transfer-Encoding" header;
          PartBody := body; PartQuotedPrintable := true |}
  else {| PartHeader := header; PartBody := body; PartQuotedPrintable := false |}.

(** The [io.Reader] values that [messageMIME] and the stream rules build. *)
Inductive Reader :=
| PartReader (p : Part)
| Base64Decoder (p : Part)
| QuotedPrintableReader (p : Part)
| LiteralReader (s : string)
| MultiReader (header body : string).

End mail.

(** ** What the rules ask of the outside world *)

(** The mailbox requests a rule can issue. *)
Inductive request :=
| UidMove (msgs : gset N) (mailbox : string)
| UidStore (msgs : gset N) (op : imap.FlagsOp) (silent : bool) (flags : list string)
| UidFetch (msgs : gset N) (items : list imap.FetchItem).

(** A request that changes the mailbox. *)
Definition is_mutation (q : request) : bool :=
  match q with
  | UidMove _ _ | UidStore _ _ _ _ => true
  | UidFetch _ _ => false
  end.

(** What an action does that the outside world can see, in order. *)
Inductive event :=
| MailboxRequest (q : request)
| RunCommand (command : string) (env : list string) (stdin : mail.Reader)
| HttpPost (url : string) (headers : list (string * string)) (body : option mail.Reader).

(** [regexp.Compile] and [Regexp.MatchString]: a compiled expression
    is represented by its pattern. *)
Class RegexpLib := {
  regexp_Compile : string -> option error;
  regexp_MatchString : string -> string -> bool
}.

(** The collaborators of the action step: the IMAP client, the MIME and
    mail parsers of the standard library, the command runner and the HTTP
    client.  Each field gives the result of the call. *)
Class World := {
  client_UidMove : gset N -> string -> option error;
  client_UidStore : gset N -> imap.FlagsOp -> list string -> option error;
  (** the messages sent on the channel, then the result of the fetch *)
  client_UidFetch : gset N -> list imap.FetchItem -> list imap.Message * option error;
  mail_ReadMessage : mail.Reader -> res mail.Message;
  mime_ParseMediaType : string -> res (string * gmap string string);
  (** the header and the bytes of each part of a body that [NextPart]
      comes to before it returns an error *)
  multipart_raw : string -> string -> list (mail.Header * string);
  multipart_end : string -> string -> error;
  header_Date : mail.Header -> res string;
  date_Format : string -> string -> string;
  mime_DecodeHeader : string -> res string;
  os_Environ : list string;
  cmd_Run : string -> list string -> mail.Reader -> option error;
  (** [http.NewRequestWithContext]: whether the request can be built *)
  http_NewRequest : string -> option error;
  (** [http.Client.Do]: the status code of the response, or an error *)
  http_Do : string -> list (string * string) -> option mail.Reader -> res Z
}.

(** The parts that [NextPart] returns before it returns an error. *)
Definition multipart_parts {W : World} (body boundary : string) : list mail.Part :=
  map (fun part => mail.NextPart part.1 part.2) (multipart_raw body boundary).

(** The result of an action step: the rule as the step leaves it, what
    the step did, and what it returned. *)
Record ActionResult (R : Type) := {
  after : R;
  events : list event;
  returned : outcome (option error)
}.
Arguments after {R} _.
Arguments events {R} _.
Arguments returned {R} _.

(** The mailbox requests among the events of a step. *)
Definition requests_of (evs : list event) : list request :=
  omap (fun e => match e with MailboxRequest q => Some q | _ => None end) evs.

(** ** Package rules ([rules/rules.go]) *)
Module rules.

Inductive StringPredicate :=
| StringEqualsPredicate (s : string)
| Regexp (pattern : string).

Inductive Predicate :=
| FieldPredicate (Field : string) (P : StringPredicate)
| AndPredicate (Left Right : Predicate)
| OrPredicate (Left Right : Predicate)
| NotPredicate (P : Predicate).

Record MoveRule := {
  move_Predicate : option Predicate;
  Mailbox : string;
  move_messages : gset N
}.

Record FlagRule := {
  flag_Predicate : option Predicate;
  flag_Flag : string;
  flag_messages : gset N
}.

Record UnflagRule := {
  unflag_Predicate : option Predicate;
  unflag_Flag : string;
  unflag_messages : gset N
}.

Record StreamRule := {
  stream_Predicate : option Predicate;
  Command : string;
  stream_messages : gset N
}.

(** The implementations of the interface [Rule]. *)
Inductive Rule :=
| Move (r : MoveRule)
| Flag (r : FlagRule)
| Unflag (r : UnflagRule)
| Stream (r : StreamRule).

Definition NewFieldPredicate (field : string) (predicate : StringPredicate)
  : res Predicate :=
  if bool_decide (field = "to") || bool_decide (field = "from")
     || bool_decide (field = "subject")
  then Ok (FieldPredicate field predicate)
  else Err (Errorf ("unknown field '" ++ field ++ "'")).

Definition NewMoveRule (predicate : option Predicate) (mailbox : string) : MoveRule :=
  {| move_Predicate := predicate; Mailbox := mailbox; move_messages := ∅ |}.

Definition NewFlagRule (predicate : option Predicate) (flag : string) : FlagRule :=
  let flag := if bool_decide (flag = EmptyString) then imap.FlaggedFlag else flag in
  {| flag_Predicate := predicate; flag_Flag := flag; flag_messages := ∅ |}.

Definition NewUnflagRule (predicate : option Predicate) (flag : string) : UnflagRule :=
  let flag := if bool_decide (flag = EmptyString) then imap.FlaggedFlag else flag in
  {| unflag_Predicate := predicate; unflag_Flag := flag; unflag_messages := ∅ |}.

Definition NewStreamRule (predicate : option Predicate) (command : string) : StreamRule :=
  {| stream_Predicate := predicate; Command := command; stream_messages := ∅ |}.

Definition RFC2822 : string := "Mon, 02 Jan 2006 15:04:05 MST".
Definition RFC3339 : string := "2006-01-02T15:04:05Z07:00".

(** [for _, flag := range msg.Flags { if flag == r.Flag { return } }] *)
Definition has_flag (flags : list string) (flag : string) : bool :=
  existsb (fun f => bool_decide (f = flag)) flags.

(** [msg.Envelope.Subject] as an argument of the log line of a match step:
    the arguments are evaluated before the line is written, and reading
    a field of a nil envelope panics. *)
Definition log_Subject (msg : imap.Message) : outcome unit :=
  match imap.Envelope_ msg with
  | None => Panic
  | Some _ => Ret tt
  end.

Section WithWorld.
Context {RE : RegexpLib} {W : World}.

Definition MatchString (p : StringPredicate) (s : string) : bool :=
  match p with
  | StringEqualsPredicate lit => bool_decide (lit = s)
  | Regexp pattern => regexp_MatchString pattern s
  end.

(** [FieldPredicate.MatchMessage]; reading a field of a nil envelope
    panics. *)
Definition MatchField (field : string) (p : StringPredicate) (msg : imap.Message)
  : outcome bool :=
  if bool_decide (field = "to") then
    match imap.Envelope_ msg with
    | None => Panic
    | Some e => Ret (existsb (fun a => MatchString p (imap.Address_Address a)) (imap.To e))
    end
  else if bool_decide (field = "from") then
    match imap.Envelope_ msg with
    | None => Panic
    | Some e => Ret (existsb (fun a => MatchString p (imap.Address_Address a)) (imap.From e))
    end
  else if bool_decide (field = "subject") then
    match imap.Envelope_ msg with
    | None => Panic
    | Some e => Ret (MatchString p (imap.Subject e))
    end
  else Ret false.

(** [MatchMessage]; [&&] and [||] evaluate their right operand only when
    the left one does not decide. *)
Fixpoint MatchMessage (p : Predicate) (msg : imap.Message) : outcome bool :=
  match p with
  | FieldPredicate field sp => MatchField field sp msg
  | AndPredicate l r =>
      match MatchMessage l msg with
      | Ret true => MatchMessage r msg
      | Ret false => Ret false
      | Panic => Panic
      end
  | OrPredicate l r =>
      match MatchMessage l msg with
      | Ret true => Ret true
      | Ret false => MatchMessage r msg
      | Panic => Panic
      end
  | NotPredicate q =>
      match MatchMessage q msg with
      | Ret b => Ret (negb b)
      | Panic => Panic
      end
  end.

(** [r.Predicate.MatchMessage(msg)] on the interface value of a rule:
    calling a method of a nil interface panics. *)
Definition match_predicate (p : option Predicate) (msg : imap.Message) : outcome bool :=
  match p with
  | None => Panic
  | Some p => MatchMessage p msg
  end.

(** *** The match step.  [r.messages] points to a set shared by every
    copy of the rule, so [AddNum] on the receiver's copy updates the rule. *)

Definition MoveRule_Message (r : MoveRule) (msg : imap.Message) : outcome MoveRule :=
  match match_predicate (move_Predicate r) msg with
  | Panic => Panic
  | Ret true =>
      match log_Subject msg with
      | Panic => Panic
      | Ret _ =>
          Ret {| move_Predicate := move_Predicate r; Mailbox := Mailbox r;
                 move_messages := imap.AddNum (move_messages r) (imap.Uid msg) |}
      end
  | Ret false => Ret r
  end.

Definition FlagRule_Message (r : FlagRule) (msg : imap.Message) : outcome FlagRule :=
  if has_flag (imap.Flags msg) (flag_Flag r) then Ret r (* already flagged *)
  else
    match match_predicate (flag_Predicate r) msg with
    | Panic => Panic
    | Ret true =>
        match log_Subject msg with
        | Panic => Panic
        | Ret _ =>
            Ret {| flag_Predicate := flag_Predicate r; flag_Flag := flag_Flag r;
                   flag_messages := imap.AddNum (flag_messages r) (imap.Uid msg) |}
        end
    | Ret false => Ret r
    end.

Definition UnflagRule_Message (r : UnflagRule) (msg : imap.Message) : outcome UnflagRule :=
  if has_flag (imap.Flags msg) (unflag_Flag r) then Ret r (* already flagged *)
  else
    match match_predicate (unflag_Predicate r) msg with
    | Panic => Panic
    | Ret true =>
        match log_Subject msg with
        | Panic => Panic
        | Ret _ =>
            Ret {| unflag_Predicate := unflag_Predicate r; unflag_Flag := unflag_Flag r;
                   unflag_messages := imap.AddNum (unflag_messages r) (imap.Uid msg) |}
        end
    | Ret false => Ret r
    end.

Definition StreamRule_Message (r : StreamRule) (msg : imap.Message) : outcome StreamRule :=
  match match_predicate (stream_Predicate r) msg with
  | Panic => Panic
  | Ret true =>
      match log_Subject msg with
      | Panic => Panic
      | Ret _ =>
          Ret {| stream_Predicate := stream_Predicate r; Command := Command r;
                 stream_messages := imap.AddNum (stream_messages r) (imap.Uid msg) |}
      end
  | Ret false => Ret r
  end.

(** *** The action step *)

Definition MoveRule_Action (r : MoveRule) : ActionResult MoveRule :=
  let msgs := move_messages r in
  let r' := {| move_Predicate := move_Predicate r; Mailbox := Mailbox r;
               move_messages := ∅ |} in
  if imap.Empty msgs then {| after := r'; events := []; returned := Ret None |}
  else
    {| after := r';
       events := [MailboxRequest (UidMove msgs (Mailbox r))];
       returned :=
         Ret (match client_UidMove msgs (Mailbox r) with
              | Some err => Some (Wrapf ("move messages to mailbox `" ++ Mailbox r ++ "`") err)
              | None => None
              end) |}.

Definition FlagRule_Action (r : FlagRule) : ActionResult FlagRule :=
  let msgs := flag_messages r in
  let r' := {| flag_Predicate := flag_Predicate r; flag_Flag := flag_Flag r;
               flag_messages := ∅ |} in
  if imap.Empty msgs then {| after := r'; events := []; returned := Ret None |}
  else
    let flags := [flag_Flag r] in
    {| after := r';
       events := [MailboxRequest (UidStore msgs imap.AddFlags true flags)];
       returned :=
         Ret (match client_UidStore msgs imap.AddFlags flags with
              | Some err => Some (Wrapf ("flag messages with `" ++ flag_Flag r ++ "`") err)
              | None => None
              end) |}.

Definition UnflagRule_Action (r : UnflagRule) : ActionResult UnflagRule :=
  let msgs := unflag_messages r in
  let r' := {| unflag_Predicate := unflag_Predicate r; unflag_Flag := unflag_Flag r;
               unflag_messages := ∅ |} in
  if imap.Empty msgs then {| after := r'; events := []; returned := Ret None |}
  else
    let flags := [unflag_Flag r] in
    {| after := r';
       events := [MailboxRequest (UidStore msgs imap.RemoveFlags true flags)];
       returned :=
         Ret (match client_UidStore msgs imap.RemoveFlags flags with
              | Some err => Some (Wrapf ("unflag messages with `" ++ unflag_Flag r ++ "`") err)
              | None => None
              end) |}.

(** [messageParse]: the header and text sections of a fetched message,
    read as one mail message. *)
Definition messageParse (message : imap.Message) : res mail.Message :=
  let pick (spec : string) :=
    foldl (fun acc kv =>
             match kv with
             | (k, Some v) => if bool_decide (k = spec) then Some v else acc
             | (_, None) => acc
             end) None (imap.Body message) in
  match pick "HEADER", pick "TEXT" with
  | Some header, Some body =>
      match mail_ReadMessage (mail.MultiReader header body) with
      | Err err => Err (Wrapf "parse message" err)
      | Ok msg => Ok msg
      end
  | _, _ =>
      Err (Errorf ("message " ++ pretty (imap.Uid message)
                   ++ " missing header, body, or both"))
  end.

(** The body of the loop of [messageMIME] over the parts that [NextPart]
    returns; [end_err] is the error it returns after the last part. *)
Fixpoint find_part (contentType : string) (parts : list mail.Part) (end_err : error)
  : res mail.Reader :=
  match parts with
  | [] => Err (Wrapf ("could not find " ++ contentType ++ " part of message") end_err)
  | part :: rest =>
      match mime_ParseMediaType (mail.Get (mail.PartHeader part) "Content-Type") with
      | Err err => Err (Wrapf "parse multipart message part content type" err)
      | Ok (mediaType, _) =>
          if bool_decide (mediaType = contentType) then
            let enc := ToLower (mail.Get (mail.PartHeader part) "Content-Transfer-Encoding") in
            if bool_decide (enc = "base64") then Ok (mail.Base64Decoder part)
            else if bool_decide (enc = "quoted-printable")
                 then Ok (mail.QuotedPrintableReader part)
                 else Ok (mail.PartReader part)
          else find_part contentType rest end_err
      end
  end.

(** [messageMIME]: find and decode one part of a message.
    [multipart.NewReader] never returns nil, so the check after it is not
    modelled. *)
Definition messageMIME (message : mail.Message) (contentType : string)
  : res mail.Reader :=
  match mime_ParseMediaType (mail.Get (mail.Header_ message) "Content-Type") with
  | Err err => Err (Wrapf "parse message content type" err)
  | Ok (mediaType, params) =>
      if negb (HasPrefix mediaType "multipart/")
      then Err (Errorf ("expected multipart message but found " ++ mediaType))
      else
        let boundary := default EmptyString (params !! "boundary") in
        find_part contentType
          (multipart_parts (mail.Body message) boundary)
          (multipart_end (mail.Body message) boundary)
  end.

(** The zero [time.Time], which [date] holds when the date does not parse. *)
Definition zero_time : string := "0001-01-01 00:00:00 +0000 UTC".

(** One iteration of the loop of [StreamRule.Action]: the errors and
    events it appends. *)
Definition stream_one (r : StreamRule) (message : imap.Message)
  : list error * list event :=
  let uid := pretty (imap.Uid message) in
  match messageParse message with
  | Err err => ([Wrapf ("parse message " ++ uid) err], [])
  | Ok msg =>
      match messageMIME msg "text/html" with
      | Err err => ([Wrapf ("html of message " ++ uid) err], [])
      | Ok html =>
          let '(date, errs1) :=
            match header_Date (mail.Header_ msg) with
            | Ok d => (d, [])
            | Err err => (zero_time, [Wrapf ("parse date of message " ++ uid) err])
            end in
          let raw := mail.Get (mail.Header_ msg) "Subject" in
          let '(subject, errs2) :=
            match mime_DecodeHeader raw with
            | Ok s => (s, [])
            | Err err => (raw, [Wrapf ("decode subject of message " ++ uid) err])
            end in
          let env :=
            (os_Environ ++
             [ ("message_uuid=" ++ mail.Get (mail.Header_ msg) "X-Apple-UUID")%string;
               ("message_subject=" ++ subject)%string;
               ("message_date_rfc3339=" ++ date_Format date RFC3339)%string;
               ("message_date_rfc2822=" ++ date_Format date RFC2822)%string ])%list in
          let errs3 :=
            match cmd_Run (Command r) env html with
            | Some err => [Wrapf ("stream messages to `" ++ Command r ++ "`") err]
            | None => []
            end in
          ((errs1 ++ errs2 ++ errs3)%list, [RunCommand (Command r) env html])
      end
  end.

Fixpoint stream_loop (r : StreamRule) (messages : list imap.Message)
  : list error * list event :=
  match messages with
  | [] => ([], [])
  | message :: rest =>
      let '(errs, evs) := stream_one r message in
      let '(errs', evs') := stream_loop r rest in
      ((errs ++ errs')%list, (evs ++ evs')%list)
  end.

(** [errors.Join] of a non-empty list. *)
Fixpoint join_all (e : error) (es : list error) : error :=
  match es with
  | [] => e
  | e' :: es' => Join e (join_all e' es')
  end.

Definition StreamRule_Action (r : StreamRule) : ActionResult StreamRule :=
  let msgs := stream_messages r in
  let r' := {| stream_Predicate := stream_Predicate r; Command := Command r;
               stream_messages := ∅ |} in
  if imap.Empty msgs then {| after := r'; events := []; returned := Ret None |}
  else
    let items := [imap.FetchUid; imap.FetchRFC822Header; imap.FetchRFC822Text] in
    let '(messages, done) := client_UidFetch msgs items in
    let '(errs, evs) := stream_loop r messages in
    {| after := r';
       events := MailboxRequest (UidFetch msgs items) :: evs;
       returned :=
         Ret (match errs with
              | e :: es => Some (join_all e es)
              | [] =>
                  match done with
                  | Some err => Some (Wrapf ("stream messages to `" ++ Command r ++ "`") err)
                  | None => None
                  end
              end) |}.

(** *** The interface [Rule] *)

Definition Message (r : Rule) (msg : imap.Message) : outcome Rule :=
  match r with
  | Move r =>
      match MoveRule_Message r msg with Ret r' => Ret (Move r') | Panic => Panic end
  | Flag r =>
      match FlagRule_Message r msg with Ret r' => Ret (Flag r') | Panic => Panic end
  | Unflag r =>
      match UnflagRule_Message r msg with Ret r' => Ret (Unflag r') | Panic => Panic end
  | Stream r =>
      match StreamRule_Message r msg with Ret r' => Ret (Stream r') | Panic => Panic end
  end.

Definition lift_result {A B : Type} (f : A -> B) (a : ActionResult A) : ActionResult B :=
  {| after := f (after a); events := events a; returned := returned a |}.

Definition Action (r : Rule) : ActionResult Rule :=
  match r with
  | Move r => lift_result Move (MoveRule_Action r)
  | Flag r => lift_result Flag (FlagRule_Action r)
  | Unflag r => lift_result Unflag (UnflagRule_Action r)
  | Stream r => lift_result Stream (StreamRule_Action r)
  end.

(** The pending set of a rule. *)
Definition pending (r : Rule) : gset N :=
  match r with
  | Move r => move_messages r
  | Flag r => flag_messages r
  | Unflag r => unflag_messages r
  | Stream r => stream_messages r
  end.

(** The same rule with another pending set: its predicate and its
    mailbox, flag or command stay. *)
Definition with_pending (r : Rule) (s : gset N) : Rule :=
  match r with
  | Move r => Move {| move_Predicate := move_Predicate r; Mailbox := Mailbox r;
                      move_messages := s |}
  | Flag r => Flag {| flag_Predicate := flag_Predicate r; flag_Flag := flag_Flag r;
                      flag_messages := s |}
  | Unflag r => Unflag {| unflag_Predicate := unflag_Predicate r;
                          unflag_Flag := unflag_Flag r; unflag_messages := s |}
  | Stream r => Stream {| stream_Predicate := stream_Predicate r; Command := Command r;
                          stream_messages := s |}
  end.

End WithWorld.
End rules.

(** ** Package rules, later revision: a stream rule posts each message to
    a URL and remembers in [done] what it has processed.  Predicates, the
    other three rules and [messageMIME] are those of [rules]. *)
Module rules_http.

Record StreamRule := {
  Predicate_ : option rules.Predicate;
  Content : string;
  URL : string;
  messages : gset N;
  done : gset N
}.

Definition StreamContentHTML : string := "html".
Definition StreamContentRFC822 : string := "rfc822".

Definition NewStreamRule (predicate : option rules.Predicate) (content url : string)
  : StreamRule :=
  {| Predicate_ := predicate; Content := content; URL := url;
     messages := ∅;
     done := ∅ (* this rule has processed this message previously *) |}.

(** [resp.StatusCode < 200 && resp.StatusCode >= 300] *)
Definition status_guard (StatusCode : Z) : bool :=
  (StatusCode <? 200) && (StatusCode >=? 300).

Section WithWorld.
Context {RE : RegexpLib} {W : World}.

Definition Message (r : StreamRule) (msg : imap.Message) : outcome StreamRule :=
  if imap.Contains (done r) (imap.Uid msg) then Ret r
  else
    match rules.match_predicate (Predicate_ r) msg with
    | Panic => Panic
    | Ret true =>
        match rules.log_Subject msg with
        | Panic => Panic
        | Ret _ =>
            Ret {| Predicate_ := Predicate_ r; Content := Content r; URL := URL r;
                   messages := imap.AddNum (messages r) (imap.Uid msg);
                   done := done r |}
        end
    | Ret false => Ret r
    end.

(** The first three statements of [Action]: take the pending set, give
    the rule a fresh one, and add what was taken to [done]. *)
Definition swap (r : StreamRule) : gset N * StreamRule :=
  let msgs := messages r in
  (msgs, {| Predicate_ := Predicate_ r; Content := Content r; URL := URL r;
            messages := ∅;
            done := imap.AddSet (done r) msgs |}).

(** [for _, v := range message.Body]: the last non-nil section. *)
Definition body_reader (message : imap.Message) : option mail.Reader :=
  foldl (fun acc kv =>
           match kv with
           | (_, Some v) => Some (mail.LiteralReader v)
           | (_, None) => acc
           end) None (imap.Body message).

(** What follows the construction of the request: [req.Header.Set] is
    called before [err] is looked at and panics on the nil request that
    comes with an error; then the request is sent. *)
Definition post (r : StreamRule) (headers : list (string * string))
    (body : option mail.Reader) : list event * outcome (option error) :=
  match http_NewRequest (URL r) with
  | Some _ => ([], Panic)
  | None =>
      ([HttpPost (URL r) headers body],
       match http_Do (URL r) headers body with
       | Err err =>
           Ret (Some (Wrapf ("stream messages to `" ++ URL r ++ "`: do http request") err))
       | Ok StatusCode =>
           if status_guard StatusCode
           then Ret (Some (Errorf ("stream messages to `" ++ URL r
                                   ++ "`: error response: " ++ pretty StatusCode)))
           else Ret None
       end)
  end.

Definition handleMessage (r : StreamRule) (message : imap.Message)
  : list event * outcome (option error) :=
  let rfc822 := body_reader message in
  if bool_decide (Content r = StreamContentRFC822) then
    (* Pass the email to the command verbatim *)
    post r [("Content-Type", "message/rfc822"); ("Accept", "application/json")] rfc822
  else if bool_decide (Content r = StreamContentHTML) then
    (* Parse the email and find the HTML to pass to the command *)
    match rfc822 with
    | None => ([], Panic) (* [mail.ReadMessage] reads from a nil reader *)
    | Some reader =>
        match mail_ReadMessage reader with
        | Err err => ([], Ret (Some (Wrapf "parse message" err)))
        | Ok msg =>
            let uid := pretty (imap.Uid message) in
            match rules.messageMIME msg "text/html" with
            | Err err => ([], Ret (Some (Wrapf ("html of message " ++ uid) err)))
            | Ok html =>
                match header_Date (mail.Header_ msg) with
                | Err err => ([], Ret (Some (Wrapf ("parse date of message " ++ uid) err)))
                | Ok date =>
                    match mime_DecodeHeader (mail.Get (mail.Header_ msg) "Subject") with
                    | Err err =>
                        ([], Ret (Some (Wrapf ("decode subject of message " ++ uid) err)))
                    | Ok subject =>
                        post r
                          [("Content-Type", "message/rfc822");
                           ("Accept", "application/json");
                           ("X-Message-UUID", mail.Get (mail.Header_ msg) "X-Apple-UUID");
                           ("X-Message-Subject", subject);
                           ("X-Message-Date-RFC3339", date_Format date rules.RFC3339);
                           ("X-Message-Date-RFC2822", date_Format date rules.RFC2822)]
                          (Some html)
                    end
                end
            end
        end
    end
  else ([], Ret None).

(** The loop of [Action] over the fetched messages.  When a delivery
    fails, the log line reads [message.Envelope.Subject], which panics on
    a message fetched without its envelope.  The result is the events and
    whether the loop ran to its end. *)
Fixpoint deliver (r : StreamRule) (fetched : list imap.Message)
  : list event * outcome unit :=
  match fetched with
  | [] => ([], Ret tt)
  | message :: rest =>
      match handleMessage r message with
      | (evs, Panic) => (evs, Panic)
      | (evs, Ret (Some _)) =>
          match imap.Envelope_ message with
          | None => (evs, Panic)
          | Some _ => let '(evs', o) := deliver r rest in ((evs ++ evs')%list, o)
          end
      | (evs, Ret None) => let '(evs', o) := deliver r rest in ((evs ++ evs')%list, o)
      end
  end.

Definition Action (r : StreamRule) : ActionResult StreamRule :=
  let '(msgs, r') := swap r in
  if imap.Empty msgs then {| after := r'; events := []; returned := Ret None |}
  else
    let items := [imap.FetchUid; imap.FetchBody] in
    let '(fetched, fetch_err) := client_UidFetch msgs items in
    let '(evs, o) := deliver r' fetched in
    {| after := r';
       events := MailboxRequest (UidFetch msgs items) :: evs;
       returned :=
         match o with
         | Panic => Panic
         | Ret _ =>
             Ret (match fetch_err with
                  | Some err => Some (Wrapf ("stream messages to `" ++ URL r ++ "`") err)
                  | None => None
                  end)
         end |}.

End WithWorld.
End rules_http.

(** ** Package parse: the lexer *)
Module parse.

(** [TokenType] *)
Inductive TokenType :=
(* Special tokens *)
| TokenError | TokenEOF
| TokenComment | TokenIdentifier | TokenNumber | TokenQuote
(* Operators *)
| TokenPlus | TokenMinus | TokenMultiply | TokenDivide | TokenPeriod
| TokenBackslash | TokenColon | TokenPercent | TokenPipe | TokenExclamation
| TokenQuestion | TokenPound | TokenAmpersand | TokenSemi | TokenComma
| TokenLeftParen | TokenRightParen | TokenLeftAngle | TokenRightAngle
| TokenLeftBrace | TokenRightBrace | TokenLeftBracket | TokenRightBracket
| TokenEquals | TokenTilde
(* Reserved words *)
| TokenIf | TokenMove | TokenAnd | TokenOr | TokenNot | TokenThen
| TokenFlag | TokenUnflag | TokenStream.

#[global] Instance TokenType_eq_dec : EqDecision TokenType.
Proof. solve_decision. Defined.

(** [Token]: a single token of the input. *)
Record Token := {
  Typ : TokenType;
  Value : string;
  Position : nat
}.

Definition reservedWords (val : string) : option TokenType :=
  if bool_decide (val = "if") then Some TokenIf
  else if bool_decide (val = "move") then Some TokenMove
  else if bool_decide (val = "and") then Some TokenAnd
  else if bool_decide (val = "or") then Some TokenOr
  else if bool_decide (val = "not") then Some TokenNot
  else if bool_decide (val = "then") then Some TokenThen
  else if bool_decide (val = "flag") then Some TokenFlag
  else if bool_decide (val = "unflag") then Some TokenUnflag
  else if bool_decide (val = "stream") then Some TokenStream
  else None.

Definition makeErrorToken (pos : nat) : Token :=
  {| Typ := TokenError; Value := EmptyString; Position := pos |}.

(** The operator table: the entries that are set. *)
Definition opTable_entries : list (ascii * TokenType) :=
  [ ("+"%char, TokenPlus); ("-"%char, TokenMinus); ("*"%char, TokenMultiply);
    ("/"%char, TokenDivide); ("."%char, TokenPeriod); ("\"%char, TokenBackslash);
    (":"%char, TokenColon); ("%"%char, TokenPercent); ("|"%char, TokenPipe);
    ("!"%char, TokenExclamation); ("?"%char, TokenQuestion); ("#"%char, TokenPound);
    ("&"%char, TokenAmpersand); (";"%char, TokenSemi); (","%char, TokenComma);
    ("("%char, TokenLeftParen); (")"%char, TokenRightParen);
    ("<"%char, TokenLeftAngle); (">"%char, TokenRightAngle);
    ("{"%char, TokenLeftBrace); ("}"%char, TokenRightBrace);
    ("["%char, TokenLeftBracket); ("]"%char, TokenRightBracket);
    ("="%char, TokenEquals); ("~"%char, TokenTilde) ].

(** [opTable[r]]: an entry that is not set is the zero value [TokenError]. *)
Definition opTable (r : Z) : TokenType :=
  match List.find (fun e => rune (fst e) =? r) opTable_entries with
  | Some e => snd e
  | None => TokenError
  end.

(** [len(opTable)]: one more than the largest index, that of ['~']. *)
Definition len_opTable : Z := 127.

(** [Lexer]: the buffer, the current rune, its position and the position
    of the next rune. *)
Record Lexer := {
  buf : string;
  r : Z;
  rpos : nat;
  nextpos : nat
}.

(** [next] advances the lexer to the next rune of the input. *)
Definition next (lex : Lexer) : Lexer :=
  if (nextpos lex <? len (buf lex))%nat then
    let rest := slice_from (buf lex) (nextpos lex) in
    let '(r, w) :=
      match rest with
      | String c _ =>
          if rune c >=? utf8.RuneSelf then utf8.DecodeRune rest else (rune c, 1%nat)
      | EmptyString => (-1, 0%nat)
      end in
    {| buf := buf lex; r := r; rpos := nextpos lex; nextpos := (nextpos lex + w)%nat |}
  else
    {| buf := buf lex; r := -1 (* EOF *); rpos := len (buf lex); nextpos := nextpos lex |}.

(** [NewLexer] creates a lexer for the input and primes it. *)
Definition NewLexer (buf : string) : Lexer :=
  next {| buf := buf; r := -1; rpos := 0; nextpos := 0 |}.

(** [peekNextByte]: the byte after the current rune. *)
Definition peekNextByte (lex : Lexer) : Z :=
  match slice_from (buf lex) (nextpos lex) with
  | String c _ => rune c
  | EmptyString => -1
  end.

Definition isAlpha (r : Z) : bool :=
  ((rune "a" <=? r) && (r <=? rune "z")) || ((rune "A" <=? r) && (r <=? rune "Z"))
  || (r =? rune "_") || (r =? rune "$").

Definition isDigit (r : Z) : bool := (rune "0" <=? r) && (r <=? rune "9").

Definition isSpace (r : Z) : bool :=
  (r =? rune " ") || (r =? rune tab) || (r =? rune newline) || (r =? rune carriage_return).

(** A [for cond(lex.r) { lex.next() }] loop.  Every iteration but one at
    the end of the input moves [nextpos] forward, so the loop runs at most
    [len(buf)] times: the callers give [fuel] one more than that. *)
Fixpoint advance_while (cond : Z -> bool) (fuel : nat) (lex : Lexer) : Lexer :=
  match fuel with
  | O => lex
  | S fuel' => if cond (r lex) then advance_while cond fuel' (next lex) else lex
  end.

Definition loop_fuel (lex : Lexer) : nat := S (len (buf lex)).

Definition skipNontokens (lex : Lexer) : Lexer :=
  advance_while isSpace (loop_fuel lex) lex.

Definition scanIdentifier (lex : Lexer) : Token * Lexer :=
  let startpos := rpos lex in
  let lex := advance_while (fun r => isAlpha r || isDigit r) (loop_fuel lex) lex in
  let val := slice (buf lex) startpos (rpos lex) in
  match reservedWords val with
  | Some typ => ({| Typ := typ; Value := val; Position := startpos |}, lex)
  | None => ({| Typ := TokenIdentifier; Value := val; Position := startpos |}, lex)
  end.

Definition scanNumber (lex : Lexer) : Token * Lexer :=
  let startpos := rpos lex in
  let lex := advance_while isDigit (loop_fuel lex) lex in
  ({| Typ := TokenNumber; Value := slice (buf lex) startpos (rpos lex);
      Position := startpos |}, lex).

(** The loop of [scanQuote]: [inl] is the [return makeErrorToken(lex.rpos)]
    inside the loop, [inr] the lexer when the loop condition fails. *)
Fixpoint scanQuote_loop (fuel : nat) (lex : Lexer) : (Token * Lexer) + Lexer :=
  match fuel with
  | O => inr lex
  | S fuel' =>
      if (r lex >? 0) && negb (r lex =? rune dquote) then
        if r lex =? rune "\" then
          let lex := next lex in
          if (r lex =? rune "\") || (r lex =? rune dquote)
          then scanQuote_loop fuel' (next lex)
          else inl (makeErrorToken (rpos lex), lex)
        else scanQuote_loop fuel' (next lex)
      else inr lex
  end.

Definition scanQuote (lex : Lexer) : Token * Lexer :=
  let startpos := rpos lex in
  let lex := next lex in
  match scanQuote_loop (loop_fuel lex) lex with
  | inl err => err
  | inr lex =>
      if r lex <? 0 then (makeErrorToken startpos, lex)
      else
        let lex := next lex in
        ({| Typ := TokenQuote; Value := slice (buf lex) startpos (rpos lex);
            Position := startpos |}, lex)
  end.

Definition scanComment (lex : Lexer) : Token * Lexer :=
  let startpos := rpos lex in
  let lex := next lex in
  let lex := advance_while (fun r => (r >? 0) && negb (r =? rune newline))
                           (loop_fuel lex) lex in
  let tok := {| Typ := TokenComment; Value := slice (buf lex) startpos (rpos lex);
                Position := startpos |} in
  (tok, next lex).

Definition NextToken (lex : Lexer) : Token * Lexer :=
  (* Skip non-tokens like whitespace and check for EOF. *)
  let lex := skipNontokens lex in
  if r lex <? 0 then
    ({| Typ := TokenEOF; Value := EmptyString; Position := nextpos lex |}, lex)
  else
    let operator (opName : TokenType) :=
      let startpos := rpos lex in
      let lex := next lex in
      ({| Typ := opName; Value := slice (buf lex) startpos (rpos lex);
          Position := startpos |}, lex) in
    let other :=
      (* Not an operator. Try other types of tokens. *)
      if isAlpha (r lex) then scanIdentifier lex
      else if isDigit (r lex) then scanNumber lex
      else if r lex =? rune dquote then scanQuote lex
      else (makeErrorToken (rpos lex), lex) in
    (* Is this an operator? *)
    if r lex <? len_opTable then
      let opName := opTable (r lex) in
      if bool_decide (opName <> TokenError) then
        if bool_decide (opName = TokenDivide) && (peekNextByte lex =? rune "/")
        then scanComment lex (* '/' may be the start of a comment *)
        else operator opName
      else other
    else other.

(** The tokens that [NextToken] returns up to the first [TokenEOF] or
    [TokenError], which ends the list. *)
Fixpoint tokens_from (fuel : nat) (lex : Lexer) : list Token :=
  match fuel with
  | O => []
  | S fuel' =>
      let '(tok, lex') := NextToken lex in
      match Typ tok with
      | TokenEOF | TokenError => [tok]
      | _ => tok :: tokens_from fuel' lex'
      end
  end.

Definition tokens (buf : string) : list Token :=
  tokens_from (S (len buf)) (NewLexer buf).


(** ** Package parse: the parser around the lexer ([parser.go]) *)

(** The terminals of the grammar: the [%token] line and the tokens that
    [%left] and [%right] declare. *)
Inductive terminal :=
| IDENTIFIER | QUOTE | TILDE | EQUALS | THEN | SEMICOLON | IF | MOVE | FLAG
| UNFLAG | STREAM | LPAREN | RPAREN | AND | OR | NOT.

#[global] Instance terminal_eq_dec : EqDecision terminal.
Proof. solve_decision. Defined.

(** The [int] that [Lex] returns: the number of a terminal, which is
    positive, or a literal integer. *)
Inductive lexcode :=
| TokenNumberOf (t : terminal)
| LexInt (n : Z).

(** [tokenNumbers[typ]]: an entry that is not set is [0]. *)
Definition tokenNumbers (typ : TokenType) : lexcode :=
  match typ with
  | TokenIdentifier => TokenNumberOf IDENTIFIER
  | TokenQuote => TokenNumberOf QUOTE
  | TokenEquals => TokenNumberOf EQUALS
  | TokenTilde => TokenNumberOf TILDE
  | TokenSemi => TokenNumberOf SEMICOLON
  | TokenIf => TokenNumberOf IF
  | TokenMove => TokenNumberOf MOVE
  | TokenAnd => TokenNumberOf AND
  | TokenOr => TokenNumberOf OR
  | TokenNot => TokenNumberOf NOT
  | TokenThen => TokenNumberOf THEN
  | TokenFlag => TokenNumberOf FLAG
  | TokenUnflag => TokenNumberOf UNFLAG
  | TokenStream => TokenNumberOf STREAM
  | TokenLeftParen => TokenNumberOf LPAREN
  | TokenRightParen => TokenNumberOf RPAREN
  | _ => LexInt 0
  end.

(** [yySymType]: the [%union] of the grammar, a struct with one field
    per member. *)
Record yySymType := {
  yyValue : string;
  yyValues : list string;
  yyRules : list rules.Rule;
  yyRule : option rules.Rule;
  yyMoveRule : option rules.MoveRule;
  yyFlagRule : option rules.FlagRule;
  yyUnflagRule : option rules.UnflagRule;
  yyStreamRule : option rules.StreamRule;
  yyPredicate : option rules.Predicate
}.

Definition yyZero : yySymType :=
  {| yyValue := EmptyString; yyValues := []; yyRules := []; yyRule := None;
     yyMoveRule := None; yyFlagRule := None; yyUnflagRule := None;
     yyStreamRule := None; yyPredicate := None |}.

Definition set_Value (v : yySymType) (x : string) : yySymType :=
  {| yyValue := x; yyValues := yyValues v; yyRules := yyRules v; yyRule := yyRule v;
     yyMoveRule := yyMoveRule v; yyFlagRule := yyFlagRule v;
     yyUnflagRule := yyUnflagRule v; yyStreamRule := yyStreamRule v;
     yyPredicate := yyPredicate v |}.

Definition set_Rules (v : yySymType) (x : list rules.Rule) : yySymType :=
  {| yyValue := yyValue v; yyValues := yyValues v; yyRules := x; yyRule := yyRule v;
     yyMoveRule := yyMoveRule v; yyFlagRule := yyFlagRule v;
     yyUnflagRule := yyUnflagRule v; yyStreamRule := yyStreamRule v;
     yyPredicate := yyPredicate v |}.

Definition set_Rule (v : yySymType) (x : option rules.Rule) : yySymType :=
  {| yyValue := yyValue v; yyValues := yyValues v; yyRules := yyRules v; yyRule := x;
     yyMoveRule := yyMoveRule v; yyFlagRule := yyFlagRule v;
     yyUnflagRule := yyUnflagRule v; yyStreamRule := yyStreamRule v;
     yyPredicate := yyPredicate v |}.

Definition set_MoveRule (v : yySymType) (x : option rules.MoveRule) : yySymType :=
  {| yyValue := yyValue v; yyValues := yyValues v; yyRules := yyRules v;
     yyRule := yyRule v; yyMoveRule := x; yyFlagRule := yyFlagRule v;
     yyUnflagRule := yyUnflagRule v; yyStreamRule := yyStreamRule v;
     yyPredicate := yyPredicate v |}.

Definition set_FlagRule (v : yySymType) (x : option rules.FlagRule) : yySymType :=
  {| yyValue := yyValue v; yyValues := yyValues v; yyRules := yyRules v;
     yyRule := yyRule v; yyMoveRule := yyMoveRule v; yyFlagRule := x;
     yyUnflagRule := yyUnflagRule v; yyStreamRule := yyStreamRule v;
     yyPredicate := yyPredicate v |}.

Definition set_UnflagRule (v : yySymType) (x : option rules.UnflagRule) : yySymType :=
  {| yyValue := yyValue v; yyValues := yyValues v; yyRules := yyRules v;
     yyRule := yyRule v; yyMoveRule := yyMoveRule v; yyFlagRule := yyFlagRule v;
     yyUnflagRule := x; yyStreamRule := yyStreamRule v;
     yyPredicate := yyPredicate v |}.

Definition set_StreamRule (v : yySymType) (x : option rules.StreamRule) : yySymType :=
  {| yyValue := yyValue v; yyValues := yyValues v; yyRules := yyRules v;
     yyRule := yyRule v; yyMoveRule := yyMoveRule v; yyFlagRule := yyFlagRule v;
     yyUnflagRule := yyUnflagRule v; yyStreamRule := x;
     yyPredicate := yyPredicate v |}.

Definition set_Predicate (v : yySymType) (x : option rules.Predicate) : yySymType :=
  {| yyValue := yyValue v; yyValues := yyValues v; yyRules := yyRules v;
     yyRule := yyRule v; yyMoveRule := yyMoveRule v; yyFlagRule := yyFlagRule v;
     yyUnflagRule := yyUnflagRule v; yyStreamRule := yyStreamRule v;
     yyPredicate := x |}.

(** [Parser] *)
Record Parser := {
  lexer : Lexer;
  last : option Token;
  result : list rules.Rule;
  err : option error
}.

Definition NewParser (lexer : Lexer) : Parser :=
  {| lexer := lexer; last := None; result := []; err := None |}.

(** [Parser.Lex]: the loop runs again only after a comment, which takes
    at least two bytes of the input. *)
Fixpoint Parser_Lex_loop (fuel : nat) (p : Parser) (lval : yySymType)
  : lexcode * yySymType * Parser :=
  let '(tok, lexer') := NextToken (lexer p) in
  let p := {| lexer := lexer'; last := Some tok; result := result p; err := err p |} in
  match Typ tok with
  | TokenEOF => (LexInt (-1), lval, p)
  | TokenError =>
      (LexInt (-1), lval,
       {| lexer := lexer p; last := last p; result := result p;
          err := Some (Errorf ("lexing error: " ++ Value tok)) |})
  | TokenComment =>
      match fuel with
      | O => (LexInt (-1), lval, p)
      | S fuel' => Parser_Lex_loop fuel' p lval (* skip *)
      end
  | _ => (tokenNumbers (Typ tok), set_Value lval (Value tok), p)
  end.

Definition Parser_Lex (p : Parser) (lval : yySymType) : lexcode * yySymType * Parser :=
  Parser_Lex_loop (len (buf (lexer p))) p lval.

(** [Parser.Error] *)
Definition Parser_Error (p : Parser) (msg : string) : Parser :=
  let pos := match last p with Some tok => Position tok | None => O end in
  {| lexer := lexer p; last := last p; result := result p;
     err := Some (Errorf (msg ++ " near position " ++ pretty pos)) |}.

(** The interface [yyLexer] of the generated parser, with the assignment
    to the field [result] of the parser that the first grammar rule makes
    through its type assertion on [yylex]. *)
Class yyLexer (L : Type) := {
  Lex : L -> yySymType -> lexcode * yySymType * L;
  Error : L -> string -> L;
  set_result : L -> list rules.Rule -> L
}.

#[global] Instance Parser_yyLexer : yyLexer Parser := {
  Lex := Parser_Lex;
  Error := Parser_Error;
  set_result p rs := {| lexer := lexer p; last := last p; result := rs; err := err p |}
}.

(** ** Package parse: the parser that goyacc generates from a grammar

    [goyacc] turns a grammar into LALR(1) tables and the driver [yyParse].
    The tables are given here by the states of the automaton, named after
    the symbols that lead to them, its transitions, and the production
    that each state can reduce with its lookahead set; a conflict between
    a shift and a reduction is resolved with the [%left] and [%right]
    declarations, as yacc does. *)

Inductive assoc := LeftAssoc | RightAssoc.

Inductive act (S P : Type) :=
| Shift (s : S)
| Reduce (p : P)
| Accept
| ErrorAct.
Arguments Shift {S P} s.
Arguments Reduce {S P} p.
Arguments Accept {S P}.
Arguments ErrorAct {S P}.

(** What a semantic action leaves: [$$] and the lexer, or the lexer after
    a [return -1]. *)
Definition semantic_result (L : Type) : Type := outcome ((yySymType * L) + L).

Record Tables := {
  state : Type;
  nonterminal : Type;
  production : Type;
  (** the left-hand side; [None] for the production [$accept: start] *)
  lhs : production -> option nonterminal;
  rhs : production -> list (terminal + nonterminal);
  (** the level and associativity that a token has been declared with *)
  precedence : terminal -> option (nat * assoc);
  init : state;
  shift : state -> terminal -> option state;
  goto : state -> nonterminal -> option state;
  (** the production whose end the state has reached, and its lookaheads;
      [None] among them is the end of the input *)
  complete : state -> option (production * list (option terminal));
  (** the code of the production, run on [$1 ... $n] *)
  semantic : forall (L : Type), yyLexer L -> production -> list yySymType -> L ->
             semantic_result L
}.

(** The text that [yyParse] passes to [Error] on a syntax error.  goyacc
    writes it into the parser that it generates: the text names the
    token that was not expected and adds what the file of error examples
    of the grammar has for the state.  The generated parser and that
    file are not among the sources, so the text is a parameter: it may
    depend on the grammar, on the state and on the token. *)
Class SyntaxErrors := {
  yyXError : forall G : Tables, state G -> option terminal -> string
}.

Section Driver.
Context (G : Tables) {L : Type} {YL : yyLexer L} {XE : SyntaxErrors}.

(** The precedence of a production is that of its last terminal. *)
Definition rule_precedence (p : production G) : option (nat * assoc) :=
  match omap (fun x => match x with inl t => Some t | inr _ => None end)
             (rev (rhs G p)) with
  | t :: _ => precedence G t
  | [] => None
  end.

(** Whether the state reduces on the lookahead, before conflicts are
    resolved. *)
Definition reducible (s : state G) (la : option terminal) : option (production G) :=
  match complete G s with
  | Some (p, las) => if bool_decide (la ∈ las) then Some p else None
  | None => None
  end.

(** A shift/reduce conflict: the higher precedence wins; at equal
    precedence a left-associative token reduces and a right-associative
    one shifts; without precedences yacc shifts. *)
Definition resolve (s' : state G) (p : production G) (t : terminal)
  : act (state G) (production G) :=
  match rule_precedence p, precedence G t with
  | Some (rp, _), Some (tp, a) =>
      if (tp <? rp)%nat then Reduce p
      else if (rp <? tp)%nat then Shift s'
      else match a with LeftAssoc => Reduce p | RightAssoc => Shift s' end
  | _, _ => Shift s'
  end.

Definition reduce_or_accept (p : production G) : act (state G) (production G) :=
  match lhs G p with
  | Some _ => Reduce p
  | None => Accept
  end.

(** The action table. *)
Definition action (s : state G) (la : option terminal)
  : act (state G) (production G) :=
  match la with
  | None =>
      match reducible s None with
      | Some p => reduce_or_accept p
      | None => ErrorAct
      end
  | Some t =>
      match shift G s t, reducible s la with
      | Some s', Some p => resolve s' p t
      | Some s', None => Shift s'
      | None, Some p => reduce_or_accept p
      | None, None => ErrorAct
      end
  end.

(** [yylex1]: a token number that is not positive is the end of the
    input. *)
Definition yylex1 (n : lexcode) : option terminal :=
  match n with
  | TokenNumberOf t => Some t
  | LexInt _ => None
  end.

(** The variables of [yyParse]: [yyS] is the stack of states and values,
    its top first; [yychar] is the lookahead, [None] when the next token
    has not been read; [yylval] is the value that [Lex] fills in. *)
Record yyconfig := {
  yyS : list (state G * yySymType);
  yychar : option (option terminal);
  yylval : yySymType;
  yylex : L
}.

(** One turn of the loop of [yyParse]: the variables after it, or the
    value that [yyParse] returns with the lexer as it leaves it. *)
Definition yystep (c : yyconfig) : yyconfig + outcome (Z * L) :=
  match yyS c with
  | [] => inr Panic
  | (yystate, _) :: _ =>
      let '(la, yylval, yylex) :=
        match yychar c with
        | Some la => (la, yylval c, yylex c)
        | None =>
            let '(n, yylval', yylex') := Lex (yylex c) (yylval c) in
            (yylex1 n, yylval', yylex')
        end in
      match action yystate la with
      | Shift s' =>
          inl {| yyS := (s', yylval) :: yyS c; yychar := None;
                 yylval := yylval; yylex := yylex |}
      | Reduce p =>
          let n := List.length (rhs G p) in
          let args := rev (map snd (take n (yyS c))) in
          match drop n (yyS c), lhs G p with
          | (below, v) :: rest, Some A =>
              match goto G below A with
              | Some s' =>
                  match semantic G L _ p args yylex with
                  | Panic => inr Panic
                  | Ret (inr yylex') => inr (Ret (-1, yylex'))
                  | Ret (inl (yyVAL, yylex')) =>
                      inl {| yyS := (s', yyVAL) :: (below, v) :: rest;
                             yychar := Some la; yylval := yylval; yylex := yylex' |}
                  end
              | None => inr Panic
              end
          | _, _ => inr Panic
          end
      | Accept => inr (Ret (0, yylex))
      | ErrorAct => inr (Ret (1, Error yylex (yyXError G yystate la)))
      end
  end.

(** The loop; [None] when [fuel] turns were not enough. *)
Fixpoint yyloop (fuel : nat) (c : yyconfig) : option (outcome (Z * L)) :=
  match fuel with
  | O => None
  | S fuel' =>
      match yystep c with
      | inl c' => yyloop fuel' c'
      | inr out => Some out
      end
  end.

(** [yyParse] *)
Definition yyParse (fuel : nat) (yylex : L) : option (outcome (Z * L)) :=
  yyloop fuel {| yyS := [(init G, yyZero)]; yychar := None;
                 yylval := yyZero; yylex := yylex |}.

End Driver.

(** *** The grammar with the stream rule and the [string] nonterminal *)
Module grammar_stream.

Inductive nonterminal :=
| N_start | N_rules | N_rule | N_condition | N_comparison | N_move | N_flag | N_unflag | N_stream | N_string | N_list.

(** The productions, named [P_<left-hand side>__<right-hand side>]. *)
Inductive production :=
| P_accept
| P_start__rules
| P_rules__rule_SEMICOLON
| P_rules__rules_rule_SEMICOLON
| P_rule__IF_condition_THEN_move
| P_rule__IF_condition_THEN_flag
| P_rule__IF_condition_THEN_unflag
| P_rule__IF_condition_THEN_stream
| P_condition__comparison
| P_condition__condition_AND_condition
| P_condition__condition_OR_condition
| P_condition__NOT_condition
| P_condition__LPAREN_condition_RPAREN
| P_comparison__IDENTIFIER_TILDE_string
| P_comparison__IDENTIFIER_EQUALS_string
| P_move__MOVE_string
| P_flag__FLAG
| P_flag__FLAG_string
| P_unflag__UNFLAG
| P_unflag__UNFLAG_string
| P_stream__STREAM_string
| P_string__QUOTE
| P_list__string
| P_list__IDENTIFIER
| P_list__list_string
| P_list__list_IDENTIFIER.

Definition lhs (p : production) : option nonterminal :=
  match p with
  | P_accept => None
  | P_start__rules => Some N_start
  | P_rules__rule_SEMICOLON => Some N_rules
  | P_rules__rules_rule_SEMICOLON => Some N_rules
  | P_rule__IF_condition_THEN_move => Some N_rule
  | P_rule__IF_condition_THEN_flag => Some N_rule
  | P_rule__IF_condition_THEN_unflag => Some N_rule
  | P_rule__IF_condition_THEN_stream => Some N_rule
  | P_condition__comparison => Some N_condition
  | P_condition__condition_AND_condition => Some N_condition
  | P_condition__condition_OR_condition => Some N_condition
  | P_condition__NOT_condition => Some N_condition
  | P_condition__LPAREN_condition_RPAREN => Some N_condition
  | P_comparison__IDENTIFIER_TILDE_string => Some N_comparison
  | P_comparison__IDENTIFIER_EQUALS_string => Some N_comparison
  | P_move__MOVE_string => Some N_move
  | P_flag__FLAG => Some N_flag
  | P_flag__FLAG_string => Some N_flag
  | P_unflag__UNFLAG => Some N_unflag
  | P_unflag__UNFLAG_string => Some N_unflag
  | P_stream__STREAM_string => Some N_stream
  | P_string__QUOTE => Some N_string
  | P_list__string => Some N_list
  | P_list__IDENTIFIER => Some N_list
  | P_list__list_string => Some N_list
  | P_list__list_IDENTIFIER => Some N_list
  end.

Definition rhs (p : production) : list (terminal + nonterminal) :=
  match p with
  | P_accept => [inr N_start]
  | P_start__rules => [inr N_rules]
  | P_rules__rule_SEMICOLON => [inr N_rule; inl SEMICOLON]
  | P_rules__rules_rule_SEMICOLON => [inr N_rules; inr N_rule; inl SEMICOLON]
  | P_rule__IF_condition_THEN_move => [inl IF; inr N_condition; inl THEN; inr N_move]
  | P_rule__IF_condition_THEN_flag => [inl IF; inr N_condition; inl THEN; inr N_flag]
  | P_rule__IF_condition_THEN_unflag => [inl IF; inr N_condition; inl THEN; inr N_unflag]
  | P_rule__IF_condition_THEN_stream => [inl IF; inr N_condition; inl THEN; inr N_stream]
  | P_condition__comparison => [inr N_comparison]
  | P_condition__condition_AND_condition => [inr N_condition; inl AND; inr N_condition]
  | P_condition__condition_OR_condition => [inr N_condition; inl OR; inr N_condition]
  | P_condition__NOT_condition => [inl NOT; inr N_condition]
  | P_condition__LPAREN_condition_RPAREN => [inl LPAREN; inr N_condition; inl RPAREN]
  | P_comparison__IDENTIFIER_TILDE_string => [inl IDENTIFIER; inl TILDE; inr N_string]
  | P_comparison__IDENTIFIER_EQUALS_string => [inl IDENTIFIER; inl EQUALS; inr N_string]
  | P_move__MOVE_string => [inl MOVE; inr N_string]
  | P_flag__FLAG => [inl FLAG]
  | P_flag__FLAG_string => [inl FLAG; inr N_string]
  | P_unflag__UNFLAG => [inl UNFLAG]
  | P_unflag__UNFLAG_string => [inl UNFLAG; inr N_string]
  | P_stream__STREAM_string => [inl STREAM; inr N_string]
  | P_string__QUOTE => [inl QUOTE]
  | P_list__string => [inr N_string]
  | P_list__IDENTIFIER => [inl IDENTIFIER]
  | P_list__list_string => [inr N_list; inr N_string]
  | P_list__list_IDENTIFIER => [inr N_list; inl IDENTIFIER]
  end.

(** [%left AND OR] and, one level higher, [%right NOT] *)
Definition precedence (t : terminal) : option (nat * assoc) :=
  match t with
  | AND | OR => Some (1%nat, LeftAssoc)
  | NOT => Some (2%nat, RightAssoc)
  | _ => None
  end.

(** The states; the name of a state spells the symbols on the stack
    that lead to it. *)
Inductive state :=
| S_start | S_IF | S_rule | S_rules | S_accept | S_IDENTIFIER | S_LPAREN
| S_NOT | S_comparison | S_IF_condition | S_rule_SEMICOLON | S_rules_rule
| S_IDENTIFIER_EQUALS | S_IDENTIFIER_TILDE | S_LPAREN_condition
| S_NOT_condition | S_condition_AND | S_condition_OR | S_IF_condition_THEN
| S_rules_rule_SEMICOLON | S_QUOTE | S_IDENTIFIER_EQUALS_string
| S_IDENTIFIER_TILDE_string | S_LPAREN_condition_RPAREN
| S_condition_AND_condition | S_condition_OR_condition | S_FLAG | S_MOVE
| S_STREAM | S_UNFLAG | S_IF_condition_THEN_flag | S_IF_condition_THEN_move
| S_IF_condition_THEN_stream | S_IF_condition_THEN_unflag | S_FLAG_string
| S_MOVE_string | S_STREAM_string | S_UNFLAG_string.

(** The items of a state, without those that its closure adds: a
    production and the number of its symbols that have been seen. *)
Definition kernel (s : state) : list (production * nat) :=
  match s with
  | S_start => [(P_accept, 0%nat)]
  | S_IF =>
      [(P_rule__IF_condition_THEN_move, 1%nat);
       (P_rule__IF_condition_THEN_flag, 1%nat);
       (P_rule__IF_condition_THEN_unflag, 1%nat);
       (P_rule__IF_condition_THEN_stream, 1%nat)]
  | S_rule => [(P_rules__rule_SEMICOLON, 1%nat)]
  | S_rules => [(P_start__rules, 1%nat); (P_rules__rules_rule_SEMICOLON, 1%nat)]
  | S_accept => [(P_accept, 1%nat)]
  | S_IDENTIFIER =>
      [(P_comparison__IDENTIFIER_TILDE_string, 1%nat);
       (P_comparison__IDENTIFIER_EQUALS_string, 1%nat)]
  | S_LPAREN => [(P_condition__LPAREN_condition_RPAREN, 1%nat)]
  | S_NOT => [(P_condition__NOT_condition, 1%nat)]
  | S_comparison => [(P_condition__comparison, 1%nat)]
  | S_IF_condition =>
      [(P_rule__IF_condition_THEN_move, 2%nat);
       (P_rule__IF_condition_THEN_flag, 2%nat);
       (P_rule__IF_condition_THEN_unflag, 2%nat);
       (P_rule__IF_condition_THEN_stream, 2%nat);
       (P_condition__condition_AND_condition, 1%nat);
       (P_condition__condition_OR_condition, 1%nat)]
  | S_rule_SEMICOLON => [(P_rules__rule_SEMICOLON, 2%nat)]
  | S_rules_rule => [(P_rules__rules_rule_SEMICOLON, 2%nat)]
  | S_IDENTIFIER_EQUALS => [(P_comparison__IDENTIFIER_EQUALS_string, 2%nat)]
  | S_IDENTIFIER_TILDE => [(P_comparison__IDENTIFIER_TILDE_string, 2%nat)]
  | S_LPAREN_condition =>
      [(P_condition__condition_AND_condition, 1%nat);
       (P_condition__condition_OR_condition, 1%nat);
       (P_condition__LPAREN_condition_RPAREN, 2%nat)]
  | S_NOT_condition =>
      [(P_condition__condition_AND_condition, 1%nat);
       (P_condition__condition_OR_condition, 1%nat);
       (P_condition__NOT_condition, 2%nat)]
  | S_condition_AND => [(P_condition__condition_AND_condition, 2%nat)]
  | S_condition_OR => [(P_condition__condition_OR_condition, 2%nat)]
  | S_IF_condition_THEN =>
      [(P_rule__IF_condition_THEN_move, 3%nat);
       (P_rule__IF_condition_THEN_flag, 3%nat);
       (P_rule__IF_condition_THEN_unflag, 3%nat);
       (P_rule__IF_condition_THEN_stream, 3%nat)]
  | S_rules_rule_SEMICOLON => [(P_rules__rules_rule_SEMICOLON, 3%nat)]
  | S_QUOTE => [(P_string__QUOTE, 1%nat)]
  | S_IDENTIFIER_EQUALS_string => [(P_comparison__IDENTIFIER_EQUALS_string, 3%nat)]
  | S_IDENTIFIER_TILDE_string => [(P_comparison__IDENTIFIER_TILDE_string, 3%nat)]
  | S_LPAREN_condition_RPAREN => [(P_condition__LPAREN_condition_RPAREN, 3%nat)]
  | S_condition_AND_condition =>
      [(P_condition__condition_AND_condition, 1%nat);
       (P_condition__condition_AND_condition, 3%nat);
       (P_condition__condition_OR_condition, 1%nat)]
  | S_condition_OR_condition =>
      [(P_condition__condition_AND_condition, 1%nat);
       (P_condition__condition_OR_condition, 1%nat);
       (P_condition__condition_OR_condition, 3%nat)]
  | S_FLAG => [(P_flag__FLAG, 1%nat); (P_flag__FLAG_string, 1%nat)]
  | S_MOVE => [(P_move__MOVE_string, 1%nat)]
  | S_STREAM => [(P_stream__STREAM_string, 1%nat)]
  | S_UNFLAG => [(P_unflag__UNFLAG, 1%nat); (P_unflag__UNFLAG_string, 1%nat)]
  | S_IF_condition_THEN_flag => [(P_rule__IF_condition_THEN_flag, 4%nat)]
  | S_IF_condition_THEN_move => [(P_rule__IF_condition_THEN_move, 4%nat)]
  | S_IF_condition_THEN_stream => [(P_rule__IF_condition_THEN_stream, 4%nat)]
  | S_IF_condition_THEN_unflag => [(P_rule__IF_condition_THEN_unflag, 4%nat)]
  | S_FLAG_string => [(P_flag__FLAG_string, 2%nat)]
  | S_MOVE_string => [(P_move__MOVE_string, 2%nat)]
  | S_STREAM_string => [(P_stream__STREAM_string, 2%nat)]
  | S_UNFLAG_string => [(P_unflag__UNFLAG_string, 2%nat)]
  end.

Definition shift (s : state) (t : terminal) : option state :=
  match s, t with
  | S_start, IF => Some S_IF
  | S_IF, IDENTIFIER => Some S_IDENTIFIER
  | S_IF, LPAREN => Some S_LPAREN
  | S_IF, NOT => Some S_NOT
  | S_rule, SEMICOLON => Some S_rule_SEMICOLON
  | S_rules, IF => Some S_IF
  | S_IDENTIFIER, TILDE => Some S_IDENTIFIER_TILDE
  | S_IDENTIFIER, EQUALS => Some S_IDENTIFIER_EQUALS
  | S_LPAREN, IDENTIFIER => Some S_IDENTIFIER
  | S_LPAREN, LPAREN => Some S_LPAREN
  | S_LPAREN, NOT => Some S_NOT
  | S_NOT, IDENTIFIER => Some S_IDENTIFIER
  | S_NOT, LPAREN => Some S_LPAREN
  | S_NOT, NOT => Some S_NOT
  | S_IF_condition, THEN => Some S_IF_condition_THEN
  | S_IF_condition, AND => Some S_condition_AND
  | S_IF_condition, OR => Some S_condition_OR
  | S_rules_rule, SEMICOLON => Some S_rules_rule_SEMICOLON
  | S_IDENTIFIER_EQUALS, QUOTE => Some S_QUOTE
  | S_IDENTIFIER_TILDE, QUOTE => Some S_QUOTE
  | S_LPAREN_condition, RPAREN => Some S_LPAREN_condition_RPAREN
  | S_LPAREN_condition, AND => Some S_condition_AND
  | S_LPAREN_condition, OR => Some S_condition_OR
  | S_NOT_condition, AND => Some S_condition_AND
  | S_NOT_condition, OR => Some S_condition_OR
  | S_condition_AND, IDENTIFIER => Some S_IDENTIFIER
  | S_condition_AND, LPAREN => Some S_LPAREN
  | S_condition_AND, NOT => Some S_NOT
  | S_condition_OR, IDENTIFIER => Some S_IDENTIFIER
  | S_condition_OR, LPAREN => Some S_LPAREN
  | S_condition_OR, NOT => Some S_NOT
  | S_IF_condition_THEN, MOVE => Some S_MOVE
  | S_IF_condition_THEN, FLAG => Some S_FLAG
  | S_IF_condition_THEN, UNFLAG => Some S_UNFLAG
  | S_IF_condition_THEN, STREAM => Some S_STREAM
  | S_condition_AND_condition, AND => Some S_condition_AND
  | S_condition_AND_condition, OR => Some S_condition_OR
  | S_condition_OR_condition, AND => Some S_condition_AND
  | S_condition_OR_condition, OR => Some S_condition_OR
  | S_FLAG, QUOTE => Some S_QUOTE
  | S_MOVE, QUOTE => Some S_QUOTE
  | S_STREAM, QUOTE => Some S_QUOTE
  | S_UNFLAG, QUOTE => Some S_QUOTE
  | _, _ => None
  end.

Definition goto (s : state) (A : nonterminal) : option state :=
  match s, A with
  | S_start, N_start => Some S_accept
  | S_start, N_rules => Some S_rules
  | S_start, N_rule => Some S_rule
  | S_IF, N_condition => Some S_IF_condition
  | S_IF, N_comparison => Some S_comparison
  | S_rules, N_rule => Some S_rules_rule
  | S_LPAREN, N_condition => Some S_LPAREN_condition
  | S_LPAREN, N_comparison => Some S_comparison
  | S_NOT, N_condition => Some S_NOT_condition
  | S_NOT, N_comparison => Some S_comparison
  | S_IDENTIFIER_EQUALS, N_string => Some S_IDENTIFIER_EQUALS_string
  | S_IDENTIFIER_TILDE, N_string => Some S_IDENTIFIER_TILDE_string
  | S_condition_AND, N_condition => Some S_condition_AND_condition
  | S_condition_AND, N_comparison => Some S_comparison
  | S_condition_OR, N_condition => Some S_condition_OR_condition
  | S_condition_OR, N_comparison => Some S_comparison
  | S_IF_condition_THEN, N_move => Some S_IF_condition_THEN_move
  | S_IF_condition_THEN, N_flag => Some S_IF_condition_THEN_flag
  | S_IF_condition_THEN, N_unflag => Some S_IF_condition_THEN_unflag
  | S_IF_condition_THEN, N_stream => Some S_IF_condition_THEN_stream
  | S_FLAG, N_string => Some S_FLAG_string
  | S_MOVE, N_string => Some S_MOVE_string
  | S_STREAM, N_string => Some S_STREAM_string
  | S_UNFLAG, N_string => Some S_UNFLAG_string
  | _, _ => None
  end.

Definition complete (s : state) : option (production * list (option terminal)) :=
  match s with
  | S_rules => Some (P_start__rules, [None])
  | S_accept => Some (P_accept, [None])
  | S_comparison =>
      Some (P_condition__comparison,
            [Some AND; Some OR; Some RPAREN; Some THEN])
  | S_rule_SEMICOLON => Some (P_rules__rule_SEMICOLON, [None; Some IF])
  | S_NOT_condition =>
      Some (P_condition__NOT_condition,
            [Some AND; Some OR; Some RPAREN; Some THEN])
  | S_rules_rule_SEMICOLON => Some (P_rules__rules_rule_SEMICOLON, [None; Some IF])
  | S_QUOTE =>
      Some (P_string__QUOTE,
            [Some AND; Some OR; Some RPAREN; Some SEMICOLON; Some THEN])
  | S_IDENTIFIER_EQUALS_string =>
      Some (P_comparison__IDENTIFIER_EQUALS_string,
            [Some AND; Some OR; Some RPAREN; Some THEN])
  | S_IDENTIFIER_TILDE_string =>
      Some (P_comparison__IDENTIFIER_TILDE_string,
            [Some AND; Some OR; Some RPAREN; Some THEN])
  | S_LPAREN_condition_RPAREN =>
      Some (P_condition__LPAREN_condition_RPAREN,
            [Some AND; Some OR; Some RPAREN; Some THEN])
  | S_condition_AND_condition =>
      Some (P_condition__condition_AND_condition,
            [Some AND; Some OR; Some RPAREN; Some THEN])
  | S_condition_OR_condition =>
      Some (P_condition__condition_OR_condition,
            [Some AND; Some OR; Some RPAREN; Some THEN])
  | S_FLAG => Some (P_flag__FLAG, [Some SEMICOLON])
  | S_UNFLAG => Some (P_unflag__UNFLAG, [Some SEMICOLON])
  | S_IF_condition_THEN_flag => Some (P_rule__IF_condition_THEN_flag, [Some SEMICOLON])
  | S_IF_condition_THEN_move => Some (P_rule__IF_condition_THEN_move, [Some SEMICOLON])
  | S_IF_condition_THEN_stream =>
      Some (P_rule__IF_condition_THEN_stream,
            [Some SEMICOLON])
  | S_IF_condition_THEN_unflag =>
      Some (P_rule__IF_condition_THEN_unflag,
            [Some SEMICOLON])
  | S_FLAG_string => Some (P_flag__FLAG_string, [Some SEMICOLON])
  | S_MOVE_string => Some (P_move__MOVE_string, [Some SEMICOLON])
  | S_STREAM_string => Some (P_stream__STREAM_string, [Some SEMICOLON])
  | S_UNFLAG_string => Some (P_unflag__UNFLAG_string, [Some SEMICOLON])
  | _ => None
  end.

Section Semantic.
Context {RE : RegexpLib} {L : Type} {YL : yyLexer L}.

Definition yyerror (yylex : L) (msg : string) : semantic_result L :=
  Ret (inr (Error yylex msg)).

Definition yyval (yyVAL : yySymType) (yylex : L) : semantic_result L :=
  Ret (inl (yyVAL, yylex)).

(** [$4.Predicate = $2; $$ = $4] for each kind of rule; [$4] is a pointer
    and setting a field through a nil pointer panics. *)
Definition rule_of_move (yyVAL : yySymType) (v2 v4 : yySymType) (yylex : L)
  : semantic_result L :=
  match yyMoveRule v4 with
  | None => Panic
  | Some r =>
      yyval (set_Rule yyVAL
               (Some (rules.Move {| rules.move_Predicate := yyPredicate v2;
                                    rules.Mailbox := rules.Mailbox r;
                                    rules.move_messages := rules.move_messages r |})))
            yylex
  end.

Definition rule_of_flag (yyVAL : yySymType) (v2 v4 : yySymType) (yylex : L)
  : semantic_result L :=
  match yyFlagRule v4 with
  | None => Panic
  | Some r =>
      yyval (set_Rule yyVAL
               (Some (rules.Flag {| rules.flag_Predicate := yyPredicate v2;
                                    rules.flag_Flag := rules.flag_Flag r;
                                    rules.flag_messages := rules.flag_messages r |})))
            yylex
  end.

Definition rule_of_unflag (yyVAL : yySymType) (v2 v4 : yySymType) (yylex : L)
  : semantic_result L :=
  match yyUnflagRule v4 with
  | None => Panic
  | Some r =>
      yyval (set_Rule yyVAL
               (Some (rules.Unflag {| rules.unflag_Predicate := yyPredicate v2;
                                      rules.unflag_Flag := rules.unflag_Flag r;
                                      rules.unflag_messages := rules.unflag_messages r |})))
            yylex
  end.

Definition rule_of_stream (yyVAL : yySymType) (v2 v4 : yySymType) (yylex : L)
  : semantic_result L :=
  match yyStreamRule v4 with
  | None => Panic
  | Some r =>
      yyval (set_Rule yyVAL
               (Some (rules.Stream {| rules.stream_Predicate := yyPredicate v2;
                                      rules.Command := rules.Command r;
                                      rules.stream_messages := rules.stream_messages r |})))
            yylex
  end.

(** The code of [comparison: IDENTIFIER TILDE string]. *)
Definition comparison_tilde (yyVAL : yySymType) (field str : string) (yylex : L)
  : semantic_result L :=
  match regexp_Compile str with
  | Some err =>
      yyerror yylex ("malformed regex '" ++ str ++ "' in predicate: " ++ error_string err)
  | None =>
      match rules.NewFieldPredicate field (rules.Regexp str) with
      | Err err => yyerror yylex (error_string err)
      | Ok predicate => yyval (set_Predicate yyVAL (Some predicate)) yylex
      end
  end.

(** The code of [comparison: IDENTIFIER EQUALS string]. *)
Definition comparison_equals (yyVAL : yySymType) (field str : string) (yylex : L)
  : semantic_result L :=
  match rules.NewFieldPredicate field (rules.StringEqualsPredicate str) with
  | Err err => yyerror yylex (error_string err)
  | Ok predicate => yyval (set_Predicate yyVAL (Some predicate)) yylex
  end.

(** The code of [string: QUOTE]: the text between the quotes, in which
    first a backslash and a quote become a quote, then two backslashes
    become one. *)
Definition unquote (lit : string) : option string :=
  match strip_quotes lit with
  | None => None
  | Some body =>
      Some (ReplaceAll (ReplaceAll body (String "\"%char (String dquote EmptyString))
                                        (String dquote EmptyString))
                       "\\" "\")
  end.

(** The code of each production on [$1 ... $n]; [$$] starts as a copy of
    [$1].  A slot that a production reads as a rule or as a predicate
    holds one, so the other case, in which Go would go on with a nil
    value, is left as [Panic]; [Parse_returns] shows that no run gets
    there. *)
Definition semantic (p : production) (args : list yySymType) (yylex : L)
  : semantic_result L :=
  match p, args with
  | P_accept, _ => Panic
  | P_start__rules, [v1] => yyval v1 (set_result yylex (yyRules v1))
  | P_rules__rule_SEMICOLON, [v1; _] =>
      match yyRule v1 with
      | Some r => yyval (set_Rules v1 (yyRules v1 ++ [r])%list) yylex
      | None => Panic
      end
  | P_rules__rules_rule_SEMICOLON, [v1; v2; _] =>
      match yyRule v2 with
      | Some r => yyval (set_Rules v1 (yyRules v1 ++ [r])%list) yylex
      | None => Panic
      end
  | P_rule__IF_condition_THEN_move, [v1; v2; _; v4] => rule_of_move v1 v2 v4 yylex
  | P_rule__IF_condition_THEN_flag, [v1; v2; _; v4] => rule_of_flag v1 v2 v4 yylex
  | P_rule__IF_condition_THEN_unflag, [v1; v2; _; v4] => rule_of_unflag v1 v2 v4 yylex
  | P_rule__IF_condition_THEN_stream, [v1; v2; _; v4] => rule_of_stream v1 v2 v4 yylex
  | P_condition__comparison, [v1] => yyval (set_Predicate v1 (yyPredicate v1)) yylex
  | P_condition__condition_AND_condition, [v1; _; v3] =>
      match yyPredicate v1, yyPredicate v3 with
      | Some l, Some r => yyval (set_Predicate v1 (Some (rules.AndPredicate l r))) yylex
      | _, _ => Panic
      end
  | P_condition__condition_OR_condition, [v1; _; v3] =>
      match yyPredicate v1, yyPredicate v3 with
      | Some l, Some r => yyval (set_Predicate v1 (Some (rules.OrPredicate l r))) yylex
      | _, _ => Panic
      end
  | P_condition__NOT_condition, [v1; v2] =>
      match yyPredicate v2 with
      | Some q => yyval (set_Predicate v1 (Some (rules.NotPredicate q))) yylex
      | None => Panic
      end
  | P_condition__LPAREN_condition_RPAREN, [v1; v2; _] =>
      yyval (set_Predicate v1 (yyPredicate v2)) yylex
  | P_comparison__IDENTIFIER_TILDE_string, [v1; _; v3] =>
      comparison_tilde v1 (yyValue v1) (yyValue v3) yylex
  | P_comparison__IDENTIFIER_EQUALS_string, [v1; _; v3] =>
      comparison_equals v1 (yyValue v1) (yyValue v3) yylex
  | P_move__MOVE_string, [v1; v2] =>
      yyval (set_MoveRule v1 (Some (rules.NewMoveRule None (yyValue v2)))) yylex
  | P_flag__FLAG, [v1] =>
      yyval (set_FlagRule v1 (Some (rules.NewFlagRule None EmptyString))) yylex
  | P_flag__FLAG_string, [v1; v2] =>
      yyval (set_FlagRule v1 (Some (rules.NewFlagRule None (yyValue v2)))) yylex
  | P_unflag__UNFLAG, [v1] =>
      yyval (set_UnflagRule v1 (Some (rules.NewUnflagRule None EmptyString))) yylex
  | P_unflag__UNFLAG_string, [v1; v2] =>
      yyval (set_UnflagRule v1 (Some (rules.NewUnflagRule None (yyValue v2)))) yylex
  | P_stream__STREAM_string, [v1; v2] =>
      yyval (set_StreamRule v1 (Some (rules.NewStreamRule None (yyValue v2)))) yylex
  | P_list__string, [v1] | P_list__IDENTIFIER, [v1] =>
      yyval {| yyValue := yyValue v1; yyValues := (yyValues v1 ++ [yyValue v1])%list;
               yyRules := yyRules v1; yyRule := yyRule v1; yyMoveRule := yyMoveRule v1;
               yyFlagRule := yyFlagRule v1; yyUnflagRule := yyUnflagRule v1;
               yyStreamRule := yyStreamRule v1; yyPredicate := yyPredicate v1 |} yylex
  | P_list__list_string, [v1; v2] | P_list__list_IDENTIFIER, [v1; v2] =>
      yyval {| yyValue := yyValue v1; yyValues := (yyValues v1 ++ [yyValue v2])%list;
               yyRules := yyRules v1; yyRule := yyRule v1; yyMoveRule := yyMoveRule v1;
               yyFlagRule := yyFlagRule v1; yyUnflagRule := yyUnflagRule v1;
               yyStreamRule := yyStreamRule v1; yyPredicate := yyPredicate v1 |} yylex
  | P_string__QUOTE, [v1] =>
      match unquote (yyValue v1) with
      | Some str => yyval (set_Value v1 str) yylex
      | None => Panic
      end
  | _, _ => Panic
  end.

End Semantic.

Definition tables {RE : RegexpLib} : Tables :=
  {| parse.state := state; parse.nonterminal := nonterminal;
     parse.production := production;
     parse.lhs := lhs; parse.rhs := rhs; parse.precedence := precedence;
     parse.init := S_start; parse.shift := shift; parse.goto := goto;
     parse.complete := complete;
     parse.semantic := fun L _ => semantic |}.

End grammar_stream.

(** *** The grammar [parse/rules.y].  It has no token [STREAM]; over the
    terminals of the other grammar no state of it shifts that token. *)
Module grammar_rules_y.

Inductive nonterminal :=
| N_start | N_rules | N_rule | N_condition | N_comparison | N_move | N_flag | N_unflag.

(** The productions, named [P_<left-hand side>__<right-hand side>]. *)
Inductive production :=
| P_accept
| P_start__rules
| P_rules__rule_SEMICOLON
| P_rules__rules_rule_SEMICOLON
| P_rule__IF_condition_THEN_move
| P_rule__IF_condition_THEN_flag
| P_rule__IF_condition_THEN_unflag
| P_condition__comparison
| P_condition__condition_AND_condition
| P_condition__condition_OR_condition
| P_condition__NOT_condition
| P_condition__LPAREN_condition_RPAREN
| P_comparison__IDENTIFIER_TILDE_QUOTE
| P_comparison__IDENTIFIER_EQUALS_QUOTE
| P_move__MOVE_QUOTE
| P_flag__FLAG
| P_flag__FLAG_QUOTE
| P_unflag__UNFLAG
| P_unflag__UNFLAG_QUOTE.

Definition lhs (p : production) : option nonterminal :=
  match p with
  | P_accept => None
  | P_start__rules => Some N_start
  | P_rules__rule_SEMICOLON => Some N_rules
  | P_rules__rules_rule_SEMICOLON => Some N_rules
  | P_rule__IF_condition_THEN_move => Some N_rule
  | P_rule__IF_condition_THEN_flag => Some N_rule
  | P_rule__IF_condition_THEN_unflag => Some N_rule
  | P_condition__comparison => Some N_condition
  | P_condition__condition_AND_condition => Some N_condition
  | P_condition__condition_OR_condition => Some N_condition
  | P_condition__NOT_condition => Some N_condition
  | P_condition__LPAREN_condition_RPAREN => Some N_condition
  | P_comparison__IDENTIFIER_TILDE_QUOTE => Some N_comparison
  | P_comparison__IDENTIFIER_EQUALS_QUOTE => Some N_comparison
  | P_move__MOVE_QUOTE => Some N_move
  | P_flag__FLAG => Some N_flag
  | P_flag__FLAG_QUOTE => Some N_flag
  | P_unflag__UNFLAG => Some N_unflag
  | P_unflag__UNFLAG_QUOTE => Some N_unflag
  end.

Definition rhs (p : production) : list (terminal + nonterminal) :=
  match p with
  | P_accept => [inr N_start]
  | P_start__rules => [inr N_rules]
  | P_rules__rule_SEMICOLON => [inr N_rule; inl SEMICOLON]
  | P_rules__rules_rule_SEMICOLON => [inr N_rules; inr N_rule; inl SEMICOLON]
  | P_rule__IF_condition_THEN_move => [inl IF; inr N_condition; inl THEN; inr N_move]
  | P_rule__IF_condition_THEN_flag => [inl IF; inr N_condition; inl THEN; inr N_flag]
  | P_rule__IF_condition_THEN_unflag => [inl IF; inr N_condition; inl THEN; inr N_unflag]
  | P_condition__comparison => [inr N_comparison]
  | P_condition__condition_AND_condition => [inr N_condition; inl AND; inr N_condition]
  | P_condition__condition_OR_condition => [inr N_condition; inl OR; inr N_condition]
  | P_condition__NOT_condition => [inl NOT; inr N_condition]
  | P_condition__LPAREN_condition_RPAREN => [inl LPAREN; inr N_condition; inl RPAREN]
  | P_comparison__IDENTIFIER_TILDE_QUOTE => [inl IDENTIFIER; inl TILDE; inl QUOTE]
  | P_comparison__IDENTIFIER_EQUALS_QUOTE => [inl IDENTIFIER; inl EQUALS; inl QUOTE]
  | P_move__MOVE_QUOTE => [inl MOVE; inl QUOTE]
  | P_flag__FLAG => [inl FLAG]
  | P_flag__FLAG_QUOTE => [inl FLAG; inl QUOTE]
  | P_unflag__UNFLAG => [inl UNFLAG]
  | P_unflag__UNFLAG_QUOTE => [inl UNFLAG; inl QUOTE]
  end.

(** [%left AND OR] and, one level higher, [%right NOT] *)
Definition precedence (t : terminal) : option (nat * assoc) :=
  match t with
  | AND | OR => Some (1%nat, LeftAssoc)
  | NOT => Some (2%nat, RightAssoc)
  | _ => None
  end.

(** The states; the name of a state spells the symbols on the stack
    that lead to it. *)
Inductive state :=
| S_start | S_IF | S_rule | S_rules | S_accept | S_IDENTIFIER | S_LPAREN
| S_NOT | S_comparison | S_IF_condition | S_rule_SEMICOLON | S_rules_rule
| S_IDENTIFIER_EQUALS | S_IDENTIFIER_TILDE | S_LPAREN_condition
| S_NOT_condition | S_condition_AND | S_condition_OR | S_IF_condition_THEN
| S_rules_rule_SEMICOLON | S_IDENTIFIER_EQUALS_QUOTE
| S_IDENTIFIER_TILDE_QUOTE | S_LPAREN_condition_RPAREN
| S_condition_AND_condition | S_condition_OR_condition | S_FLAG | S_MOVE
| S_UNFLAG | S_IF_condition_THEN_flag | S_IF_condition_THEN_move
| S_IF_condition_THEN_unflag | S_FLAG_QUOTE | S_MOVE_QUOTE | S_UNFLAG_QUOTE.

(** The items of a state, without those that its closure adds: a
    production and the number of its symbols that have been seen. *)
Definition kernel (s : state) : list (production * nat) :=
  match s with
  | S_start => [(P_accept, 0%nat)]
  | S_IF =>
      [(P_rule__IF_condition_THEN_move, 1%nat);
       (P_rule__IF_condition_THEN_flag, 1%nat);
       (P_rule__IF_condition_THEN_unflag, 1%nat)]
  | S_rule => [(P_rules__rule_SEMICOLON, 1%nat)]
  | S_rules => [(P_start__rules, 1%nat); (P_rules__rules_rule_SEMICOLON, 1%nat)]
  | S_accept => [(P_accept, 1%nat)]
  | S_IDENTIFIER =>
      [(P_comparison__IDENTIFIER_TILDE_QUOTE, 1%nat);
       (P_comparison__IDENTIFIER_EQUALS_QUOTE, 1%nat)]
  | S_LPAREN => [(P_condition__LPAREN_condition_RPAREN, 1%nat)]
  | S_NOT => [(P_condition__NOT_condition, 1%nat)]
  | S_comparison => [(P_condition__comparison, 1%nat)]
  | S_IF_condition =>
      [(P_rule__IF_condition_THEN_move, 2%nat);
       (P_rule__IF_condition_THEN_flag, 2%nat);
       (P_rule__IF_condition_THEN_unflag, 2%nat);
       (P_condition__condition_AND_condition, 1%nat);
       (P_condition__condition_OR_condition, 1%nat)]
  | S_rule_SEMICOLON => [(P_rules__rule_SEMICOLON, 2%nat)]
  | S_rules_rule => [(P_rules__rules_rule_SEMICOLON, 2%nat)]
  | S_IDENTIFIER_EQUALS => [(P_comparison__IDENTIFIER_EQUALS_QUOTE, 2%nat)]
  | S_IDENTIFIER_TILDE => [(P_comparison__IDENTIFIER_TILDE_QUOTE, 2%nat)]
  | S_LPAREN_condition =>
      [(P_condition__condition_AND_condition, 1%nat);
       (P_condition__condition_OR_condition, 1%nat);
       (P_condition__LPAREN_condition_RPAREN, 2%nat)]
  | S_NOT_condition =>
      [(P_condition__condition_AND_condition, 1%nat);
       (P_condition__condition_OR_condition, 1%nat);
       (P_condition__NOT_condition, 2%nat)]
  | S_condition_AND => [(P_condition__condition_AND_condition, 2%nat)]
  | S_condition_OR => [(P_condition__condition_OR_condition, 2%nat)]
  | S_IF_condition_THEN =>
      [(P_rule__IF_condition_THEN_move, 3%nat);
       (P_rule__IF_condition_THEN_flag, 3%nat);
       (P_rule__IF_condition_THEN_unflag, 3%nat)]
  | S_rules_rule_SEMICOLON => [(P_rules__rules_rule_SEMICOLON, 3%nat)]
  | S_IDENTIFIER_EQUALS_QUOTE => [(P_comparison__IDENTIFIER_EQUALS_QUOTE, 3%nat)]
  | S_IDENTIFIER_TILDE_QUOTE => [(P_comparison__IDENTIFIER_TILDE_QUOTE, 3%nat)]
  | S_LPAREN_condition_RPAREN => [(P_condition__LPAREN_condition_RPAREN, 3%nat)]
  | S_condition_AND_condition =>
      [(P_condition__condition_AND_condition, 1%nat);
       (P_condition__condition_AND_condition, 3%nat);
       (P_condition__condition_OR_condition, 1%nat)]
  | S_condition_OR_condition =>
      [(P_condition__condition_AND_condition, 1%nat);
       (P_condition__condition_OR_condition, 1%nat);
       (P_condition__condition_OR_condition, 3%nat)]
  | S_FLAG => [(P_flag__FLAG, 1%nat); (P_flag__FLAG_QUOTE, 1%nat)]
  | S_MOVE => [(P_move__MOVE_QUOTE, 1%nat)]
  | S_UNFLAG => [(P_unflag__UNFLAG, 1%nat); (P_unflag__UNFLAG_QUOTE, 1%nat)]
  | S_IF_condition_THEN_flag => [(P_rule__IF_condition_THEN_flag, 4%nat)]
  | S_IF_condition_THEN_move => [(P_rule__IF_condition_THEN_move, 4%nat)]
  | S_IF_condition_THEN_unflag => [(P_rule__IF_condition_THEN_unflag, 4%nat)]
  | S_FLAG_QUOTE => [(P_flag__FLAG_QUOTE, 2%nat)]
  | S_MOVE_QUOTE => [(P_move__MOVE_QUOTE, 2%nat)]
  | S_UNFLAG_QUOTE => [(P_unflag__UNFLAG_QUOTE, 2%nat)]
  end.

Definition shift (s : state) (t : terminal) : option state :=
  match s, t with
  | S_start, IF => Some S_IF
  | S_IF, IDENTIFIER => Some S_IDENTIFIER
  | S_IF, LPAREN => Some S_LPAREN
  | S_IF, NOT => Some S_NOT
  | S_rule, SEMICOLON => Some S_rule_SEMICOLON
  | S_rules, IF => Some S_IF
  | S_IDENTIFIER, TILDE => Some S_IDENTIFIER_TILDE
  | S_IDENTIFIER, EQUALS => Some S_IDENTIFIER_EQUALS
  | S_LPAREN, IDENTIFIER => Some S_IDENTIFIER
  | S_LPAREN, LPAREN => Some S_LPAREN
  | S_LPAREN, NOT => Some S_NOT
  | S_NOT, IDENTIFIER => Some S_IDENTIFIER
  | S_NOT, LPAREN => Some S_LPAREN
  | S_NOT, NOT => Some S_NOT
  | S_IF_condition, THEN => Some S_IF_condition_THEN
  | S_IF_condition, AND => Some S_condition_AND
  | S_IF_condition, OR => Some S_condition_OR
  | S_rules_rule, SEMICOLON => Some S_rules_rule_SEMICOLON
  | S_IDENTIFIER_EQUALS, QUOTE => Some S_IDENTIFIER_EQUALS_QUOTE
  | S_IDENTIFIER_TILDE, QUOTE => Some S_IDENTIFIER_TILDE_QUOTE
  | S_LPAREN_condition, RPAREN => Some S_LPAREN_condition_RPAREN
  | S_LPAREN_condition, AND => Some S_condition_AND
  | S_LPAREN_condition, OR => Some S_condition_OR
  | S_NOT_condition, AND => Some S_condition_AND
  | S_NOT_condition, OR => Some S_condition_OR
  | S_condition_AND, IDENTIFIER => Some S_IDENTIFIER
  | S_condition_AND, LPAREN => Some S_LPAREN
  | S_condition_AND, NOT => Some S_NOT
  | S_condition_OR, IDENTIFIER => Some S_IDENTIFIER
  | S_condition_OR, LPAREN => Some S_LPAREN
  | S_condition_OR, NOT => Some S_NOT
  | S_IF_condition_THEN, MOVE => Some S_MOVE
  | S_IF_condition_THEN, FLAG => Some S_FLAG
  | S_IF_condition_THEN, UNFLAG => Some S_UNFLAG
  | S_condition_AND_condition, AND => Some S_condition_AND
  | S_condition_AND_condition, OR => Some S_condition_OR
  | S_condition_OR_condition, AND => Some S_condition_AND
  | S_condition_OR_condition, OR => Some S_condition_OR
  | S_FLAG, QUOTE => Some S_FLAG_QUOTE
  | S_MOVE, QUOTE => Some S_MOVE_QUOTE
  | S_UNFLAG, QUOTE => Some S_UNFLAG_QUOTE
  | _, _ => None
  end.

Definition goto (s : state) (A : nonterminal) : option state :=
  match s, A with
  | S_start, N_start => Some S_accept
  | S_start, N_rules => Some S_rules
  | S_start, N_rule => Some S_rule
  | S_IF, N_condition => Some S_IF_condition
  | S_IF, N_comparison => Some S_comparison
  | S_rules, N_rule => Some S_rules_rule
  | S_LPAREN, N_condition => Some S_LPAREN_condition
  | S_LPAREN, N_comparison => Some S_comparison
  | S_NOT, N_condition => Some S_NOT_condition
  | S_NOT, N_comparison => Some S_comparison
  | S_condition_AND, N_condition => Some S_condition_AND_condition
  | S_condition_AND, N_comparison => Some S_comparison
  | S_condition_OR, N_condition => Some S_condition_OR_condition
  | S_condition_OR, N_comparison => Some S_comparison
  | S_IF_condition_THEN, N_move => Some S_IF_condition_THEN_move
  | S_IF_condition_THEN, N_flag => Some S_IF_condition_THEN_flag
  | S_IF_condition_THEN, N_unflag => Some S_IF_condition_THEN_unflag
  | _, _ => None
  end.

Definition complete (s : state) : option (production * list (option terminal)) :=
  match s with
  | S_rules => Some (P_start__rules, [None])
  | S_accept => Some (P_accept, [None])
  | S_comparison =>
      Some (P_condition__comparison,
            [Some AND; Some OR; Some RPAREN; Some THEN])
  | S_rule_SEMICOLON => Some (P_rules__rule_SEMICOLON, [None; Some IF])
  | S_NOT_condition =>
      Some (P_condition__NOT_condition,
            [Some AND; Some OR; Some RPAREN; Some THEN])
  | S_rules_rule_SEMICOLON => Some (P_rules__rules_rule_SEMICOLON, [None; Some IF])
  | S_IDENTIFIER_EQUALS_QUOTE =>
      Some (P_comparison__IDENTIFIER_EQUALS_QUOTE,
            [Some AND; Some OR; Some RPAREN; Some THEN])
  | S_IDENTIFIER_TILDE_QUOTE =>
      Some (P_comparison__IDENTIFIER_TILDE_QUOTE,
            [Some AND; Some OR; Some RPAREN; Some THEN])
  | S_LPAREN_condition_RPAREN =>
      Some (P_condition__LPAREN_condition_RPAREN,
            [Some AND; Some OR; Some RPAREN; Some THEN])
  | S_condition_AND_condition =>
      Some (P_condition__condition_AND_condition,
            [Some AND; Some OR; Some RPAREN; Some THEN])
  | S_condition_OR_condition =>
      Some (P_condition__condition_OR_condition,
            [Some AND; Some OR; Some RPAREN; Some THEN])
  | S_FLAG => Some (P_flag__FLAG, [Some SEMICOLON])
  | S_UNFLAG => Some (P_unflag__UNFLAG, [Some SEMICOLON])
  | S_IF_condition_THEN_flag => Some (P_rule__IF_condition_THEN_flag, [Some SEMICOLON])
  | S_IF_condition_THEN_move => Some (P_rule__IF_condition_THEN_move, [Some SEMICOLON])
  | S_IF_condition_THEN_unflag =>
      Some (P_rule__IF_condition_THEN_unflag,
            [Some SEMICOLON])
  | S_FLAG_QUOTE => Some (P_flag__FLAG_QUOTE, [Some SEMICOLON])
  | S_MOVE_QUOTE => Some (P_move__MOVE_QUOTE, [Some SEMICOLON])
  | S_UNFLAG_QUOTE => Some (P_unflag__UNFLAG_QUOTE, [Some SEMICOLON])
  | _ => None
  end.

Section Semantic.
Context {RE : RegexpLib} {L : Type} {YL : yyLexer L}.

Definition yyerror (yylex : L) (msg : string) : semantic_result L :=
  Ret (inr (Error yylex msg)).

Definition yyval (yyVAL : yySymType) (yylex : L) : semantic_result L :=
  Ret (inl (yyVAL, yylex)).

(** [$4.Predicate = $2; $$ = $4] for each kind of rule; [$4] is a pointer
    and setting a field through a nil pointer panics. *)
Definition rule_of_move (yyVAL : yySymType) (v2 v4 : yySymType) (yylex : L)
  : semantic_result L :=
  match yyMoveRule v4 with
  | None => Panic
  | Some r =>
      yyval (set_Rule yyVAL
               (Some (rules.Move {| rules.move_Predicate := yyPredicate v2;
                                    rules.Mailbox := rules.Mailbox r;
                                    rules.move_messages := rules.move_messages r |})))
            yylex
  end.

Definition rule_of_flag (yyVAL : yySymType) (v2 v4 : yySymType) (yylex : L)
  : semantic_result L :=
  match yyFlagRule v4 with
  | None => Panic
  | Some r =>
      yyval (set_Rule yyVAL
               (Some (rules.Flag {| rules.flag_Predicate := yyPredicate v2;
                                    rules.flag_Flag := rules.flag_Flag r;
                                    rules.flag_messages := rules.flag_messages r |})))
            yylex
  end.

Definition rule_of_unflag (yyVAL : yySymType) (v2 v4 : yySymType) (yylex : L)
  : semantic_result L :=
  match yyUnflagRule v4 with
  | None => Panic
  | Some r =>
      yyval (set_Rule yyVAL
               (Some (rules.Unflag {| rules.unflag_Predicate := yyPredicate v2;
                                      rules.unflag_Flag := rules.unflag_Flag r;
                                      rules.unflag_messages := rules.unflag_messages r |})))
            yylex
  end.

(** The code of [comparison: IDENTIFIER TILDE QUOTE]; [lit] is [$3], and
    [$3[1:len($3)-1]] panics on a text shorter than two bytes. *)
Definition comparison_tilde (yyVAL : yySymType) (field lit : string) (yylex : L)
  : semantic_result L :=
  match strip_quotes lit with
  | None => Panic
  | Some str =>
      match regexp_Compile str with
      | Some err =>
          yyerror yylex ("malformed regex '" ++ str ++ "' in predicate: "
                         ++ error_string err)
      | None =>
          match rules.NewFieldPredicate field (rules.Regexp str) with
          | Err err => yyerror yylex (error_string err)
          | Ok predicate => yyval (set_Predicate yyVAL (Some predicate)) yylex
          end
      end
  end.

(** The code of [comparison: IDENTIFIER EQUALS QUOTE]. *)
Definition comparison_equals (yyVAL : yySymType) (field lit : string) (yylex : L)
  : semantic_result L :=
  match strip_quotes lit with
  | None => Panic
  | Some str =>
      match rules.NewFieldPredicate field (rules.StringEqualsPredicate str) with
      | Err err => yyerror yylex (error_string err)
      | Ok predicate => yyval (set_Predicate yyVAL (Some predicate)) yylex
      end
  end.

(** The code of each production on [$1 ... $n]; [$$] starts as a copy of
    [$1].  As in the grammar with [stream], a slot that is read as a rule
    or as a predicate holds one ([Parse_rules_y_returns]). *)
Definition semantic (p : production) (args : list yySymType) (yylex : L)
  : semantic_result L :=
  match p, args with
  | P_accept, _ => Panic
  | P_start__rules, [v1] => yyval v1 (set_result yylex (yyRules v1))
  | P_rules__rule_SEMICOLON, [v1; _] =>
      match yyRule v1 with
      | Some r => yyval (set_Rules v1 (yyRules v1 ++ [r])%list) yylex
      | None => Panic
      end
  | P_rules__rules_rule_SEMICOLON, [v1; v2; _] =>
      match yyRule v2 with
      | Some r => yyval (set_Rules v1 (yyRules v1 ++ [r])%list) yylex
      | None => Panic
      end
  | P_rule__IF_condition_THEN_move, [v1; v2; _; v4] => rule_of_move v1 v2 v4 yylex
  | P_rule__IF_condition_THEN_flag, [v1; v2; _; v4] => rule_of_flag v1 v2 v4 yylex
  | P_rule__IF_condition_THEN_unflag, [v1; v2; _; v4] => rule_of_unflag v1 v2 v4 yylex
  | P_condition__comparison, [v1] => yyval (set_Predicate v1 (yyPredicate v1)) yylex
  | P_condition__condition_AND_condition, [v1; _; v3] =>
      match yyPredicate v1, yyPredicate v3 with
      | Some l, Some r => yyval (set_Predicate v1 (Some (rules.AndPredicate l r))) yylex
      | _, _ => Panic
      end
  | P_condition__condition_OR_condition, [v1; _; v3] =>
      match yyPredicate v1, yyPredicate v3 with
      | Some l, Some r => yyval (set_Predicate v1 (Some (rules.OrPredicate l r))) yylex
      | _, _ => Panic
      end
  | P_condition__NOT_condition, [v1; v2] =>
      match yyPredicate v2 with
      | Some q => yyval (set_Predicate v1 (Some (rules.NotPredicate q))) yylex
      | None => Panic
      end
  | P_condition__LPAREN_condition_RPAREN, [v1; v2; _] =>
      yyval (set_Predicate v1 (yyPredicate v2)) yylex
  | P_comparison__IDENTIFIER_TILDE_QUOTE, [v1; _; v3] =>
      comparison_tilde v1 (yyValue v1) (yyValue v3) yylex
  | P_comparison__IDENTIFIER_EQUALS_QUOTE, [v1; _; v3] =>
      comparison_equals v1 (yyValue v1) (yyValue v3) yylex
  | P_move__MOVE_QUOTE, [v1; v2] =>
      match strip_quotes (yyValue v2) with
      | Some str => yyval (set_MoveRule v1 (Some (rules.NewMoveRule None str))) yylex
      | None => Panic
      end
  | P_flag__FLAG, [v1] =>
      yyval (set_FlagRule v1 (Some (rules.NewFlagRule None EmptyString))) yylex
  | P_flag__FLAG_QUOTE, [v1; v2] =>
      match strip_quotes (yyValue v2) with
      | Some str => yyval (set_FlagRule v1 (Some (rules.NewFlagRule None str))) yylex
      | None => Panic
      end
  | P_unflag__UNFLAG, [v1] =>
      yyval (set_UnflagRule v1 (Some (rules.NewUnflagRule None EmptyString))) yylex
  | P_unflag__UNFLAG_QUOTE, [v1; v2] =>
      match strip_quotes (yyValue v2) with
      | Some str => yyval (set_UnflagRule v1 (Some (rules.NewUnflagRule None str))) yylex
      | None => Panic
      end
  | _, _ => Panic
  end.

End Semantic.

Definition tables {RE : RegexpLib} : Tables :=
  {| parse.state := state; parse.nonterminal := nonterminal;
     parse.production := production;
     parse.lhs := lhs; parse.rhs := rhs; parse.precedence := precedence;
     parse.init := S_start; parse.shift := shift; parse.goto := goto;
     parse.complete := complete;
     parse.semantic := fun L _ => semantic |}.

End grammar_rules_y.

(** *** [Parse] *)

Section Parse.
Context {RE : RegexpLib} {XE : SyntaxErrors}.

(** A shift takes a token, which takes at least one byte, and there are
    no more than two reductions for each shift and one at the end, so
    this many steps are enough for [yyParse] (lemma [yyParse_fuel]). *)
Definition parse_fuel (input : string) : nat := (4 * len input + 8)%nat.

(** [Parser.Parse] on the parser that [Parse] builds over the bytes of
    its input; [G] is the grammar that goyacc has been run on. *)
Definition Parse_with (G : Tables) (input : string)
  : option (outcome (list rules.Rule * option error)) :=
  let lex := NewLexer input in
  let parse := NewParser lex in
  match yyParse G (parse_fuel input) parse with
  | None => None
  | Some Panic => Some Panic
  | Some (Ret (_, p)) =>
      Some (Ret (match err p with
                 | Some e => ([], Some e)
                 | None => (result p, None)
                 end))
  end.

(** [Parse] of the package with the grammar that has the stream rule,
    the one that [tokenNumbers] is written for. *)
Definition Parse (input : string) : option (outcome (list rules.Rule * option error)) :=
  Parse_with grammar_stream.tables input.

End Parse.

End parse.

(** ** Worlds to evaluate examples in *)

(** A regular-expression engine for examples: it compiles every pattern,
    and matches as Go does for a pattern without metacharacters, that is
    when the text contains the pattern. *)
Fixpoint contains (s pattern : string) : bool :=
  String.prefix pattern s ||
  match s with
  | EmptyString => false
  | String _ s' => contains s' pattern
  end.

Definition substring_regexp : RegexpLib :=
  {| regexp_Compile := fun _ => None; regexp_MatchString := fun pattern s => contains s pattern |}.

(** Syntax errors without the token and the state. *)
Definition plain_errors : parse.SyntaxErrors :=
  {| parse.yyXError := fun _ _ _ => "syntax error" |}.

Definition text_part : mail.Part :=
  {| mail.PartHeader := {[ "Content-Type" := ["text/plain"] ]};
     mail.PartBody := "hello";
     mail.PartQuotedPrintable := false |}.

Definition html_part : mail.Part :=
  {| mail.PartHeader := {[ "Content-Type" := ["text/html"];
                           "Content-Transfer-Encoding" := ["base64"] ]};
     mail.PartBody := "PGI+aGVsbG88L2I+";
     mail.PartQuotedPrintable := false |}.

(** A part as it stands in a body. *)
Definition raw_part (part : mail.Part) : mail.Header * string :=
  (mail.PartHeader part, mail.PartBody part).

(** A world in which the mailbox accepts every request and has nothing to
    fetch, a header value is its own media type, every multipart body has
    a plain part and an HTML part, and the sink answers every post with
    status 500. *)
Definition example_world : World :=
  {| client_UidMove := fun _ _ => None;
     client_UidStore := fun _ _ _ => None;
     client_UidFetch := fun _ _ => ([], None);
     mail_ReadMessage := fun _ => Err (Errorf "malformed header");
     mime_ParseMediaType := fun v =>
       if bool_decide (v = EmptyString) then Err (Errorf "mime: no media type")
       else Ok (v, ∅);
     multipart_raw := fun _ _ => [raw_part text_part; raw_part html_part];
     multipart_end := fun _ _ => Errorf "EOF";
     header_Date := fun _ => Err (Errorf "mail: header not in message");
     date_Format := fun date _ => date;
     mime_DecodeHeader := fun v => Ok v;
     os_Environ := [];
     cmd_Run := fun _ _ _ => None;
     http_NewRequest := fun _ => None;
     http_Do := fun _ _ _ => Ok 500 |}.

(** * Specifications *)

(** ** The rule engine *)

(** A step in the life of a stream rule that keeps a [done] set: the
    match step on one message, or the action step in some world.  A scan
    is a sequence of match steps followed by an action step. *)
Inductive stream_step {RE : RegexpLib} : rules_http.StreamRule -> rules_http.StreamRule -> Prop :=
| step_message r msg r' :
    rules_http.Message r msg = Ret r' -> stream_step r r'
| step_action (W : World) r :
    stream_step r (after (rules_http.Action r)).

(** C1 in the words of the specification, for a stream rule that is
    given by its pending set, its match step and its action step.  The
    done set of the specification holds what the action passes have
    taken from the pending set so far. *)
Section AtMostOnce.
Context {R : Type} (pending : R -> gset N)
  (message : R -> imap.Message -> outcome R) (action : R -> R).

(** The rule and the done set after match steps ([Some msg]) and action
    passes ([None]), in order; [None] when a match step panics. *)
Fixpoint passes (r : R) (done : gset N) (steps : list (option imap.Message))
  : option (R * gset N) :=
  match steps with
  | [] => Some (r, done)
  | Some msg :: rest =>
      match message r msg with
      | Ret r' => passes r' done rest
      | Panic => None
      end
  | None :: rest => passes (action r) (done ∪ pending r) rest
  end.

(** After any steps, no match step adds to the pending set an identifier
    that is in the done set. *)
Definition at_most_one_attempt (r0 : R) : Prop :=
  forall steps r done msg r',
    passes r0 ∅ steps = Some (r, done) ->
    message r msg = Ret r' ->
    forall uid, uid ∈ pending r' -> uid ∉ pending r -> uid ∉ done.

End AtMostOnce.

Definition deal_predicate : rules.Predicate :=
  rules.FieldPredicate "subject" (rules.StringEqualsPredicate "Deal!").

(** The identifiers that a mailbox request names. *)
Definition request_msgs (q : request) : gset N :=
  match q with
  | UidMove msgs _ | UidStore msgs _ _ _ | UidFetch msgs _ => msgs
  end.

(** The action step as the specification words it for every rule: the
    pending set is swapped for an empty one and nothing else of the rule
    changes; an empty set ends the step with success and no request; any
    other set leads to exactly one request, a mutation, for the whole
    set. *)
Definition action_contract {RE : RegexpLib} {W : World} (r : rules.Rule) : Prop :=
  let a := rules.Action r in
  after a = rules.with_pending r ∅ /\
  (rules.pending r = ∅ -> events a = [] /\ returned a = Ret None) /\
  (rules.pending r <> ∅ ->
   exists q, requests_of (events a) = [q] /\ is_mutation q = true /\
             request_msgs q = rules.pending r).

(** What a stream rule does instead: one fetch of the whole set, and no
    mutation. *)
Definition stream_action_contract {RE : RegexpLib} {W : World} (r : rules.Rule) : Prop :=
  let a := rules.Action r in
  after a = rules.with_pending r ∅ /\
  (rules.pending r = ∅ -> events a = [] /\ returned a = Ret None) /\
  (rules.pending r <> ∅ ->
   exists items, requests_of (events a) = [UidFetch (rules.pending r) items]).

Definition is_stream (r : rules.Rule) : bool :=
  match r with rules.Stream _ => true | _ => false end.

(** A stream rule with one pending message. *)
Definition pending_stream_rule : rules.Rule :=
  rules.Stream {| rules.stream_Predicate := None; rules.Command := "cat";
                  rules.stream_messages := {[ 1%N ]} |}.

(** The reader that [messageMIME] returns for a part that it has found. *)
Definition decoded (part : mail.Part) : mail.Reader :=
  let enc := ToLower (mail.Get (mail.PartHeader part) "Content-Transfer-Encoding") in
  if bool_decide (enc = "base64") then mail.Base64Decoder part
  else if bool_decide (enc = "quoted-printable") then mail.QuotedPrintableReader part
  else mail.PartReader part.

(** A part whose content type parses and is not [contentType]. *)
Definition other_part {W : World} (contentType : string) (part : mail.Part) : Prop :=
  exists mediaType params,
    mime_ParseMediaType (mail.Get (mail.PartHeader part) "Content-Type")
    = Ok (mediaType, params) /\ mediaType <> contentType.







Definition multipart_message : mail.Message :=
  {| mail.Header_ := {[ "Content-Type" := ["multipart/alternative"] ]};
     mail.Body := "..." |}.


Definition flagged_message : imap.Message :=
  {| imap.SeqNum := 1%N; imap.Uid := 7%N;
     imap.Envelope_ := Some {| imap.To := []; imap.From := []; imap.Subject := "Deal!" |};
     imap.Flags := ["\Seen"; "x"];
     imap.Body := [] |}.

Definition fetched_message : imap.Message :=
  {| imap.SeqNum := 1%N; imap.Uid := 7%N; imap.Envelope_ := None; imap.Flags := [];
     imap.Body := [(EmptyString, Some "Subject: hi")] |}.

Definition archive_rule : rules.Rule :=
  rules.Move {| rules.move_Predicate := None; rules.Mailbox := "Archive";
                rules.move_messages := {[ 1%N; 2%N ]} |}.

Definition rfc822_rule : rules_http.StreamRule :=
  {| rules_http.Predicate_ := None; rules_http.Content := "rfc822";
     rules_http.URL := "http://sink"; rules_http.messages := ∅; rules_http.done := ∅ |}.

(** ** The rule language *)

(** A text between double quotes. *)
Definition quoted (s : string) : string := String dquote (s ++ String dquote EmptyString).

(** [if a = "x" or b = "y" and c = "z" then flag;] for field names [a],
    [b] and [c]. *)
Definition grouping_text (a b c : string) : string :=
  "if " ++ a ++ " = " ++ quoted "x" ++ " or " ++ b ++ " = " ++ quoted "y"
  ++ " and " ++ c ++ " = " ++ quoted "z" ++ " then flag;".

(** The rule that the text should give: flag, with the default flag,
    when [(a or b) and c]. *)
Definition grouping_rule (a b c : string) : rules.Rule :=
  rules.Flag
    {| rules.flag_Predicate :=
         Some (rules.AndPredicate
                 (rules.OrPredicate
                    (rules.FieldPredicate a (rules.StringEqualsPredicate "x"))
                    (rules.FieldPredicate b (rules.StringEqualsPredicate "y")))
                 (rules.FieldPredicate c (rules.StringEqualsPredicate "z")));
       rules.flag_Flag := imap.FlaggedFlag;
       rules.flag_messages := ∅ |}.

(** The field names that [NewFieldPredicate] accepts. *)
Definition known_field (field : string) : Prop :=
  field = "to" \/ field = "from" \/ field = "subject".

(** [if to = "x" then flag; 1 if from = "y" then flag;] *)
Definition two_rules_and_a_number : string :=
  "if to = " ++ quoted "x" ++ " then flag; 1 if from = " ++ quoted "y" ++ " then flag;".

Definition flag_rule (field lit flag : string) : rules.Rule :=
  rules.Flag
    {| rules.flag_Predicate :=
         Some (rules.FieldPredicate field (rules.StringEqualsPredicate lit));
       rules.flag_Flag := flag; rules.flag_messages := ∅ |}.

(** The bytes ["a], NUL, [b"]. *)
Definition quote_with_nul : string :=
  String dquote ("a" ++ String nul ("b" ++ String dquote EmptyString)).

(** [if subject = "a\\b" then flag;], a backslash escaped in the string. *)
Definition escaped_backslash_text : string :=
  "if subject = " ++ quoted "a\\b" ++ " then flag;".

(** ** The parser over a list of tokens *)

Import parse.

(** A lexer that hands out the tokens of a list, each with its text.
    After the last one it returns [-1]; [src_fails] tells whether it
    reports a lexing error then, as [Parser.Lex] does on an error token. *)
Record TokenSource := {
  toks : list (terminal * string);
  src_fails : bool;
  src_result : list rules.Rule;
  src_err : option error
}.

Definition source (ts : list (terminal * string)) (fails : bool) : TokenSource :=
  {| toks := ts; src_fails := fails; src_result := []; src_err := None |}.

Definition TokenSource_Lex (s : TokenSource) (lval : yySymType)
  : lexcode * yySymType * TokenSource :=
  match toks s with
  | (t, v) :: rest =>
      (parse.TokenNumberOf t, parse.set_Value lval v,
       {| toks := rest; src_fails := src_fails s; src_result := src_result s;
          src_err := src_err s |})
  | [] =>
      (parse.LexInt (-1), lval,
       {| toks := []; src_fails := src_fails s; src_result := src_result s;
          src_err := if src_fails s then Some (Errorf "lexing error: ") else src_err s |})
  end.

#[global] Instance TokenSource_yyLexer : parse.yyLexer TokenSource := {
  parse.Lex := TokenSource_Lex;
  parse.Error s msg :=
    {| toks := toks s; src_fails := src_fails s; src_result := src_result s;
       src_err := Some (Errorf msg) |};
  parse.set_result s rs :=
    {| toks := toks s; src_fails := src_fails s; src_result := rs;
       src_err := src_err s |}
}.

(** What [Parse] makes of the lexer that [yyParse] leaves. *)
Definition source_outcome (s : TokenSource) : list rules.Rule * option error :=
  match src_err s with
  | Some e => ([], Some e)
  | None => (src_result s, None)
  end.

(** The tokens that [Parser.Lex] hands to the parser, up to the first
    return value that is not a token number, and whether the parser has
    an error then. *)
Fixpoint drain (fuel : nat) (p : parse.Parser)
  : option (list (terminal * string) * bool) :=
  match fuel with
  | O => None
  | S fuel' =>
      let '(n, lval, p') := parse.Parser_Lex p parse.yyZero in
      match n with
      | parse.TokenNumberOf t =>
          match drain fuel' p' with
          | Some (ts, fails) => Some ((t, parse.yyValue lval) :: ts, fails)
          | None => None
          end
      | parse.LexInt _ => Some ([], bool_decide (parse.err p' <> None))
      end
  end.

(** The tokens of an input text. *)
Definition lex_all (input : string) : option (list (terminal * string) * bool) :=
  drain (S (len input)) (parse.NewParser (parse.NewLexer input)).

(** *** Concrete syntax *)

Inductive cmp_op := OpTilde | OpEquals.

(** A condition as it is written: comparisons, [and], [or], [not] and
    parentheses.  A comparison keeps the text of its quoted string, with
    the quotes. *)
Inductive cond :=
| CCmp (field : string) (op : cmp_op) (lit : string)
| CAnd (l r : cond)
| COr (l r : cond)
| CNot (c : cond)
| CParen (c : cond).

Inductive action_syntax :=
| AMove (lit : string)
| AFlag (lit : option string)
| AUnflag (lit : option string)
| AStream (lit : string).

Definition rule_syntax : Type := cond * action_syntax.

(** A condition that is not an [and] or an [or] at its top. *)
Definition is_unary (c : cond) : bool :=
  match c with
  | CAnd _ _ | COr _ _ => false
  | _ => true
  end.

(** The way a chain of operators without parentheses is grouped when
    [and] and [or] share one level and associate to the left, and [not]
    binds tighter: the right operand of [and] and [or], and the operand of
    [not], is not an [and] or an [or]. *)
Fixpoint flat (c : cond) : bool :=
  match c with
  | CCmp _ _ _ => true
  | CAnd l r | COr l r => flat l && flat r && is_unary r
  | CNot c => flat c && is_unary c
  | CParen c => flat c
  end.

(** The tokens of a condition, of an action and of a rule file.  The text
    of a keyword or operator token plays no role in the parser; it is
    written as the lexer gives it. *)
Definition op_token (op : cmp_op) : terminal * string :=
  match op with
  | OpTilde => (TILDE, "~")
  | OpEquals => (EQUALS, "=")
  end.

Fixpoint cond_tokens (c : cond) : list (terminal * string) :=
  match c with
  | CCmp field op lit => [(IDENTIFIER, field); op_token op; (QUOTE, lit)]
  | CAnd l r => cond_tokens l ++ (AND, "and") :: cond_tokens r
  | COr l r => cond_tokens l ++ (OR, "or") :: cond_tokens r
  | CNot c => (NOT, "not") :: cond_tokens c
  | CParen c => (LPAREN, "(") :: cond_tokens c ++ [(RPAREN, ")")]
  end%list.

Definition action_tokens (a : action_syntax) : list (terminal * string) :=
  match a with
  | AMove lit => [(MOVE, "move"); (QUOTE, lit)]
  | AFlag None => [(FLAG, "flag")]
  | AFlag (Some lit) => [(FLAG, "flag"); (QUOTE, lit)]
  | AUnflag None => [(UNFLAG, "unflag")]
  | AUnflag (Some lit) => [(UNFLAG, "unflag"); (QUOTE, lit)]
  | AStream lit => [(STREAM, "stream"); (QUOTE, lit)]
  end.

Definition rule_tokens (r : rule_syntax) : list (terminal * string) :=
  ((IF, "if") :: cond_tokens (fst r) ++ (THEN, "then") :: action_tokens (snd r)
   ++ [(SEMICOLON, ";")])%list.

Definition file_tokens (f : list rule_syntax) : list (terminal * string) :=
  concat (map rule_tokens f).

(** *** What the code of the productions makes of the concrete syntax.
    [unq] is the way the grammar reads a quoted string: [unquote] for the
    grammar with [string], [strip_quotes] for [rules.y]. *)
Section Denote.
Context {RE : RegexpLib} (unq : string -> option string).

Definition denote_cmp (field : string) (op : cmp_op) (lit : string)
  : option rules.Predicate :=
  match unq lit with
  | None => None
  | Some str =>
      match op with
      | OpTilde =>
          match regexp_Compile str, rules.NewFieldPredicate field (rules.Regexp str) with
          | None, Ok predicate => Some predicate
          | _, _ => None
          end
      | OpEquals =>
          match rules.NewFieldPredicate field (rules.StringEqualsPredicate str) with
          | Ok predicate => Some predicate
          | Err _ => None
          end
      end
  end.

Fixpoint denote_cond (c : cond) : option rules.Predicate :=
  match c with
  | CCmp field op lit => denote_cmp field op lit
  | CAnd l r =>
      match denote_cond l, denote_cond r with
      | Some p, Some q => Some (rules.AndPredicate p q)
      | _, _ => None
      end
  | COr l r =>
      match denote_cond l, denote_cond r with
      | Some p, Some q => Some (rules.OrPredicate p q)
      | _, _ => None
      end
  | CNot c =>
      match denote_cond c with
      | Some p => Some (rules.NotPredicate p)
      | None => None
      end
  | CParen c => denote_cond c
  end.

Definition denote_rule (r : rule_syntax) : option rules.Rule :=
  match denote_cond (fst r) with
  | None => None
  | Some p =>
      match snd r with
      | AMove lit =>
          match unq lit with
          | Some str =>
              Some (rules.Move {| rules.move_Predicate := Some p; rules.Mailbox := str;
                                  rules.move_messages := ∅ |})
          | None => None
          end
      | AFlag None =>
          Some (rules.Flag {| rules.flag_Predicate := Some p;
                              rules.flag_Flag := imap.FlaggedFlag;
                              rules.flag_messages := ∅ |})
      | AFlag (Some lit) =>
          match unq lit with
          | Some str =>
              Some (rules.Flag
                      {| rules.flag_Predicate := Some p;
                         rules.flag_Flag := rules.flag_Flag (rules.NewFlagRule None str);
                         rules.flag_messages := ∅ |})
          | None => None
          end
      | AUnflag None =>
          Some (rules.Unflag {| rules.unflag_Predicate := Some p;
                                rules.unflag_Flag := imap.FlaggedFlag;
                                rules.unflag_messages := ∅ |})
      | AUnflag (Some lit) =>
          match unq lit with
          | Some str =>
              Some (rules.Unflag
                      {| rules.unflag_Predicate := Some p;
                         rules.unflag_Flag :=
                           rules.unflag_Flag (rules.NewUnflagRule None str);
                         rules.unflag_messages := ∅ |})
          | None => None
          end
      | AStream lit =>
          match unq lit with
          | Some str =>
              Some (rules.Stream {| rules.stream_Predicate := Some p;
                                    rules.Command := str;
                                    rules.stream_messages := ∅ |})
          | None => None
          end
      end
  end.

Fixpoint denote_file (f : list rule_syntax) : option (list rules.Rule) :=
  match f with
  | [] => Some []
  | r :: f' =>
      match denote_rule r, denote_file f' with
      | Some r', Some rs => Some (r' :: rs)
      | _, _ => None
      end
  end.

End Denote.

(** A rule file in which every condition is grouped the flat way. *)
Definition flat_file (f : list rule_syntax) : Prop :=
  Forall (fun r => flat (fst r) = true) f.

Definition uses_stream (r : rule_syntax) : bool :=
  match snd r with AStream _ => true | _ => false end.

(** *** Runs of the parser *)

(** The value that the parser pushes for a token with text [v]: [Lex]
    fills the field [Value] of [yylval], whose other fields stay zero. *)
Definition tokval (v : string) : yySymType := set_Value yyZero v.

Definition with_toks (s : TokenSource) (ts : list (terminal * string)) : TokenSource :=
  {| toks := ts; src_fails := src_fails s; src_result := src_result s;
     src_err := src_err s |}.

(** The source after it has returned [-1]. *)
Definition at_end (s : TokenSource) : TokenSource :=
  {| toks := []; src_fails := src_fails s; src_result := src_result s;
     src_err := if src_fails s then Some (Errorf "lexing error: ") else src_err s |}.

Definition cfg (G : Tables) (stk : list (state G * yySymType))
    (yychar : option (option terminal)) (lval : yySymType) (src : TokenSource)
  : yyconfig G :=
  {| yyS := stk; yychar := yychar; yylval := lval; yylex := src |}.

(** [yyParse] returns [out] from the variables [c], with enough fuel. *)
Definition reaches {XE : SyntaxErrors} {G : Tables} {L : Type} {YL : yyLexer L}
    (c : yyconfig G) (out : outcome (Z * L)) : Prop :=
  exists n, yyloop G n c = Some out.

(** The lookaheads that can follow a condition. *)
Definition cond_follow (la : terminal) : bool :=
  match la with
  | AND | OR | RPAREN | THEN => true
  | _ => false
  end.

(** *** The states of the grammar with [stream] *)

(** The states in which a condition can begin, and those among them in
    which it can go on with [and] and [or]. *)
Definition gs_cond_start (s : grammar_stream.state) : bool :=
  match s with
  | grammar_stream.S_IF | grammar_stream.S_LPAREN | grammar_stream.S_NOT
  | grammar_stream.S_condition_AND | grammar_stream.S_condition_OR => true
  | _ => false
  end.

Definition gs_expr_start (s : grammar_stream.state) : bool :=
  match s with
  | grammar_stream.S_IF | grammar_stream.S_LPAREN => true
  | _ => false
  end.

(** The state of the source after the parser has read all of it and has
    set its result. *)
Definition finished (src : TokenSource) (rs : list rules.Rule) : TokenSource :=
  set_result (at_end (with_toks src [])) rs.

(** *** The parser on [Parser.Lex] and on a list of tokens *)

(** What the code of a production does with the lexer: nothing, a call
    of [Error] followed by [return -1], or the assignment of the result. *)
Inductive sem_shape :=
| ShPanic
| ShError (msg : string)
| ShVal (yyVAL : yySymType)
| ShResult (yyVAL : yySymType) (rs : list rules.Rule).

Definition run_shape {L : Type} {YL : yyLexer L} (sh : sem_shape) (yylex : L)
  : semantic_result L :=
  match sh with
  | ShPanic => Panic
  | ShError msg => Ret (inr (Error yylex msg))
  | ShVal yyVAL => Ret (inl (yyVAL, yylex))
  | ShResult yyVAL rs => Ret (inl (yyVAL, set_result yylex rs))
  end.

(** The code of the productions treats every lexer alike. *)
Definition uniform (G : Tables) : Prop :=
  forall (p : production G) (args : list yySymType),
  exists sh, forall (L : Type) (YL : yyLexer L) (yylex : L),
    semantic G L YL p args yylex = run_shape sh yylex.

(** A parser and a source that will hand out the same tokens and that
    hold the same result, neither with an error. *)
Definition same_stream (p : Parser) (s : TokenSource) : Prop :=
  err p = None /\ src_err s = None /\ result p = src_result s /\
  exists n, drain n p = Some (toks s, src_fails s).

(** A parser and a source that hold the same result, or both an error. *)
Definition same_outcome (p : Parser) (s : TokenSource) : Prop :=
  (err p = None <-> src_err s = None) /\
  (err p = None -> result p = src_result s).

Definition same_return (o1 : option (outcome (Z * Parser)))
    (o2 : option (outcome (Z * TokenSource))) : Prop :=
  match o1, o2 with
  | None, None => True
  | Some Panic, Some Panic => True
  | Some (Ret (n1, p)), Some (Ret (n2, s)) => n1 = n2 /\ same_outcome p s
  | _, _ => False
  end.

(** The variables of two runs that go the same way.  Once the end of the
    input has been read, [yylval] is not looked at any more. *)
Definition same_config {G : Tables} (c1 : yyconfig G (L := Parser))
    (c2 : yyconfig G (L := TokenSource)) : Prop :=
  yyS G c1 = yyS G c2 /\ yychar G c1 = yychar G c2 /\
  match yychar G c1 with
  | Some None => same_outcome (yylex G c1) (yylex G c2)
  | _ => yylval G c1 = yylval G c2 /\ same_stream (yylex G c1) (yylex G c2)
  end.

(** *** Termination of the parser *)

(** The tokens that have not been shifted. *)
Definition tokens_left {G : Tables} (c : yyconfig G (L := TokenSource)) : nat :=
  (List.length (toks (yylex G c))
   + match yychar G c with Some (Some _) => 1 | _ => 0 end)%nat.

(** A measure that every turn of the loop makes smaller: a shift takes a
    token, a reduction of a production with two symbols or more makes the
    stack shorter, and a reduction of a production with one symbol leads
    from a state of rank 0 to a state of rank 1. *)
Definition measure {G : Tables} (rank : state G -> nat)
    (c : yyconfig G (L := TokenSource)) : nat :=
  (4 * tokens_left c + 2 * List.length (yyS G c)
   + match yyS G c with
     | (s, _) :: _ => 1 - rank s
     | [] => 0
     end)%nat.

Definition gs_rank (s : grammar_stream.state) : nat :=
  match s with
  | grammar_stream.S_accept
  | grammar_stream.S_IF_condition | grammar_stream.S_LPAREN_condition
  | grammar_stream.S_NOT_condition
  | grammar_stream.S_condition_AND_condition | grammar_stream.S_condition_OR_condition
  | grammar_stream.S_IF_condition_THEN_flag | grammar_stream.S_IF_condition_THEN_unflag
  | grammar_stream.S_IDENTIFIER_TILDE_string | grammar_stream.S_IDENTIFIER_EQUALS_string
  | grammar_stream.S_FLAG_string | grammar_stream.S_MOVE_string
  | grammar_stream.S_STREAM_string | grammar_stream.S_UNFLAG_string => 1%nat
  | _ => 0%nat
  end.

Definition gy_rank (s : grammar_rules_y.state) : nat :=
  match s with
  | grammar_rules_y.S_accept
  | grammar_rules_y.S_IF_condition | grammar_rules_y.S_LPAREN_condition
  | grammar_rules_y.S_NOT_condition
  | grammar_rules_y.S_condition_AND_condition | grammar_rules_y.S_condition_OR_condition
  | grammar_rules_y.S_IF_condition_THEN_flag | grammar_rules_y.S_IF_condition_THEN_unflag
    => 1%nat
  | _ => 0%nat
  end.

(** The conditions on the tables under which the measure decreases. *)
Definition ranked (G : Tables) (rank : state G -> nat) : Prop :=
  forall (s : state G) (la : option terminal) (p : production G),
    action G s la = Reduce p ->
    (1 <= List.length (rhs G p))%nat /\
    (List.length (rhs G p) = 1%nat ->
     rank s = 0%nat /\
     forall below A s', lhs G p = Some A -> goto G below A = Some s' -> rank s' = 1%nat).

(** *** The lexer moves forward *)

(** The positions of a lexer that [next] has set: at the end of the input
    the current rune is [-1] and both positions are the length of the
    buffer; before it the current rune is not negative and lies before
    the next one. *)
Definition lexer_wf (lex : Lexer) : Prop :=
  (nextpos lex <= len (buf lex))%nat /\
  if r lex <? 0
  then rpos lex = len (buf lex) /\ nextpos lex = len (buf lex)
  else (rpos lex < nextpos lex)%nat.

(** The bytes from the current rune to the end of the buffer. *)
Definition bytes_left (lex : Lexer) : nat := (len (buf lex) - rpos lex)%nat.

(** What a scanner or [NextToken] leaves: the same buffer, well-formed
    positions, and a current position that has moved by [moved] or more. *)
Definition scanned (lex : Lexer) (moved : nat) (lex' : Lexer) : Prop :=
  buf lex' = buf lex /\ lexer_wf lex' /\ (rpos lex + moved <= rpos lex')%nat.


(** *** Regrouping a condition the way the parser groups it *)

(** [not] in front of a chain of [and] and [or]: it takes the first
    operand of the chain only. *)
Fixpoint not_onto (c : cond) : cond :=
  match c with
  | CAnd l r => CAnd (not_onto l) r
  | COr l r => COr (not_onto l) r
  | _ => CNot c
  end.

(** [l op r] where [r] is a chain: [l] is joined to the first operand of
    the chain, the rest of the chain follows. *)
Fixpoint join (op : cond -> cond -> cond) (l r : cond) : cond :=
  match r with
  | CAnd a b => CAnd (join op l a) b
  | COr a b => COr (join op l a) b
  | _ => op l r
  end.

(** The grouping of the same tokens in which [and] and [or] associate to
    the left at one level and [not] binds tighter; what stands between
    parentheses is regrouped by itself. *)
Fixpoint regroup (c : cond) : cond :=
  match c with
  | CCmp field op lit => CCmp field op lit
  | CAnd l r => join CAnd (regroup l) (regroup r)
  | COr l r => join COr (regroup l) (regroup r)
  | CNot c => not_onto (regroup c)
  | CParen c => CParen (regroup c)
  end.

Definition regroup_file (f : list rule_syntax) : list rule_syntax :=
  map (fun r => (regroup (fst r), snd r)) f.

(** [if not to = "a" or from = "b" and (subject = "c" or to = "d") then flag;] *)
Definition precedence_text : string :=
  "if not to = " ++ quoted "a" ++ " or from = " ++ quoted "b"
  ++ " and (subject = " ++ quoted "c" ++ " or to = " ++ quoted "d" ++ ") then flag;".

(** A derivation of that text by the grammar, with [not] over the whole
    condition and [and] below [or]. *)
Definition precedence_tree : list rule_syntax :=
  [(CNot (COr (CCmp "to" OpEquals (quoted "a"))
              (CAnd (CCmp "from" OpEquals (quoted "b"))
                    (CParen (COr (CCmp "subject" OpEquals (quoted "c"))
                                 (CCmp "to" OpEquals (quoted "d")))))),
    AFlag None)].

(** The rule that the parser makes of it:
    [((not to = "a") or from = "b") and (subject = "c" or to = "d")]. *)
Definition precedence_rule : rules.Rule :=
  rules.Flag
    {| rules.flag_Predicate :=
         Some (rules.AndPredicate
                 (rules.OrPredicate
                    (rules.NotPredicate
                       (rules.FieldPredicate "to" (rules.StringEqualsPredicate "a")))
                    (rules.FieldPredicate "from" (rules.StringEqualsPredicate "b")))
                 (rules.OrPredicate
                    (rules.FieldPredicate "subject" (rules.StringEqualsPredicate "c"))
                    (rules.FieldPredicate "to" (rules.StringEqualsPredicate "d"))));
       rules.flag_Flag := imap.FlaggedFlag;
       rules.flag_messages := ∅ |}.

(** *** The parser of [rules.y] inside the parser of the grammar with [stream]

    The grammar with [stream] has the nonterminal [string] where [rules.y]
    has the token [QUOTE]: the state that [rules.y] reaches by shifting a
    quoted string is the state that the other grammar reaches after it has
    shifted the quoted string and reduced it to a [string]. *)

Definition state_in_stream (s : grammar_rules_y.state) : grammar_stream.state :=
  match s with
  | grammar_rules_y.S_start => grammar_stream.S_start
  | grammar_rules_y.S_IF => grammar_stream.S_IF
  | grammar_rules_y.S_rule => grammar_stream.S_rule
  | grammar_rules_y.S_rules => grammar_stream.S_rules
  | grammar_rules_y.S_accept => grammar_stream.S_accept
  | grammar_rules_y.S_IDENTIFIER => grammar_stream.S_IDENTIFIER
  | grammar_rules_y.S_LPAREN => grammar_stream.S_LPAREN
  | grammar_rules_y.S_NOT => grammar_stream.S_NOT
  | grammar_rules_y.S_comparison => grammar_stream.S_comparison
  | grammar_rules_y.S_IF_condition => grammar_stream.S_IF_condition
  | grammar_rules_y.S_rule_SEMICOLON => grammar_stream.S_rule_SEMICOLON
  | grammar_rules_y.S_rules_rule => grammar_stream.S_rules_rule
  | grammar_rules_y.S_IDENTIFIER_EQUALS => grammar_stream.S_IDENTIFIER_EQUALS
  | grammar_rules_y.S_IDENTIFIER_TILDE => grammar_stream.S_IDENTIFIER_TILDE
  | grammar_rules_y.S_LPAREN_condition => grammar_stream.S_LPAREN_condition
  | grammar_rules_y.S_NOT_condition => grammar_stream.S_NOT_condition
  | grammar_rules_y.S_condition_AND => grammar_stream.S_condition_AND
  | grammar_rules_y.S_condition_OR => grammar_stream.S_condition_OR
  | grammar_rules_y.S_IF_condition_THEN => grammar_stream.S_IF_condition_THEN
  | grammar_rules_y.S_rules_rule_SEMICOLON => grammar_stream.S_rules_rule_SEMICOLON
  | grammar_rules_y.S_IDENTIFIER_EQUALS_QUOTE => grammar_stream.S_IDENTIFIER_EQUALS_string
  | grammar_rules_y.S_IDENTIFIER_TILDE_QUOTE => grammar_stream.S_IDENTIFIER_TILDE_string
  | grammar_rules_y.S_LPAREN_condition_RPAREN => grammar_stream.S_LPAREN_condition_RPAREN
  | grammar_rules_y.S_condition_AND_condition => grammar_stream.S_condition_AND_condition
  | grammar_rules_y.S_condition_OR_condition => grammar_stream.S_condition_OR_condition
  | grammar_rules_y.S_FLAG => grammar_stream.S_FLAG
  | grammar_rules_y.S_MOVE => grammar_stream.S_MOVE
  | grammar_rules_y.S_UNFLAG => grammar_stream.S_UNFLAG
  | grammar_rules_y.S_IF_condition_THEN_flag => grammar_stream.S_IF_condition_THEN_flag
  | grammar_rules_y.S_IF_condition_THEN_move => grammar_stream.S_IF_condition_THEN_move
  | grammar_rules_y.S_IF_condition_THEN_unflag => grammar_stream.S_IF_condition_THEN_unflag
  | grammar_rules_y.S_FLAG_QUOTE => grammar_stream.S_FLAG_string
  | grammar_rules_y.S_MOVE_QUOTE => grammar_stream.S_MOVE_string
  | grammar_rules_y.S_UNFLAG_QUOTE => grammar_stream.S_UNFLAG_string
  end.

Definition production_in_stream (p : grammar_rules_y.production) : grammar_stream.production :=
  match p with
  | grammar_rules_y.P_accept => grammar_stream.P_accept
  | grammar_rules_y.P_start__rules => grammar_stream.P_start__rules
  | grammar_rules_y.P_rules__rule_SEMICOLON => grammar_stream.P_rules__rule_SEMICOLON
  | grammar_rules_y.P_rules__rules_rule_SEMICOLON => grammar_stream.P_rules__rules_rule_SEMICOLON
  | grammar_rules_y.P_rule__IF_condition_THEN_move => grammar_stream.P_rule__IF_condition_THEN_move
  | grammar_rules_y.P_rule__IF_condition_THEN_flag => grammar_stream.P_rule__IF_condition_THEN_flag
  | grammar_rules_y.P_rule__IF_condition_THEN_unflag => grammar_stream.P_rule__IF_condition_THEN_unflag
  | grammar_rules_y.P_condition__comparison => grammar_stream.P_condition__comparison
  | grammar_rules_y.P_condition__condition_AND_condition => grammar_stream.P_condition__condition_AND_condition
  | grammar_rules_y.P_condition__condition_OR_condition => grammar_stream.P_condition__condition_OR_condition
  | grammar_rules_y.P_condition__NOT_condition => grammar_stream.P_condition__NOT_condition
  | grammar_rules_y.P_condition__LPAREN_condition_RPAREN => grammar_stream.P_condition__LPAREN_condition_RPAREN
  | grammar_rules_y.P_comparison__IDENTIFIER_TILDE_QUOTE => grammar_stream.P_comparison__IDENTIFIER_TILDE_string
  | grammar_rules_y.P_comparison__IDENTIFIER_EQUALS_QUOTE => grammar_stream.P_comparison__IDENTIFIER_EQUALS_string
  | grammar_rules_y.P_move__MOVE_QUOTE => grammar_stream.P_move__MOVE_string
  | grammar_rules_y.P_flag__FLAG => grammar_stream.P_flag__FLAG
  | grammar_rules_y.P_flag__FLAG_QUOTE => grammar_stream.P_flag__FLAG_string
  | grammar_rules_y.P_unflag__UNFLAG => grammar_stream.P_unflag__UNFLAG
  | grammar_rules_y.P_unflag__UNFLAG_QUOTE => grammar_stream.P_unflag__UNFLAG_string
  end.

Definition nonterminal_in_stream (n : grammar_rules_y.nonterminal) : grammar_stream.nonterminal :=
  match n with
  | grammar_rules_y.N_start => grammar_stream.N_start
  | grammar_rules_y.N_rules => grammar_stream.N_rules
  | grammar_rules_y.N_rule => grammar_stream.N_rule
  | grammar_rules_y.N_condition => grammar_stream.N_condition
  | grammar_rules_y.N_comparison => grammar_stream.N_comparison
  | grammar_rules_y.N_move => grammar_stream.N_move
  | grammar_rules_y.N_flag => grammar_stream.N_flag
  | grammar_rules_y.N_unflag => grammar_stream.N_unflag
  end.

(** The states of [rules.y] that a quoted string leads to. *)
Definition is_quote_state (s : grammar_rules_y.state) : bool :=
  match s with
  | grammar_rules_y.S_IDENTIFIER_EQUALS_QUOTE
  | grammar_rules_y.S_IDENTIFIER_TILDE_QUOTE
  | grammar_rules_y.S_FLAG_QUOTE
  | grammar_rules_y.S_MOVE_QUOTE
  | grammar_rules_y.S_UNFLAG_QUOTE => true
  | _ => false
  end.

(** The productions of [rules.y] with a quoted string. *)
Definition has_quote (p : grammar_rules_y.production) : bool :=
  match p with
  | grammar_rules_y.P_comparison__IDENTIFIER_TILDE_QUOTE
  | grammar_rules_y.P_comparison__IDENTIFIER_EQUALS_QUOTE
  | grammar_rules_y.P_move__MOVE_QUOTE
  | grammar_rules_y.P_flag__FLAG_QUOTE
  | grammar_rules_y.P_unflag__UNFLAG_QUOTE => true
  | _ => false
  end.

Fixpoint has_byte (c : ascii) (s : string) : bool :=
  match s with
  | EmptyString => false
  | String a s' => bool_decide (a = c) || has_byte c s'
  end.

(** A token that both grammars know and read alike: not the keyword
    [stream], and no backslash in a quoted string. *)
Definition shared_token (tok : terminal * string) : bool :=
  match fst tok with
  | STREAM => false
  | QUOTE => negb (has_byte "\"%char (snd tok))
  | _ => true
  end.

(** A quoted string has its two quotes at least. *)
Definition quote_length (tok : terminal * string) : bool :=
  match fst tok with
  | QUOTE => (2 <=? len (snd tok))%nat
  | _ => true
  end.

Definition token_ok (tok : terminal * string) : bool :=
  shared_token tok && quote_length tok.

Definition entry_in_stream (e : grammar_rules_y.state * yySymType)
  : grammar_stream.state * yySymType :=
  (state_in_stream (fst e), snd e).

Definition plain_entry (e : grammar_rules_y.state * yySymType) : bool :=
  negb (is_quote_state (fst e)).

(** The stack of the parser with [stream] for a stack of the parser of
    [rules.y]: the same, but for a quoted string on top, which the other
    parser has shifted and not yet reduced. *)
Definition stack_in_stream (stk : list (grammar_rules_y.state * yySymType))
  : list (grammar_stream.state * yySymType) :=
  match stk with
  | (q, v) :: rest =>
      if is_quote_state q
      then (grammar_stream.S_QUOTE, v) :: map entry_in_stream rest
      else map entry_in_stream stk
  | [] => []
  end.

Definition config_in_stream {RE : RegexpLib}
    (c : yyconfig grammar_rules_y.tables (L := TokenSource))
  : yyconfig grammar_stream.tables (L := TokenSource) :=
  cfg grammar_stream.tables (stack_in_stream (yyS _ c)) (yychar _ c) (yylval _ c)
      (yylex _ c).

(** What holds of the variables of the parser of [rules.y] on shared
    tokens: a quoted string is on top of the stack only, over the state in
    which it has been shifted, and the tokens ahead are shared ones. *)
Definition stack_ok {RE : RegexpLib}
    (stk : list (grammar_rules_y.state * yySymType)) : Prop :=
  match stk with
  | (q, v) :: rest =>
      forallb plain_entry rest = true /\
      (is_quote_state q = true ->
       token_ok (QUOTE, yyValue v) = true /\
       match rest with
       | (below, _) :: _ => grammar_rules_y.shift below QUOTE = Some q
       | [] => False
       end)
  | [] => True
  end.

Definition shared_config {RE : RegexpLib}
    (c : yyconfig grammar_rules_y.tables (L := TokenSource)) : Prop :=
  stack_ok (yyS _ c) /\
  forallb token_ok (toks (yylex _ c)) = true /\
  match yychar _ c with
  | Some (Some t) => token_ok (t, yyValue (yylval _ c)) = true
  | _ => True
  end.

(** The variables after the lookahead has been read. *)
Definition look {G : Tables} (c : yyconfig G (L := TokenSource)) : yyconfig G :=
  match yychar G c with
  | Some _ => c
  | None =>
      match toks (yylex G c) with
      | (t, v) :: rest =>
          cfg G (yyS G c) (Some (Some t)) (set_Value (yylval G c) v)
              (with_toks (yylex G c) rest)
      | [] => cfg G (yyS G c) (Some None) (yylval G c) (at_end (yylex G c))
      end
  end.

Definition step_in_stream {RE : RegexpLib}
    (r : yyconfig grammar_rules_y.tables (L := TokenSource) + outcome (Z * TokenSource))
  : yyconfig grammar_stream.tables (L := TokenSource) + outcome (Z * TokenSource) :=
  match r with
  | inl c => inl (config_in_stream c)
  | inr out => inr out
  end.

(** The turn of the loop that reduces with the production [p]. *)
Definition reduce_step (G : Tables) (p : production G) (stk : list (state G * yySymType))
    (la : option terminal) (lv : yySymType) (src : TokenSource)
  : yyconfig G (L := TokenSource) + outcome (Z * TokenSource) :=
  let n := List.length (rhs G p) in
  match drop n stk, lhs G p with
  | (below, v) :: rest, Some A =>
      match goto G below A with
      | Some s' =>
          match semantic G _ _ p (rev (map snd (take n stk))) src with
          | Panic => inr Panic
          | Ret (inr src') => inr (Ret (-1, src'))
          | Ret (inl (yyVAL, src')) =>
              inl (cfg G ((s', yyVAL) :: (below, v) :: rest) (Some la) lv src')
          end
      | None => inr Panic
      end
  | _, _ => inr Panic
  end.

(** One turn of the parser with [stream], or two, lead to [r]. *)
Definition one_or_two_steps {RE : RegexpLib} {XE : SyntaxErrors}
    (c : yyconfig grammar_stream.tables (L := TokenSource))
    (r : yyconfig grammar_stream.tables (L := TokenSource) + outcome (Z * TokenSource))
  : Prop :=
  yystep grammar_stream.tables c = r \/
  exists mid, yystep grammar_stream.tables c = inl mid /\
              yystep grammar_stream.tables mid = r.

(** What two parsers return is the same: the same rules without an error,
    or an error from both and no rules. *)
Definition same_parse (o1 o2 : option (outcome (list rules.Rule * option error))) : Prop :=
  match o1, o2 with
  | Some (Ret (rs1, None)), Some (Ret (rs2, None)) => rs1 = rs2
  | Some (Ret (rs1, Some _)), Some (Ret (rs2, Some _)) => rs1 = [] /\ rs2 = []
  | _, _ => False
  end.

(** A text in which the keyword [stream] is not used and no quoted string
    holds a backslash. *)
Definition shared_text (input : string) : bool :=
  match lex_all input with
  | Some (ts, _) => forallb shared_token ts
  | None => false
  end.

(** *** Stacks that the automaton builds

    Every state but the first is entered on one symbol. *)

Definition gs_accessing (s : grammar_stream.state)
  : option (terminal + grammar_stream.nonterminal) :=
  match s with
  | grammar_stream.S_IF => Some (inl IF)
  | grammar_stream.S_rule => Some (inr grammar_stream.N_rule)
  | grammar_stream.S_rules => Some (inr grammar_stream.N_rules)
  | grammar_stream.S_accept => Some (inr grammar_stream.N_start)
  | grammar_stream.S_IDENTIFIER => Some (inl IDENTIFIER)
  | grammar_stream.S_LPAREN => Some (inl LPAREN)
  | grammar_stream.S_NOT => Some (inl NOT)
  | grammar_stream.S_comparison => Some (inr grammar_stream.N_comparison)
  | grammar_stream.S_IF_condition => Some (inr grammar_stream.N_condition)
  | grammar_stream.S_rule_SEMICOLON => Some (inl SEMICOLON)
  | grammar_stream.S_rules_rule => Some (inr grammar_stream.N_rule)
  | grammar_stream.S_IDENTIFIER_EQUALS => Some (inl EQUALS)
  | grammar_stream.S_IDENTIFIER_TILDE => Some (inl TILDE)
  | grammar_stream.S_LPAREN_condition => Some (inr grammar_stream.N_condition)
  | grammar_stream.S_NOT_condition => Some (inr grammar_stream.N_condition)
  | grammar_stream.S_condition_AND => Some (inl AND)
  | grammar_stream.S_condition_OR => Some (inl OR)
  | grammar_stream.S_IF_condition_THEN => Some (inl THEN)
  | grammar_stream.S_rules_rule_SEMICOLON => Some (inl SEMICOLON)
  | grammar_stream.S_QUOTE => Some (inl QUOTE)
  | grammar_stream.S_IDENTIFIER_EQUALS_string => Some (inr grammar_stream.N_string)
  | grammar_stream.S_IDENTIFIER_TILDE_string => Some (inr grammar_stream.N_string)
  | grammar_stream.S_LPAREN_condition_RPAREN => Some (inl RPAREN)
  | grammar_stream.S_condition_AND_condition => Some (inr grammar_stream.N_condition)
  | grammar_stream.S_condition_OR_condition => Some (inr grammar_stream.N_condition)
  | grammar_stream.S_FLAG => Some (inl FLAG)
  | grammar_stream.S_MOVE => Some (inl MOVE)
  | grammar_stream.S_STREAM => Some (inl STREAM)
  | grammar_stream.S_UNFLAG => Some (inl UNFLAG)
  | grammar_stream.S_IF_condition_THEN_flag => Some (inr grammar_stream.N_flag)
  | grammar_stream.S_IF_condition_THEN_move => Some (inr grammar_stream.N_move)
  | grammar_stream.S_IF_condition_THEN_stream => Some (inr grammar_stream.N_stream)
  | grammar_stream.S_IF_condition_THEN_unflag => Some (inr grammar_stream.N_unflag)
  | grammar_stream.S_FLAG_string => Some (inr grammar_stream.N_string)
  | grammar_stream.S_MOVE_string => Some (inr grammar_stream.N_string)
  | grammar_stream.S_STREAM_string => Some (inr grammar_stream.N_string)
  | grammar_stream.S_UNFLAG_string => Some (inr grammar_stream.N_string)
  | grammar_stream.S_start => None
  end.

Definition gy_accessing (s : grammar_rules_y.state)
  : option (terminal + grammar_rules_y.nonterminal) :=
  match s with
  | grammar_rules_y.S_IF => Some (inl IF)
  | grammar_rules_y.S_rule => Some (inr grammar_rules_y.N_rule)
  | grammar_rules_y.S_rules => Some (inr grammar_rules_y.N_rules)
  | grammar_rules_y.S_accept => Some (inr grammar_rules_y.N_start)
  | grammar_rules_y.S_IDENTIFIER => Some (inl IDENTIFIER)
  | grammar_rules_y.S_LPAREN => Some (inl LPAREN)
  | grammar_rules_y.S_NOT => Some (inl NOT)
  | grammar_rules_y.S_comparison => Some (inr grammar_rules_y.N_comparison)
  | grammar_rules_y.S_IF_condition => Some (inr grammar_rules_y.N_condition)
  | grammar_rules_y.S_rule_SEMICOLON => Some (inl SEMICOLON)
  | grammar_rules_y.S_rules_rule => Some (inr grammar_rules_y.N_rule)
  | grammar_rules_y.S_IDENTIFIER_EQUALS => Some (inl EQUALS)
  | grammar_rules_y.S_IDENTIFIER_TILDE => Some (inl TILDE)
  | grammar_rules_y.S_LPAREN_condition => Some (inr grammar_rules_y.N_condition)
  | grammar_rules_y.S_NOT_condition => Some (inr grammar_rules_y.N_condition)
  | grammar_rules_y.S_condition_AND => Some (inl AND)
  | grammar_rules_y.S_condition_OR => Some (inl OR)
  | grammar_rules_y.S_IF_condition_THEN => Some (inl THEN)
  | grammar_rules_y.S_rules_rule_SEMICOLON => Some (inl SEMICOLON)
  | grammar_rules_y.S_IDENTIFIER_EQUALS_QUOTE => Some (inl QUOTE)
  | grammar_rules_y.S_IDENTIFIER_TILDE_QUOTE => Some (inl QUOTE)
  | grammar_rules_y.S_LPAREN_condition_RPAREN => Some (inl RPAREN)
  | grammar_rules_y.S_condition_AND_condition => Some (inr grammar_rules_y.N_condition)
  | grammar_rules_y.S_condition_OR_condition => Some (inr grammar_rules_y.N_condition)
  | grammar_rules_y.S_FLAG => Some (inl FLAG)
  | grammar_rules_y.S_MOVE => Some (inl MOVE)
  | grammar_rules_y.S_UNFLAG => Some (inl UNFLAG)
  | grammar_rules_y.S_IF_condition_THEN_flag => Some (inr grammar_rules_y.N_flag)
  | grammar_rules_y.S_IF_condition_THEN_move => Some (inr grammar_rules_y.N_move)
  | grammar_rules_y.S_IF_condition_THEN_unflag => Some (inr grammar_rules_y.N_unflag)
  | grammar_rules_y.S_FLAG_QUOTE => Some (inl QUOTE)
  | grammar_rules_y.S_MOVE_QUOTE => Some (inl QUOTE)
  | grammar_rules_y.S_UNFLAG_QUOTE => Some (inl QUOTE)
  | grammar_rules_y.S_start => None
  end.

(** What the value of a symbol on the stack holds: a quoted string its
    two quotes, and the value of a nonterminal the field that its
    productions assign. *)
Definition gs_val_ok (X : terminal + grammar_stream.nonterminal) (v : yySymType) : Prop :=
  match X with
  | inl t => quote_length (t, yyValue v) = true
  | inr grammar_stream.N_condition | inr grammar_stream.N_comparison =>
      is_Some (yyPredicate v)
  | inr grammar_stream.N_rule => is_Some (yyRule v)
  | inr grammar_stream.N_move => is_Some (yyMoveRule v)
  | inr grammar_stream.N_flag => is_Some (yyFlagRule v)
  | inr grammar_stream.N_unflag => is_Some (yyUnflagRule v)
  | inr grammar_stream.N_stream => is_Some (yyStreamRule v)
  | inr _ => True
  end.

Definition gy_val_ok (X : terminal + grammar_rules_y.nonterminal) (v : yySymType) : Prop :=
  match X with
  | inl t => quote_length (t, yyValue v) = true
  | inr grammar_rules_y.N_condition | inr grammar_rules_y.N_comparison =>
      is_Some (yyPredicate v)
  | inr grammar_rules_y.N_rule => is_Some (yyRule v)
  | inr grammar_rules_y.N_move => is_Some (yyMoveRule v)
  | inr grammar_rules_y.N_flag => is_Some (yyFlagRule v)
  | inr grammar_rules_y.N_unflag => is_Some (yyUnflagRule v)
  | inr _ => True
  end.

Section WellFormed.
Context (G : Tables) {XE : SyntaxErrors} (accessing : state G -> option (terminal + nonterminal G))
        (val_ok : terminal + nonterminal G -> yySymType -> Prop).

(** The transition of a state on a symbol. *)
Definition trans (s : state G) (X : terminal + nonterminal G) : option (state G) :=
  match X with
  | inl t => shift G s t
  | inr A => goto G s A
  end.

(** A stack, its top first, that starts with the first state and in
    which every other state has been entered from the one below it, with
    a value that fits its symbol. *)
Fixpoint wf_stack (stk : list (state G * yySymType)) : Prop :=
  match stk with
  | [] => False
  | (s', v) :: rest =>
      match rest with
      | [] => s' = init G
      | (s, _) :: _ =>
          match accessing s' with
          | Some X => trans s X = Some s' /\ val_ok X v
          | None => False
          end /\ wf_stack rest
      end
  end.

(** The variables of a run on tokens of the lexer. *)
Definition sound_config (c : yyconfig G (L := TokenSource)) : Prop :=
  wf_stack (yyS G c) /\
  forallb quote_length (toks (yylex G c)) = true /\
  match yychar G c with
  | Some (Some t) => quote_length (t, yyValue (yylval G c)) = true
  | _ => True
  end.

(** A turn of the loop keeps the stack well-formed and does not panic. *)
Definition sound_step : Prop :=
  forall stk la lv (src : TokenSource),
    wf_stack stk ->
    match la with Some t => quote_length (t, yyValue lv) = true | None => True end ->
    match yystep G (cfg G stk (Some la) lv src) with
    | inl c' =>
        wf_stack (yyS G c') /\ toks (yylex G c') = toks src /\
        (yychar G c' = None \/ (yychar G c' = Some la /\ yylval G c' = lv))
    | inr Panic => False
    | inr (Ret _) => True
    end.

End WellFormed.

(** *** The states of the grammar [rules.y] *)

Definition gy_cond_start (s : grammar_rules_y.state) : bool :=
  match s with
  | grammar_rules_y.S_IF | grammar_rules_y.S_LPAREN | grammar_rules_y.S_NOT
  | grammar_rules_y.S_condition_AND | grammar_rules_y.S_condition_OR => true
  | _ => false
  end.

Definition gy_expr_start (s : grammar_rules_y.state) : bool :=
  match s with
  | grammar_rules_y.S_IF | grammar_rules_y.S_LPAREN => true
  | _ => false
  end.

(** A rule file without the stream rule. *)
Definition no_stream (f : list rule_syntax) : Prop :=
  Forall (fun r => uses_stream r = false) f.

(** * More of the rule engine and of the rule language *)

(** ** A scan: the match step of a rule on each message of a batch *)

Section Scan.
Context {RE : RegexpLib} {W : World}.

(** [for _, msg := range batch { rule.Message(msg) }] *)
Fixpoint scan (r : rules.Rule) (batch : list imap.Message) : outcome rules.Rule :=
  match batch with
  | [] => Ret r
  | msg :: rest =>
      match rules.Message r msg with
      | Ret r' => scan r' rest
      | Panic => Panic
      end
  end.

Definition predicate_of (r : rules.Rule) : option rules.Predicate :=
  match r with
  | rules.Move r => rules.move_Predicate r
  | rules.Flag r => rules.flag_Predicate r
  | rules.Unflag r => rules.unflag_Predicate r
  | rules.Stream r => rules.stream_Predicate r
  end.

(** The flag whose presence makes a rule pass a message by. *)
Definition skip_flag (r : rules.Rule) : option string :=
  match r with
  | rules.Flag r => Some (rules.flag_Flag r)
  | rules.Unflag r => Some (rules.unflag_Flag r)
  | _ => None
  end.

(** Whether the match step of the rule queues the message. *)
Definition queues (r : rules.Rule) (msg : imap.Message) : bool :=
  match skip_flag r with
  | Some flag => negb (rules.has_flag (imap.Flags msg) flag)
  | None => true
  end
  && match rules.match_predicate (predicate_of r) msg with
     | Ret b => b
     | Panic => false
     end.

(** The identifiers of the messages of a batch that the rule queues. *)
Definition queued (r : rules.Rule) (batch : list imap.Message) : gset N :=
  list_to_set (map imap.Uid (filter (fun msg => queues r msg = true) batch)).

(** The one request of the action step of a rule for a set of messages. *)
Definition batch_request (r : rules.Rule) (msgs : gset N) : request :=
  match r with
  | rules.Move r => UidMove msgs (rules.Mailbox r)
  | rules.Flag r => UidStore msgs imap.AddFlags true [rules.flag_Flag r]
  | rules.Unflag r => UidStore msgs imap.RemoveFlags true [rules.unflag_Flag r]
  | rules.Stream r =>
      UidFetch msgs [imap.FetchUid; imap.FetchRFC822Header; imap.FetchRFC822Text]
  end.

End Scan.

(** The fields of the comparisons of a predicate are among [to], [from]
    and [subject]. *)
Fixpoint known_fields (p : rules.Predicate) : Prop :=
  match p with
  | rules.FieldPredicate field _ => known_field field
  | rules.AndPredicate l r | rules.OrPredicate l r => known_fields l /\ known_fields r
  | rules.NotPredicate q => known_fields q
  end.

Definition has_envelope (msg : imap.Message) : Prop := imap.Envelope_ msg <> None.

(** A rule that moves the messages with the subject [Deal!], and a batch
    of two messages of which the first has that subject. *)
Definition deal_rule : rules.Rule :=
  rules.Move (rules.NewMoveRule
                (Some (rules.FieldPredicate "subject" (rules.StringEqualsPredicate "Deal!")))
                "Archive").

Definition other_message : imap.Message :=
  {| imap.SeqNum := 2%N; imap.Uid := 9%N;
     imap.Envelope_ := Some {| imap.To := []; imap.From := []; imap.Subject := "Hello" |};
     imap.Flags := [];
     imap.Body := [] |}.

Definition deal_batch : list imap.Message := [flagged_message; other_message].

(** ** The stream rule of [rules.go] *)

Section StreamSpec.
Context {W : World}.



(** Nothing goes wrong with a fetched message: it parses, has an html
    part, a date and a subject that decode, and the command succeeds on
    it. *)
Definition streams_cleanly (r : rules.StreamRule) (message : imap.Message) : Prop :=
  exists msg html date subject env,
    rules.messageParse message = Ok msg /\
    rules.messageMIME msg "text/html" = Ok html /\
    header_Date (mail.Header_ msg) = Ok date /\
    mime_DecodeHeader (mail.Get (mail.Header_ msg) "Subject") = Ok subject /\
    snd (rules.stream_one r message) = [RunCommand (rules.Command r) env html] /\
    cmd_Run (rules.Command r) env html = None.

(** A section of a fetched message with a literal. *)
Definition has_section (message : imap.Message) (spec : string) : Prop :=
  exists v, (spec, Some v) ∈ imap.Body message.

End StreamSpec.

(** A world whose mailbox answers a fetch with two messages, the second
    of which lacks its text; every message read is the multipart message
    of the examples, and every date is the same. *)
Definition whole_message : imap.Message :=
  {| imap.SeqNum := 1%N; imap.Uid := 1%N; imap.Envelope_ := None; imap.Flags := [];
     imap.Body := [("HEADER", Some "Content-Type: multipart/alternative");
                   ("TEXT", Some "...")] |}.

Definition headless_message : imap.Message :=
  {| imap.SeqNum := 2%N; imap.Uid := 2%N; imap.Envelope_ := None; imap.Flags := [];
     imap.Body := [("HEADER", Some "Content-Type: multipart/alternative");
                   ("TEXT", None)] |}.

Definition fetching_world (fetched : list imap.Message) : World :=
  {| client_UidMove := fun _ _ => None;
     client_UidStore := fun _ _ _ => None;
     client_UidFetch := fun _ _ => (fetched, Some (Errorf "connection closed"));
     mail_ReadMessage := fun _ => Ok multipart_message;
     mime_ParseMediaType := fun v =>
       if bool_decide (v = EmptyString) then Err (Errorf "mime: no media type")
       else Ok (v, ∅);
     multipart_raw := fun _ _ => [raw_part text_part; raw_part html_part];
     multipart_end := fun _ _ => Errorf "EOF";
     header_Date := fun _ => Ok "2024-01-02 03:04:05 +0000 UTC";
     date_Format := fun date _ => date;
     mime_DecodeHeader := fun v => Ok v;
     os_Environ := [];
     cmd_Run := fun _ _ _ => None;
     http_NewRequest := fun _ => None;
     http_Do := fun _ _ _ => Ok 500 |}.

Definition cat_rule : rules.StreamRule :=
  {| rules.stream_Predicate := None; rules.Command := "cat";
     rules.stream_messages := {[ 1%N; 2%N ]} |}.

(** ** The stream rule that posts to a URL *)

Section HttpSpec.
Context {RE : RegexpLib} {W : World}.

(** What the action step of a stream rule fetches: the messages the
    mailbox sends for the pending set, and the result of the fetch. *)
Definition http_fetched (r : rules_http.StreamRule) : list imap.Message :=
  fst (client_UidFetch (rules_http.messages r) [imap.FetchUid; imap.FetchBody]).

Definition http_fetch_err (r : rules_http.StreamRule) : option error :=
  snd (client_UidFetch (rules_http.messages r) [imap.FetchUid; imap.FetchBody]).

(** The delivery of a message fails: [handleMessage] returns an error. *)
Definition delivery_fails (r : rules_http.StreamRule) (message : imap.Message) : Prop :=
  exists err, snd (rules_http.handleMessage r message) = Ret (Some err).

(** What [handleMessage] needs in order not to panic: the request can be
    built, and a message whose html is wanted has a section to read. *)
Definition deliverable (r : rules_http.StreamRule) (message : imap.Message) : Prop :=
  http_NewRequest (rules_http.URL r) = None /\
  (rules_http.Content r = rules_http.StreamContentHTML ->
   rules_http.body_reader message <> None).

End HttpSpec.

(** A world whose sink cannot be reached, and whose mailbox answers a
    fetch with one message. *)
Definition unreachable_world : World :=
  {| client_UidMove := fun _ _ => None;
     client_UidStore := fun _ _ _ => None;
     client_UidFetch := fun _ _ => ([fetched_message], None);
     mail_ReadMessage := fun _ => Ok multipart_message;
     mime_ParseMediaType := fun v =>
       if bool_decide (v = EmptyString) then Err (Errorf "mime: no media type")
       else Ok (v, ∅);
     multipart_raw := fun _ _ => [raw_part text_part; raw_part html_part];
     multipart_end := fun _ _ => Errorf "EOF";
     header_Date := fun _ => Ok "2024-01-02 03:04:05 +0000 UTC";
     date_Format := fun date _ => date;
     mime_DecodeHeader := fun v => Ok v;
     os_Environ := [];
     cmd_Run := fun _ _ _ => None;
     http_NewRequest := fun _ => None;
     http_Do := fun _ _ _ => Err (Errorf "connection refused") |}.

Definition pending_rfc822_rule : rules_http.StreamRule :=
  {| rules_http.Predicate_ := None; rules_http.Content := "rfc822";
     rules_http.URL := "http://sink"; rules_http.messages := {[ 7%N ]};
     rules_http.done := ∅ |}.

Definition enveloped_message : imap.Message :=
  {| imap.SeqNum := 1%N; imap.Uid := 7%N;
     imap.Envelope_ := Some {| imap.To := []; imap.From := []; imap.Subject := "hi" |};
     imap.Flags := [];
     imap.Body := [(EmptyString, Some "Subject: hi")] |}.

Definition enveloped_world : World :=
  {| client_UidMove := fun _ _ => None;
     client_UidStore := fun _ _ _ => None;
     client_UidFetch := fun _ _ => ([enveloped_message; enveloped_message], None);
     mail_ReadMessage := fun _ => Ok multipart_message;
     mime_ParseMediaType := fun v =>
       if bool_decide (v = EmptyString) then Err (Errorf "mime: no media type")
       else Ok (v, ∅);
     multipart_raw := fun _ _ => [raw_part text_part; raw_part html_part];
     multipart_end := fun _ _ => Errorf "EOF";
     header_Date := fun _ => Ok "2024-01-02 03:04:05 +0000 UTC";
     date_Format := fun date _ => date;
     mime_DecodeHeader := fun v => Ok v;
     os_Environ := [];
     cmd_Run := fun _ _ _ => None;
     http_NewRequest := fun _ => None;
     http_Do := fun _ _ _ => Err (Errorf "connection refused") |}.

(** ** Runs of the parser on a source that ends with a lexing error *)

(** The source reports a lexing error at its end, and has done so when
    the end has been read. *)
Definition failing {G : Tables} (c : yyconfig G (L := TokenSource)) : Prop :=
  src_fails (yylex G c) = true /\
  (yychar G c = Some None -> src_err (yylex G c) <> None).

(** A rule whose quoted string is not closed. *)
Definition open_quote_text : string :=
  "if to = " ++ String dquote "x then flag;".

(** ** The layout of a text in the rule language *)

(** The lexer with its current rune at byte [p] of the buffer: what
    [next] leaves when the next position is [p]. *)
Definition at_pos (b : string) (p : nat) : Lexer :=
  next {| buf := b; r := -1; rpos := 0; nextpos := p |}.

(** The text [s] is what the buffer holds from byte [p] on. *)
Definition at_suffix (b : string) (p : nat) (s : string) : Prop :=
  exists pre, b = pre ++ s /\ len pre = p.

Fixpoint all_bytes (f : ascii -> bool) (s : string) : bool :=
  match s with
  | EmptyString => true
  | String c s' => f c && all_bytes f s'
  end.

Definition starts_with (f : ascii -> bool) (s : string) : bool :=
  match s with
  | EmptyString => false
  | String c _ => f c
  end.

Definition space_byte (c : ascii) : bool := isSpace (rune c).
Definition alpha_byte (c : ascii) : bool := isAlpha (rune c).
Definition word_byte (c : ascii) : bool := isAlpha (rune c) || isDigit (rune c).
Definition high_byte (c : ascii) : bool := 128 <=? rune c.

(** A word: a letter, [_] or [$], then letters, digits, [_] and [$]. *)
Definition word (w : string) : bool := starts_with alpha_byte w && all_bytes word_byte w.

(** What may stand between two quotes: any byte but the NUL byte, the
    quote and the backslash, and a backslash followed by a backslash or
    by a quote. *)
Fixpoint quote_body (s : string) : bool :=
  match s with
  | EmptyString => true
  | String c s' =>
      if bool_decide (c = "\"%char) then
        match s' with
        | String d s'' =>
            (bool_decide (d = "\"%char) || bool_decide (d = dquote)) && quote_body s''
        | EmptyString => false
        end
      else negb (bool_decide (c = nul)) && negb (bool_decide (c = dquote)) && quote_body s'
  end.

(** What a comment may hold after its two slashes: any byte but the NUL
    byte and the newline. *)
Definition comment_byte (c : ascii) : bool :=
  negb (bool_decide (c = nul)) && negb (bool_decide (c = newline)).

(** The terminal that [Parser.Lex] returns for a token type, if any. *)
Definition terminal_of (typ : TokenType) : option terminal :=
  match tokenNumbers typ with
  | TokenNumberOf t => Some t
  | LexInt _ => None
  end.

(** The text of a token of the grammar: a reserved word or an
    identifier, one of the operators that have a terminal, or a quoted
    string. *)
Inductive lexeme : terminal -> string -> Prop :=
| lexeme_word (w : string) (t : terminal) :
    word w = true ->
    terminal_of (default TokenIdentifier (reservedWords w)) = Some t ->
    lexeme t w
| lexeme_operator (c : ascii) (t : terminal) :
    terminal_of (opTable (rune c)) = Some t ->
    lexeme t (String c EmptyString)
| lexeme_quote (body : string) :
    quote_body body = true ->
    lexeme QUOTE (quoted body).

(** A word is followed by a byte that does not go on with it. *)
Definition separated (s rest : string) : Prop :=
  word s = true -> starts_with word_byte rest = false.

(** What may stand between two tokens: white space, and comments that
    run from two slashes to the end of their line. *)
Inductive gap : string -> Prop :=
| gap_spaces (ws : string) :
    all_bytes space_byte ws = true -> gap ws
| gap_comment (ws body g : string) :
    all_bytes space_byte ws = true -> all_bytes comment_byte body = true -> gap g ->
    gap (ws ++ "//" ++ body ++ String newline g).

(** A byte at which [Parser.Lex] stops as at the end of the input: a
    digit, which starts a number, or an operator that is not of the
    grammar (a slash unless a second slash follows); [tokenNumbers] has
    no entry for these. *)
Definition stops (c : ascii) (rest : string) : bool :=
  isDigit (rune c)
  || (negb (bool_decide (opTable (rune c) = TokenError))
      && negb (bool_decide (is_Some (terminal_of (opTable (rune c)))))
      && negb (bool_decide (c = "/"%char)
               && starts_with (fun d => bool_decide (d = "/"%char)) rest)).

(** A text that is laid out as a list of tokens, up to its end or to the
    first byte at which [Parser.Lex] stops; the last gap may end with a
    comment that the end of the text closes. *)
Inductive laid_out : string -> list (terminal * string) -> Prop :=
| laid_out_end (g : string) :
    gap g -> laid_out g []
| laid_out_comment (g body : string) :
    gap g -> all_bytes comment_byte body = true -> laid_out (g ++ "//" ++ body) []
| laid_out_stop (g rest : string) (c : ascii) :
    gap g -> stops c rest = true -> laid_out (g ++ String c rest) []
| laid_out_token (g s rest : string) (t : terminal) (ts : list (terminal * string)) :
    gap g -> lexeme t s -> separated s rest -> laid_out rest ts ->
    laid_out (g ++ s ++ rest) ((t, s) :: ts).

(** ** Rules as text *)

(** The methods [String] of the predicates and rules of [rules.go].  A
    compiled expression prints as its pattern; a nil predicate prints as
    [fmt] prints a nil interface under the verb [s]. *)
Definition StringPredicate_String (p : rules.StringPredicate) : string :=
  match p with
  | rules.StringEqualsPredicate s => "= " ++ quoted s
  | rules.Regexp pattern => pattern
  end.

Definition FieldPredicate_String (field : string) (p : rules.StringPredicate) : string :=
  match p with
  | rules.Regexp _ => field ++ " ~ " ++ quoted (StringPredicate_String p)
  | _ => field ++ " " ++ StringPredicate_String p
  end.

Fixpoint Predicate_String (p : rules.Predicate) : string :=
  match p with
  | rules.FieldPredicate field sp => FieldPredicate_String field sp
  | rules.AndPredicate l r =>
      "(" ++ Predicate_String l ++ ") and (" ++ Predicate_String r ++ ")"
  | rules.OrPredicate l r =>
      "(" ++ Predicate_String l ++ ") or (" ++ Predicate_String r ++ ")"
  | rules.NotPredicate q => "not (" ++ Predicate_String q ++ ")"
  end.

Definition nil_String : string := "%!s(<nil>)".

Definition interface_String (p : option rules.Predicate) : string :=
  match p with
  | Some p => Predicate_String p
  | None => nil_String
  end.

Definition Rule_String (r : rules.Rule) : string :=
  match r with
  | rules.Move r =>
      "if " ++ interface_String (rules.move_Predicate r) ++ " then move "
      ++ quoted (rules.Mailbox r)
  | rules.Flag r =>
      "if " ++ interface_String (rules.flag_Predicate r) ++ " then flag "
      ++ quoted (rules.flag_Flag r)
  | rules.Unflag r =>
      "if " ++ interface_String (rules.unflag_Predicate r) ++ " then unflag "
      ++ quoted (rules.unflag_Flag r)
  | rules.Stream r =>
      "if " ++ interface_String (rules.stream_Predicate r) ++ " then stream "
      ++ quoted (rules.Command r)
  end.

(** A quote becomes a backslash and a quote, a backslash two. *)
Fixpoint escape (s : string) : string :=
  match s with
  | EmptyString => EmptyString
  | String c s' =>
      if bool_decide (c = "\"%char) then String "\" (String "\" (escape s'))
      else if bool_decide (c = dquote) then String "\" (String dquote (escape s'))
      else String c (escape s')
  end.

(** The text in which the backslashes alone are doubled: what the first
    replacement of [unquote] leaves of an escaped text. *)
Fixpoint double_backslashes (s : string) : string :=
  match s with
  | EmptyString => EmptyString
  | String c s' =>
      if bool_decide (c = "\"%char) then String "\" (String "\" (double_backslashes s'))
      else String c (double_backslashes s')
  end.

Definition plain_byte (c : ascii) : bool :=
  negb (bool_decide (c = nul)) && negb (bool_decide (c = dquote))
  && negb (bool_decide (c = "\"%char)).

(** A text without NUL byte, quote and backslash; a text without NUL
    byte. *)
Definition plain (s : string) : bool := all_bytes plain_byte s.
Definition no_nul (s : string) : bool := all_bytes (fun c => negb (bool_decide (c = nul))) s.

(** A rule written in the rule language, its strings encoded by [enc],
    and a list of rules, one on each line. *)
Section Written.
Context (enc : string -> string).

Definition written_comparison (field : string) (sp : rules.StringPredicate) : string :=
  match sp with
  | rules.StringEqualsPredicate s => field ++ " = " ++ quoted (enc s)
  | rules.Regexp pattern => field ++ " ~ " ++ quoted (enc pattern)
  end.

Fixpoint written_predicate (p : rules.Predicate) : string :=
  match p with
  | rules.FieldPredicate field sp => written_comparison field sp
  | rules.AndPredicate l r =>
      "(" ++ written_predicate l ++ ") and (" ++ written_predicate r ++ ")"
  | rules.OrPredicate l r =>
      "(" ++ written_predicate l ++ ") or (" ++ written_predicate r ++ ")"
  | rules.NotPredicate q => "not (" ++ written_predicate q ++ ")"
  end.

Definition written_action (r : rules.Rule) : string :=
  match r with
  | rules.Move r => "move " ++ quoted (enc (rules.Mailbox r))
  | rules.Flag r => "flag " ++ quoted (enc (rules.flag_Flag r))
  | rules.Unflag r => "unflag " ++ quoted (enc (rules.unflag_Flag r))
  | rules.Stream r => "stream " ++ quoted (enc (rules.Command r))
  end.

Definition written_condition (p : option rules.Predicate) : string :=
  match p with
  | Some p => written_predicate p
  | None => nil_String
  end.

Definition written_rule (r : rules.Rule) : string :=
  "if " ++ written_condition (predicate_of r) ++ " then " ++ written_action r.

Fixpoint written_file (rs : list rules.Rule) : string :=
  match rs with
  | [] => EmptyString
  | r :: rs' => written_rule r ++ ";" ++ String newline (written_file rs')
  end.

(** The concrete syntax of what is written. *)
Definition syntax_of_comparison (field : string) (sp : rules.StringPredicate) : cond :=
  match sp with
  | rules.StringEqualsPredicate s => CCmp field OpEquals (quoted (enc s))
  | rules.Regexp pattern => CCmp field OpTilde (quoted (enc pattern))
  end.

Fixpoint syntax_of_predicate (p : rules.Predicate) : cond :=
  match p with
  | rules.FieldPredicate field sp => syntax_of_comparison field sp
  | rules.AndPredicate l r =>
      CAnd (CParen (syntax_of_predicate l)) (CParen (syntax_of_predicate r))
  | rules.OrPredicate l r =>
      COr (CParen (syntax_of_predicate l)) (CParen (syntax_of_predicate r))
  | rules.NotPredicate q => CNot (CParen (syntax_of_predicate q))
  end.

Definition syntax_of_action (r : rules.Rule) : action_syntax :=
  match r with
  | rules.Move r => AMove (quoted (enc (rules.Mailbox r)))
  | rules.Flag r => AFlag (Some (quoted (enc (rules.flag_Flag r))))
  | rules.Unflag r => AUnflag (Some (quoted (enc (rules.unflag_Flag r))))
  | rules.Stream r => AStream (quoted (enc (rules.Command r)))
  end.

End Written.

(** The rules as [String] prints them, each followed by a semicolon and
    a newline. *)
Fixpoint printed_file (rs : list rules.Rule) : string :=
  match rs with
  | [] => EmptyString
  | r :: rs' => Rule_String r ++ ";" ++ String newline (printed_file rs')
  end.

(** A rule that can be written: it has a predicate, over fields that
    [NewFieldPredicate] accepts and with patterns that compile; its
    strings are [ok]; its flag is not empty; no message is pending. *)
Section Expressible.
Context {RE : RegexpLib} (ok : string -> bool).

Fixpoint expressible_predicate (p : rules.Predicate) : Prop :=
  match p with
  | rules.FieldPredicate field (rules.StringEqualsPredicate s) =>
      known_field field /\ ok s = true
  | rules.FieldPredicate field (rules.Regexp pattern) =>
      known_field field /\ ok pattern = true /\ regexp_Compile pattern = None
  | rules.AndPredicate l r | rules.OrPredicate l r =>
      expressible_predicate l /\ expressible_predicate r
  | rules.NotPredicate q => expressible_predicate q
  end.

Definition expressible_action (r : rules.Rule) : Prop :=
  match r with
  | rules.Move r => ok (rules.Mailbox r) = true
  | rules.Flag r => ok (rules.flag_Flag r) = true /\ rules.flag_Flag r <> EmptyString
  | rules.Unflag r =>
      ok (rules.unflag_Flag r) = true /\ rules.unflag_Flag r <> EmptyString
  | rules.Stream r => ok (rules.Command r) = true
  end.

Definition expressible (r : rules.Rule) : Prop :=
  (exists p, predicate_of r = Some p /\ expressible_predicate p) /\
  rules.pending r = ∅ /\ expressible_action r.

End Expressible.

(** A rule whose strings are plain, and a rule with a quote in its
    pattern and a backslash in its flag. *)
Definition plain_rule : rules.Rule :=
  rules.Move
    {| rules.move_Predicate :=
         Some (rules.AndPredicate
                 (rules.FieldPredicate "subject" (rules.StringEqualsPredicate "Deal!"))
                 (rules.NotPredicate
                    (rules.FieldPredicate "from" (rules.Regexp "boss@"))));
       rules.Mailbox := "Archive";
       rules.move_messages := ∅ |}.

Definition seen_rule : rules.Rule :=
  rules.Flag
    {| rules.flag_Predicate :=
         Some (rules.FieldPredicate "subject"
                 (rules.StringEqualsPredicate ("say " ++ quoted "hi")));
       rules.flag_Flag := "\Seen";
       rules.flag_messages := ∅ |}.

(** A text with a comment, an escaped quote and no space around its
    operator. *)
Definition commented_text : string :=
  "// the deals" ++ String newline
    ("if subject=" ++ quoted ("a\" ++ String dquote "b") ++ " then flag; // done").

(** ** What [Parse] can return *)

Section Parsed.
Context {RE : RegexpLib}.

Definition any_string (s : string) : bool := true.

(** A rule as the code of the productions builds it: with a predicate
    over known fields whose patterns compile, a flag that is not empty
    and no pending message. *)
Definition parsed (r : rules.Rule) : Prop := expressible any_string r.

Definition parsed_rules (rs : list rules.Rule) : Prop := rs <> [] /\ Forall parsed rs.

(** What the value of a symbol on the stack holds.  The value of a
    token has no rules: [Lex] sets the field [Value] alone. *)
Definition gs_val_rich (X : terminal + grammar_stream.nonterminal) (v : yySymType) : Prop :=
  match X with
  | inl t => quote_length (t, yyValue v) = true /\ yyRules v = []
  | inr grammar_stream.N_condition | inr grammar_stream.N_comparison =>
      exists p, yyPredicate v = Some p /\ expressible_predicate any_string p
  | inr grammar_stream.N_rule => yyRules v = [] /\ exists r, yyRule v = Some r /\ parsed r
  | inr grammar_stream.N_rules => parsed_rules (yyRules v)
  | inr grammar_stream.N_move =>
      exists m, yyMoveRule v = Some m /\ rules.move_messages m = ∅
  | inr grammar_stream.N_flag =>
      exists f, yyFlagRule v = Some f /\ rules.flag_messages f = ∅ /\
                rules.flag_Flag f <> EmptyString
  | inr grammar_stream.N_unflag =>
      exists u, yyUnflagRule v = Some u /\ rules.unflag_messages u = ∅ /\
                rules.unflag_Flag u <> EmptyString
  | inr grammar_stream.N_stream =>
      exists s, yyStreamRule v = Some s /\ rules.stream_messages s = ∅
  | inr _ => True
  end.

(** The lexer holds the rules of the file once the file has been
    reduced. *)
Definition file_reduced (stk : list (grammar_stream.state * yySymType))
    (src : TokenSource) : Prop :=
  forall v stk', stk = (grammar_stream.S_accept, v) :: stk' ->
                 parsed_rules (src_result src).

(** The variables of a run whose stack holds such values. *)
Definition rich_config (c : yyconfig grammar_stream.tables (L := TokenSource)) : Prop :=
  wf_stack grammar_stream.tables gs_accessing gs_val_rich (yyS _ c) /\
  forallb quote_length (toks (yylex _ c)) = true /\
  yyRules (yylval _ c) = [] /\
  match yychar _ c with
  | Some (Some t) => quote_length (t, yyValue (yylval _ c)) = true
  | _ => True
  end /\
  file_reduced (yyS _ c) (yylex _ c).

End Parsed.

(** The same tokens on one line, followed by a number and more. *)
Definition stopped_text : string :=
  "if subject = " ++ quoted ("a\" ++ String dquote "b") ++ " then flag ; 7 if if".

(** The tokens of both texts. *)
Definition commented_tokens : list (terminal * string) :=
  [(IF, "if"); (IDENTIFIER, "subject"); (EQUALS, "=");
   (QUOTE, quoted ("a\" ++ String dquote "b")); (THEN, "then");
   (FLAG, "flag"); (SEMICOLON, ";")].

(** ** The tokens of a text *)

(** A token that ends the list of tokens of [tokens]. *)
Definition is_final (tok : Token) : bool :=
  match Typ tok with
  | TokenEOF | TokenError => true
  | _ => false
  end.

(** The tokens before the last are pieces of the text, each of one byte
    or more, at their positions, in the order of the text and apart from
    each other, all from byte [from] on; the last one is the end of the
    input or an error. *)
Fixpoint tiles (input : string) (from : nat) (ts : list Token) : Prop :=
  match ts with
  | [] => False
  | tok :: rest =>
      if is_final tok then rest = []
      else
        (from <= Position tok)%nat /\
        (1 <= len (Value tok))%nat /\
        (Position tok + len (Value tok) <= len input)%nat /\
        Value tok = slice input (Position tok) (Position tok + len (Value tok)) /\
        tiles input (Position tok + len (Value tok)) rest
  end.


(** * Theorems *)

(** ** The rule engine *)

Lemma has_flag_elem (flags : list string) (flag : string) :
  flag ∈ flags -> rules.has_flag flags flag = true.
Proof.
  intros Hin. unfold rules.has_flag. apply existsb_exists.
  exists flag. split; [by apply list_elem_of_In | by apply bool_decide_eq_true].
Qed.

Lemma Empty_true (s : gset N) : imap.Empty s = true <-> s = ∅.
Proof. unfold imap.Empty. apply bool_decide_eq_true. Qed.

Lemma Empty_false (s : gset N) : imap.Empty s = false <-> s <> ∅.
Proof. unfold imap.Empty. apply bool_decide_eq_false. Qed.

(** C4.  When the flag list of a message contains the flag of a Flag rule
    or of an Unflag rule, the match step returns the rule as it was, the
    pending set included, whatever the predicate is (it is not looked
    at); so a rule made by [NewFlagRule] for flag [flag] that has only
    seen this message issues no request in its action step, and in
    general the action step issues the requests it would have issued
    without the message. *)
Theorem flagged_message_is_skipped {RE : RegexpLib} {W : World}
    (msg : imap.Message) (flag : string)
    (predicate : option rules.Predicate) (pending : gset N) :
  flag ∈ imap.Flags msg ->
  let fr := {| rules.flag_Predicate := predicate; rules.flag_Flag := flag;
               rules.flag_messages := pending |} in
  let ur := {| rules.unflag_Predicate := predicate; rules.unflag_Flag := flag;
               rules.unflag_messages := pending |} in
  rules.FlagRule_Message fr msg = Ret fr /\
  rules.UnflagRule_Message ur msg = Ret ur /\
  rules.Message (rules.Flag fr) msg = Ret (rules.Flag fr) /\
  rules.Message (rules.Unflag ur) msg = Ret (rules.Unflag ur) /\
  (flag <> EmptyString ->
   exists r', rules.FlagRule_Message (rules.NewFlagRule predicate flag) msg = Ret r' /\
              events (rules.FlagRule_Action r') = []).
Proof.
  intros Hflag fr ur.
  assert (Hf : rules.FlagRule_Message fr msg = Ret fr).
  { unfold rules.FlagRule_Message. simpl. by rewrite (has_flag_elem _ _ Hflag). }
  assert (Hu : rules.UnflagRule_Message ur msg = Ret ur).
  { unfold rules.UnflagRule_Message. simpl. by rewrite (has_flag_elem _ _ Hflag). }
  repeat split; try assumption.
  - simpl. by rewrite Hf.
  - simpl. by rewrite Hu.
  - intros Hne. exists (rules.NewFlagRule predicate flag). split.
    + unfold rules.FlagRule_Message, rules.NewFlagRule.
      rewrite bool_decide_eq_false_2 by assumption. simpl.
      by rewrite (has_flag_elem _ _ Hflag).
    + reflexivity.
Qed.

Lemma flagged_message_is_skipped_witness :
  "x" ∈ imap.Flags flagged_message /\
  rules.FlagRule_Message (RE := substring_regexp)
    {| rules.flag_Predicate := None; rules.flag_Flag := "x";
       rules.flag_messages := {[ 3%N ]} |} flagged_message
  = Ret {| rules.flag_Predicate := None; rules.flag_Flag := "x";
           rules.flag_messages := {[ 3%N ]} |}.
Proof.
  assert (Hin : "x" ∈ imap.Flags flagged_message).
  { simpl. apply list_elem_of_In. simpl. right. left. reflexivity. }
  split; [exact Hin |].
  exact (proj1 (flagged_message_is_skipped (RE := substring_regexp) (W := example_world)
                  flagged_message "x" None {[ 3%N ]} Hin)).
Defined.

Lemma stream_Message_cases {RE : RegexpLib} (r r' : rules_http.StreamRule) (msg : imap.Message) :
  rules_http.Message r msg = Ret r' ->
  (r' = r) \/
  ((imap.Uid msg ∉ rules_http.done r) /\
   r' = {| rules_http.Predicate_ := rules_http.Predicate_ r;
           rules_http.Content := rules_http.Content r;
           rules_http.URL := rules_http.URL r;
           rules_http.messages := {[ imap.Uid msg ]} ∪ rules_http.messages r;
           rules_http.done := rules_http.done r |}).
Proof.
  unfold rules_http.Message, imap.Contains. case_bool_decide as Hdone.
  - intros Heq. injection Heq as <-. by left.
  - destruct (rules.match_predicate _ msg) as [[|]|]; [| | discriminate].
    + destruct (rules.log_Subject msg); [| discriminate].
      intros Heq. injection Heq as <-. by right.
    + intros Heq. injection Heq as <-. by left.
Qed.

Lemma stream_step_disjoint {RE : RegexpLib} (r r' : rules_http.StreamRule) :
  stream_step r r' ->
  rules_http.messages r ## rules_http.done r ->
  rules_http.messages r' ## rules_http.done r'.
Proof.
  intros [r0 msg r1 Hmsg | W r0] Hdisj.
  - destruct (stream_Message_cases _ _ _ Hmsg) as [Heq | [Hnot Heq]];
      rewrite Heq; [done |].
    simpl. apply disjoint_union_l. split; [by apply disjoint_singleton_l | done].
  - unfold rules_http.Action, rules_http.swap.
    destruct (imap.Empty _); [simpl; set_solver |].
    destruct (client_UidFetch _ _) as [fetched fetch_err].
    destruct (rules_http.deliver _ fetched). simpl. set_solver.
Qed.

Lemma stream_step_done_mono {RE : RegexpLib} (r r' : rules_http.StreamRule) :
  stream_step r r' -> rules_http.done r ⊆ rules_http.done r'.
Proof.
  intros [r0 msg r1 Hmsg | W r0].
  - by destruct (stream_Message_cases _ _ _ Hmsg) as [Heq | [_ Heq]]; rewrite Heq.
  - unfold rules_http.Action, rules_http.swap, imap.AddSet.
    destruct (imap.Empty _); [simpl; set_solver |].
    destruct (client_UidFetch _ _) as [fetched fetch_err].
    destruct (rules_http.deliver _ fetched). simpl. set_solver.
Qed.

Lemma stream_steps_disjoint {RE : RegexpLib} (r r' : rules_http.StreamRule) :
  rtc stream_step r r' ->
  rules_http.messages r ## rules_http.done r ->
  rules_http.messages r' ## rules_http.done r'.
Proof. induction 1; eauto using stream_step_disjoint. Qed.

Lemma stream_steps_done_mono {RE : RegexpLib} (r r' : rules_http.StreamRule) :
  rtc stream_step r r' -> rules_http.done r ⊆ rules_http.done r'.
Proof.
  induction 1 as [| r1 r2 r3 Hstep _ IH]; [done |].
  etrans; [by eapply stream_step_done_mono | exact IH].
Qed.

Lemma stream_Action_after {RE : RegexpLib} {W : World} (r : rules_http.StreamRule) :
  after (rules_http.Action r) = snd (rules_http.swap r).
Proof.
  unfold rules_http.Action, rules_http.swap.
  destruct (imap.Empty _); [done |].
  destruct (client_UidFetch _ _) as [fetched fetch_err].
  by destruct (rules_http.deliver _ fetched).
Qed.

Lemma passes_done {RE : RegexpLib} {W : World} (steps : list (option imap.Message))
    (r r' : rules_http.StreamRule) (done done' : gset N) :
  passes rules_http.messages rules_http.Message (fun r => after (rules_http.Action r))
    r done steps = Some (r', done') ->
  done ⊆ rules_http.done r -> done' ⊆ rules_http.done r'.
Proof.
  revert r done. induction steps as [| [msg |] steps IH]; intros r done Hrun Hsub; simpl in Hrun.
  - by injection Hrun as <- <-.
  - destruct (rules_http.Message r msg) as [r1 |] eqn:Hmsg; [| discriminate].
    apply (IH _ _ Hrun).
    destruct (stream_Message_cases _ _ _ Hmsg) as [-> | [_ ->]]; done.
  - apply (IH _ _ Hrun). rewrite stream_Action_after. simpl. unfold imap.AddSet.
    by apply union_mono_r.
Qed.

(** C1, amended.  The stream rule that keeps a done set (the revision of
    the package in README.md): take the rule as any number of match
    steps and action steps leave a new rule.  No identifier of its
    pending set is in its done set.  The match step on a message whose
    identifier is in the done set changes nothing, and a match step adds
    to the pending set at most the identifier of its message, and only
    when that identifier is not in the done set.  The action step leaves
    the rule as the swap at its start makes it, whatever the world
    answers afterwards (a failed fetch, a failed delivery, a panic): the
    pending set is empty and the done set has grown by what was pending.
    The done set never loses an identifier in later steps.  So, after any
    steps, no match step adds to the pending set an identifier that an
    action pass has taken.  The stream rule of [rules.go] keeps no done
    set: its action step leaves it as a new rule, with nothing that
    tells what it has taken, and its match step adds the identifier of
    every message that matches and has an envelope. *)
Theorem stream_at_most_once {RE : RegexpLib} :
  (forall (predicate : option rules.Predicate) (content url : string)
          (r : rules_http.StreamRule),
     rtc stream_step (rules_http.NewStreamRule predicate content url) r ->
     rules_http.messages r ## rules_http.done r /\
     (forall msg, imap.Uid msg ∈ rules_http.done r -> rules_http.Message r msg = Ret r) /\
     (forall msg r', rules_http.Message r msg = Ret r' ->
        rules_http.done r' = rules_http.done r /\
        forall uid, uid ∈ rules_http.messages r' ->
          uid ∈ rules_http.messages r \/ (uid = imap.Uid msg /\ uid ∉ rules_http.done r)) /\
     (forall W : World,
        let a := rules_http.Action r in
        after a = snd (rules_http.swap r) /\
        rules_http.messages (after a) = ∅ /\
        rules_http.done (after a) = rules_http.done r ∪ rules_http.messages r) /\
     (forall r', rtc stream_step r r' -> rules_http.done r ⊆ rules_http.done r')) /\
  (forall (W : World) (r : rules_http.StreamRule),
     at_most_one_attempt rules_http.messages rules_http.Message
       (fun r => after (rules_http.Action r)) r) /\
  (forall (W : World) (s : rules.StreamRule),
     after (rules.StreamRule_Action s)
     = rules.NewStreamRule (rules.stream_Predicate s) (rules.Command s)) /\
  (forall (s : rules.StreamRule) (msg : imap.Message),
     rules.match_predicate (rules.stream_Predicate s) msg = Ret true ->
     imap.Envelope_ msg <> None ->
     rules.StreamRule_Message s msg
     = Ret {| rules.stream_Predicate := rules.stream_Predicate s;
              rules.Command := rules.Command s;
              rules.stream_messages := {[ imap.Uid msg ]} ∪ rules.stream_messages s |}).
Proof.
  split; [| split; [| split]].
  - intros predicate content url r Hreach. split; [| split; [| split; [| split]]].
    + apply (stream_steps_disjoint _ _ Hreach). simpl. set_solver.
    + intros msg Hdone. unfold rules_http.Message, imap.Contains.
      by rewrite bool_decide_eq_true_2.
    + intros msg r' Hmsg.
      destruct (stream_Message_cases _ _ _ Hmsg) as [Heq | [Hnot Heq]]; rewrite Heq.
      * split; [done |]. intros uid Huid. by left.
      * split; [done |]. simpl. intros uid Huid.
        apply elem_of_union in Huid as [Huid | Huid]; [| by left].
        apply elem_of_singleton in Huid as ->. by right.
    + intros W a. subst a. rewrite stream_Action_after. by repeat split.
    + apply stream_steps_done_mono.
  - intros W r0 steps r done msg r' Hrun Hmsg uid Hin Hnot Hdone.
    pose proof (passes_done steps r0 r ∅ done Hrun (empty_subseteq _)) as Hsub.
    destruct (stream_Message_cases _ _ _ Hmsg) as [-> | [Hfresh ->]]; [done |].
    simpl in Hin. apply elem_of_union in Hin as [Hin | Hin]; [| done].
    apply elem_of_singleton in Hin as ->. apply Hfresh, Hsub, Hdone.
  - intros W s. unfold rules.StreamRule_Action, rules.NewStreamRule.
    destruct (imap.Empty _); [done |].
    destruct (client_UidFetch _ _) as [fetched fetch_err].
    by destruct (rules.stream_loop s fetched).
  - intros s msg Hmatch Henv. unfold rules.StreamRule_Message, rules.log_Subject.
    rewrite Hmatch. by destruct (imap.Envelope_ msg).
Qed.

Lemma stream_at_most_once_witness :
  exists r1 : rules_http.StreamRule,
    rules_http.Message (RE := substring_regexp)
      (rules_http.NewStreamRule (Some deal_predicate) "rfc822" "http://sink")
      flagged_message = Ret r1 /\
    rules_http.messages r1 = {[ 7%N ]} /\
    let r2 := after (rules_http.Action (W := example_world) r1) in
    rules_http.messages r2 = ∅ /\ rules_http.done r2 = {[ 7%N ]} /\
    rules_http.Message (RE := substring_regexp) r2 flagged_message = Ret r2.
Proof.
  set (r0 := rules_http.NewStreamRule (Some deal_predicate) "rfc822" "http://sink").
  set (r1 := {| rules_http.Predicate_ := Some deal_predicate;
                rules_http.Content := "rfc822"; rules_http.URL := "http://sink";
                rules_http.messages := {[ 7%N ]} ∪ ∅; rules_http.done := ∅ |}).
  assert (Hmsg : rules_http.Message (RE := substring_regexp) r0 flagged_message = Ret r1)
    by reflexivity.
  assert (H1 : rtc (stream_step (RE := substring_regexp)) r0 r1).
  { eapply rtc_l; [| apply rtc_refl]. by eapply step_message. }
  exists r1. split; [exact Hmsg |]. split; [apply union_empty_r_L |].
  intros r2.
  assert (H2 : rtc (stream_step (RE := substring_regexp)) r0 r2).
  { eapply rtc_r; [exact H1 |]. apply (step_action (RE := substring_regexp) example_world). }
  destruct (proj1 (stream_at_most_once (RE := substring_regexp))
              (Some deal_predicate) "rfc822" "http://sink" r1 H1)
    as (_ & _ & _ & Hact & _).
  destruct (Hact example_world) as (_ & Hpending & Hdone).
  destruct (proj1 (stream_at_most_once (RE := substring_regexp))
              (Some deal_predicate) "rfc822" "http://sink" r2 H2)
    as (_ & Hskip & _).
  assert (Hdone2 : rules_http.done r2 = {[ 7%N ]}).
  { subst r2. rewrite Hdone. simpl. by rewrite union_empty_l_L, union_empty_r_L. }
  split; [exact Hpending |]. split; [exact Hdone2 |].
  apply Hskip. rewrite Hdone2. simpl. by apply elem_of_singleton.
Defined.

(** C1, as stated, fails for the stream rule of [rules.go], which keeps
    no done set: the action pass of the first scan takes the identifier
    of a message, and the match step of the second scan adds it to the
    pending set again, so that it is fetched a second time. *)
Lemma stream_without_done_repeats :
  let s0 := rules.NewStreamRule (Some deal_predicate) "cat" in
  let items := [imap.FetchUid; imap.FetchRFC822Header; imap.FetchRFC822Text] in
  (exists s1 s2,
     rules.StreamRule_Message (RE := substring_regexp) s0 flagged_message = Ret s1 /\
     events (rules.StreamRule_Action (W := example_world) s1)
     = [MailboxRequest (UidFetch {[ 7%N ]} items)] /\
     rules.StreamRule_Message (RE := substring_regexp)
       (after (rules.StreamRule_Action (W := example_world) s1))
       flagged_message = Ret s2 /\
     events (rules.StreamRule_Action (W := example_world) s2)
     = [MailboxRequest (UidFetch {[ 7%N ]} items)]) /\
  ~ at_most_one_attempt rules.stream_messages
      (rules.StreamRule_Message (RE := substring_regexp))
      (fun s => after (rules.StreamRule_Action (W := example_world) s))
      s0.
Proof.
  intros s0 items. split.
  - eexists _, _. split; [reflexivity |]. split; [| split; [reflexivity |]].
    + vm_compute. reflexivity.
    + vm_compute. reflexivity.
  - intros Hclaim.
    apply (Hclaim [Some flagged_message; None] _ _ flagged_message _ eq_refl eq_refl 7%N).
    + vm_compute. reflexivity.
    + vm_compute. intros H. discriminate H.
    + vm_compute. reflexivity.
Qed.

(** C6, as stated, fails for a stream rule with a pending message: its
    action step fetches the message and issues no mutation request. *)
Lemma action_contract_fails_for_stream :
  ~ action_contract (RE := substring_regexp) (W := example_world) pending_stream_rule.
Proof.
  intros (_ & _ & Hreq).
  destruct Hreq as (q & Hq & Hmut & _).
  - intros Hempty. apply (f_equal (fun s => bool_decide (1%N ∈ s))) in Hempty.
    vm_compute in Hempty. discriminate.
  - vm_compute in Hq. injection Hq as <-. discriminate.
Qed.

Lemma with_pending_empty_move (r : rules.MoveRule) :
  rules.move_messages r = ∅ -> rules.Move r = rules.with_pending (rules.Move r) ∅.
Proof. destruct r; simpl; by intros ->. Qed.

(** C6, amended.  The action step of every rule leaves the rule with an
    empty pending set and its predicate and mailbox, flag or command as
    they were; with an empty pending set it returns success and does
    nothing.  With a pending set that is not empty, a Move, Flag or Unflag
    rule issues exactly one mailbox request, a mutation that names the
    whole set; a Stream rule issues one fetch of the whole set and no
    mutation. *)
Theorem action_swaps_and_batches {RE : RegexpLib} {W : World} (r : rules.Rule) :
  if is_stream r then stream_action_contract r else action_contract r.
Proof.
  destruct r as [m | f | u | s]; simpl;
    unfold action_contract, stream_action_contract, rules.Action, rules.pending.
  - unfold rules.MoveRule_Action.
    destruct (imap.Empty (rules.move_messages m)) eqn:E; simpl.
    + apply Empty_true in E. repeat split; try done.
    + apply Empty_false in E. repeat split; try done.
      intros _. eexists. by repeat split.
  - unfold rules.FlagRule_Action.
    destruct (imap.Empty (rules.flag_messages f)) eqn:E; simpl.
    + apply Empty_true in E. repeat split; try done.
    + apply Empty_false in E. repeat split; try done.
      intros _. eexists. by repeat split.
  - unfold rules.UnflagRule_Action.
    destruct (imap.Empty (rules.unflag_messages u)) eqn:E; simpl.
    + apply Empty_true in E. repeat split; try done.
    + apply Empty_false in E. repeat split; try done.
      intros _. eexists. by repeat split.
  - unfold rules.StreamRule_Action.
    destruct (imap.Empty (rules.stream_messages s)) eqn:E; simpl.
    + apply Empty_true in E. repeat split; try done.
    + apply Empty_false in E.
      destruct (client_UidFetch _ _) as [fetched fetch_err].
      destruct (rules.stream_loop s fetched) as [errs evs] eqn:Hloop. simpl.
      repeat split; try done.
      intros _. eexists. f_equal.
      assert (Hrun : forall messages, requests_of (snd (rules.stream_loop s messages)) = []).
      { clear. induction messages as [| m ms IH]; [done |]. simpl.
        destruct (rules.stream_one s m) as [e1 v1] eqn:H1.
        destruct (rules.stream_loop s ms) as [e2 v2]. simpl in *.
        unfold requests_of in *. rewrite omap_app, IH, app_nil_r.
        unfold rules.stream_one in H1.
        destruct (rules.messageParse m); [| by injection H1 as <- <-].
        destruct (rules.messageMIME _ _); [| by injection H1 as <- <-].
        destruct (header_Date _); destruct (mime_DecodeHeader _);
          injection H1 as <- <-; done. }
      specialize (Hrun fetched). rewrite Hloop in Hrun. exact Hrun.
Qed.

Lemma action_swaps_and_batches_witness :
  rules.pending archive_rule <> ∅ /\
  exists q, requests_of (events (rules.Action (W := example_world) archive_rule)) = [q] /\
            is_mutation q = true /\ request_msgs q = rules.pending archive_rule.
Proof.
  assert (Hne : rules.pending archive_rule <> ∅).
  { intros Hempty. apply (f_equal (fun s => bool_decide (1%N ∈ s))) in Hempty.
    vm_compute in Hempty. discriminate. }
  split; [exact Hne |].
  exact (proj2 (proj2 (action_swaps_and_batches (RE := substring_regexp)
                         (W := example_world) archive_rule)) Hne).
Defined.

(** ** Stream delivery *)

Lemma find_part_skips {W : World} (contentType : string) (pre rest : list mail.Part)
    (end_err : error) :
  Forall (other_part contentType) pre ->
  rules.find_part contentType (pre ++ rest) end_err = rules.find_part contentType rest end_err.
Proof.
  induction 1 as [| part pre (mediaType & params & Hparse & Hne) _ IH]; [done |].
  simpl. rewrite Hparse. by rewrite bool_decide_eq_false_2.
Qed.








(** C9.  The guard [resp.StatusCode < 200 && resp.StatusCode >= 300] holds
    for no status code; so whenever [handleMessage] has posted a message
    and the sink has answered, with any status code, [handleMessage]
    returns nil: the delivery counts as a success. *)
Theorem status_guard_never_holds {W : World} :
  (forall StatusCode : Z, rules_http.status_guard StatusCode = false) /\
  (forall (r : rules_http.StreamRule) (message : imap.Message)
          (url : string) (headers : list (string * string)) (body : option mail.Reader)
          (StatusCode : Z),
     In (HttpPost url headers body) (fst (rules_http.handleMessage r message)) ->
     http_Do url headers body = Ok StatusCode ->
     snd (rules_http.handleMessage r message) = Ret None).
Proof.
  assert (Hguard : forall StatusCode : Z, rules_http.status_guard StatusCode = false).
  { intros StatusCode. unfold rules_http.status_guard.
    destruct (StatusCode <? 200) eqn:Hlt; [| reflexivity].
    destruct (StatusCode >=? 300) eqn:Hge; [| reflexivity]. lia. }
  split; [exact Hguard |].
  assert (Hpost : forall r url headers body hs b StatusCode,
             In (HttpPost url headers body) (fst (rules_http.post r hs b)) ->
             http_Do url headers body = Ok StatusCode ->
             snd (rules_http.post r hs b) = Ret None).
  { intros r url headers body hs b StatusCode. unfold rules_http.post.
    destruct (http_NewRequest _); simpl; [done |].
    intros [Heq | []] Hdo. injection Heq as <- <- <-.
    by rewrite Hdo, Hguard. }
  intros r message url headers body StatusCode. unfold rules_http.handleMessage.
  repeat case_bool_decide; try (simpl; tauto); try apply Hpost.
  destruct (rules_http.body_reader message); [| simpl; tauto].
  destruct (mail_ReadMessage _); [| simpl; tauto].
  destruct (rules.messageMIME _ _); [| simpl; tauto].
  destruct (header_Date _); [| simpl; tauto].
  destruct (mime_DecodeHeader _); [| simpl; tauto].
  apply Hpost.
Qed.

Lemma status_guard_never_holds_witness :
  rules_http.handleMessage (W := example_world) rfc822_rule fetched_message
  = ([HttpPost "http://sink"
        [("Content-Type", "message/rfc822"); ("Accept", "application/json")]
        (Some (mail.LiteralReader "Subject: hi"))],
     Ret None).
Proof.
  pose proof (proj2 (status_guard_never_holds (W := example_world))
                rfc822_rule fetched_message "http://sink"
                [("Content-Type", "message/rfc822"); ("Accept", "application/json")]
                (Some (mail.LiteralReader "Subject: hi")) 500
                (or_introl eq_refl) eq_refl) as Hret.
  destruct (rules_http.handleMessage (W := example_world) rfc822_rule fetched_message)
    as [evs o] eqn:Hrun.
  simpl in Hret. subst o.
  vm_compute in Hrun. injection Hrun as <-. reflexivity.
Defined.

(** ** The rule language: examples *)

(** C2, as stated, fails: [a], [b] and [c] are not field names, and the
    code of the first comparison ends the parse with the error of
    [NewFieldPredicate]; this holds for both grammars. *)
Lemma parse_unknown_fields_fails :
  (exists e, parse.Parse (RE := substring_regexp) (XE := plain_errors) (grouping_text "a" "b" "c")
             = Some (Ret ([], Some e))) /\
  (exists e, parse.Parse_with (XE := plain_errors)
               (parse.grammar_rules_y.tables (RE := substring_regexp))
               (grouping_text "a" "b" "c")
             = Some (Ret ([], Some e))).
Proof. split; eexists; vm_compute; reflexivity. Qed.

(** C2, amended.  With field names that the rules know (to, from,
    subject) in the place of [a], [b] and [c], parsing the text succeeds
    with either grammar and yields the single flag rule whose condition
    is the And of the Or of the first two comparisons and of the third
    comparison. *)
Theorem parse_groups_or_and {RE : RegexpLib} {XE : SyntaxErrors} (a b c : string) :
  known_field a -> known_field b -> known_field c ->
  parse.Parse (grouping_text a b c) = Some (Ret ([grouping_rule a b c], None)) /\
  parse.Parse_with parse.grammar_rules_y.tables (grouping_text a b c)
  = Some (Ret ([grouping_rule a b c], None)).
Proof.
  intros [-> | [-> | ->]] [-> | [-> | ->]] [-> | [-> | ->]];
    split; vm_compute; reflexivity.
Qed.

Lemma parse_groups_or_and_witness :
  parse.Parse (RE := substring_regexp) (XE := plain_errors) (grouping_text "to" "from" "subject")
  = Some (Ret ([grouping_rule "to" "from" "subject"], None)).
Proof.
  refine (proj1 (parse_groups_or_and (RE := substring_regexp) (XE := plain_errors)
                  "to" "from" "subject" _ _ _)).
  - left. reflexivity.
  - right. left. reflexivity.
  - right. right. reflexivity.
Defined.

(** C5, at an input on which the code returns a partial list.  A number
    is a token of the lexer for which [tokenNumbers] has no entry: [Lex]
    returns 0, the parser takes it for the end of the input, and [Parse]
    returns the first rule and a nil error although a second rule
    follows. *)
Theorem parse_stops_at_number {RE : RegexpLib} {XE : SyntaxErrors} :
  parse.Parse two_rules_and_a_number
  = Some (Ret ([flag_rule "to" "x" imap.FlaggedFlag], None)).
Proof. vm_compute. reflexivity. Qed.

(** C7, at an input on which the scan does not run to the closing quote.
    The loop of [scanQuote] goes on while [lex.r > 0], so a NUL byte ends
    it as a closing quote does: the token is the quote, [a] and the NUL
    byte, and the lexer goes on after it. *)
Theorem scanQuote_stops_at_nul :
  fst (parse.NextToken (parse.NewLexer quote_with_nul))
  = {| parse.Typ := parse.TokenQuote;
       parse.Value := String dquote ("a" ++ String nul EmptyString);
       parse.Position := 0 |} /\
  map parse.Typ (parse.tokens quote_with_nul)
  = [parse.TokenQuote; parse.TokenIdentifier; parse.TokenError].
Proof. split; vm_compute; reflexivity. Qed.

(** C10, as stated, fails: the grammar [rules.y] keeps the text between
    the quotes as it is, the other grammar replaces the escape sequences
    in it, so the two parsers give different predicates for a string with
    an escaped backslash. *)
Lemma grammars_differ_on_escapes :
  parse.Parse_with (XE := plain_errors)
    (parse.grammar_rules_y.tables (RE := substring_regexp)) escaped_backslash_text
  = Some (Ret ([flag_rule "subject" "a\\b" imap.FlaggedFlag], None)) /\
  parse.Parse_with (XE := plain_errors)
    (parse.grammar_stream.tables (RE := substring_regexp)) escaped_backslash_text
  = Some (Ret ([flag_rule "subject" "a\b" imap.FlaggedFlag], None)) /\
  parse.Parse_with (XE := plain_errors)
    (parse.grammar_rules_y.tables (RE := substring_regexp)) escaped_backslash_text
  <> parse.Parse_with (XE := plain_errors)
       (parse.grammar_stream.tables (RE := substring_regexp)) escaped_backslash_text.
Proof.
  assert (H1 : parse.Parse_with (XE := plain_errors)
                 (parse.grammar_rules_y.tables (RE := substring_regexp))
                 escaped_backslash_text
               = Some (Ret ([flag_rule "subject" "a\\b" imap.FlaggedFlag], None)))
    by (vm_compute; reflexivity).
  assert (H2 : parse.Parse_with (XE := plain_errors)
                 (parse.grammar_stream.tables (RE := substring_regexp))
                 escaped_backslash_text
               = Some (Ret ([flag_rule "subject" "a\b" imap.FlaggedFlag], None)))
    by (vm_compute; reflexivity).
  split; [exact H1 | split; [exact H2 |]].
  rewrite H1, H2. intros Heq. injection Heq as Heq. discriminate Heq.
Qed.

(** ** The driver of the parser *)

Import parse.

Section DriverFacts.
Context (G : Tables) {XE : SyntaxErrors} {L : Type} {YL : yyLexer L}.

Lemma yyloop_mono (n m : nat) (c : yyconfig G) (out : outcome (Z * L)) :
  yyloop G n c = Some out -> (n <= m)%nat -> yyloop G m c = Some out.
Proof.
  revert m c. induction n as [| n IH]; intros m c Hrun Hle; [discriminate |].
  destruct m as [| m]; [lia |]. simpl in *.
  destruct (yystep G c) as [c' | o]; [| exact Hrun].
  apply IH; [exact Hrun | lia].
Qed.

Lemma reaches_det (c : yyconfig G) (o1 o2 : outcome (Z * L)) :
  reaches c o1 -> reaches c o2 -> o1 = o2.
Proof.
  intros [n1 H1] [n2 H2].
  apply (yyloop_mono _ (n1 + n2)) in H1; [| lia].
  apply (yyloop_mono _ (n1 + n2)) in H2; [| lia]. congruence.
Qed.

Lemma reaches_step (c c' : yyconfig G) (out : outcome (Z * L)) :
  yystep G c = inl c' -> reaches c' out -> reaches c out.
Proof. intros Hstep [n Hn]. exists (S n). simpl. by rewrite Hstep. Qed.

Lemma reaches_step_inv (c c' : yyconfig G) (out : outcome (Z * L)) :
  yystep G c = inl c' -> reaches c out -> reaches c' out.
Proof.
  intros Hstep [n Hn]. destruct n as [| n]; [discriminate |].
  simpl in Hn. rewrite Hstep in Hn. by exists n.
Qed.

Lemma reaches_final (c : yyconfig G) (out : outcome (Z * L)) :
  yystep G c = inr out -> reaches c out.
Proof. intros Hstep. exists 1%nat. simpl. by rewrite Hstep. Qed.

Lemma reaches_final_inv (c : yyconfig G) (o out : outcome (Z * L)) :
  yystep G c = inr o -> reaches c out -> out = o.
Proof.
  intros Hstep [n Hn]. destruct n as [| n]; [discriminate |].
  simpl in Hn. rewrite Hstep in Hn. congruence.
Qed.

End DriverFacts.

Section SourceSteps.
Context (G : Tables) {XE : SyntaxErrors}.

(** Reading the lookahead first changes nothing. *)
Lemma step_read stk lv src t v rest :
  toks src = (t, v) :: rest ->
  yystep G (cfg G stk None lv src)
  = yystep G (cfg G stk (Some (Some t)) (set_Value lv v) (with_toks src rest)).
Proof.
  intros Htoks. unfold yystep, cfg. cbn [yyS yychar yylval yylex].
  destruct stk as [| [s sv] stk]; [reflexivity |].
  cbn [Lex TokenSource_yyLexer]. unfold TokenSource_Lex. rewrite Htoks.
  reflexivity.
Qed.

Lemma step_read_end stk lv src :
  toks src = [] ->
  yystep G (cfg G stk None lv src) = yystep G (cfg G stk (Some None) lv (at_end src)).
Proof.
  intros Htoks. unfold yystep, cfg. cbn [yyS yychar yylval yylex].
  destruct stk as [| [s sv] stk]; [reflexivity |].
  cbn [Lex TokenSource_yyLexer]. unfold TokenSource_Lex. rewrite Htoks.
  reflexivity.
Qed.

Lemma step_shift s sv stk t lv src s' :
  action G s (Some t) = Shift s' ->
  yystep G (cfg G ((s, sv) :: stk) (Some (Some t)) lv src)
  = inl (cfg G ((s', lv) :: (s, sv) :: stk) None lv src).
Proof.
  intros Hact. unfold yystep, cfg. cbn [yyS yychar yylval yylex].
  rewrite Hact. reflexivity.
Qed.

Lemma step_reduce s sv stk la lv (src src' : TokenSource) p A below bv rest s' yyVAL :
  action G s la = Reduce p ->
  lhs G p = Some A ->
  drop (List.length (rhs G p)) ((s, sv) :: stk) = (below, bv) :: rest ->
  goto G below A = Some s' ->
  semantic G _ _ p (rev (map snd (take (List.length (rhs G p)) ((s, sv) :: stk)))) src
  = Ret (inl (yyVAL, src')) ->
  yystep G (cfg G ((s, sv) :: stk) (Some la) lv src)
  = inl (cfg G ((s', yyVAL) :: (below, bv) :: rest) (Some la) lv src').
Proof.
  intros Hact Hlhs Hdrop Hgoto Hsem. unfold yystep, cfg.
  cbn [yyS yychar yylval yylex].
  rewrite Hact, Hdrop, Hlhs, Hgoto, Hsem. reflexivity.
Qed.

End SourceSteps.

Section SourceReaches.
Context (G : Tables) {XE : SyntaxErrors}.

Lemma reaches_read stk lv src t v rest out :
  toks src = (t, v) :: rest ->
  reaches (cfg G stk (Some (Some t)) (set_Value lv v) (with_toks src rest)) out ->
  reaches (cfg G stk None lv src) out.
Proof.
  intros Htoks [n Hn]. exists n. destruct n as [| n]; [discriminate |].
  simpl in *. by rewrite (step_read G _ _ _ _ _ _ Htoks).
Qed.

Lemma reaches_unread stk lv src t v rest out :
  toks src = (t, v) :: rest ->
  reaches (cfg G stk None lv src) out ->
  reaches (cfg G stk (Some (Some t)) (set_Value lv v) (with_toks src rest)) out.
Proof.
  intros Htoks [n Hn]. exists n. destruct n as [| n]; [discriminate |].
  simpl in *. by rewrite <- (step_read G _ _ _ _ _ _ Htoks).
Qed.

Lemma reaches_read_end stk lv src out :
  toks src = [] ->
  reaches (cfg G stk (Some None) lv (at_end src)) out ->
  reaches (cfg G stk None lv src) out.
Proof.
  intros Htoks [n Hn]. exists n. destruct n as [| n]; [discriminate |].
  simpl in *. by rewrite (step_read_end G _ _ _ Htoks).
Qed.

Lemma reaches_unread_end stk lv src out :
  toks src = [] ->
  reaches (cfg G stk None lv src) out ->
  reaches (cfg G stk (Some None) lv (at_end src)) out.
Proof.
  intros Htoks [n Hn]. exists n. destruct n as [| n]; [discriminate |].
  simpl in *. by rewrite <- (step_read_end G _ _ _ Htoks).
Qed.

End SourceReaches.

(** ** The grammar with [stream]: every rule file is parsed to its flat
    grouping *)

Section StreamForward.
Context {RE : RegexpLib} {XE : SyntaxErrors}.
Import grammar_stream.

Local Abbreviation G := (grammar_stream.tables).

Ltac gs_read := eapply (reaches_read G); [reflexivity |].
Ltac gs_shift := eapply reaches_step; [apply (step_shift G); reflexivity |].
Ltac gs_reduce :=
  eapply reaches_step;
  [eapply (step_reduce G); [reflexivity | reflexivity | reflexivity | |] |].

Lemma gs_cond_start_shifts (s : state) :
  gs_cond_start s = true ->
  action G s (Some IDENTIFIER) = Shift S_IDENTIFIER /\
  action G s (Some NOT) = Shift S_NOT /\
  action G s (Some LPAREN) = Shift S_LPAREN.
Proof. destruct s; try discriminate; intros _; repeat split. Qed.

Lemma gs_expr_target (s s' : state) :
  gs_expr_start s = true -> goto s N_condition = Some s' ->
  action G s' (Some AND) = Shift S_condition_AND /\
  action G s' (Some OR) = Shift S_condition_OR.
Proof.
  destruct s; try discriminate; intros _ Hgoto; injection Hgoto as <-; split; reflexivity.
Qed.

Lemma gs_follow_reduces (la : terminal) :
  cond_follow la = true ->
  action G S_QUOTE (Some la) = Reduce P_string__QUOTE /\
  action G S_IDENTIFIER_TILDE_string (Some la) = Reduce P_comparison__IDENTIFIER_TILDE_string /\
  action G S_IDENTIFIER_EQUALS_string (Some la) = Reduce P_comparison__IDENTIFIER_EQUALS_string /\
  action G S_comparison (Some la) = Reduce P_condition__comparison /\
  action G S_condition_AND_condition (Some la) = Reduce P_condition__condition_AND_condition /\
  action G S_condition_OR_condition (Some la) = Reduce P_condition__condition_OR_condition /\
  action G S_NOT_condition (Some la) = Reduce P_condition__NOT_condition /\
  action G S_LPAREN_condition_RPAREN (Some la) = Reduce P_condition__LPAREN_condition_RPAREN.
Proof. destruct la; try discriminate; intros _; repeat split. Qed.

Lemma gs_cond_start_gotos (s : state) :
  gs_cond_start s = true -> goto s N_comparison = Some S_comparison.
Proof. destruct s; try discriminate; reflexivity. Qed.

Lemma gs_fwd_cond (c : cond) :
  forall p, flat c = true -> denote_cond grammar_stream.unquote c = Some p ->
  forall s sv stk la lav rest v0 src out s',
    gs_cond_start s = true ->
    is_unary c = true \/ gs_expr_start s = true ->
    cond_follow la = true ->
    goto s N_condition = Some s' ->
    (forall yv, yyPredicate yv = Some p ->
       reaches (cfg G ((s', yv) :: (s, sv) :: stk) (Some (Some la)) (tokval lav)
                  (with_toks src rest)) out) ->
    reaches (cfg G ((s, sv) :: stk) None (tokval v0)
               (with_toks src (cond_tokens c ++ (la, lav) :: rest)%list)) out.
Proof.
  induction c as [field op lit | l IHl r IHr | l IHl r IHr | c IH | c IH];
    intros p Hflat Hden s sv stk la lav rest v0 src out s' Hstart Hun Hfollow Hgoto Hk.
  - (* a comparison *)
    destruct (gs_cond_start_shifts s Hstart) as (Hident & _ & _).
    destruct (gs_follow_reduces la Hfollow) as (Hq & Htilde & Heq & Hcmp & _).
    simpl in Hden. unfold denote_cmp in Hden.
    destruct (unquote lit) as [str |] eqn:Hunq; [| discriminate].
    gs_read. eapply reaches_step; [apply (step_shift G); exact Hident |].
    destruct op; simpl.
    + gs_read. gs_shift. gs_read. gs_shift. gs_read.
      eapply reaches_step.
      { eapply (step_reduce G); [exact Hq | reflexivity | reflexivity | reflexivity |].
        cbn. rewrite Hunq. reflexivity. }
      destruct (regexp_Compile str) eqn:Hre; [discriminate |].
      destruct (rules.NewFieldPredicate field (rules.Regexp str)) as [q |] eqn:Hnew;
        [| discriminate].
      injection Hden as <-.
      eapply reaches_step.
      { eapply (step_reduce G);
          [exact Htilde | reflexivity | reflexivity | apply gs_cond_start_gotos, Hstart |].
        cbn. unfold comparison_tilde. cbn. rewrite Hre, Hnew. reflexivity. }
      eapply reaches_step.
      { eapply (step_reduce G);
          [exact Hcmp | reflexivity | reflexivity | exact Hgoto |].
        cbn. reflexivity. }
      apply Hk. reflexivity.
    + gs_read. gs_shift. gs_read. gs_shift. gs_read.
      eapply reaches_step.
      { eapply (step_reduce G); [exact Hq | reflexivity | reflexivity | reflexivity |].
        cbn. rewrite Hunq. reflexivity. }
      destruct (rules.NewFieldPredicate field (rules.StringEqualsPredicate str))
        as [q |] eqn:Hnew; [| discriminate].
      injection Hden as <-.
      eapply reaches_step.
      { eapply (step_reduce G);
          [exact Heq | reflexivity | reflexivity | apply gs_cond_start_gotos, Hstart |].
        cbn. unfold comparison_equals. cbn. rewrite Hnew. reflexivity. }
      eapply reaches_step.
      { eapply (step_reduce G);
          [exact Hcmp | reflexivity | reflexivity | exact Hgoto |].
        cbn. reflexivity. }
      apply Hk. reflexivity.
  - (* l and r *)
    destruct Hun as [Hun | Hexpr]; [discriminate |].
    simpl in Hflat. apply andb_true_iff in Hflat as [Hflat Hur].
    apply andb_true_iff in Hflat as [Hfl Hfr].
    simpl in Hden.
    destruct (denote_cond unquote l) as [pl |] eqn:Hl; [| discriminate].
    destruct (denote_cond unquote r) as [pr |] eqn:Hr; [| discriminate].
    injection Hden as <-.
    destruct (gs_expr_target s s' Hexpr Hgoto) as (Hand & _).
    destruct (gs_follow_reduces la Hfollow) as (_ & _ & _ & _ & Hred & _).
    simpl. rewrite <- app_assoc. simpl.
    eapply (IHl pl Hfl eq_refl); [exact Hstart | by right | reflexivity | exact Hgoto |].
    intros yl Hyl.
    eapply reaches_step; [apply (step_shift G); exact Hand |].
    eapply (IHr pr Hfr eq_refl); [reflexivity | by left | exact Hfollow | reflexivity |].
    intros yr Hyr.
    eapply reaches_step.
    { eapply (step_reduce G); [exact Hred | reflexivity | reflexivity | exact Hgoto |].
      cbn. rewrite Hyl, Hyr. reflexivity. }
    apply Hk. reflexivity.
  - (* l or r *)
    destruct Hun as [Hun | Hexpr]; [discriminate |].
    simpl in Hflat. apply andb_true_iff in Hflat as [Hflat Hur].
    apply andb_true_iff in Hflat as [Hfl Hfr].
    simpl in Hden.
    destruct (denote_cond unquote l) as [pl |] eqn:Hl; [| discriminate].
    destruct (denote_cond unquote r) as [pr |] eqn:Hr; [| discriminate].
    injection Hden as <-.
    destruct (gs_expr_target s s' Hexpr Hgoto) as (_ & Hor).
    destruct (gs_follow_reduces la Hfollow) as (_ & _ & _ & _ & _ & Hred & _).
    simpl. rewrite <- app_assoc. simpl.
    eapply (IHl pl Hfl eq_refl); [exact Hstart | by right | reflexivity | exact Hgoto |].
    intros yl Hyl.
    eapply reaches_step; [apply (step_shift G); exact Hor |].
    eapply (IHr pr Hfr eq_refl); [reflexivity | by left | exact Hfollow | reflexivity |].
    intros yr Hyr.
    eapply reaches_step.
    { eapply (step_reduce G); [exact Hred | reflexivity | reflexivity | exact Hgoto |].
      cbn. rewrite Hyl, Hyr. reflexivity. }
    apply Hk. reflexivity.
  - (* not c *)
    simpl in Hflat. apply andb_true_iff in Hflat as [Hfc Huc].
    simpl in Hden.
    destruct (denote_cond unquote c) as [pc |] eqn:Hc; [| discriminate].
    injection Hden as <-.
    destruct (gs_cond_start_shifts s Hstart) as (_ & Hnot & _).
    destruct (gs_follow_reduces la Hfollow) as (_ & _ & _ & _ & _ & _ & Hred & _).
    simpl. gs_read.
    eapply reaches_step; [apply (step_shift G); exact Hnot |].
    eapply (IH pc Hfc eq_refl); [reflexivity | by left | exact Hfollow | reflexivity |].
    intros yc Hyc.
    eapply reaches_step.
    { eapply (step_reduce G); [exact Hred | reflexivity | reflexivity | exact Hgoto |].
      cbn. rewrite Hyc. reflexivity. }
    apply Hk. reflexivity.
  - (* ( c ) *)
    simpl in Hflat. simpl in Hden.
    destruct (gs_cond_start_shifts s Hstart) as (_ & _ & Hparen).
    destruct (gs_follow_reduces la Hfollow) as (_ & _ & _ & _ & _ & _ & _ & Hred).
    simpl. gs_read.
    eapply reaches_step; [apply (step_shift G); exact Hparen |].
    rewrite <- app_assoc. simpl.
    eapply (IH p Hflat Hden); [reflexivity | by right | reflexivity | reflexivity |].
    intros yc Hyc.
    gs_shift. gs_read.
    eapply reaches_step.
    { eapply (step_reduce G); [exact Hred | reflexivity | reflexivity | exact Hgoto |].
      cbn. reflexivity. }
    apply Hk. exact Hyc.
Qed.

Lemma gs_fwd_rule (r : rule_syntax) (rr : rules.Rule) :
  flat (fst r) = true -> denote_rule grammar_stream.unquote r = Some rr ->
  forall s sv stk rest v0 src out s',
    action G s (Some IF) = Shift S_IF ->
    goto s N_rule = Some s' ->
    reaches (cfg G ((s', set_Rule (tokval "if") (Some rr)) :: (s, sv) :: stk)
               (Some (Some SEMICOLON)) (tokval ";") (with_toks src rest)) out ->
    reaches (cfg G ((s, sv) :: stk) None (tokval v0)
               (with_toks src (rule_tokens r ++ rest)%list)) out.
Proof.
  destruct r as [c a]. simpl fst. intros Hflat Hden s sv stk rest v0 src out s' Hif Hgoto Hk.
  unfold denote_rule in Hden. simpl fst in Hden. simpl snd in Hden.
  destruct (denote_cond unquote c) as [p |] eqn:Hc; [| discriminate].
  unfold rule_tokens. simpl fst. simpl snd. simpl.
  gs_read. eapply reaches_step; [apply (step_shift G); exact Hif |].
  rewrite <- app_assoc. simpl.
  eapply (gs_fwd_cond c p Hflat Hc);
    [reflexivity | by right | reflexivity | reflexivity |].
  intros yc Hyc. gs_shift.
  destruct a as [lit | [lit |] | [lit |] | lit]; simpl.
  - (* move *)
    destruct (unquote lit) as [str |] eqn:Hunq; [| discriminate]. injection Hden as <-.
    gs_read. gs_shift. gs_read. gs_shift. gs_read.
    gs_reduce; [reflexivity | cbn; rewrite Hunq; reflexivity |].
    gs_reduce; [reflexivity | cbn; reflexivity |].
    gs_reduce; [exact Hgoto | cbn; unfold rule_of_move; cbn; rewrite Hyc; reflexivity |].
    exact Hk.
  - (* flag with a name *)
    destruct (unquote lit) as [str |] eqn:Hunq; [| discriminate]. injection Hden as <-.
    gs_read. gs_shift. gs_read. gs_shift. gs_read.
    gs_reduce; [reflexivity | cbn; rewrite Hunq; reflexivity |].
    gs_reduce; [reflexivity | cbn; reflexivity |].
    gs_reduce; [exact Hgoto | cbn; unfold rule_of_flag; cbn; rewrite Hyc; reflexivity |].
    exact Hk.
  - (* flag *)
    injection Hden as <-.
    gs_read. gs_shift. gs_read.
    gs_reduce; [reflexivity | cbn; reflexivity |].
    gs_reduce; [exact Hgoto | cbn; unfold rule_of_flag; cbn; rewrite Hyc; reflexivity |].
    exact Hk.
  - (* unflag with a name *)
    destruct (unquote lit) as [str |] eqn:Hunq; [| discriminate]. injection Hden as <-.
    gs_read. gs_shift. gs_read. gs_shift. gs_read.
    gs_reduce; [reflexivity | cbn; rewrite Hunq; reflexivity |].
    gs_reduce; [reflexivity | cbn; reflexivity |].
    gs_reduce; [exact Hgoto | cbn; unfold rule_of_unflag; cbn; rewrite Hyc; reflexivity |].
    exact Hk.
  - (* unflag *)
    injection Hden as <-.
    gs_read. gs_shift. gs_read.
    gs_reduce; [reflexivity | cbn; reflexivity |].
    gs_reduce; [exact Hgoto | cbn; unfold rule_of_unflag; cbn; rewrite Hyc; reflexivity |].
    exact Hk.
  - (* stream *)
    destruct (unquote lit) as [str |] eqn:Hunq; [| discriminate]. injection Hden as <-.
    gs_read. gs_shift. gs_read. gs_shift. gs_read.
    gs_reduce; [reflexivity | cbn; rewrite Hunq; reflexivity |].
    gs_reduce; [reflexivity | cbn; reflexivity |].
    gs_reduce; [exact Hgoto | cbn; unfold rule_of_stream; cbn; rewrite Hyc; reflexivity |].
    exact Hk.
Qed.

Lemma file_tokens_head (f : list rule_syntax) :
  file_tokens f = [] \/ exists rest, file_tokens f = (IF, "if") :: rest.
Proof.
  destruct f as [| [c a] f]; [by left | right].
  unfold file_tokens. simpl. eexists. reflexivity.
Qed.

Lemma gs_fwd_file (f : list rule_syntax) :
  forall rs, flat_file f -> denote_file grammar_stream.unquote f = Some rs ->
  forall yacc v0 src,
    reaches (cfg G [(S_rules, yacc); (S_start, yyZero)] None (tokval v0)
               (with_toks src (file_tokens f)))
            (Ret (0, finished src (yyRules yacc ++ rs)%list)).
Proof.
  induction f as [| r f IH]; intros rs Hflat Hden yacc v0 src.
  - injection Hden as <-. rewrite app_nil_r.
    apply (reaches_read_end G); [reflexivity |].
    gs_reduce; [reflexivity | cbn; reflexivity |].
    apply reaches_final. reflexivity.
  - simpl in Hden.
    destruct (denote_rule unquote r) as [rr |] eqn:Hr; [| discriminate].
    destruct (denote_file unquote f) as [rs' |] eqn:Hf; [| discriminate].
    injection Hden as <-.
    inversion Hflat as [| r0 f0 Hflat_r Hflat_f]; subst.
    change (file_tokens (r :: f)) with (rule_tokens r ++ file_tokens f)%list.
    eapply (gs_fwd_rule r rr Hflat_r Hr); [reflexivity | reflexivity |].
    gs_shift.
    destruct (file_tokens_head f) as [Hnil | [rest Hhead]].
    + rewrite Hnil. apply (reaches_read_end G); [reflexivity |].
      gs_reduce; [reflexivity | cbn; reflexivity |].
      specialize (IH rs' Hflat_f eq_refl
                    (set_Rules yacc (yyRules yacc ++ [rr])%list) ";" src).
      rewrite Hnil in IH. apply (reaches_unread_end G) in IH; [| reflexivity].
      cbn in IH. rewrite <- app_assoc in IH. exact IH.
    + rewrite Hhead. gs_read.
      gs_reduce; [reflexivity | cbn; reflexivity |].
      specialize (IH rs' Hflat_f eq_refl
                    (set_Rules yacc (yyRules yacc ++ [rr])%list) ";" src).
      rewrite Hhead in IH. eapply (reaches_unread G) in IH; [| reflexivity].
      cbn in IH. rewrite <- app_assoc in IH. exact IH.
Qed.

(** Every rule file whose conditions are written in the flat grouping,
    and whose comparisons and strings the code of the productions
    accepts, is accepted with the rules it denotes. *)
Lemma gs_forward (f : list rule_syntax) (rs : list rules.Rule) (fails : bool) :
  f <> [] -> flat_file f -> denote_file grammar_stream.unquote f = Some rs ->
  reaches (cfg G [(init G, yyZero)] None yyZero (source (file_tokens f) fails))
          (Ret (0, finished (source (file_tokens f) fails) rs)).
Proof.
  destruct f as [| r f]; [done |]. intros _ Hflat Hden.
  simpl in Hden.
  destruct (denote_rule unquote r) as [rr |] eqn:Hr; [| discriminate].
  destruct (denote_file unquote f) as [rs' |] eqn:Hf; [| discriminate].
  injection Hden as <-.
  inversion Hflat as [| r0 f0 Hflat_r Hflat_f]; subst.
  change (file_tokens (r :: f)) with (rule_tokens r ++ file_tokens f)%list.
  change yyZero with (tokval EmptyString) at 2.
  change (source (rule_tokens r ++ file_tokens f) fails)
    with (with_toks (source [] fails) (rule_tokens r ++ file_tokens f)%list) at 1.
  eapply (gs_fwd_rule r rr Hflat_r Hr); [reflexivity | reflexivity |].
  gs_shift.
  pose proof (gs_fwd_file f rs' Hflat_f Hf
                (set_Rules (set_Rule (tokval "if") (Some rr)) [rr]) ";"
                (source [] fails)) as Hfile.
  destruct (file_tokens_head f) as [Hnil | [rest Hhead]].
  - rewrite Hnil in *. apply (reaches_read_end G); [reflexivity |].
    gs_reduce; [reflexivity | cbn; reflexivity |].
    apply (reaches_unread_end G) in Hfile; [| reflexivity]. exact Hfile.
  - rewrite Hhead in *. gs_read.
    gs_reduce; [reflexivity | cbn; reflexivity |].
    eapply (reaches_unread G) in Hfile; [| reflexivity]. exact Hfile.
Qed.

End StreamForward.

(** ** The grammar [rules.y] on a rule file in the flat grouping *)

Section RulesYForward.
Context {RE : RegexpLib} {XE : SyntaxErrors}.
Import grammar_rules_y.

Local Abbreviation G := (grammar_rules_y.tables).

Ltac gy_read := eapply (reaches_read G); [reflexivity |].
Ltac gy_shift := eapply reaches_step; [apply (step_shift G); reflexivity |].
Ltac gy_reduce :=
  eapply reaches_step;
  [eapply (step_reduce G); [reflexivity | reflexivity | reflexivity | |] |].

Lemma gy_cond_start_shifts (s : state) :
  gy_cond_start s = true ->
  action G s (Some IDENTIFIER) = Shift S_IDENTIFIER /\
  action G s (Some NOT) = Shift S_NOT /\
  action G s (Some LPAREN) = Shift S_LPAREN.
Proof. destruct s; try discriminate; intros _; repeat split. Qed.

Lemma gy_expr_target (s s' : state) :
  gy_expr_start s = true -> goto s N_condition = Some s' ->
  action G s' (Some AND) = Shift S_condition_AND /\
  action G s' (Some OR) = Shift S_condition_OR.
Proof.
  destruct s; try discriminate; intros _ Hgoto; injection Hgoto as <-; split; reflexivity.
Qed.

Lemma gy_follow_reduces (la : terminal) :
  cond_follow la = true ->
  action G S_IDENTIFIER_TILDE_QUOTE (Some la) = Reduce P_comparison__IDENTIFIER_TILDE_QUOTE /\
  action G S_IDENTIFIER_EQUALS_QUOTE (Some la) = Reduce P_comparison__IDENTIFIER_EQUALS_QUOTE /\
  action G S_comparison (Some la) = Reduce P_condition__comparison /\
  action G S_condition_AND_condition (Some la) = Reduce P_condition__condition_AND_condition /\
  action G S_condition_OR_condition (Some la) = Reduce P_condition__condition_OR_condition /\
  action G S_NOT_condition (Some la) = Reduce P_condition__NOT_condition /\
  action G S_LPAREN_condition_RPAREN (Some la) = Reduce P_condition__LPAREN_condition_RPAREN.
Proof. destruct la; try discriminate; intros _; repeat split. Qed.

Lemma gy_cond_start_gotos (s : state) :
  gy_cond_start s = true -> goto s N_comparison = Some S_comparison.
Proof. destruct s; try discriminate; reflexivity. Qed.

Lemma gy_fwd_cond (c : cond) :
  forall p, flat c = true -> denote_cond strip_quotes c = Some p ->
  forall s sv stk la lav rest v0 src out s',
    gy_cond_start s = true ->
    is_unary c = true \/ gy_expr_start s = true ->
    cond_follow la = true ->
    goto s N_condition = Some s' ->
    (forall yv, yyPredicate yv = Some p ->
       reaches (cfg G ((s', yv) :: (s, sv) :: stk) (Some (Some la)) (tokval lav)
                  (with_toks src rest)) out) ->
    reaches (cfg G ((s, sv) :: stk) None (tokval v0)
               (with_toks src (cond_tokens c ++ (la, lav) :: rest)%list)) out.
Proof.
  induction c as [field op lit | l IHl r IHr | l IHl r IHr | c IH | c IH];
    intros p Hflat Hden s sv stk la lav rest v0 src out s' Hstart Hun Hfollow Hgoto Hk.
  - (* a comparison *)
    destruct (gy_cond_start_shifts s Hstart) as (Hident & _ & _).
    destruct (gy_follow_reduces la Hfollow) as (Htilde & Heq & Hcmp & _).
    simpl in Hden. unfold denote_cmp in Hden.
    destruct (strip_quotes lit) as [str |] eqn:Hunq; [| discriminate].
    gy_read. eapply reaches_step; [apply (step_shift G); exact Hident |].
    destruct op; simpl.
    + gy_read. gy_shift. gy_read. gy_shift. gy_read.
      destruct (regexp_Compile str) eqn:Hre; [discriminate |].
      destruct (rules.NewFieldPredicate field (rules.Regexp str)) as [q |] eqn:Hnew;
        [| discriminate].
      injection Hden as <-.
      eapply reaches_step.
      { eapply (step_reduce G);
          [exact Htilde | reflexivity | reflexivity | apply gy_cond_start_gotos, Hstart |].
        cbn. unfold comparison_tilde. cbn. rewrite Hunq, Hre, Hnew. reflexivity. }
      eapply reaches_step.
      { eapply (step_reduce G);
          [exact Hcmp | reflexivity | reflexivity | exact Hgoto |].
        cbn. reflexivity. }
      apply Hk. reflexivity.
    + gy_read. gy_shift. gy_read. gy_shift. gy_read.
      destruct (rules.NewFieldPredicate field (rules.StringEqualsPredicate str))
        as [q |] eqn:Hnew; [| discriminate].
      injection Hden as <-.
      eapply reaches_step.
      { eapply (step_reduce G);
          [exact Heq | reflexivity | reflexivity | apply gy_cond_start_gotos, Hstart |].
        cbn. unfold comparison_equals. cbn. rewrite Hunq, Hnew. reflexivity. }
      eapply reaches_step.
      { eapply (step_reduce G);
          [exact Hcmp | reflexivity | reflexivity | exact Hgoto |].
        cbn. reflexivity. }
      apply Hk. reflexivity.
  - (* l and r *)
    destruct Hun as [Hun | Hexpr]; [discriminate |].
    simpl in Hflat. apply andb_true_iff in Hflat as [Hflat Hur].
    apply andb_true_iff in Hflat as [Hfl Hfr].
    simpl in Hden.
    destruct (denote_cond strip_quotes l) as [pl |] eqn:Hl; [| discriminate].
    destruct (denote_cond strip_quotes r) as [pr |] eqn:Hr; [| discriminate].
    injection Hden as <-.
    destruct (gy_expr_target s s' Hexpr Hgoto) as (Hand & _).
    destruct (gy_follow_reduces la Hfollow) as (_ & _ & _ & Hred & _).
    simpl. rewrite <- app_assoc. simpl.
    eapply (IHl pl Hfl eq_refl); [exact Hstart | by right | reflexivity | exact Hgoto |].
    intros yl Hyl.
    eapply reaches_step; [apply (step_shift G); exact Hand |].
    eapply (IHr pr Hfr eq_refl); [reflexivity | by left | exact Hfollow | reflexivity |].
    intros yr Hyr.
    eapply reaches_step.
    { eapply (step_reduce G); [exact Hred | reflexivity | reflexivity | exact Hgoto |].
      cbn. rewrite Hyl, Hyr. reflexivity. }
    apply Hk. reflexivity.
  - (* l or r *)
    destruct Hun as [Hun | Hexpr]; [discriminate |].
    simpl in Hflat. apply andb_true_iff in Hflat as [Hflat Hur].
    apply andb_true_iff in Hflat as [Hfl Hfr].
    simpl in Hden.
    destruct (denote_cond strip_quotes l) as [pl |] eqn:Hl; [| discriminate].
    destruct (denote_cond strip_quotes r) as [pr |] eqn:Hr; [| discriminate].
    injection Hden as <-.
    destruct (gy_expr_target s s' Hexpr Hgoto) as (_ & Hor).
    destruct (gy_follow_reduces la Hfollow) as (_ & _ & _ & _ & Hred & _).
    simpl. rewrite <- app_assoc. simpl.
    eapply (IHl pl Hfl eq_refl); [exact Hstart | by right | reflexivity | exact Hgoto |].
    intros yl Hyl.
    eapply reaches_step; [apply (step_shift G); exact Hor |].
    eapply (IHr pr Hfr eq_refl); [reflexivity | by left | exact Hfollow | reflexivity |].
    intros yr Hyr.
    eapply reaches_step.
    { eapply (step_reduce G); [exact Hred | reflexivity | reflexivity | exact Hgoto |].
      cbn. rewrite Hyl, Hyr. reflexivity. }
    apply Hk. reflexivity.
  - (* not c *)
    simpl in Hflat. apply andb_true_iff in Hflat as [Hfc Huc].
    simpl in Hden.
    destruct (denote_cond strip_quotes c) as [pc |] eqn:Hc; [| discriminate].
    injection Hden as <-.
    destruct (gy_cond_start_shifts s Hstart) as (_ & Hnot & _).
    destruct (gy_follow_reduces la Hfollow) as (_ & _ & _ & _ & _ & Hred & _).
    simpl. gy_read.
    eapply reaches_step; [apply (step_shift G); exact Hnot |].
    eapply (IH pc Hfc eq_refl); [reflexivity | by left | exact Hfollow | reflexivity |].
    intros yc Hyc.
    eapply reaches_step.
    { eapply (step_reduce G); [exact Hred | reflexivity | reflexivity | exact Hgoto |].
      cbn. rewrite Hyc. reflexivity. }
    apply Hk. reflexivity.
  - (* ( c ) *)
    simpl in Hflat. simpl in Hden.
    destruct (gy_cond_start_shifts s Hstart) as (_ & _ & Hparen).
    destruct (gy_follow_reduces la Hfollow) as (_ & _ & _ & _ & _ & _ & Hred).
    simpl. gy_read.
    eapply reaches_step; [apply (step_shift G); exact Hparen |].
    rewrite <- app_assoc. simpl.
    eapply (IH p Hflat Hden); [reflexivity | by right | reflexivity | reflexivity |].
    intros yc Hyc.
    gy_shift. gy_read.
    eapply reaches_step.
    { eapply (step_reduce G); [exact Hred | reflexivity | reflexivity | exact Hgoto |].
      cbn. reflexivity. }
    apply Hk. exact Hyc.
Qed.

Lemma gy_fwd_rule (r : rule_syntax) (rr : rules.Rule) :
  flat (fst r) = true -> uses_stream r = false ->
  denote_rule strip_quotes r = Some rr ->
  forall s sv stk rest v0 src out s',
    action G s (Some IF) = Shift S_IF ->
    goto s N_rule = Some s' ->
    reaches (cfg G ((s', set_Rule (tokval "if") (Some rr)) :: (s, sv) :: stk)
               (Some (Some SEMICOLON)) (tokval ";") (with_toks src rest)) out ->
    reaches (cfg G ((s, sv) :: stk) None (tokval v0)
               (with_toks src (rule_tokens r ++ rest)%list)) out.
Proof.
  destruct r as [c a]. simpl fst.
  intros Hflat Hns Hden s sv stk rest v0 src out s' Hif Hgoto Hk.
  unfold denote_rule in Hden. simpl fst in Hden. simpl snd in Hden.
  destruct (denote_cond strip_quotes c) as [p |] eqn:Hc; [| discriminate].
  unfold rule_tokens. simpl fst. simpl snd. simpl.
  gy_read. eapply reaches_step; [apply (step_shift G); exact Hif |].
  rewrite <- app_assoc. simpl.
  eapply (gy_fwd_cond c p Hflat Hc);
    [reflexivity | by right | reflexivity | reflexivity |].
  intros yc Hyc. gy_shift.
  destruct a as [lit | [lit |] | [lit |] | lit]; simpl; [| | | | | discriminate Hns].
  - (* move *)
    destruct (strip_quotes lit) as [str |] eqn:Hunq; [| discriminate]. injection Hden as <-.
    gy_read. gy_shift. gy_read. gy_shift. gy_read.
    gy_reduce; [reflexivity | cbn; rewrite Hunq; reflexivity |].
    gy_reduce; [exact Hgoto | cbn; unfold rule_of_move; cbn; rewrite Hyc; reflexivity |].
    exact Hk.
  - (* flag with a name *)
    destruct (strip_quotes lit) as [str |] eqn:Hunq; [| discriminate]. injection Hden as <-.
    gy_read. gy_shift. gy_read. gy_shift. gy_read.
    gy_reduce; [reflexivity | cbn; rewrite Hunq; reflexivity |].
    gy_reduce; [exact Hgoto | cbn; unfold rule_of_flag; cbn; rewrite Hyc; reflexivity |].
    exact Hk.
  - (* flag *)
    injection Hden as <-.
    gy_read. gy_shift. gy_read.
    gy_reduce; [reflexivity | cbn; reflexivity |].
    gy_reduce; [exact Hgoto | cbn; unfold rule_of_flag; cbn; rewrite Hyc; reflexivity |].
    exact Hk.
  - (* unflag with a name *)
    destruct (strip_quotes lit) as [str |] eqn:Hunq; [| discriminate]. injection Hden as <-.
    gy_read. gy_shift. gy_read. gy_shift. gy_read.
    gy_reduce; [reflexivity | cbn; rewrite Hunq; reflexivity |].
    gy_reduce; [exact Hgoto | cbn; unfold rule_of_unflag; cbn; rewrite Hyc; reflexivity |].
    exact Hk.
  - (* unflag *)
    injection Hden as <-.
    gy_read. gy_shift. gy_read.
    gy_reduce; [reflexivity | cbn; reflexivity |].
    gy_reduce; [exact Hgoto | cbn; unfold rule_of_unflag; cbn; rewrite Hyc; reflexivity |].
    exact Hk.
Qed.

Lemma gy_fwd_file (f : list rule_syntax) :
  forall rs, flat_file f -> no_stream f -> denote_file strip_quotes f = Some rs ->
  forall yacc v0 src,
    reaches (cfg G [(S_rules, yacc); (S_start, yyZero)] None (tokval v0)
               (with_toks src (file_tokens f)))
            (Ret (0, finished src (yyRules yacc ++ rs)%list)).
Proof.
  induction f as [| r f IH]; intros rs Hflat Hns Hden yacc v0 src.
  - injection Hden as <-. rewrite app_nil_r.
    apply (reaches_read_end G); [reflexivity |].
    gy_reduce; [reflexivity | cbn; reflexivity |].
    apply reaches_final. reflexivity.
  - simpl in Hden.
    destruct (denote_rule strip_quotes r) as [rr |] eqn:Hr; [| discriminate].
    destruct (denote_file strip_quotes f) as [rs' |] eqn:Hf; [| discriminate].
    injection Hden as <-.
    inversion Hflat as [| r0 f0 Hflat_r Hflat_f]; subst.
    inversion Hns as [| r0 f0 Hns_r Hns_f]; subst.
    change (file_tokens (r :: f)) with (rule_tokens r ++ file_tokens f)%list.
    eapply (gy_fwd_rule r rr Hflat_r Hns_r Hr); [reflexivity | reflexivity |].
    gy_shift.
    destruct (file_tokens_head f) as [Hnil | [rest Hhead]].
    + rewrite Hnil. apply (reaches_read_end G); [reflexivity |].
      gy_reduce; [reflexivity | cbn; reflexivity |].
      specialize (IH rs' Hflat_f Hns_f eq_refl
                    (set_Rules yacc (yyRules yacc ++ [rr])%list) ";" src).
      rewrite Hnil in IH. apply (reaches_unread_end G) in IH; [| reflexivity].
      cbn in IH. rewrite <- app_assoc in IH. exact IH.
    + rewrite Hhead. gy_read.
      gy_reduce; [reflexivity | cbn; reflexivity |].
      specialize (IH rs' Hflat_f Hns_f eq_refl
                    (set_Rules yacc (yyRules yacc ++ [rr])%list) ";" src).
      rewrite Hhead in IH. eapply (reaches_unread G) in IH; [| reflexivity].
      cbn in IH. rewrite <- app_assoc in IH. exact IH.
Qed.

(** Every rule file without the stream rule whose conditions are written
    in the flat grouping, and whose comparisons the code of the
    productions accepts, is accepted with the rules it denotes. *)
Lemma gy_forward (f : list rule_syntax) (rs : list rules.Rule) (fails : bool) :
  f <> [] -> flat_file f -> no_stream f -> denote_file strip_quotes f = Some rs ->
  reaches (cfg G [(init G, yyZero)] None yyZero (source (file_tokens f) fails))
          (Ret (0, finished (source (file_tokens f) fails) rs)).
Proof.
  destruct f as [| r f]; [done |]. intros _ Hflat Hns Hden.
  simpl in Hden.
  destruct (denote_rule strip_quotes r) as [rr |] eqn:Hr; [| discriminate].
  destruct (denote_file strip_quotes f) as [rs' |] eqn:Hf; [| discriminate].
  injection Hden as <-.
  inversion Hflat as [| r0 f0 Hflat_r Hflat_f]; subst.
  inversion Hns as [| r0 f0 Hns_r Hns_f]; subst.
  change (file_tokens (r :: f)) with (rule_tokens r ++ file_tokens f)%list.
  change yyZero with (tokval EmptyString) at 2.
  change (source (rule_tokens r ++ file_tokens f) fails)
    with (with_toks (source [] fails) (rule_tokens r ++ file_tokens f)%list) at 1.
  eapply (gy_fwd_rule r rr Hflat_r Hns_r Hr); [reflexivity | reflexivity |].
  gy_shift.
  pose proof (gy_fwd_file f rs' Hflat_f Hns_f Hf
                (set_Rules (set_Rule (tokval "if") (Some rr)) [rr]) ";"
                (source [] fails)) as Hfile.
  destruct (file_tokens_head f) as [Hnil | [rest Hhead]].
  - rewrite Hnil in *. apply (reaches_read_end G); [reflexivity |].
    gy_reduce; [reflexivity | cbn; reflexivity |].
    apply (reaches_unread_end G) in Hfile; [| reflexivity]. exact Hfile.
  - rewrite Hhead in *. gy_read.
    gy_reduce; [reflexivity | cbn; reflexivity |].
    eapply (reaches_unread G) in Hfile; [| reflexivity]. exact Hfile.
Qed.

End RulesYForward.


(** ** The parser on [Parser.Lex] goes the way of the parser on the list
    of the tokens that [Parser.Lex] returns *)

Lemma Parser_Lex_loop_lval (fuel : nat) (p : Parser) (lval : yySymType) :
  let '(n, v, p') := Parser_Lex_loop fuel p lval in
  let '(n0, v0, p0) := Parser_Lex_loop fuel p yyZero in
  n = n0 /\ p' = p0 /\
  match n with
  | TokenNumberOf _ => v = set_Value lval (yyValue v0)
  | LexInt _ => True
  end.
Proof.
  revert p. induction fuel as [| fuel IH]; intros p; simpl;
    destruct (NextToken (lexer p)) as [tok lexer']; destruct (Typ tok);
    first [by repeat split | apply IH].
Qed.

Lemma Parser_Lex_loop_result (fuel : nat) (p : Parser) (lval : yySymType)
    (rs : list rules.Rule) :
  Parser_Lex_loop fuel (set_result p rs) lval
  = let '(n, v, p') := Parser_Lex_loop fuel p lval in (n, v, set_result p' rs).
Proof.
  revert p. induction fuel as [| fuel IH]; intros p; simpl;
    destruct (NextToken (lexer p)) as [tok lexer']; destruct (Typ tok);
    first [reflexivity
          | apply (IH {| lexer := lexer'; last := Some tok; result := result p;
                         err := err p |})].
Qed.

Lemma Parser_Lex_loop_err (fuel : nat) (p : Parser) (lval : yySymType) :
  err p = None ->
  let '(n, v, p') := Parser_Lex_loop fuel p lval in
  match n with
  | TokenNumberOf _ => err p' = None /\ result p' = result p
  | LexInt _ => result p' = result p
  end.
Proof.
  revert p. induction fuel as [| fuel IH]; intros p Herr; simpl;
    destruct (NextToken (lexer p)) as [tok lexer']; destruct (Typ tok);
    simpl; first [done
                 | apply (IH {| lexer := lexer'; last := Some tok; result := result p;
                                err := err p |}); exact Herr].
Qed.

Lemma drain_set_result (n : nat) (p : Parser) (rs : list rules.Rule) :
  drain n (set_result p rs) = drain n p.
Proof.
  revert p. induction n as [| n IH]; intros p; [reflexivity |].
  simpl. unfold Parser_Lex. cbn [lexer set_result Parser_yyLexer].
  pose proof (Parser_Lex_loop_result (len (buf (lexer p))) p yyZero rs) as Hres.
  cbn [set_result Parser_yyLexer] in Hres. rewrite Hres.
  destruct (Parser_Lex_loop _ p yyZero) as [[c v] p'].
  destruct c; [| reflexivity].
  pose proof (IH p') as IH'. cbn [set_result Parser_yyLexer] in IH'.
  rewrite IH'. reflexivity.
Qed.

Section Bridge.
Context (G : Tables) (HU : uniform G).

(** The parser over the text and the parser over the tokens may have
    different texts for a syntax error. *)
Context {XP XT : SyntaxErrors}.

(** Reading the lookahead first changes nothing, whatever the lexer. *)
Lemma step_read_any {L : Type} {YL : yyLexer L} {XE : SyntaxErrors} (c : yyconfig G) :
  yychar G c = None ->
  yystep G c
  = let '(n, lval, yylex') := Lex (yylex G c) (yylval G c) in
    yystep G {| yyS := yyS G c; yychar := Some (yylex1 n); yylval := lval;
                yylex := yylex' |}.
Proof.
  intros Hnone. unfold yystep. rewrite Hnone.
  destruct (Lex (yylex G c) (yylval G c)) as [[n lval] yylex']. reflexivity.
Qed.

Lemma same_outcome_Error (p : Parser) (s : TokenSource) (msg msg' : string) :
  same_outcome (Error p msg) (Error s msg').
Proof. split; [split; discriminate | discriminate]. Qed.

Lemma same_stream_outcome (p : Parser) (s : TokenSource) :
  same_stream p s -> same_outcome p s.
Proof. intros (Hp & Hs & Hres & _). split; [by split | done]. Qed.

Lemma same_stream_set_result (p : Parser) (s : TokenSource) (rs : list rules.Rule) :
  same_stream p s -> same_stream (set_result p rs) (set_result s rs).
Proof.
  intros (Hp & Hs & Hres & n & Hdrain). repeat split; try done.
  exists n. rewrite drain_set_result. exact Hdrain.
Qed.

Lemma same_outcome_set_result (p : Parser) (s : TokenSource) (rs : list rules.Rule) :
  same_outcome p s -> same_outcome (set_result p rs) (set_result s rs).
Proof. intros [Herr Hres]. split; [exact Herr | done]. Qed.

(** The step when the lookahead has been read. *)
Lemma same_step_la (c1 : yyconfig G (L := Parser)) (c2 : yyconfig G (L := TokenSource))
    (la : option terminal) :
  yychar G c1 = Some la -> same_config c1 c2 ->
  match yystep (XE := XP) G c1, yystep (XE := XT) G c2 with
  | inl c1', inl c2' => same_config c1' c2'
  | inr Panic, inr Panic => True
  | inr (Ret (n1, p)), inr (Ret (n2, s)) => n1 = n2 /\ same_outcome p s
  | _, _ => False
  end.
Proof.
  destruct c1 as [stk1 ch1 lv1 p], c2 as [stk2 ch2 lv2 s].
  unfold same_config. cbn [yyS yychar yylval yylex].
  intros -> (<- & <- & Hrel). unfold yystep. cbn [yyS yychar yylval yylex].
  destruct stk1 as [| [st sv] stk]; [done |].
  assert (Hout : same_outcome p s).
  { destruct la; [apply same_stream_outcome, Hrel | exact Hrel]. }
  destruct (action G st la) as [s' | prod | |] eqn:Hact.
  - (* shift: the lookahead is a token *)
    destruct la as [t |]; [| unfold action in Hact; simpl in Hact;
                            destruct (reducible G st None); [| discriminate];
                            unfold reduce_or_accept in Hact;
                            destruct (lhs G _); discriminate].
    destruct Hrel as [-> Hrel]. unfold same_config. cbn [yyS yychar yylval yylex].
    repeat (split; [done |]). exact Hrel.
  - (* reduce *)
    destruct (drop _ _) as [| [below bv] rest]; [done |].
    destruct (lhs G prod) as [A |]; [| done].
    destruct (goto G below A) as [s' |]; [| done].
    destruct (HU prod (rev (map snd (take (List.length (rhs G prod)) ((st, sv) :: stk)))))
      as [sh Hsh].
    rewrite (Hsh Parser _ p), (Hsh TokenSource _ s).
    destruct sh as [| msg | v | v rs]; cbn [run_shape].
    + done.
    + split; [done | apply same_outcome_Error].
    + unfold same_config. cbn [yyS yychar yylval yylex].
      repeat (split; [done |]). exact Hrel.
    + unfold same_config. cbn [yyS yychar yylval yylex].
      split; [done | split; [done |]].
      destruct la.
      * destruct Hrel as [-> Hrel]. split; [done | by apply same_stream_set_result].
      * by apply same_outcome_set_result.
  - by split.
  - split; [done | apply same_outcome_Error].
Qed.

Lemma same_step (c1 : yyconfig G (L := Parser)) (c2 : yyconfig G (L := TokenSource)) :
  same_config c1 c2 ->
  match yystep (XE := XP) G c1, yystep (XE := XT) G c2 with
  | inl c1', inl c2' => same_config c1' c2'
  | inr Panic, inr Panic => True
  | inr (Ret (n1, p)), inr (Ret (n2, s)) => n1 = n2 /\ same_outcome p s
  | _, _ => False
  end.
Proof.
  intros Hsame. destruct (yychar G c1) as [la |] eqn:Hch.
  { by apply (same_step_la c1 c2 la). }
  destruct Hsame as (Hstk & Hch2 & Hrel). rewrite Hch in Hch2, Hrel.
  destruct Hrel as (Hlv & Hp & Hs & Hres & n & Hdrain).
  rewrite (step_read_any c1 Hch), (step_read_any c2 (eq_sym Hch2)).
  destruct n as [| n]; [discriminate |]. simpl in Hdrain.
  cbn [Lex Parser_yyLexer TokenSource_yyLexer]. unfold TokenSource_Lex.
  unfold Parser_Lex in *.
  pose proof (Parser_Lex_loop_lval (len (buf (lexer (yylex G c1)))) (yylex G c1)
                (yylval G c1)) as Hlval.
  pose proof (Parser_Lex_loop_err (len (buf (lexer (yylex G c1)))) (yylex G c1)
                yyZero Hp) as Herr.
  destruct (Parser_Lex_loop _ (yylex G c1) (yylval G c1)) as [[n1 v1] p1].
  destruct (Parser_Lex_loop _ (yylex G c1) yyZero) as [[n0 v0] p0].
  destruct Hlval as (-> & -> & Hv).
  destruct n0 as [t | z].
  - destruct (drain n p0) as [[ts fails] |] eqn:Hd; [| discriminate].
    injection Hdrain as Htoks Hfails. rewrite <- Htoks.
    destruct Herr as [Herr0 Hres0].
    apply (same_step_la _ _ (Some t)); [reflexivity |].
    unfold same_config. cbn [yyS yychar yylval yylex yylex1].
    split; [done | split; [done | split; [by rewrite Hv, Hlv |]]].
    repeat split; try done.
    + by rewrite Hres0.
    + exists n. rewrite Hd. by rewrite Hfails.
  - injection Hdrain as Htoks Hfails. rewrite <- Htoks.
    apply (same_step_la _ _ None); [reflexivity |].
    unfold same_config. cbn [yyS yychar yylval yylex yylex1].
    split; [done | split; [done |]].
    split.
    + cbn [src_err]. rewrite <- Hfails. case_bool_decide as Hdec.
      * split; intros; [done | discriminate].
      * by rewrite Hs.
    + intros _. cbn [src_result]. by rewrite Herr.
Qed.

Lemma same_run (n : nat) (c1 : yyconfig G (L := Parser))
    (c2 : yyconfig G (L := TokenSource)) :
  same_config c1 c2 ->
  same_return (yyloop (XE := XP) G n c1) (yyloop (XE := XT) G n c2).
Proof.
  revert c1 c2. induction n as [| n IH]; intros c1 c2 Hsame; [done |].
  simpl. pose proof (same_step c1 c2 Hsame) as Hstep.
  destruct (yystep (XE := XP) G c1) as [c1' | [[n1 p] |]],
    (yystep (XE := XT) G c2) as [c2' | [[n2 s] |]];
    try done.
  by apply IH.
Qed.

(** [yyParse] on the parser over a text and on the list of the tokens of
    the text return alike. *)
Lemma yyParse_on_tokens (fuel : nat) (input : string)
    (ts : list (terminal * string)) (fails : bool) :
  lex_all input = Some (ts, fails) ->
  same_return (yyParse (XE := XP) G fuel (NewParser (NewLexer input)))
              (yyParse (XE := XT) G fuel (source ts fails)).
Proof.
  intros Hlex. apply same_run. unfold same_config. cbn [yyS yychar yylval yylex].
  repeat split; try done. by eexists.
Qed.

End Bridge.

(** ** The code of the productions treats every lexer alike *)

Ltac uniform_cases :=
  repeat match goal with
         | |- context [match ?x with _ => _ end] => destruct x eqn:?
         end;
  first [ by exists ShPanic
        | eexists (ShError _); intros; reflexivity
        | eexists (ShVal _); intros; reflexivity
        | eexists (ShResult _ _); intros; reflexivity ].

Lemma gs_uniform {RE : RegexpLib} : uniform grammar_stream.tables.
Proof.
  intros p args. cbn [semantic grammar_stream.tables].
  destruct p; destruct args as [| v1 [| v2 [| v3 [| v4 [| v5 rest]]]]];
    cbn -[grammar_stream.unquote rules.NewFieldPredicate];
    unfold grammar_stream.rule_of_move, grammar_stream.rule_of_flag,
      grammar_stream.rule_of_unflag, grammar_stream.rule_of_stream,
      grammar_stream.comparison_tilde, grammar_stream.comparison_equals,
      grammar_stream.yyval, grammar_stream.yyerror;
    uniform_cases.
Qed.

Lemma gy_uniform {RE : RegexpLib} : uniform grammar_rules_y.tables.
Proof.
  intros p args. cbn [semantic grammar_rules_y.tables].
  destruct p; destruct args as [| v1 [| v2 [| v3 [| v4 [| v5 rest]]]]];
    cbn -[strip_quotes rules.NewFieldPredicate];
    unfold grammar_rules_y.rule_of_move, grammar_rules_y.rule_of_flag,
      grammar_rules_y.rule_of_unflag,
      grammar_rules_y.comparison_tilde, grammar_rules_y.comparison_equals,
      grammar_rules_y.yyval, grammar_rules_y.yyerror;
    uniform_cases.
Qed.

(** ** The parser terminates *)

Section Termination.
Context (G : Tables) {XE : SyntaxErrors} (HU : uniform G).
Context (rank : state G -> nat) (Hranked : ranked G rank).

Lemma action_end_no_shift (s s' : state G) : action G s None <> Shift s'.
Proof.
  unfold action. destruct (reducible G s None) as [p |]; [| discriminate].
  unfold reduce_or_accept. destruct (lhs G p); discriminate.
Qed.

Lemma uniform_toks p args (src src' : TokenSource) yyVAL :
  semantic G _ _ p args src = Ret (inl (yyVAL, src')) -> toks src' = toks src.
Proof.
  destruct (HU p args) as [sh Hsh]. rewrite Hsh.
  destruct sh; cbn [run_shape]; intros Heq; try discriminate;
    injection Heq as _ <-; reflexivity.
Qed.

Lemma step_measure_la stk la lv src :
  match yystep G (cfg G stk (Some la) lv src) with
  | inl c' => (measure rank c' < measure rank (cfg G stk (Some la) lv src))%nat
  | inr _ => True
  end.
Proof.
  unfold yystep, cfg. cbn [yyS yychar yylval yylex].
  destruct stk as [| [s sv] stk]; [done |].
  destruct (action G s la) as [s' | p | |] eqn:Hact; [| | done | done].
  - destruct la as [t |]; [| by apply action_end_no_shift in Hact].
    unfold measure, tokens_left. cbn [yyS yychar yylval yylex List.length].
    destruct (rank s'), (rank s); lia.
  - destruct (Hranked s la p Hact) as [Hpos Hunit].
    destruct (drop _ _) as [| [below bv] rest] eqn:Hdrop; [done |].
    destruct (lhs G p) as [A |] eqn:Hlhs; [| done].
    destruct (goto G below A) as [s' |] eqn:Hgoto; [| done].
    destruct (semantic G _ _ p _ src) as [[[yyVAL src'] | src'] |] eqn:Hsem;
      [| done | done].
    apply uniform_toks in Hsem.
    apply (f_equal (@List.length _)) in Hdrop. rewrite length_drop in Hdrop.
    cbn [List.length] in Hdrop.
    unfold measure, tokens_left. cbn [yyS yychar yylval yylex List.length].
    rewrite Hsem.
    destruct (decide (List.length (rhs G p) = 1%nat)) as [Hone | Hmore].
    + destruct (Hunit Hone) as [Hs Hs']. rewrite Hs, (Hs' below A s' eq_refl Hgoto). lia.
    + destruct (rank s'), (rank s); lia.
Qed.

Lemma step_measure (c : yyconfig G (L := TokenSource)) :
  match yystep G c with
  | inl c' => (measure rank c' < measure rank c)%nat
  | inr _ => True
  end.
Proof.
  destruct c as [stk [la |] lv src]; [apply step_measure_la |].
  destruct (toks src) as [| [t v] rest] eqn:Htoks.
  - change (yystep G _) with (yystep G (cfg G stk None lv src)).
    rewrite (step_read_end G _ _ _ Htoks).
    pose proof (step_measure_la stk None lv (at_end src)) as Hla.
    destruct (yystep G _) as [c' |]; [| done].
    unfold measure, tokens_left, cfg in *. cbn [yyS yychar yylval yylex at_end toks] in *.
    rewrite Htoks. exact Hla.
  - change (yystep G _) with (yystep G (cfg G stk None lv src)).
    rewrite (step_read G _ _ _ _ _ _ Htoks).
    pose proof (step_measure_la stk (Some t) (set_Value lv v) (with_toks src rest)) as Hla.
    destruct (yystep G _) as [c' |]; [| done].
    unfold measure, tokens_left, cfg in *.
    cbn [yyS yychar yylval yylex with_toks toks] in *.
    rewrite Htoks. cbn [List.length]. lia.
Qed.

(** With fuel above the measure the loop returns. *)
Lemma yyloop_total (n : nat) (c : yyconfig G (L := TokenSource)) :
  (measure rank c < n)%nat -> exists out, yyloop G n c = Some out.
Proof.
  revert c. induction n as [| n IH]; intros c Hlt; [lia |].
  simpl. pose proof (step_measure c) as Hstep.
  destruct (yystep G c) as [c' | out]; [| by exists out].
  apply IH. lia.
Qed.

(** What the loop returns with some fuel, it returns with any fuel above
    the measure. *)
Lemma reaches_with_fuel (n : nat) (c : yyconfig G (L := TokenSource)) out :
  reaches c out -> (measure rank c < n)%nat -> yyloop G n c = Some out.
Proof.
  intros Hreach Hlt. destruct (yyloop_total n c Hlt) as [out' Hout'].
  rewrite Hout'. f_equal. eapply reaches_det; [by exists n | exact Hreach].
Qed.

End Termination.

Lemma gs_ranked {RE : RegexpLib} : ranked grammar_stream.tables gs_rank.
Proof.
  intros s la p Hact.
  destruct s; destruct la as [[] |]; try discriminate Hact;
    injection Hact as <-; (split; [simpl; lia |]); simpl; intros Hone;
    try discriminate Hone; (split; [reflexivity |]);
    intros below A s' HA Hgoto; injection HA as <-;
    destruct below; try discriminate Hgoto; injection Hgoto as <-; reflexivity.
Qed.

Lemma gy_ranked {RE : RegexpLib} : ranked grammar_rules_y.tables gy_rank.
Proof.
  intros s la p Hact.
  destruct s; destruct la as [[] |]; try discriminate Hact;
    injection Hact as <-; (split; [simpl; lia |]); simpl; intros Hone;
    try discriminate Hone; (split; [reflexivity |]);
    intros below A s' HA Hgoto; injection HA as <-;
    destruct below; try discriminate Hgoto; injection Hgoto as <-; reflexivity.
Qed.

(** ** The lexer moves forward *)

Lemma rune_nonneg (c : ascii) : 0 <= rune c.
Proof. unfold rune. lia. Qed.

Lemma DecodeRune_bounds (p : string) :
  p <> EmptyString ->
  0 <= fst (utf8.DecodeRune p) /\
  (1 <= snd (utf8.DecodeRune p) <= len p)%nat.
Proof.
  destruct p as [| c0 p1]; [done |]. intros _. unfold utf8.DecodeRune.
  pose proof (rune_nonneg c0).
  assert (Hlor : forall a b, 0 <= a -> 0 <= b -> 0 <= Z.lor a b)
    by (intros; by apply Z.lor_nonneg).
  assert (Hland : forall a b, 0 <= a -> 0 <= Z.land a b)
    by (intros; apply Z.land_nonneg; by left).
  assert (Hshl : forall a n, 0 <= a -> 0 <= Z.shiftl a n)
    by (intros; by apply Z.shiftl_nonneg).
  unfold utf8.RuneError, len.
  repeat (case_match; cbn [fst snd String.length];
          try (split; [by auto 10 using rune_nonneg | lia]));
    try (split; [by auto 10 using rune_nonneg | lia]).
Qed.

Lemma slice_from_nonempty (s : string) (i : nat) :
  (i < len s)%nat -> slice_from s i <> EmptyString /\
                     (len (slice_from s i) = len s - i)%nat.
Proof.
  revert i. induction s as [| c s IH]; intros i Hlt; [simpl in Hlt; lia |].
  destruct i as [| i]; [split; [done | simpl; unfold len; simpl; lia] |].
  simpl. apply IH. unfold len in *. simpl in Hlt. lia.
Qed.

(** [next] keeps the buffer, leaves well-formed positions, and moves the
    current position forward unless the end has been reached. *)
Lemma next_spec (lex : Lexer) :
  (nextpos lex <= len (buf lex))%nat ->
  buf (next lex) = buf lex /\ lexer_wf (next lex) /\
  (nextpos lex <= rpos (next lex))%nat.
Proof.
  intros Hle. unfold next.
  destruct (nextpos lex <? len (buf lex))%nat eqn:Hlt.
  - apply Nat.ltb_lt in Hlt.
    destruct (slice_from_nonempty _ _ Hlt) as [Hne Hlen].
    destruct (slice_from (buf lex) (nextpos lex)) as [| c rest] eqn:Hrest; [done |].
    pose proof (DecodeRune_bounds (String c rest) Hne) as [Hr Hw].
    pose proof (rune_nonneg c) as Hc.
    destruct (rune c >=? utf8.RuneSelf).
    + destruct (utf8.DecodeRune (String c rest)) as [r0 w0]. simpl in Hr, Hw.
      unfold lexer_wf, len in *. simpl in *.
      split; [reflexivity | split; [split; [lia |] | lia]].
      destruct (r0 <? 0) eqn:Hneg; lia.
    + unfold lexer_wf, len in *. simpl in *.
      split; [reflexivity | split; [split; [lia |] | lia]].
      destruct (rune c <? 0) eqn:Hneg; lia.
  - apply Nat.ltb_ge in Hlt. unfold lexer_wf, len in *. simpl.
    split; [reflexivity | split; [split; [lia | split; lia] | lia]].
Qed.

Lemma next_progress (lex : Lexer) :
  lexer_wf lex -> 0 <= r lex ->
  buf (next lex) = buf lex /\ lexer_wf (next lex) /\
  (rpos lex < rpos (next lex))%nat.
Proof.
  intros [Hle Hwf] Hr. destruct (next_spec lex Hle) as (Hbuf & Hwf' & Hpos).
  split; [done | split; [done |]].
  destruct (r lex <? 0) eqn:Hneg; lia.
Qed.

Lemma next_monotone (lex : Lexer) :
  lexer_wf lex ->
  buf (next lex) = buf lex /\ lexer_wf (next lex) /\
  (rpos lex <= rpos (next lex))%nat.
Proof.
  intros [Hle Hwf]. destruct (next_spec lex Hle) as (Hbuf & Hwf' & Hpos).
  split; [done | split; [done |]].
  destruct (r lex <? 0) eqn:Hneg; lia.
Qed.

Lemma advance_while_spec (cond : Z -> bool) (fuel : nat) (lex : Lexer) :
  lexer_wf lex ->
  let lex' := advance_while cond fuel lex in
  buf lex' = buf lex /\ lexer_wf lex' /\ (rpos lex <= rpos lex')%nat.
Proof.
  revert lex. induction fuel as [| fuel IH]; intros lex Hwf; simpl; [done |].
  destruct (cond (r lex)); [| done].
  destruct (next_monotone lex Hwf) as (Hbuf & Hwf' & Hpos).
  destruct (IH (next lex) Hwf') as (Hbuf2 & Hwf2 & Hpos2).
  split; [congruence | split; [done | lia]].
Qed.

(** With the fuel that the scanners give it, the loop stops because its
    condition fails, when the condition fails at the end of the input. *)
Lemma advance_while_stops (cond : Z -> bool) (fuel : nat) (lex : Lexer) :
  lexer_wf lex -> (forall z, z < 0 -> cond z = false) ->
  (bytes_left lex < fuel)%nat ->
  cond (r (advance_while cond fuel lex)) = false.
Proof.
  intros Hwf Hcond. revert lex Hwf.
  induction fuel as [| fuel IH]; intros lex Hwf Hfuel; [lia |].
  simpl. destruct (cond (r lex)) eqn:Hc; [| exact Hc].
  assert (Hr : 0 <= r lex).
  { destruct (Z.lt_ge_cases (r lex) 0) as [Hneg |]; [| done].
    rewrite (Hcond _ Hneg) in Hc. discriminate. }
  destruct (next_progress lex Hwf Hr) as (Hbuf & Hwf' & Hpos).
  apply IH; [done |]. unfold bytes_left in *. rewrite Hbuf.
  destruct Hwf as [Hle Hwf]. destruct (r lex <? 0) eqn:Hneg; lia.
Qed.

Lemma advance_while_progress (cond : Z -> bool) (fuel : nat) (lex : Lexer) :
  lexer_wf lex -> cond (r lex) = true -> 0 <= r lex ->
  let lex' := advance_while cond (S fuel) lex in
  buf lex' = buf lex /\ lexer_wf lex' /\ (rpos lex < rpos lex')%nat.
Proof.
  intros Hwf Hc Hr. simpl. rewrite Hc.
  destruct (next_progress lex Hwf Hr) as (Hbuf & Hwf' & Hpos).
  destruct (advance_while_spec cond fuel (next lex) Hwf') as (Hbuf2 & Hwf2 & Hpos2).
  split; [congruence | split; [done | lia]].
Qed.

Lemma isAlpha_nonneg (z : Z) : isAlpha z = true -> 0 <= z.
Proof.
  unfold isAlpha. change (rune "a") with 97. change (rune "z") with 122.
  change (rune "A") with 65. change (rune "Z") with 90.
  change (rune "_") with 95. change (rune "$") with 36. lia.
Qed.

Lemma isDigit_nonneg (z : Z) : isDigit z = true -> 0 <= z.
Proof.
  unfold isDigit. change (rune "0") with 48. change (rune "9") with 57. lia.
Qed.

Lemma scanned_trans (a b c : Lexer) (m n : nat) :
  scanned a m b -> scanned b n c -> scanned a (m + n) c.
Proof.
  intros (Hb1 & Hw1 & Hp1) (Hb2 & Hw2 & Hp2).
  split; [congruence | split; [done | lia]].
Qed.

Lemma scanned_weaken (a b : Lexer) (m n : nat) :
  scanned a m b -> (n <= m)%nat -> scanned a n b.
Proof. intros (Hb & Hw & Hp) Hle. split; [done | split; [done | lia]]. Qed.

Lemma scanned_next (lex : Lexer) :
  lexer_wf lex -> 0 <= r lex -> scanned lex 1 (next lex).
Proof.
  intros Hwf Hr. destruct (next_progress lex Hwf Hr) as (Hb & Hw & Hp).
  split; [done | split; [done | lia]].
Qed.

Lemma scanned_next_any (lex : Lexer) : lexer_wf lex -> scanned lex 0 (next lex).
Proof.
  intros Hwf. destruct (next_monotone lex Hwf) as (Hb & Hw & Hp).
  split; [done | split; [done | lia]].
Qed.

Lemma scanned_while (cond : Z -> bool) (fuel : nat) (lex : Lexer) :
  lexer_wf lex -> scanned lex 0 (advance_while cond fuel lex).
Proof.
  intros Hwf. destruct (advance_while_spec cond fuel lex Hwf) as (Hb & Hw & Hp).
  split; [done | split; [done | lia]].
Qed.

Lemma scanQuote_loop_spec (fuel : nat) (lex : Lexer) :
  lexer_wf lex ->
  match scanQuote_loop fuel lex with
  | inl (tok, lex') => Typ tok = TokenError /\ scanned lex 0 lex'
  | inr lex' => scanned lex 0 lex'
  end.
Proof.
  revert lex. induction fuel as [| fuel IH]; intros lex Hwf; simpl.
  { split; [done | split; [done | lia]]. }
  destruct ((r lex >? 0) && negb (r lex =? rune dquote));
    [| split; [done | split; [done | lia]]].
  destruct (r lex =? rune "\").
  - pose proof (scanned_next_any lex Hwf) as H1.
    destruct ((r (next lex) =? rune "\") || (r (next lex) =? rune dquote)).
    + pose proof (scanned_next_any (next lex) (proj1 (proj2 H1))) as H2.
      specialize (IH (next (next lex)) (proj1 (proj2 H2))).
      pose proof (scanned_trans _ _ _ _ _ H1 H2) as H12.
      destruct (scanQuote_loop fuel (next (next lex))) as [[tok lex'] | lex'].
      * destruct IH as [Htok IH]. split; [done |].
        apply (scanned_trans _ _ _ _ _ H12 IH).
      * apply (scanned_trans _ _ _ _ _ H12 IH).
    + split; [reflexivity | exact H1].
  - pose proof (scanned_next_any lex Hwf) as H1.
    specialize (IH (next lex) (proj1 (proj2 H1))).
    destruct (scanQuote_loop fuel (next lex)) as [[tok lex'] | lex'].
    + destruct IH as [Htok IH]. split; [done |].
      apply (scanned_trans _ _ _ _ _ H1 IH).
    + apply (scanned_trans _ _ _ _ _ H1 IH).
Qed.

(** [NextToken] leaves well-formed positions, and every token but the
    end of the input and an error takes at least one byte. *)
Lemma NextToken_spec (lex : Lexer) :
  lexer_wf lex ->
  let '(tok, lex') := NextToken lex in
  scanned lex (if bool_decide (Typ tok = TokenEOF \/ Typ tok = TokenError) then 0 else 1)
          lex'.
Proof.
  intros Hwf. unfold NextToken.
  pose proof (scanned_while isSpace (loop_fuel lex) lex Hwf) as Hskip.
  fold (skipNontokens lex) in Hskip. set (lex1 := skipNontokens lex) in *.
  destruct (r lex1 <? 0) eqn:Hneg.
  { cbn [Typ]. rewrite bool_decide_eq_true_2 by (by left). exact Hskip. }
  assert (Hr : 0 <= r lex1) by lia.
  assert (Hwf1 : lexer_wf lex1) by apply Hskip.
  assert (Hop : scanned lex 1 (next lex1)).
  { apply (scanned_trans _ _ _ _ _ Hskip (scanned_next lex1 Hwf1 Hr)). }
  assert (Hother :
            let '(tok, lex') :=
              if isAlpha (r lex1) then scanIdentifier lex1
              else if isDigit (r lex1) then scanNumber lex1
              else if r lex1 =? rune dquote then scanQuote lex1
              else (makeErrorToken (rpos lex1), lex1) in
            scanned lex
              (if bool_decide (Typ tok = TokenEOF \/ Typ tok = TokenError) then 0 else 1)
              lex').
  { destruct (isAlpha (r lex1)) eqn:Halpha.
    - unfold scanIdentifier, loop_fuel.
      pose proof (advance_while_progress (fun r => isAlpha r || isDigit r)
                    (len (buf lex1)) lex1 Hwf1) as Hadv.
      assert (Hc : isAlpha (r lex1) || isDigit (r lex1) = true) by (by rewrite Halpha).
      specialize (Hadv Hc Hr). cbv zeta in Hadv.
      destruct (reservedWords _); cbn [Typ];
        (eapply scanned_weaken;
         [eapply (scanned_trans _ _ _ 0 1 Hskip);
          destruct Hadv as (Hb & Hw & Hp); split; [done | split; [done | lia]]
         | case_bool_decide; lia]).
    - destruct (isDigit (r lex1)) eqn:Hdigit.
      + unfold scanNumber, loop_fuel. cbn [Typ].
        pose proof (advance_while_progress isDigit (len (buf lex1)) lex1 Hwf1
                      Hdigit Hr) as Hadv.
        rewrite bool_decide_eq_false_2 by (intros [|]; discriminate).
        eapply (scanned_trans _ _ _ 0 1 Hskip).
        destruct Hadv as (Hb & Hw & Hp). split; [done | split; [done | lia]].
      + destruct (r lex1 =? rune dquote).
        * unfold scanQuote.
          pose proof (scanned_next lex1 Hwf1 Hr) as Hn.
          pose proof (scanQuote_loop_spec (loop_fuel (next lex1)) (next lex1)
                        (proj1 (proj2 Hn))) as Hloop.
          destruct (scanQuote_loop _ _) as [[tok lex'] | lex'].
          -- destruct Hloop as [Htok Hloop]. rewrite Htok.
             rewrite bool_decide_eq_true_2 by (by right).
             eapply scanned_weaken;
               [apply (scanned_trans _ _ _ _ _ Hskip (scanned_trans _ _ _ _ _ Hn Hloop))
               | lia].
          -- destruct (r lex' <? 0); cbn [Typ].
             ++ rewrite bool_decide_eq_true_2 by (by right).
                eapply scanned_weaken;
                  [apply (scanned_trans _ _ _ _ _ Hskip
                            (scanned_trans _ _ _ _ _ Hn Hloop)) | lia].
             ++ rewrite bool_decide_eq_false_2 by (intros [|]; discriminate).
                pose proof (scanned_next_any lex' (proj1 (proj2 Hloop))) as Hlast.
                eapply scanned_weaken;
                  [apply (scanned_trans _ _ _ _ _ Hskip
                            (scanned_trans _ _ _ _ _ Hn
                               (scanned_trans _ _ _ _ _ Hloop Hlast))) | lia].
        * cbn [Typ makeErrorToken]. rewrite bool_decide_eq_true_2 by (by right).
          exact Hskip. }
  destruct (r lex1 <? len_opTable); [| exact Hother].
  case_bool_decide as Hopname; [| exact Hother].
  destruct (bool_decide (opTable (r lex1) = TokenDivide) && (peekNextByte lex1 =? rune "/")).
  - unfold scanComment. cbn [Typ].
    rewrite bool_decide_eq_false_2 by (intros [|]; discriminate).
    pose proof (scanned_next lex1 Hwf1 Hr) as Hn.
    pose proof (scanned_while (fun r => (r >? 0) && negb (r =? rune newline))
                  (loop_fuel (next lex1)) (next lex1) (proj1 (proj2 Hn))) as Hw.
    pose proof (scanned_next_any _ (proj1 (proj2 Hw))) as Hlast.
    eapply scanned_weaken;
      [apply (scanned_trans _ _ _ _ _ Hskip
                (scanned_trans _ _ _ _ _ Hn (scanned_trans _ _ _ _ _ Hw Hlast))) | lia].
  - cbn [Typ]. case_bool_decide as Hty.
    + eapply scanned_weaken; [apply Hop | lia].
    + apply Hop.
Qed.

Lemma Parser_Lex_loop_spec (fuel : nat) (p : Parser) (lval : yySymType) :
  lexer_wf (lexer p) ->
  let '(n, v, p') := Parser_Lex_loop fuel p lval in
  scanned (lexer p) (match n with TokenNumberOf _ => 1 | LexInt _ => 0 end) (lexer p').
Proof.
  revert p. induction fuel as [| fuel IH]; intros p Hwf; simpl;
    pose proof (NextToken_spec (lexer p) Hwf) as Hnext;
    destruct (NextToken (lexer p)) as [tok lexer'];
    destruct (Typ tok) eqn:Hty; cbn [tokenNumbers lexer];
    try (rewrite bool_decide_eq_false_2 in Hnext by (intros [|]; discriminate));
    try (rewrite bool_decide_eq_true_2 in Hnext by (first [by left | by right]));
    try exact Hnext;
    try (eapply scanned_weaken; [exact Hnext | lia]).
  specialize (IH {| lexer := lexer'; last := Some tok; result := result p; err := err p |}
                (proj1 (proj2 Hnext))).
  destruct (Parser_Lex_loop fuel _ lval) as [[n v] p'].
  cbn [lexer] in IH.
  eapply scanned_weaken; [apply (scanned_trans _ _ _ _ _ Hnext IH) | lia].
Qed.

Lemma scanned_bytes_left (lex lex' : Lexer) (moved : nat) :
  lexer_wf lex -> scanned lex moved lex' ->
  (bytes_left lex' + moved <= bytes_left lex)%nat.
Proof.
  intros Hwf (Hbuf & Hwf' & Hpos). unfold bytes_left. rewrite Hbuf.
  assert (rpos lex' <= len (buf lex))%nat; [| lia].
  rewrite <- Hbuf. destruct Hwf' as [Hnext Hcase].
  destruct (r lex' <? 0); lia.
Qed.

(** The loops of the scanners end because their conditions fail, not
    because the fuel of the model runs out. *)
Lemma loop_fuel_enough (lex : Lexer) : (bytes_left lex < loop_fuel lex)%nat.
Proof. unfold bytes_left, loop_fuel. lia. Qed.

Lemma scanner_loop_stops (cond : Z -> bool) (lex : Lexer) :
  lexer_wf lex -> (forall z, z < 0 -> cond z = false) ->
  cond (r (advance_while cond (loop_fuel lex) lex)) = false.
Proof.
  intros Hwf Hcond. apply advance_while_stops; [done | done | apply loop_fuel_enough].
Qed.

Lemma scanQuote_loop_stops (fuel : nat) (lex : Lexer) :
  lexer_wf lex -> (bytes_left lex < fuel)%nat ->
  match scanQuote_loop fuel lex with
  | inl _ => True
  | inr lex' => (r lex' >? 0) && negb (r lex' =? rune dquote) = false
  end.
Proof.
  revert lex. induction fuel as [| fuel IH]; intros lex Hwf Hfuel; [lia |].
  simpl. destruct ((r lex >? 0) && negb (r lex =? rune dquote)) eqn:Hcond;
    [| exact Hcond].
  assert (Hr : 0 <= r lex) by lia.
  pose proof (scanned_next lex Hwf Hr) as H1.
  pose proof (scanned_bytes_left _ _ _ Hwf H1) as Hleft1.
  destruct (r lex =? rune "\").
  - destruct ((r (next lex) =? rune "\") || (r (next lex) =? rune dquote)); [| exact I].
    pose proof (scanned_next_any (next lex) (proj1 (proj2 H1))) as H2.
    pose proof (scanned_bytes_left _ _ _ (proj1 (proj2 H1)) H2) as Hleft2.
    apply IH; [exact (proj1 (proj2 H2)) | lia].
  - apply IH; [exact (proj1 (proj2 H1)) | lia].
Qed.

Lemma Parser_Lex_loop_unfold (fuel : nat) (p : Parser) (lval : yySymType) :
  Parser_Lex_loop fuel p lval =
  let '(tok, lexer') := NextToken (lexer p) in
  let p := {| lexer := lexer'; last := Some tok; result := result p; err := err p |} in
  match Typ tok with
  | TokenEOF => (LexInt (-1), lval, p)
  | TokenError =>
      (LexInt (-1), lval,
       {| lexer := lexer p; last := last p; result := result p;
          err := Some (Errorf ("lexing error: " ++ Value tok)) |})
  | TokenComment =>
      match fuel with
      | O => (LexInt (-1), lval, p)
      | S fuel' => Parser_Lex_loop fuel' p lval
      end
  | _ => (tokenNumbers (Typ tok), set_Value lval (Value tok), p)
  end.
Proof. destruct fuel; reflexivity. Qed.

(** The loop of [Parser.Lex] needs no more turns than there are bytes
    left: with that many, the turns never run out on a comment. *)
Lemma Parser_Lex_loop_fuel (fuel : nat) (p : Parser) (lval : yySymType) :
  lexer_wf (lexer p) -> (bytes_left (lexer p) <= fuel)%nat ->
  Parser_Lex_loop (S fuel) p lval = Parser_Lex_loop fuel p lval.
Proof.
  revert p. induction fuel as [| fuel IH]; intros p Hwf Hfuel;
    pose proof (NextToken_spec (lexer p) Hwf) as Hnext;
    [rewrite (Parser_Lex_loop_unfold 1 p lval), (Parser_Lex_loop_unfold 0 p lval)
    |rewrite (Parser_Lex_loop_unfold (S (S fuel)) p lval),
       (Parser_Lex_loop_unfold (S fuel) p lval)];
    destruct (NextToken (lexer p)) as [tok lexer']; cbv zeta;
    destruct (Typ tok) eqn:Hty; try reflexivity;
    rewrite bool_decide_eq_false_2 in Hnext by (intros [|]; discriminate);
    pose proof (scanned_bytes_left _ _ _ Hwf Hnext) as Hleft.
  - lia.
  - apply IH; [exact (proj1 (proj2 Hnext)) | cbn [lexer]; lia].
Qed.

(** The tokens of a well-formed parser are read with fuel above the bytes
    that are left, and there are no more tokens than bytes. *)
Lemma drain_total (n : nat) (p : Parser) :
  lexer_wf (lexer p) -> (bytes_left (lexer p) < n)%nat ->
  exists ts fails, drain n p = Some (ts, fails) /\
                   (List.length ts <= bytes_left (lexer p))%nat.
Proof.
  revert p. induction n as [| n IH]; intros p Hwf Hlt; [lia |].
  simpl. unfold Parser_Lex.
  pose proof (Parser_Lex_loop_spec (len (buf (lexer p))) p yyZero Hwf) as Hlex.
  destruct (Parser_Lex_loop _ p yyZero) as [[c lv] p'].
  destruct c as [t | z].
  - pose proof (scanned_bytes_left _ _ _ Hwf Hlex) as Hleft.
    destruct (IH p' (proj1 (proj2 Hlex))) as (ts & fails & Hdrain & Hlen); [lia |].
    rewrite Hdrain. exists ((t, yyValue lv) :: ts), fails.
    split; [reflexivity | simpl; lia].
  - eexists [], _. split; [reflexivity | simpl; lia].
Qed.

Lemma drain_length (n : nat) (p : Parser) ts fails :
  lexer_wf (lexer p) -> drain n p = Some (ts, fails) ->
  (List.length ts <= bytes_left (lexer p))%nat.
Proof.
  revert p ts. induction n as [| n IH]; intros p ts Hwf Hdrain; [discriminate |].
  simpl in Hdrain. unfold Parser_Lex in Hdrain.
  pose proof (Parser_Lex_loop_spec (len (buf (lexer p))) p yyZero Hwf) as Hlex.
  destruct (Parser_Lex_loop _ p yyZero) as [[c lv] p'].
  destruct c as [t | z].
  - pose proof (scanned_bytes_left _ _ _ Hwf Hlex) as Hleft.
    destruct (drain n p') as [[ts' fails'] |] eqn:Hd; [| discriminate].
    injection Hdrain as <- <-.
    specialize (IH p' ts' (proj1 (proj2 Hlex)) Hd). simpl. lia.
  - injection Hdrain as <- <-. simpl. lia.
Qed.

Lemma NewLexer_wf (input : string) :
  lexer_wf (NewLexer input) /\ buf (NewLexer input) = input.
Proof.
  unfold NewLexer.
  destruct (next_spec {| buf := input; r := -1; rpos := 0; nextpos := 0 |})
    as (Hbuf & Hwf & _); [cbn [nextpos]; lia |].
  split; done.
Qed.

(** Every text has its list of tokens, no longer than the text. *)
Lemma lex_all_total (input : string) :
  exists ts fails, lex_all input = Some (ts, fails) /\ (List.length ts <= len input)%nat.
Proof.
  destruct (NewLexer_wf input) as [Hwf Hbuf].
  destruct (drain_total (S (len input)) (NewParser (NewLexer input)))
    as (ts & fails & Hdrain & Hlen).
  - exact Hwf.
  - cbn [NewParser lexer]. unfold bytes_left. rewrite Hbuf. lia.
  - exists ts, fails. split; [exact Hdrain |].
    cbn [NewParser lexer] in Hlen. unfold bytes_left in Hlen. rewrite Hbuf in Hlen. lia.
Qed.

Lemma lex_all_length (input : string) ts fails :
  lex_all input = Some (ts, fails) -> (List.length ts <= len input)%nat.
Proof.
  intros Hlex. destruct (lex_all_total input) as (ts' & fails' & Hlex' & Hlen).
  rewrite Hlex in Hlex'. injection Hlex' as <- <-. exact Hlen.
Qed.

(** ** The grouping of the parser *)

Lemma not_onto_tokens (c : cond) :
  cond_tokens (not_onto c) = (NOT, "not") :: cond_tokens c.
Proof.
  induction c as [field op lit | l IHl r IHr | l IHl r IHr | c IH | c IH]; simpl;
    try reflexivity; rewrite IHl; reflexivity.
Qed.

Lemma not_onto_flat (c : cond) : flat c = true -> flat (not_onto c) = true.
Proof.
  induction c as [field op lit | l IHl r IHr | l IHl r IHr | c IH | c IH]; simpl;
    intros Hflat; try (first [reflexivity | rewrite Hflat; reflexivity]);
    apply andb_true_iff in Hflat as [Hflat Hur];
    apply andb_true_iff in Hflat as [Hfl Hfr];
    rewrite (IHl Hfl), Hfr, Hur; reflexivity.
Qed.

Lemma join_tokens (op : cond -> cond -> cond) (sep : terminal * string) (l r : cond) :
  (forall a b, cond_tokens (op a b) = (cond_tokens a ++ sep :: cond_tokens b)%list) ->
  cond_tokens (join op l r) = (cond_tokens l ++ sep :: cond_tokens r)%list.
Proof.
  intros Hop.
  induction r as [field o lit | a IHa b IHb | a IHa b IHb | c IH | c IH]; simpl;
    try apply Hop; rewrite IHa, <- app_assoc; reflexivity.
Qed.

Lemma join_flat (op : cond -> cond -> cond) (l r : cond) :
  (forall a b, flat (op a b) = flat a && flat b && is_unary b) ->
  flat l = true -> flat r = true -> flat (join op l r) = true.
Proof.
  intros Hop Hl.
  induction r as [field o lit | a IHa b IHb | a IHa b IHb | c IH | c IH]; simpl;
    intros Hr; try (rewrite Hop, Hl; simpl in *; try rewrite Hr; reflexivity);
    apply andb_true_iff in Hr as [Hr Hub];
    apply andb_true_iff in Hr as [Hfa Hfb];
    rewrite (IHa Hfa), Hfb, Hub; reflexivity.
Qed.

Lemma regroup_flat (c : cond) : flat (regroup c) = true.
Proof.
  induction c as [field op lit | l IHl r IHr | l IHl r IHr | c IH | c IH]; simpl.
  - reflexivity.
  - apply join_flat; [reflexivity | exact IHl | exact IHr].
  - apply join_flat; [reflexivity | exact IHl | exact IHr].
  - apply not_onto_flat, IH.
  - exact IH.
Qed.

Lemma regroup_tokens (c : cond) : cond_tokens (regroup c) = cond_tokens c.
Proof.
  induction c as [field op lit | l IHl r IHr | l IHl r IHr | c IH | c IH]; simpl.
  - reflexivity.
  - rewrite (join_tokens CAnd (AND, "and")) by reflexivity. by rewrite IHl, IHr.
  - rewrite (join_tokens COr (OR, "or")) by reflexivity. by rewrite IHl, IHr.
  - by rewrite not_onto_tokens, IH.
  - by rewrite IH.
Qed.

(** A condition that is grouped the flat way already is left as it is. *)
Lemma regroup_of_flat (c : cond) : flat c = true -> regroup c = c.
Proof.
  induction c as [field op lit | l IHl r IHr | l IHl r IHr | c IH | c IH]; simpl;
    intros Hflat.
  - reflexivity.
  - apply andb_true_iff in Hflat as [Hflat Hur].
    apply andb_true_iff in Hflat as [Hfl Hfr].
    rewrite (IHl Hfl), (IHr Hfr). destruct r; try discriminate Hur; reflexivity.
  - apply andb_true_iff in Hflat as [Hflat Hur].
    apply andb_true_iff in Hflat as [Hfl Hfr].
    rewrite (IHl Hfl), (IHr Hfr). destruct r; try discriminate Hur; reflexivity.
  - apply andb_true_iff in Hflat as [Hfc Huc].
    rewrite (IH Hfc). destruct c; try discriminate Huc; reflexivity.
  - by rewrite (IH Hflat).
Qed.

Lemma regroup_file_flat (f : list rule_syntax) : flat_file (regroup_file f).
Proof.
  unfold flat_file, regroup_file.
  induction f as [| r f IH]; simpl; constructor; [apply regroup_flat | exact IH].
Qed.

Lemma regroup_file_tokens (f : list rule_syntax) :
  file_tokens (regroup_file f) = file_tokens f.
Proof.
  unfold file_tokens, regroup_file. rewrite map_map. f_equal.
  apply map_ext. intros [c a]. unfold rule_tokens. simpl.
  by rewrite regroup_tokens.
Qed.

(** The parser on the tokens of a text, with the fuel of [Parse]. *)
Lemma Parse_with_on_tokens {XE : SyntaxErrors} (G : Tables) (rank : state G -> nat) (input : string)
    (ts : list (terminal * string)) (rs : list rules.Rule) :
  uniform G -> ranked G rank ->
  lex_all input = Some (ts, false) ->
  reaches (cfg G [(init G, yyZero)] None yyZero (source ts false))
          (Ret (0, finished (source ts false) rs)) ->
  Parse_with G input = Some (Ret (rs, None)).
Proof.
  intros HU HR Hlex Hreach.
  pose proof (lex_all_length input ts false Hlex) as Hlen.
  pose proof (yyParse_on_tokens G HU (parse_fuel input) input ts false Hlex) as Hsame.
  assert (Hrun : yyParse G (parse_fuel input) (source ts false)
                 = Some (Ret (0, finished (source ts false) rs))).
  { unfold yyParse. apply (reaches_with_fuel G HU rank HR); [exact Hreach |].
    unfold measure, tokens_left, parse_fuel. cbn [yyS yychar yylex toks source].
    cbn [List.length]. unfold len in *. lia. }
  rewrite Hrun in Hsame. unfold Parse_with.
  destruct (yyParse G (parse_fuel input) (NewParser (NewLexer input)))
    as [[[n p] |] |]; try done.
  destruct Hsame as [_ [Herr Hres]]. cbn in Herr, Hres.
  destruct (err p) as [e |] eqn:He.
  - destruct Herr as [_ Herr]. by specialize (Herr eq_refl).
  - by rewrite (Hres eq_refl).
Qed.

Lemma regroup_file_no_stream (f : list rule_syntax) :
  no_stream f -> no_stream (regroup_file f).
Proof.
  unfold no_stream, regroup_file.
  induction 1 as [| r f Hr _ IH]; simpl; constructor; [exact Hr | exact IH].
Qed.

(** C3. Every rule file that the grammar derives, with conditions grouped
    in any way [f], is parsed as the regrouping of the same tokens in
    which [and] and [or] stand at one level and associate to the left
    (the right operand of an [and] or an [or] is never an [and] or an
    [or], so [c1 or c2 and c3] is read as [(c1 or c2) and c3]), [not]
    takes the nearest operand only (so [not c1 and c2] is read as
    [(not c1) and c2]), and a condition between parentheses is one
    operand: [Parse] returns the rules of [regroup_file f], with no
    error.  So does the parser generated from [rules.y], with its reading
    of the quoted strings, on a file without the stream rule. *)
Theorem parse_groups_by_precedence {RE : RegexpLib} {XE : SyntaxErrors} (input : string)
    (f : list rule_syntax) :
  f <> [] ->
  lex_all input = Some (file_tokens f, false) ->
  flat_file (regroup_file f) /\
  file_tokens (regroup_file f) = file_tokens f /\
  (forall rs, denote_file grammar_stream.unquote (regroup_file f) = Some rs ->
              Parse input = Some (Ret (rs, None))) /\
  (forall rs, no_stream f -> denote_file strip_quotes (regroup_file f) = Some rs ->
              Parse_with grammar_rules_y.tables input = Some (Ret (rs, None))).
Proof.
  intros Hne Hlex.
  assert (Hne' : regroup_file f <> []) by (destruct f; [done | discriminate]).
  split; [apply regroup_file_flat | split; [apply regroup_file_tokens |]].
  split.
  - intros rs Hden. unfold Parse.
    apply (Parse_with_on_tokens grammar_stream.tables gs_rank input (file_tokens f) rs
             gs_uniform gs_ranked Hlex).
    rewrite <- (regroup_file_tokens f).
    apply gs_forward; [exact Hne' | apply regroup_file_flat | exact Hden].
  - intros rs Hns Hden.
    apply (Parse_with_on_tokens grammar_rules_y.tables gy_rank input (file_tokens f) rs
             gy_uniform gy_ranked Hlex).
    rewrite <- (regroup_file_tokens f).
    apply gy_forward;
      [exact Hne' | apply regroup_file_flat | by apply regroup_file_no_stream | exact Hden].
Qed.

Lemma parse_groups_by_precedence_witness :
  parse.Parse (RE := substring_regexp) (XE := plain_errors) precedence_text
  = Some (Ret ([precedence_rule], None)) /\
  parse.Parse_with (XE := plain_errors) (grammar_rules_y.tables (RE := substring_regexp))
    precedence_text
  = Some (Ret ([precedence_rule], None)).
Proof.
  destruct (parse_groups_by_precedence (RE := substring_regexp) (XE := plain_errors)
              precedence_text precedence_tree) as (_ & _ & Hstream & Hrules_y).
  - discriminate.
  - vm_compute. reflexivity.
  - split.
    + apply Hstream. vm_compute. reflexivity.
    + apply Hrules_y; [repeat constructor | vm_compute; reflexivity].
Defined.

(** ** The two grammars on the tokens that they share *)

Lemma yystep_look {XE : SyntaxErrors} (G : Tables) (c : yyconfig G (L := TokenSource)) :
  yystep G (look c) = yystep G c.
Proof.
  destruct c as [stk [la |] lv src]; unfold look; cbn [yychar yyS yylval yylex];
    [reflexivity |].
  destruct (toks src) as [| [t v] rest] eqn:Htoks; symmetry.
  - apply (step_read_end G stk lv src Htoks).
  - apply (step_read G stk lv src t v rest Htoks).
Qed.

Lemma has_byte_substring (c : ascii) (s : string) (i n : nat) :
  has_byte c s = false -> has_byte c (String.substring i n s) = false.
Proof.
  revert i n. induction s as [| a s IH]; intros i n Hs.
  - by destruct i, n.
  - simpl in Hs. apply orb_false_iff in Hs as [Ha Hs].
    destruct i as [| i]; destruct n as [| n]; simpl; try reflexivity.
    + rewrite Ha. simpl. apply (IH 0%nat n Hs).
    + apply (IH i 0%nat Hs).
    + apply (IH i (S n) Hs).
Qed.

Lemma ReplaceAll_absent (c : ascii) (old new s : string) :
  has_byte c s = false -> ReplaceAll s (String c old) new = s.
Proof.
  unfold ReplaceAll. induction s as [| a s IH]; intros Hs; [reflexivity |].
  simpl in Hs. apply orb_false_iff in Hs as [Ha Hs].
  cbn [ReplaceAll_go String.prefix].
  destruct (Ascii.ascii_dec c a) as [-> | Hne].
  - by rewrite bool_decide_eq_true_2 in Ha.
  - by rewrite (IH Hs).
Qed.

(** Without a backslash the two grammars read a quoted string alike. *)
Lemma unquote_plain (lit : string) :
  has_byte "\"%char lit = false -> grammar_stream.unquote lit = strip_quotes lit.
Proof.
  intros Hlit. unfold grammar_stream.unquote, strip_quotes.
  destruct (2 <=? len lit)%nat; [| reflexivity].
  unfold slice. pose proof (has_byte_substring _ lit 1 (len lit - 1 - 1) Hlit) as Hbody.
  rewrite (ReplaceAll_absent _ _ _ _ Hbody), (ReplaceAll_absent _ _ _ _ Hbody).
  reflexivity.
Qed.

Section Embedding.
Context {RE : RegexpLib}.

(** The two parsers are compared on the tokens of a text, with the same
    text for every syntax error; [yyParse_on_tokens] leads from there to
    the parsers over the text, whatever their texts for a syntax error. *)
#[local] Existing Instance plain_errors.

Local Abbreviation GY := (grammar_rules_y.tables).
Local Abbreviation GS := (grammar_stream.tables).

Lemma plain_action (s : grammar_rules_y.state) (la : option terminal) :
  is_quote_state s = false -> la <> Some STREAM ->
  match action GY s la with
  | Shift s' =>
      action GS (state_in_stream s) la
      = Shift (if is_quote_state s' then grammar_stream.S_QUOTE else state_in_stream s')
      /\ (is_quote_state s' = true ->
          la = Some QUOTE /\ grammar_rules_y.shift s QUOTE = Some s')
  | Reduce p =>
      action GS (state_in_stream s) la = Reduce (production_in_stream p)
      /\ has_quote p = false
  | Accept => action GS (state_in_stream s) la = Accept
  | ErrorAct => action GS (state_in_stream s) la = ErrorAct
  end.
Proof.
  intros Hs Hla.
  destruct s; try discriminate Hs; destruct la as [[] |]; try (by destruct Hla);
    vm_compute; try reflexivity; (split; [reflexivity |]);
    first [reflexivity | intros Hq; first [discriminate Hq | by split]].
Qed.

Lemma quote_action (s : grammar_rules_y.state) (la : option terminal) :
  is_quote_state s = true -> la <> Some STREAM ->
  match action GY s la with
  | Reduce p =>
      action GS grammar_stream.S_QUOTE la = Reduce grammar_stream.P_string__QUOTE
      /\ action GS (state_in_stream s) la = Reduce (production_in_stream p)
      /\ has_quote p = true
  | ErrorAct =>
      action GS grammar_stream.S_QUOTE la = ErrorAct
      \/ (action GS grammar_stream.S_QUOTE la = Reduce grammar_stream.P_string__QUOTE
          /\ action GS (state_in_stream s) la = ErrorAct)
  | _ => False
  end.
Proof.
  intros Hs Hla.
  destruct s; try discriminate Hs; destruct la as [[] |]; try (by destruct Hla);
    vm_compute; first [by repeat split | by left | by right].
Qed.

Lemma rhs_in_stream (p : grammar_rules_y.production) :
  List.length (rhs GS (production_in_stream p)) = List.length (rhs GY p).
Proof. destruct p; reflexivity. Qed.

Lemma lhs_in_stream (p : grammar_rules_y.production) :
  lhs GS (production_in_stream p) = option_map nonterminal_in_stream (lhs GY p).
Proof. destruct p; reflexivity. Qed.

Lemma goto_in_stream (s : grammar_rules_y.state) (A : grammar_rules_y.nonterminal) :
  goto GS (state_in_stream s) (nonterminal_in_stream A)
  = option_map state_in_stream (goto GY s A).
Proof. destruct s, A; reflexivity. Qed.

Lemma goto_plain (s s' : grammar_rules_y.state) (A : grammar_rules_y.nonterminal) :
  goto GY s A = Some s' -> is_quote_state s' = false.
Proof. destruct s, A; intros Hgoto; try discriminate Hgoto; by injection Hgoto as <-. Qed.

Lemma goto_string (below q : grammar_rules_y.state) :
  grammar_rules_y.shift below QUOTE = Some q ->
  goto GS (state_in_stream below) grammar_stream.N_string = Some (state_in_stream q).
Proof. destruct below; intros Hs; try discriminate Hs; by injection Hs as <-. Qed.

Lemma semantic_plain (p : grammar_rules_y.production) (args : list yySymType)
    (src : TokenSource) :
  has_quote p = false ->
  semantic GS _ _ (production_in_stream p) args src = semantic GY _ _ p args src.
Proof.
  intros Hp.
  destruct p; try discriminate Hp;
    destruct args as [| v1 [| v2 [| v3 [| v4 [| v5 rest]]]]]; reflexivity.
Qed.

Lemma semantic_quote (p : grammar_rules_y.production) (pre : list yySymType)
    (v : yySymType) (str : string) (src : TokenSource) :
  has_quote p = true ->
  strip_quotes (yyValue v) = Some str ->
  semantic GS _ _ (production_in_stream p) (pre ++ [set_Value v str]) src
  = semantic GY _ _ p (pre ++ [v]) src.
Proof.
  intros Hp Hstr.
  destruct p; try discriminate Hp;
    destruct pre as [| v1 [| v2 [| v3 [| v4 rest]]]];
    cbn [semantic GS GY grammar_stream.tables grammar_rules_y.tables
         production_in_stream app grammar_stream.semantic grammar_rules_y.semantic];
    try reflexivity;
    unfold grammar_rules_y.comparison_tilde, grammar_rules_y.comparison_equals,
      grammar_stream.comparison_tilde, grammar_stream.comparison_equals;
    cbn [yyValue set_Value]; rewrite ?Hstr; reflexivity.
Qed.

Lemma yystep_reduce (G : Tables) s sv stk la lv (src : TokenSource) p :
  action G s la = Reduce p ->
  yystep G (cfg G ((s, sv) :: stk) (Some la) lv src)
  = reduce_step G p ((s, sv) :: stk) la lv src.
Proof.
  intros Hact. unfold yystep, reduce_step, cfg. cbn [yyS yychar yylval yylex].
  rewrite Hact. reflexivity.
Qed.

Lemma values_in_stream (n : nat) (stk : list (grammar_rules_y.state * yySymType)) :
  map snd (take n (map entry_in_stream stk)) = map snd (take n stk).
Proof.
  revert n. induction stk as [| e stk IH]; intros [| n]; simpl; try reflexivity.
  by rewrite IH.
Qed.

Lemma drop_in_stream (n : nat) (stk : list (grammar_rules_y.state * yySymType)) :
  drop n (map entry_in_stream stk) = map entry_in_stream (drop n stk).
Proof.
  revert n. induction stk as [| e stk IH]; intros [| n]; simpl; try reflexivity.
  apply IH.
Qed.

Lemma drop_plain (n : nat) (stk : list (grammar_rules_y.state * yySymType)) :
  forallb plain_entry stk = true -> forallb plain_entry (drop n stk) = true.
Proof.
  revert n. induction stk as [| e stk IH]; intros [| n] Hstk; simpl; try done.
  simpl in Hstk. apply andb_true_iff in Hstk as [_ Hstk]. by apply IH.
Qed.

Lemma stack_in_stream_plain s v (stk : list (grammar_rules_y.state * yySymType)) :
  is_quote_state s = false ->
  stack_in_stream ((s, v) :: stk) = (state_in_stream s, v) :: map entry_in_stream stk.
Proof. intros Hs. unfold stack_in_stream. rewrite Hs. reflexivity. Qed.

(** A reduction of the parser of [rules.y] is the reduction with the same
    production in the other parser, when the code of the production gets
    the same from both stacks and the stacks agree below it. *)
Lemma reduce_in_stream (p : production GY)
    (sy : list (state GY * yySymType)) (ss : list (state GS * yySymType)) la lv src :
  semantic GS _ _ (production_in_stream p)
           (rev (map snd (take (List.length (rhs GY p)) ss))) src
  = semantic GY _ _ p (rev (map snd (take (List.length (rhs GY p)) sy))) src ->
  drop (List.length (rhs GY p)) ss
  = map entry_in_stream (drop (List.length (rhs GY p)) sy) ->
  reduce_step GS (production_in_stream p) ss la lv src
  = step_in_stream (reduce_step GY p sy la lv src).
Proof.
  intros Hsem Hdrop. unfold reduce_step. cbv zeta.
  rewrite rhs_in_stream, Hsem, Hdrop, lhs_in_stream.
  destruct (drop _ sy) as [| [below bv] rest]; [reflexivity |].
  destruct (lhs GY p) as [A |]; [| reflexivity].
  cbn [map entry_in_stream fst snd option_map]. rewrite goto_in_stream.
  destruct (goto GY below A) as [s' |] eqn:Hgoto; [| reflexivity].
  cbn [option_map].
  destruct (semantic GY _ _ p _ src) as [[[yyVAL src'] | src'] |]; try reflexivity.
  cbn [step_in_stream]. unfold config_in_stream, cfg. cbn [yyS yychar yylval yylex].
  rewrite (stack_in_stream_plain _ _ _ (goto_plain _ _ _ Hgoto)). reflexivity.
Qed.

Lemma reduce_shared (p : production GY)
    (sy : list (state GY * yySymType)) la lv src c' :
  forallb plain_entry (drop (List.length (rhs GY p)) sy) = true ->
  forallb token_ok (toks src) = true ->
  match la with Some t => token_ok (t, yyValue lv) = true | None => True end ->
  reduce_step GY p sy la lv src = inl c' -> shared_config c'.
Proof.
  intros Hplain Htoks Hla. unfold reduce_step. cbv zeta.
  destruct (drop _ sy) as [| [below bv] rest]; [discriminate |].
  destruct (lhs GY p) as [A |]; [| discriminate].
  destruct (goto GY below A) as [s' |] eqn:Hgoto; [| discriminate].
  destruct (semantic GY _ _ p _ src) as [[[yyVAL src'] | src'] |] eqn:Hsem;
    try discriminate.
  intros Heq. injection Heq as <-.
  apply (uniform_toks GY gy_uniform) in Hsem.
  unfold shared_config, cfg. cbn [yyS yychar yylval yylex].
  split; [| split; [by rewrite Hsem | exact Hla]].
  unfold stack_ok. split; [exact Hplain |].
  rewrite (goto_plain _ _ _ Hgoto). discriminate.
Qed.

Lemma token_ok_not_stream (la : option terminal) (v : string) :
  match la with Some t => token_ok (t, v) = true | None => True end ->
  la <> Some STREAM.
Proof. intros Hla Heq. subst la. discriminate Hla. Qed.

(** One turn of the parser of [rules.y] on shared tokens is one turn of
    the parser with [stream], or two when the latter reduces a quoted
    string to a [string] first. *)
Lemma step_in_stream_read stk la lv src :
  shared_config (cfg GY stk (Some la) lv src) ->
  one_or_two_steps (config_in_stream (cfg GY stk (Some la) lv src))
                   (step_in_stream (yystep GY (cfg GY stk (Some la) lv src)))
  /\ match yystep GY (cfg GY stk (Some la) lv src) with
     | inl c' => shared_config c'
     | inr _ => True
     end.
Proof.
  intros (Hstack & Htoks & Hla). cbn [cfg yyS yychar yylval yylex] in Hstack, Htoks, Hla.
  destruct stk as [| [s v] rest]; [split; [by left | done] |].
  pose proof (token_ok_not_stream la (yyValue lv) Hla) as Hnot.
  destruct Hstack as [Hrest Htop].
  destruct (is_quote_state s) eqn:Hq.
  - (* a quoted string is on top *)
    destruct (Htop eq_refl) as [Hv Hbelow].
    destruct rest as [| [below bv] rest]; [done |].
    apply andb_true_iff in Hv as [Hshared Hlen].
    cbn [shared_token quote_length fst snd] in Hshared, Hlen.
    apply negb_true_iff in Hshared.
    assert (Hstrip : exists str, strip_quotes (yyValue v) = Some str).
    { unfold strip_quotes. rewrite Hlen. by eexists. }
    destruct Hstrip as [str Hstr].
    assert (Hmid : action GS grammar_stream.S_QUOTE la
                   = Reduce grammar_stream.P_string__QUOTE ->
                   yystep GS (config_in_stream
                                (cfg GY ((s, v) :: (below, bv) :: rest) (Some la) lv src))
                   = inl (cfg GS ((state_in_stream s, set_Value v str)
                                    :: map entry_in_stream ((below, bv) :: rest))
                              (Some la) lv src)).
    { intros Hact. unfold config_in_stream, cfg. cbn [yyS yychar yylval yylex].
      unfold stack_in_stream. rewrite Hq.
      cbn [map entry_in_stream fst snd].
      eapply (step_reduce GS);
        [exact Hact | reflexivity | reflexivity | apply goto_string, Hbelow |].
      cbn. rewrite (unquote_plain _ Hshared), Hstr. reflexivity. }
    pose proof (quote_action s la Hq Hnot) as Hacts.
    destruct (action GY s la) as [s' | p | |] eqn:Hact; try done.
    + destruct Hacts as (Hfirst & Hsecond & Hp).
      rewrite (yystep_reduce GY _ _ _ _ _ _ _ Hact).
      assert (Hn : exists n, List.length (rhs GY p) = S n).
      { destruct p; try discriminate Hp; eexists; reflexivity. }
      destruct Hn as [n Hn].
      split.
      * right. eexists. split; [apply Hmid, Hfirst |].
        rewrite (yystep_reduce GS _ _ _ _ _ _ _ Hsecond).
        apply (reduce_in_stream p ((s, v) :: (below, bv) :: rest)
                 ((state_in_stream s, set_Value v str)
                    :: map entry_in_stream ((below, bv) :: rest))).
        -- rewrite Hn. cbn [take map snd rev].
           etransitivity; [| by apply (semantic_quote p _ v str)].
           do 3 f_equal. exact (values_in_stream n ((below, bv) :: rest)).
        -- rewrite Hn. cbn [drop]. apply drop_in_stream.
      * destruct (reduce_step GY p _ la lv src) as [c' | out] eqn:Hred; [| done].
        refine (reduce_shared p _ la lv src c' _ Htoks Hla Hred).
        rewrite Hn. cbn [drop]. by apply drop_plain.
    + split; [| by (unfold yystep, cfg; cbn [yyS yychar yylval yylex]; rewrite Hact)].
      assert (Hy : yystep GY (cfg GY ((s, v) :: (below, bv) :: rest) (Some la) lv src)
                   = inr (Ret (1, Error src "syntax error"))).
      { unfold yystep, cfg. cbn [yyS yychar yylval yylex]. by rewrite Hact. }
      rewrite Hy. destruct Hacts as [Herr | [Hfirst Herr]].
      * left. unfold config_in_stream, yystep, cfg. cbn [yyS yychar yylval yylex].
        unfold stack_in_stream. rewrite Hq. by rewrite Herr.
      * right. eexists. split; [apply Hmid, Hfirst |].
        unfold yystep, cfg. cbn [yyS yychar yylval yylex]. by rewrite Herr.
  - (* the stacks are the same *)
    assert (Himage : config_in_stream (cfg GY ((s, v) :: rest) (Some la) lv src)
                     = cfg GS ((state_in_stream s, v) :: map entry_in_stream rest)
                           (Some la) lv src).
    { unfold config_in_stream, cfg. cbn [yyS yychar yylval yylex].
      by rewrite (stack_in_stream_plain _ _ _ Hq). }
    rewrite Himage.
    pose proof (plain_action s la Hq Hnot) as Hacts.
    destruct (action GY s la) as [s' | p | |] eqn:Hact.
    + destruct Hacts as [Hshift Hquote].
      assert (Hy : yystep GY (cfg GY ((s, v) :: rest) (Some la) lv src)
                   = inl (cfg GY ((s', lv) :: (s, v) :: rest) None lv src)).
      { unfold yystep, cfg. cbn [yyS yychar yylval yylex]. by rewrite Hact. }
      rewrite Hy. split.
      * left. unfold yystep, cfg. cbn [yyS yychar yylval yylex]. rewrite Hshift.
        cbn [step_in_stream]. unfold config_in_stream, cfg.
        cbn [yyS yychar yylval yylex]. unfold stack_in_stream.
        destruct (is_quote_state s'); [reflexivity |].
        cbn [map entry_in_stream fst snd]. reflexivity.
      * unfold shared_config, cfg. cbn [yyS yychar yylval yylex].
        split; [| by split].
        unfold stack_ok. split.
        -- cbn [forallb]. unfold plain_entry at 1. cbn [fst]. by rewrite Hq, Hrest.
        -- intros Hq'. destruct (Hquote Hq') as [-> Hs']. split; [exact Hla | exact Hs'].
    + destruct Hacts as [Hreduce Hp].
      rewrite (yystep_reduce GY _ _ _ _ _ _ _ Hact).
      split.
      * left. rewrite (yystep_reduce GS _ _ _ _ _ _ _ Hreduce).
        apply (reduce_in_stream p ((s, v) :: rest)
                       ((state_in_stream s, v) :: map entry_in_stream rest)).
        -- change ((state_in_stream s, v) :: map entry_in_stream rest)
             with (map entry_in_stream ((s, v) :: rest)).
           rewrite values_in_stream. by apply semantic_plain.
        -- apply (drop_in_stream _ ((s, v) :: rest)).
      * destruct (reduce_step GY p _ la lv src) as [c' | out] eqn:Hred; [| done].
        refine (reduce_shared p _ la lv src c' _ Htoks Hla Hred).
        apply drop_plain. cbn [forallb]. unfold plain_entry at 1. cbn [fst].
        by rewrite Hq, Hrest.
    + split; [left |]; unfold yystep, cfg; cbn [yyS yychar yylval yylex];
        rewrite ?Hact, ?Hacts; done.
    + split; [left |]; unfold yystep, cfg; cbn [yyS yychar yylval yylex];
        rewrite ?Hact, ?Hacts; done.
Qed.

Lemma config_in_stream_look (c : yyconfig GY (L := TokenSource)) :
  config_in_stream (look c) = look (config_in_stream c).
Proof.
  destruct c as [stk [la |] lv src]; unfold look, config_in_stream, cfg;
    cbn [yyS yychar yylval yylex]; [reflexivity |].
  destruct (toks src) as [| [t v] rest]; reflexivity.
Qed.

Lemma shared_look (c : yyconfig GY (L := TokenSource)) :
  shared_config c -> shared_config (look c).
Proof.
  destruct c as [stk [la |] lv src]; unfold look, shared_config, cfg;
    cbn [yyS yychar yylval yylex]; [done |].
  intros (Hstack & Htoks & _).
  destruct (toks src) as [| [t v] rest]; cbn [yyS yychar yylval yylex toks with_toks at_end].
  - done.
  - simpl in Htoks. apply andb_true_iff in Htoks as [Ht Hrest]. done.
Qed.

Lemma look_read (G : Tables) (c : yyconfig G (L := TokenSource)) :
  exists la lv src, look c = cfg G (yyS G c) (Some la) lv src.
Proof.
  destruct c as [stk [la |] lv src]; unfold look, cfg; cbn [yyS yychar yylval yylex].
  - by eexists _, _, _.
  - destruct (toks src) as [| [t v] rest]; by eexists _, _, _.
Qed.

Lemma step_in_stream_any (c : yyconfig GY (L := TokenSource)) :
  shared_config c ->
  one_or_two_steps (config_in_stream c) (step_in_stream (yystep GY c))
  /\ match yystep GY c with
     | inl c' => shared_config c'
     | inr _ => True
     end.
Proof.
  intros Hshared. apply shared_look in Hshared.
  rewrite <- (yystep_look GY c).
  unfold one_or_two_steps.
  rewrite <- (yystep_look GS (config_in_stream c)), <- config_in_stream_look.
  destruct (look_read GY c) as (la & lv & src & Hlook). rewrite Hlook in *.
  apply (step_in_stream_read _ la lv src Hshared).
Qed.

(** What the parser of [rules.y] returns on shared tokens, the parser of
    the grammar with [stream] returns, in at most twice as many turns. *)
Lemma loop_in_stream (n : nat) (c : yyconfig GY (L := TokenSource)) out :
  shared_config c -> yyloop GY n c = Some out ->
  yyloop GS (2 * n) (config_in_stream c) = Some out.
Proof.
  revert c. induction n as [| n IH]; intros c Hshared Hrun; [discriminate |].
  simpl in Hrun.
  destruct (step_in_stream_any c Hshared) as [Hsteps Hnext].
  replace (2 * S n)%nat with (S (S (2 * n))) by lia.
  destruct (yystep GY c) as [c' | out'].
  - specialize (IH c' Hnext Hrun). cbn [step_in_stream] in Hsteps.
    destruct Hsteps as [Hone | (mid & Hfirst & Hsecond)].
    + apply (yyloop_mono GS (S (2 * n))); [| lia]. simpl. by rewrite Hone.
    + cbn [yyloop]. rewrite Hfirst, Hsecond. exact IH.
  - injection Hrun as <-. cbn [step_in_stream] in Hsteps.
    destruct Hsteps as [Hone | (mid & Hfirst & Hsecond)].
    + cbn [yyloop]. by rewrite Hone.
    + cbn [yyloop]. by rewrite Hfirst, Hsecond.
Qed.

(** On a list of shared tokens the two parsers return the same. *)
Lemma yyParse_in_stream (n : nat) (ts : list (terminal * string)) (fails : bool) out :
  forallb token_ok ts = true ->
  yyParse GY n (source ts fails) = Some out ->
  yyParse GS (2 * n) (source ts fails) = Some out.
Proof.
  intros Hts Hrun. unfold yyParse in *.
  apply (loop_in_stream n _ out) in Hrun; [exact Hrun |].
  unfold shared_config. cbn [yyS yychar yylval yylex toks source].
  split; [| done]. unfold stack_ok. split; [reflexivity | discriminate].
Qed.

End Embedding.

(** ** A quoted string of the lexer holds its opening quote and one more
    byte *)

Lemma substring_length (s : string) (i n : nat) :
  (i + n <= String.length s)%nat -> String.length (String.substring i n s) = n.
Proof.
  revert i n. induction s as [| a s IH]; intros i n Hle; simpl in Hle.
  - assert (i = 0 /\ n = 0)%nat as [-> ->] by lia. reflexivity.
  - destruct i as [| i]; destruct n as [| n]; simpl; try reflexivity.
    + f_equal. apply IH. lia.
    + apply (IH i 0%nat). lia.
    + apply (IH i (S n)). lia.
Qed.

Lemma opTable_no_quote (z : Z) : opTable z <> TokenQuote.
Proof.
  unfold opTable, opTable_entries. cbn [List.find fst snd].
  repeat (match goal with
          | |- context [if ?b then _ else _] => destruct b; [discriminate |]
          end).
  discriminate.
Qed.

Lemma reservedWords_no_quote (val : string) : reservedWords val <> Some TokenQuote.
Proof.
  unfold reservedWords.
  repeat (match goal with
          | |- context [if ?b then _ else _] => destruct b; [discriminate |]
          end).
  discriminate.
Qed.

Lemma lexer_wf_rpos (lex : Lexer) : lexer_wf lex -> (rpos lex <= len (buf lex))%nat.
Proof. intros [Hnext Hcase]. destruct (r lex <? 0); lia. Qed.

Lemma scanQuote_length (lex : Lexer) :
  lexer_wf lex -> 0 <= r lex ->
  Typ (fst (scanQuote lex)) = TokenQuote ->
  (2 <= len (Value (fst (scanQuote lex))))%nat.
Proof.
  intros Hwf Hr. unfold scanQuote.
  pose proof (scanned_next lex Hwf Hr) as Hn.
  pose proof (scanQuote_loop_spec (loop_fuel (next lex)) (next lex)
                (proj1 (proj2 Hn))) as Hloop.
  destruct (scanQuote_loop _ _) as [[tok lex'] | lex'].
  { destruct Hloop as [Htok _]. cbn [fst]. rewrite Htok. discriminate. }
  destruct (r lex' <? 0) eqn:Hneg; cbn [fst Typ Value makeErrorToken]; [discriminate |].
  intros _.
  assert (Hr' : 0 <= r lex') by lia.
  pose proof (scanned_next lex' (proj1 (proj2 Hloop)) Hr') as Hlast.
  pose proof (scanned_trans _ _ _ _ _ Hn (scanned_trans _ _ _ _ _ Hloop Hlast))
    as (Hbuf & Hwf' & Hpos).
  pose proof (lexer_wf_rpos _ Hwf') as Hend.
  unfold slice, len in *. rewrite substring_length; lia.
Qed.

Lemma NextToken_quote_length (lex : Lexer) :
  lexer_wf lex ->
  Typ (fst (NextToken lex)) = TokenQuote ->
  (2 <= len (Value (fst (NextToken lex))))%nat.
Proof.
  intros Hwf. unfold NextToken.
  pose proof (scanned_while isSpace (loop_fuel lex) lex Hwf) as Hskip.
  fold (skipNontokens lex) in Hskip. set (lex1 := skipNontokens lex) in *.
  destruct (r lex1 <? 0) eqn:Hneg; [discriminate |].
  assert (Hr : 0 <= r lex1) by lia.
  assert (Hwf1 : lexer_wf lex1) by apply Hskip.
  assert (Hother :
            let other :=
              if isAlpha (r lex1) then scanIdentifier lex1
              else if isDigit (r lex1) then scanNumber lex1
              else if r lex1 =? rune dquote then scanQuote lex1
              else (makeErrorToken (rpos lex1), lex1) in
            Typ (fst other) = TokenQuote -> (2 <= len (Value (fst other)))%nat).
  { cbv zeta. destruct (isAlpha (r lex1)).
    - unfold scanIdentifier.
      destruct (reservedWords _) as [typ |] eqn:Hres; cbn [fst Typ]; [| discriminate].
      intros ->. by apply reservedWords_no_quote in Hres.
    - destruct (isDigit (r lex1)); [discriminate |].
      destruct (r lex1 =? rune dquote); [| discriminate].
      by apply scanQuote_length. }
  destruct (r lex1 <? len_opTable); [| exact Hother].
  case_bool_decide as Hopname; [| exact Hother].
  destruct (bool_decide (opTable (r lex1) = TokenDivide) && (peekNextByte lex1 =? rune "/")).
  - discriminate.
  - cbn [fst Typ]. intros Hq. by apply opTable_no_quote in Hq.
Qed.

Lemma Parser_Lex_loop_quote (fuel : nat) (p : Parser) :
  lexer_wf (lexer p) ->
  let '(n, v, p') := Parser_Lex_loop fuel p yyZero in
  n = TokenNumberOf QUOTE -> (2 <= len (yyValue v))%nat.
Proof.
  revert p. induction fuel as [| fuel IH]; intros p Hwf; simpl;
    pose proof (NextToken_spec (lexer p) Hwf) as Hnext;
    pose proof (NextToken_quote_length (lexer p) Hwf) as Hquote;
    destruct (NextToken (lexer p)) as [tok lexer']; cbn [fst] in Hquote;
    destruct (Typ tok) eqn:Hty; cbn [tokenNumbers]; try discriminate;
    try (intros _; cbn [yyValue set_Value]; by apply Hquote).
  rewrite bool_decide_eq_false_2 in Hnext by (intros [|]; discriminate).
  apply (IH {| lexer := lexer'; last := Some tok; result := result p; err := err p |}
            (proj1 (proj2 Hnext))).
Qed.

Lemma drain_quote_length (n : nat) (p : Parser) ts fails :
  lexer_wf (lexer p) -> drain n p = Some (ts, fails) ->
  forallb quote_length ts = true.
Proof.
  revert p ts. induction n as [| n IH]; intros p ts Hwf Hdrain; [discriminate |].
  simpl in Hdrain. unfold Parser_Lex in Hdrain.
  pose proof (Parser_Lex_loop_spec (len (buf (lexer p))) p yyZero Hwf) as Hlex.
  pose proof (Parser_Lex_loop_quote (len (buf (lexer p))) p Hwf) as Hquote.
  destruct (Parser_Lex_loop _ p yyZero) as [[c lv] p'].
  destruct c as [t | z].
  - destruct (drain n p') as [[ts' fails'] |] eqn:Hd; [| discriminate].
    injection Hdrain as <- <-.
    cbn [forallb]. rewrite (IH p' ts' (proj1 (proj2 Hlex)) Hd), andb_true_r.
    unfold quote_length. cbn [fst snd].
    destruct t; try reflexivity. apply Nat.leb_le. by apply Hquote.
  - by injection Hdrain as <- <-.
Qed.

Lemma lex_all_quote_length (input : string) ts fails :
  lex_all input = Some (ts, fails) -> forallb quote_length ts = true.
Proof.
  intros Hlex.
  apply (drain_quote_length _ (NewParser (NewLexer input)) _ _
           (proj1 (NewLexer_wf input)) Hlex).
Qed.

(** ** The parser does not panic

    The stack that [yyParse] builds is well-formed: every production finds
    its symbols on the stack, with values that hold what its code reads,
    and the state below them has a transition on its left-hand side. *)

Lemma wf_stack_push (G : Tables) acc val s' v s vs rest :
  wf_stack G acc val ((s', v) :: (s, vs) :: rest) ->
  exists X, acc s' = Some X /\ trans G s X = Some s' /\ val X v /\
            wf_stack G acc val ((s, vs) :: rest).
Proof.
  intros [Htop Hrest]. destruct (acc s') as [X |]; [| done].
  exists X. destruct Htop. done.
Qed.

Lemma unquote_Some (lit : string) :
  (2 <=? len lit)%nat = true -> is_Some (grammar_stream.unquote lit).
Proof.
  intros Hlen. unfold grammar_stream.unquote, strip_quotes. rewrite Hlen. by eexists.
Qed.

Lemma strip_quotes_Some (lit : string) :
  (2 <=? len lit)%nat = true -> is_Some (strip_quotes lit).
Proof. intros Hlen. unfold strip_quotes. rewrite Hlen. by eexists. Qed.

(** The entry below the top of a well-formed stack: the states that lead
    to the top state on its symbol, one goal for each. *)
Ltac expose_one H :=
  lazymatch type of H with
  | wf_stack _ _ _ ((?s, ?v) :: ?stk) =>
      let sb := fresh "sb" in
      let vb := fresh "vb" in
      let stk' := fresh "stk" in
      let X := fresh "X" in
      let Hacc := fresh "Hacc" in
      let Htr := fresh "Htr" in
      let Hv := fresh "Hv" in
      destruct stk as [| [sb vb] stk'];
      [ exfalso; vm_compute in H; discriminate H
      | apply wf_stack_push in H; destruct H as (X & Hacc & Htr & Hv & H);
        vm_compute in Hacc; injection Hacc as <-;
        destruct sb; try (exfalso; vm_compute in Htr; discriminate Htr); clear Htr;
        cbn [gs_val_ok gy_val_ok] in Hv ]
  end.

Ltac expose n H :=
  lazymatch n with
  | O => idtac
  | S ?m => expose_one H; expose m H
  end.

(** The action of each state on each lookahead, and under a reduction
    the entries of the stack that the production takes. *)
Ltac sound_step_cases G Hwf Hla :=
  match goal with
  | |- context [action G ?s ?la] =>
      let a := eval vm_compute in (action G s la) in
      change (action G s la) with a; cbv iota beta
  end;
  try exact I;
  try (cbn [yyS yychar yylval yylex]; split; [| split; [reflexivity | by left]];
       cbn [wf_stack gs_accessing gy_accessing trans];
       split; [split; [reflexivity | exact Hla] | exact Hwf]);
  match goal with
  | |- context [rhs G ?p] =>
      let n := eval vm_compute in (List.length (rhs G p)) in
      expose n Hwf
  end;
  repeat match goal with
         | H : is_Some _ |- _ => let x := fresh "x" in destruct H as [x H]
         end;
  cbn.

Ltac sound_step_finish Hwf :=
  repeat match goal with
         | H : ?t = Some _ |- context [?t] => rewrite H; cbn
         end;
  repeat match goal with
         | |- context [regexp_Compile ?x] => destruct (regexp_Compile x); cbn
         | |- context [rules.NewFieldPredicate ?f ?x] =>
             destruct (rules.NewFieldPredicate f x); cbn
         end;
  try exact I;
  try (split; [split; [split; [reflexivity | done] | exact Hwf]
              | split; [reflexivity | right; done]]).

Lemma gs_sound_step {RE : RegexpLib} {XE : SyntaxErrors} :
  sound_step grammar_stream.tables gs_accessing gs_val_ok.
Proof.
  intros stk la lv src Hwf Hla.
  destruct stk as [| [s v] stk]; [done |].
  unfold yystep, cfg. cbn [yyS yychar yylval yylex].
  destruct s; destruct la as [[] |]; sound_step_cases grammar_stream.tables Hwf Hla;
    unfold grammar_stream.rule_of_move, grammar_stream.rule_of_flag,
      grammar_stream.rule_of_unflag, grammar_stream.rule_of_stream,
      grammar_stream.comparison_tilde, grammar_stream.comparison_equals;
    try match goal with
        | Hq : quote_length (QUOTE, yyValue ?v) = true
          |- context [grammar_stream.unquote (yyValue ?v)] =>
            let str := fresh "str" in
            let Hstr := fresh "Hstr" in
            destruct (unquote_Some (yyValue v) Hq) as [str Hstr]; rewrite Hstr; cbn
        end;
    sound_step_finish Hwf.
Qed.

Lemma gy_sound_step {RE : RegexpLib} {XE : SyntaxErrors} :
  sound_step grammar_rules_y.tables gy_accessing gy_val_ok.
Proof.
  intros stk la lv src Hwf Hla.
  destruct stk as [| [s v] stk]; [done |].
  unfold yystep, cfg. cbn [yyS yychar yylval yylex].
  destruct s; destruct la as [[] |]; sound_step_cases grammar_rules_y.tables Hwf Hla;
    unfold grammar_rules_y.rule_of_move, grammar_rules_y.rule_of_flag,
      grammar_rules_y.rule_of_unflag,
      grammar_rules_y.comparison_tilde, grammar_rules_y.comparison_equals;
    try match goal with
        | Hq : quote_length (QUOTE, yyValue ?v) = true
          |- context [strip_quotes (yyValue ?v)] =>
            let str := fresh "str" in
            let Hstr := fresh "Hstr" in
            destruct (strip_quotes_Some (yyValue v) Hq) as [str Hstr]; rewrite Hstr; cbn
        end;
    sound_step_finish Hwf.
Qed.

Section Sound.
Context (G : Tables) {XE : SyntaxErrors} (accessing : state G -> option (terminal + nonterminal G))
        (val_ok : terminal + nonterminal G -> yySymType -> Prop)
        (Hstep : sound_step G accessing val_ok).

Lemma sound_look (c : yyconfig G (L := TokenSource)) :
  sound_config G accessing val_ok c -> sound_config G accessing val_ok (look c).
Proof.
  destruct c as [stk [la |] lv src]; unfold look, sound_config, cfg;
    cbn [yyS yychar yylval yylex]; [done |].
  intros (Hstack & Htoks & _).
  destruct (toks src) as [| [t v] rest]; cbn [yyS yychar yylval yylex toks with_toks at_end].
  - done.
  - simpl in Htoks. apply andb_true_iff in Htoks as [Ht Hrest]. done.
Qed.

Lemma sound_yystep (c : yyconfig G (L := TokenSource)) :
  sound_config G accessing val_ok c ->
  match yystep G c with
  | inl c' => sound_config G accessing val_ok c'
  | inr Panic => False
  | inr (Ret _) => True
  end.
Proof.
  intros Hsound. apply sound_look in Hsound.
  rewrite <- (yystep_look G c).
  destruct (look_read G c) as (la & lv & src & Hlook). rewrite Hlook in *.
  destruct Hsound as (Hstack & Htoks & Hla). cbn [cfg yyS yychar yylval yylex] in *.
  assert (Hla' : match la with
                 | Some t => quote_length (t, yyValue lv) = true
                 | None => True
                 end) by (by destruct la).
  pose proof (Hstep _ la lv src Hstack Hla') as Hnext.
  destruct (yystep G (cfg G (yyS G c) (Some la) lv src)) as [c' | [out |]]; try done.
  destruct Hnext as (Hstack' & Htoks' & Hchar).
  split; [exact Hstack' | split; [by rewrite Htoks' |]].
  destruct Hchar as [-> | [-> ->]]; [done | by destruct la].
Qed.

Lemma sound_yyloop (n : nat) (c : yyconfig G (L := TokenSource)) out :
  sound_config G accessing val_ok c -> yyloop G n c = Some out -> out <> Panic.
Proof.
  revert c. induction n as [| n IH]; intros c Hsound Hrun; [discriminate |].
  simpl in Hrun. pose proof (sound_yystep c Hsound) as Hnext.
  destruct (yystep G c) as [c' | [o |]]; [by apply (IH c') | | done].
  injection Hrun as <-. discriminate.
Qed.

Lemma sound_yyParse (n : nat) (ts : list (terminal * string)) (fails : bool) out :
  forallb quote_length ts = true ->
  yyParse G n (source ts fails) = Some out -> out <> Panic.
Proof.
  intros Hts. apply sound_yyloop.
  unfold sound_config. cbn [yyS yychar yylval yylex toks source wf_stack]. done.
Qed.

(** [Parse] returns, for every text: rules and no error, or an error. *)
Lemma Parse_with_returns (rank : state G -> nat) (input : string) :
  uniform G -> ranked G rank ->
  exists rs e, Parse_with G input = Some (Ret (rs, e)).
Proof.
  intros HU HR.
  destruct (lex_all_total input) as (ts & fails & Hlex & Hlen).
  destruct (yyloop_total G HU rank HR (parse_fuel input)
              (cfg G [(init G, yyZero)] None yyZero (source ts fails))) as [out Hrun].
  { unfold measure, tokens_left, parse_fuel, cfg.
    cbn [yyS yychar yylex toks source List.length]. unfold len in *. lia. }
  pose proof (sound_yyParse _ ts fails out (lex_all_quote_length input ts fails Hlex) Hrun)
    as Hret.
  pose proof (yyParse_on_tokens G HU (parse_fuel input) input ts fails Hlex) as Hsame.
  unfold yyParse in Hsame. unfold cfg in Hrun. rewrite Hrun in Hsame. clear Hrun.
  unfold Parse_with, yyParse.
  destruct (yyloop G _ _) as [[[n p] |] |]; destruct out as [[n' s] |]; try done.
  destruct (err p); by eexists _, _.
Qed.

End Sound.

Lemma token_ok_all (ts : list (terminal * string)) :
  forallb shared_token ts = true -> forallb quote_length ts = true ->
  forallb token_ok ts = true.
Proof.
  induction ts as [| t ts IH]; simpl; [done |].
  intros [Ht Hts]%andb_true_iff [Hq Hqs]%andb_true_iff.
  unfold token_ok at 1. by rewrite Ht, Hq, IH.
Qed.

Lemma same_outcome_parse (p1 p2 : Parser) (s : TokenSource) :
  same_outcome p1 s -> same_outcome p2 s ->
  same_parse
    (Some (Ret (match err p1 with Some e => ([], Some e) | None => (result p1, None) end)))
    (Some (Ret (match err p2 with Some e => ([], Some e) | None => (result p2, None) end))).
Proof.
  intros [Herr1 Hres1] [Herr2 Hres2]. unfold same_parse.
  destruct (err p1) as [e1 |], (err p2) as [e2 |].
  - done.
  - destruct Herr1 as [_ Herr1]. destruct Herr2 as [Herr2 _].
    by specialize (Herr1 (Herr2 eq_refl)).
  - destruct Herr1 as [Herr1 _]. destruct Herr2 as [_ Herr2].
    by specialize (Herr2 (Herr1 eq_refl)).
  - by rewrite (Hres1 eq_refl), (Hres2 eq_refl).
Qed.

(** [Parse] returns for every text, whichever grammar the parser has been
    generated from. *)
Lemma Parse_returns {RE : RegexpLib} {XE : SyntaxErrors} (input : string) :
  exists rs e, Parse input = Some (Ret (rs, e)).
Proof.
  apply (Parse_with_returns _ _ _ gs_sound_step gs_rank input gs_uniform gs_ranked).
Qed.

Lemma Parse_rules_y_returns {RE : RegexpLib} {XE : SyntaxErrors} (input : string) :
  exists rs e, Parse_with grammar_rules_y.tables input = Some (Ret (rs, e)).
Proof.
  apply (Parse_with_returns _ _ _ gy_sound_step gy_rank input gy_uniform gy_ranked).
Qed.

(** C10, amended.  On every text in which the keyword [stream] is not
    used and no quoted string holds a backslash, the parser generated from
    [rules.y] and the parser generated from the grammar with [stream]
    return the same: both the same list of rules and no error, or both an
    error and no rules. *)
Theorem grammars_agree_on_shared_text {RE : RegexpLib} {XE : SyntaxErrors} (input : string) :
  shared_text input = true ->
  same_parse (Parse_with grammar_rules_y.tables input) (Parse input).
Proof.
  unfold shared_text. destruct (lex_all input) as [[ts fails] |] eqn:Hlex; [| discriminate].
  intros Hshared.
  pose proof (lex_all_length input ts fails Hlex) as Hlen.
  pose proof (token_ok_all ts Hshared (lex_all_quote_length input ts fails Hlex)) as Hok.
  assert (Hfuel : forall (G : Tables) (rank : state G -> nat),
             (measure rank (cfg G [(init G, yyZero)] None yyZero (source ts fails))
              < parse_fuel input)%nat).
  { intros G rank. unfold measure, tokens_left, parse_fuel, cfg.
    cbn [yyS yychar yylex toks source List.length]. unfold len in *. lia. }
  destruct (yyloop_total (XE := plain_errors) grammar_rules_y.tables gy_uniform gy_rank
              gy_ranked (parse_fuel input) _ (Hfuel grammar_rules_y.tables gy_rank))
    as [out Hy].
  destruct (yyloop_total (XE := plain_errors) grammar_stream.tables gs_uniform gs_rank
              gs_ranked (parse_fuel input) _ (Hfuel grammar_stream.tables gs_rank))
    as [out' Hs].
  pose proof (yyParse_in_stream (parse_fuel input) ts fails out Hok Hy) as Hs2.
  pose proof (yyloop_mono _ _ (2 * parse_fuel input) _ _ Hs) as Hs'.
  unfold yyParse in Hs2. unfold cfg in Hs'. rewrite Hs2 in Hs'.
  assert (out' = out) as -> by (assert (Some out = Some out') by (apply Hs'; lia); congruence).
  pose proof (yyParse_on_tokens (XP := XE) (XT := plain_errors) grammar_rules_y.tables
                gy_uniform (parse_fuel input) input ts fails Hlex) as Hby.
  pose proof (yyParse_on_tokens (XP := XE) (XT := plain_errors) grammar_stream.tables
                gs_uniform (parse_fuel input) input ts fails Hlex) as Hbs.
  unfold yyParse in Hby, Hbs. unfold cfg in Hy, Hs. rewrite Hy in Hby. rewrite Hs in Hbs.
  pose proof (sound_yyParse _ _ _ gy_sound_step _ ts fails out
                (lex_all_quote_length input ts fails Hlex) Hy) as Hret.
  clear Hy Hs Hs2 Hs'. unfold Parse, Parse_with, yyParse.
  destruct (yyloop grammar_rules_y.tables _ _) as [[[n1 p1] |] |];
    destruct (yyloop grammar_stream.tables _ _) as [[[n2 p2] |] |];
    destruct out as [[n s] |]; try done.
  apply (same_outcome_parse p1 p2 s); [apply Hby | apply Hbs].
Qed.

Lemma grammars_agree_on_shared_text_witness :
  same_parse
    (Parse_with (XE := plain_errors) (grammar_rules_y.tables (RE := substring_regexp))
       precedence_text)
    (Parse (RE := substring_regexp) (XE := plain_errors) precedence_text).
Proof.
  apply (grammars_agree_on_shared_text (RE := substring_regexp) (XE := plain_errors)
           precedence_text).
  vm_compute. reflexivity.
Defined.


(** * More theorems *)

(** ** Predicates and the match step *)

Section ScanFacts.
Context {RE : RegexpLib} {W : World}.

Lemma MatchField_envelope (field : string) (sp : rules.StringPredicate)
    (msg : imap.Message) :
  has_envelope msg -> exists b, rules.MatchField field sp msg = Ret b.
Proof.
  unfold has_envelope, rules.MatchField. intros Henv.
  destruct (imap.Envelope_ msg) as [e |]; [| done].
  repeat case_bool_decide; by eexists.
Qed.

Lemma MatchMessage_envelope (p : rules.Predicate) (msg : imap.Message) :
  has_envelope msg -> exists b, rules.MatchMessage p msg = Ret b.
Proof.
  intros Henv.
  induction p as [field sp | l [bl IHl] r [br IHr] | l [bl IHl] r [br IHr] | q [bq IHq]];
    simpl.
  - by apply MatchField_envelope.
  - rewrite IHl. destruct bl; [rewrite IHr |]; by eexists.
  - rewrite IHl. destruct bl; [| rewrite IHr]; by eexists.
  - rewrite IHq. by eexists.
Qed.

Lemma MatchMessage_no_envelope (p : rules.Predicate) (msg : imap.Message) :
  known_fields p -> imap.Envelope_ msg = None -> rules.MatchMessage p msg = Panic.
Proof.
  intros Hknown Henv.
  induction p as [field sp | l IHl r IHr | l IHl r IHr | q IHq]; simpl in *.
  - unfold rules.MatchField. rewrite Henv.
    destruct Hknown as [-> | [-> | ->]]; reflexivity.
  - by rewrite (IHl (proj1 Hknown)).
  - by rewrite (IHl (proj1 Hknown)).
  - by rewrite (IHq Hknown).
Qed.

(** X1.  A predicate over the fields that [NewFieldPredicate] lets through
    panics on a message exactly when the envelope of the message has not
    been fetched: then the first comparison that is evaluated reads a
    field of the nil envelope. *)
Theorem match_panics_without_envelope (p : rules.Predicate) (msg : imap.Message) :
  known_fields p ->
  (rules.MatchMessage p msg = Panic <-> imap.Envelope_ msg = None).
Proof.
  intros Hknown. split.
  - intros Hpanic. destruct (imap.Envelope_ msg) as [e |] eqn:Henv; [| done].
    destruct (MatchMessage_envelope p msg) as [b Hb]; [unfold has_envelope; by rewrite Henv |].
    rewrite Hb in Hpanic. discriminate.
  - by apply MatchMessage_no_envelope.
Qed.

Lemma with_pending_same (r : rules.Rule) : rules.with_pending r (rules.pending r) = r.
Proof. by destruct r as [[] | [] | [] | []]. Qed.

Lemma with_pending_twice (r : rules.Rule) (s t : gset N) :
  rules.with_pending (rules.with_pending r s) t = rules.with_pending r t.
Proof. by destruct r. Qed.

Lemma pending_with_pending (r : rules.Rule) (s : gset N) :
  rules.pending (rules.with_pending r s) = s.
Proof. by destruct r. Qed.

Lemma queues_with_pending (r : rules.Rule) (s : gset N) (msg : imap.Message) :
  queues (rules.with_pending r s) msg = queues r msg.
Proof. by destruct r. Qed.

Lemma predicate_of_with_pending (r : rules.Rule) (s : gset N) :
  predicate_of (rules.with_pending r s) = predicate_of r.
Proof. by destruct r. Qed.

Lemma log_Subject_envelope (msg : imap.Message) :
  has_envelope msg -> rules.log_Subject msg = Ret tt.
Proof.
  unfold has_envelope, rules.log_Subject. by destruct (imap.Envelope_ msg).
Qed.

(** The match step on a message with an envelope. *)
Lemma Message_queues (r : rules.Rule) (msg : imap.Message) :
  has_envelope msg -> predicate_of r <> None ->
  rules.Message r msg
  = Ret (if queues r msg
         then rules.with_pending r ({[ imap.Uid msg ]} ∪ rules.pending r)
         else r).
Proof.
  intros Henv Hpred. unfold queues.
  destruct r as [m | f | u | s]; simpl in *.
  - unfold rules.MoveRule_Message.
    destruct (rules.move_Predicate m) as [p |]; [| done]. simpl.
    destruct (MatchMessage_envelope p msg Henv) as [b ->].
    rewrite (log_Subject_envelope msg Henv). by destruct b, m.
  - unfold rules.FlagRule_Message.
    destruct (rules.has_flag _ _); simpl; [done |].
    destruct (rules.flag_Predicate f) as [p |]; [| done]. simpl.
    destruct (MatchMessage_envelope p msg Henv) as [b ->].
    rewrite (log_Subject_envelope msg Henv). by destruct b, f.
  - unfold rules.UnflagRule_Message.
    destruct (rules.has_flag _ _); simpl; [done |].
    destruct (rules.unflag_Predicate u) as [p |]; [| done]. simpl.
    destruct (MatchMessage_envelope p msg Henv) as [b ->].
    rewrite (log_Subject_envelope msg Henv). by destruct b, u.
  - unfold rules.StreamRule_Message.
    destruct (rules.stream_Predicate s) as [p |]; [| done]. simpl.
    destruct (MatchMessage_envelope p msg Henv) as [b ->].
    rewrite (log_Subject_envelope msg Henv). by destruct b, s.
Qed.

(** A scan of a batch of messages with envelopes does not panic and
    adds to the pending set of the rule the identifiers of the messages
    that match its predicate, those that carry the flag of a Flag or
    Unflag rule left out; nothing else of the rule changes. *)
Theorem scan_queues_matches (r : rules.Rule) (batch : list imap.Message) :
  Forall has_envelope batch -> predicate_of r <> None ->
  scan r batch = Ret (rules.with_pending r (queued r batch ∪ rules.pending r)).
Proof.
  intros Hbatch. revert r. induction Hbatch as [| msg batch Henv _ IH]; intros r Hpred.
  - simpl. unfold queued. simpl. rewrite union_empty_l_L. by rewrite with_pending_same.
  - simpl. rewrite (Message_queues r msg Henv Hpred).
    unfold queued. rewrite filter_cons.
    destruct (decide (queues r msg = true)) as [Hq | Hq].
    + rewrite Hq.
      rewrite IH by (by rewrite predicate_of_with_pending).
      rewrite with_pending_twice, pending_with_pending. f_equal. f_equal.
      unfold queued.
      rewrite (list_filter_iff _ (fun msg0 => queues r msg0 = true))
        by (intros msg0; by rewrite queues_with_pending).
      cbn [map]. rewrite list_to_set_cons.
      by rewrite (assoc_L (∪)), (comm_L (∪) _ {[ imap.Uid msg ]}).
    + apply not_true_is_false in Hq. rewrite Hq. by rewrite IH.
Qed.

Lemma stream_loop_requests (s : rules.StreamRule) (messages : list imap.Message) :
  requests_of (snd (rules.stream_loop s messages)) = [].
Proof.
  induction messages as [| m ms IH]; [done |]. simpl.
  destruct (rules.stream_one s m) as [e1 v1] eqn:H1.
  destruct (rules.stream_loop s ms) as [e2 v2]. simpl in *.
  unfold requests_of in *. rewrite omap_app, IH, app_nil_r.
  unfold rules.stream_one in H1.
  destruct (rules.messageParse m); [| by injection H1 as <- <-].
  destruct (rules.messageMIME _ _); [| by injection H1 as <- <-].
  destruct (header_Date _); destruct (mime_DecodeHeader _);
    injection H1 as <- <-; done.
Qed.

(** The mailbox requests of the action step: none for an empty pending
    set, else the one request of the rule for the whole set. *)
Lemma Action_requests (r : rules.Rule) :
  requests_of (events (rules.Action r))
  = if decide (rules.pending r = ∅) then [] else [batch_request r (rules.pending r)].
Proof.
  destruct r as [m | f | u | s]; simpl;
    unfold rules.MoveRule_Action, rules.FlagRule_Action, rules.UnflagRule_Action,
      rules.StreamRule_Action, imap.Empty.
  - case_bool_decide; [by rewrite decide_True | by rewrite decide_False].
  - case_bool_decide; [by rewrite decide_True | by rewrite decide_False].
  - case_bool_decide; [by rewrite decide_True | by rewrite decide_False].
  - case_bool_decide; [by rewrite decide_True | rewrite decide_False by done].
    destruct (client_UidFetch _ _) as [fetched fetch_err].
    pose proof (stream_loop_requests s fetched) as Hloop.
    destruct (rules.stream_loop s fetched) as [errs evs]. simpl in *.
    by rewrite Hloop.
Qed.

Lemma Action_after (r : rules.Rule) :
  after (rules.Action r) = rules.with_pending r ∅.
Proof.
  destruct r as [m | f | u | s]; simpl;
    unfold rules.MoveRule_Action, rules.FlagRule_Action, rules.UnflagRule_Action,
      rules.StreamRule_Action.
  - by destruct (imap.Empty _).
  - by destruct (imap.Empty _).
  - by destruct (imap.Empty _).
  - destruct (imap.Empty _); [done |].
    destruct (client_UidFetch _ _) as [fetched fetch_err].
    by destruct (rules.stream_loop s fetched).
Qed.

(** X2.  A scan followed by the action step.  For a rule with an empty
    pending set and a batch of messages with envelopes, the action step
    after the scan issues no mailbox request when no message of the batch
    is queued, and else exactly one: the request of the rule (move, add
    the flag, remove the flag, fetch) for the identifiers of the queued
    messages of the batch; it leaves the rule as it was before the scan. *)
Theorem scan_then_action (r : rules.Rule) (batch : list imap.Message) :
  Forall has_envelope batch -> predicate_of r <> None -> rules.pending r = ∅ ->
  exists r', scan r batch = Ret r' /\
    requests_of (events (rules.Action r'))
    = (if decide (queued r batch = ∅) then [] else [batch_request r (queued r batch)]) /\
    after (rules.Action r') = r.
Proof.
  intros Hbatch Hpred Hempty. eexists. split; [by apply scan_queues_matches |].
  rewrite Action_requests, Action_after, pending_with_pending, with_pending_twice.
  rewrite Hempty, union_empty_r_L. split.
  - destruct (decide (queued r batch = ∅)); [done |]. by destruct r.
  - by rewrite <- Hempty, with_pending_same.
Qed.

End ScanFacts.

Lemma match_panics_without_envelope_witness :
  rules.MatchMessage (RE := substring_regexp)
    (rules.FieldPredicate "subject" (rules.StringEqualsPredicate "hi")) fetched_message
  = Panic.
Proof.
  apply (match_panics_without_envelope (RE := substring_regexp)).
  - right. right. reflexivity.
  - reflexivity.
Defined.

Lemma scan_then_action_witness :
  exists r', scan (RE := substring_regexp) deal_rule deal_batch = Ret r' /\
    requests_of (events (rules.Action (W := example_world) r'))
    = [UidMove {[ 7%N ]} "Archive"] /\
    after (rules.Action (W := example_world) r') = deal_rule.
Proof.
  destruct (scan_then_action (RE := substring_regexp) (W := example_world)
              deal_rule deal_batch) as (r' & Hscan & Hreq & Hafter).
  - repeat constructor; discriminate.
  - discriminate.
  - reflexivity.
  - exists r'. split; [exact Hscan | split; [| exact Hafter]].
    rewrite Hreq. vm_compute. reflexivity.
Defined.


(** ** The stream rule of [rules.go] *)

Section StreamFacts.
Context {RE : RegexpLib} {W : World}.



Lemma stream_one_errors (r : rules.StreamRule) (message : imap.Message) :
  fst (rules.stream_one r message) = [] <-> streams_cleanly r message.
Proof.
  unfold streams_cleanly, rules.stream_one.
  destruct (rules.messageParse message) as [msg | err] eqn:Hparse; cbn [fst snd].
  2: { split; [done | by intros (? & ? & ? & ? & ? & ? & _)]. }
  destruct (rules.messageMIME msg "text/html") as [html | err] eqn:Hmime; cbn [fst snd].
  2: { split; [done |]. intros (? & ? & ? & ? & ? & Hm & Hh & _).
       injection Hm as <-. congruence. }
  destruct (header_Date _) as [date | err] eqn:Hdate;
    destruct (mime_DecodeHeader _) as [subject | err'] eqn:Hsubject; simpl.
  - destruct (cmd_Run _ _ _) eqn:Hrun; simpl.
    + split; [done |]. intros (? & ? & ? & ? & ? & Hm & Hh & _ & _ & Hev & Hrun').
      injection Hm as <-. rewrite Hmime in Hh. injection Hh as <-.
      injection Hev as <-. congruence.
    + split; [| done]. intros _. by eexists _, _, _, _, _.
  - split; [done |]. intros (? & ? & ? & ? & ? & Hm & _ & _ & Hs & _).
    injection Hm as <-. congruence.
  - split; [done |]. intros (? & ? & ? & ? & ? & Hm & _ & Hd & _).
    injection Hm as <-. congruence.
  - split; [done |]. intros (? & ? & ? & ? & ? & Hm & _ & Hd & _).
    injection Hm as <-. congruence.
Qed.

Lemma stream_loop_errors (r : rules.StreamRule) (fetched : list imap.Message) :
  fst (rules.stream_loop r fetched) = [] <-> Forall (streams_cleanly r) fetched.
Proof.
  induction fetched as [| m ms IH]; [done |].
  rewrite Forall_cons, <- IH, <- stream_one_errors.
  simpl.
  destruct (rules.stream_one r m) as [e1 v1].
  destruct (rules.stream_loop r ms) as [e2 v2]. simpl.
  split.
  - intros Happ. by apply app_eq_nil in Happ.
  - by intros [-> ->].
Qed.


(** X4.  The action step of a stream rule with pending messages returns nil
    exactly when nothing has gone wrong with any fetched message and the
    fetch has succeeded.  When something has gone wrong with a message,
    the errors of the messages are returned and the error of the fetch is
    not. *)
Theorem stream_returns_nil_iff (r : rules.StreamRule) :
  rules.stream_messages r <> ∅ ->
  let items := [imap.FetchUid; imap.FetchRFC822Header; imap.FetchRFC822Text] in
  let fetched := fst (client_UidFetch (rules.stream_messages r) items) in
  let fetch_err := snd (client_UidFetch (rules.stream_messages r) items) in
  (returned (rules.StreamRule_Action r) = Ret None
   <-> Forall (streams_cleanly r) fetched /\ fetch_err = None) /\
  (forall e es, fst (rules.stream_loop r fetched) = e :: es ->
     returned (rules.StreamRule_Action r) = Ret (Some (rules.join_all e es))).
Proof.
  intros Hne items fetched fetch_err. subst items fetched fetch_err.
  unfold rules.StreamRule_Action, imap.Empty.
  rewrite bool_decide_eq_false_2 by done.
  destruct (client_UidFetch _ _) as [fetched fetch_err]. cbn [fst snd].
  pose proof (stream_loop_errors r fetched) as Herrs.
  destruct (rules.stream_loop r fetched) as [errs evs]. cbn [fst snd returned] in *.
  split.
  - destruct errs as [| e es].
    + destruct fetch_err; split; try done.
      * by intros [_ ?].
      * intros _. split; [by apply Herrs | done].
    + split; [done |]. intros [Hclean _]. by apply Herrs in Hclean.
  - by intros e es ->.
Qed.

End StreamFacts.


Lemma stream_returns_nil_iff_witness :
  rules.stream_messages cat_rule <> ∅ /\
  returned (rules.StreamRule_Action
              (W := fetching_world [whole_message; headless_message]) cat_rule)
  = Ret (Some (Wrapf "parse message 2" (Errorf "message 2 missing header, body, or both"))).
Proof.
  assert (Hne : rules.stream_messages cat_rule <> ∅).
  { intros Hempty. apply (f_equal (fun s => bool_decide (1%N ∈ s))) in Hempty.
    vm_compute in Hempty. discriminate. }
  split; [exact Hne |].
  rewrite (proj2 (stream_returns_nil_iff
                    (W := fetching_world [whole_message; headless_message]) cat_rule Hne)
             (Wrapf "parse message 2" (Errorf "message 2 missing header, body, or both"))
             []).
  - reflexivity.
  - vm_compute. reflexivity.
Defined.


(** ** Reading a fetched message *)

Section ReadFacts.
Context {W : World}.

Lemma pick_spec (spec : string) (body : list (string * option string))
    (acc : option string) :
  let pick :=
    foldl (fun acc kv =>
             match kv with
             | (k, Some v) => if bool_decide (k = spec) then Some v else acc
             | (_, None) => acc
             end) acc body in
  (is_Some pick <-> is_Some acc \/ exists v, (spec, Some v) ∈ body) /\
  (forall v, pick = Some v -> acc = Some v \/ (spec, Some v) ∈ body).
Proof.
  revert acc. induction body as [| [k [v |]] body IH]; intros acc; simpl.
  - split; [| by left]. split; [by left |]. intros [? | [v Hv]]; [done |].
    by apply elem_of_nil in Hv.
  - destruct (IH (if bool_decide (k = spec) then Some v else acc)) as [IH1 IH2].
    split.
    + rewrite IH1. case_bool_decide as Hk.
      * subst k. split; [| by intros _; left]. intros _. right. exists v. by left.
      * split.
        -- intros [? | [v' Hv']]; [by left |]. right. exists v'. by right.
        -- intros [? | [v' Hv']]; [by left |]. right. exists v'.
           apply elem_of_cons in Hv' as [Heq | ?]; [congruence | done].
    + intros v' Hv'. destruct (IH2 v' Hv') as [Hacc | Hin].
      * case_bool_decide as Hk; [| by left]. right. injection Hacc as <-. subst k. by left.
      * right. by right.
  - destruct (IH acc) as [IH1 IH2]. split.
    + rewrite IH1. split.
      * intros [? | [v' Hv']]; [by left |]. right. exists v'. by right.
      * intros [? | [v' Hv']]; [by left |]. right. exists v'.
        apply elem_of_cons in Hv' as [Heq | ?]; [congruence | done].
    + intros v' Hv'. destruct (IH2 v' Hv') as [Hacc | Hin]; [by left |]. right. by right.
Qed.

(** X5.  A fetched message is read when it has a header section and a text
    section, each with a literal; a section whose literal is nil counts
    as missing.  Otherwise [messageParse] returns the error that names
    the message as missing header, body, or both, and reads nothing.
    What is read is a header literal followed by a text literal of the
    message. *)
Theorem messageParse_sections (message : imap.Message) :
  (rules.messageParse message
   = Err (Errorf ("message " ++ pretty (imap.Uid message)
                  ++ " missing header, body, or both"))
   <-> ~ (has_section message "HEADER" /\ has_section message "TEXT")) /\
  (has_section message "HEADER" -> has_section message "TEXT" ->
   exists header body,
     ("HEADER", Some header) ∈ imap.Body message /\
     ("TEXT", Some body) ∈ imap.Body message /\
     rules.messageParse message
     = match mail_ReadMessage (mail.MultiReader header body) with
       | Err err => Err (Wrapf "parse message" err)
       | Ok msg => Ok msg
       end).
Proof.
  unfold rules.messageParse, has_section.
  destruct (pick_spec "HEADER" (imap.Body message) None) as [Hh1 Hh2].
  destruct (pick_spec "TEXT" (imap.Body message) None) as [Ht1 Ht2].
  cbv zeta in *.
  destruct (foldl _ None (imap.Body message)) as [header |] eqn:Hheader.
  - match goal with
    | |- context [match ?f with Some _ => _ | None => _ end] =>
        destruct f as [body |] eqn:Hbody
    end.
    + split.
      * split.
        -- by destruct (mail_ReadMessage _).
        -- intros Hnot. exfalso. apply Hnot. split.
           ++ assert (Hs : is_Some (Some header)) by done.
              apply Hh1 in Hs as [[? ?] | ?]; done.
           ++ assert (Hs : is_Some (Some body)) by done.
              apply Ht1 in Hs as [[? ?] | ?]; done.
      * intros _ _. exists header, body.
        destruct (Hh2 header eq_refl) as [? | ?]; [done |].
        destruct (Ht2 body eq_refl) as [? | ?]; [done |]. done.
    + split.
      * split; [| done]. intros _ [_ Htext].
        assert (Hs : is_Some (None : option string)).
        { apply Ht1. by right. }
        by destruct Hs.
      * intros _ Htext.
        assert (Hs : is_Some (None : option string)).
        { apply Ht1. by right. }
        by destruct Hs.
  - split.
    + split; [| done]. intros _ [Hhead _].
      assert (Hs : is_Some (None : option string)).
      { apply Hh1. by right. }
      by destruct Hs.
    + intros Hhead _.
      assert (Hs : is_Some (None : option string)).
      { apply Hh1. by right. }
      by destruct Hs.
Qed.

Lemma find_part_Ok (contentType : string) (parts : list mail.Part) (end_err : error)
    (reader : mail.Reader) :
  rules.find_part contentType parts end_err = Ok reader <->
  exists pre part post ps,
    parts = (pre ++ part :: post)%list /\
    Forall (other_part contentType) pre /\
    mime_ParseMediaType (mail.Get (mail.PartHeader part) "Content-Type")
    = Ok (contentType, ps) /\
    reader = decoded part.
Proof.
  induction parts as [| p parts IH]; simpl.
  - split; [done |]. intros (pre & part & post & ps & Hnil & _).
    by destruct pre.
  - destruct (mime_ParseMediaType (mail.Get (mail.PartHeader p) "Content-Type"))
      as [[mediaType params] | err] eqn:Htype.
    + case_bool_decide as Hmt.
      * subst mediaType. split.
        -- intros Hok. exists [], p, parts, params. repeat split; [done | done |].
           unfold decoded. repeat case_bool_decide; congruence.
        -- intros (pre & part & post & ps & Hparts & Hpre & Hpart & ->).
           destruct pre as [| q pre].
           ++ injection Hparts as <- <-. unfold decoded. by repeat case_bool_decide.
           ++ injection Hparts as <- ->. apply Forall_cons in Hpre as [Hq _].
              destruct Hq as (mt & ps' & Hq & Hne). congruence.
      * rewrite IH. split.
        -- intros (pre & part & post & ps & -> & Hpre & Hpart & ->).
           exists (p :: pre), part, post, ps. repeat split; [| done].
           constructor; [| done]. by exists mediaType, params.
        -- intros (pre & part & post & ps & Hparts & Hpre & Hpart & ->).
           destruct pre as [| q pre].
           ++ injection Hparts as <- <-. congruence.
           ++ injection Hparts as <- ->. apply Forall_cons in Hpre as [_ Hpre].
              by exists pre, part, post, ps.
    + split; [done |]. intros (pre & part & post & ps & Hparts & Hpre & Hpart & ->).
      destruct pre as [| q pre].
      * injection Hparts as <- <-. congruence.
      * injection Hparts as <- ->. apply Forall_cons in Hpre as [Hq _].
        destruct Hq as (mt & ps' & Hq & Hne). congruence.
Qed.

Lemma find_part_none (contentType : string) (parts : list mail.Part) (end_err : error) :
  Forall (other_part contentType) parts ->
  rules.find_part contentType parts end_err
  = Err (Wrapf ("could not find " ++ contentType ++ " part of message") end_err).
Proof.
  intros Hall. rewrite <- (app_nil_r parts). by rewrite find_part_skips.
Qed.

(** X6.  [messageMIME] returns a reader only for a message whose content
    type parses to a multipart type, and then the reader is the first
    part of the wanted media type, decoded by its transfer encoding; no
    part before it has a content type that does not parse.  When every
    part has a content type that parses and none has the wanted type, the
    error of the end of the parts comes back wrapped as "could not
    find". *)
Theorem messageMIME_first_part (message : mail.Message) (contentType : string) :
  (forall reader,
     rules.messageMIME message contentType = Ok reader <->
     exists mediaType params pre part post ps,
       mime_ParseMediaType (mail.Get (mail.Header_ message) "Content-Type")
       = Ok (mediaType, params) /\
       HasPrefix mediaType "multipart/" = true /\
       multipart_parts (mail.Body message) (default EmptyString (params !! "boundary"))
       = (pre ++ part :: post)%list /\
       Forall (other_part contentType) pre /\
       mime_ParseMediaType (mail.Get (mail.PartHeader part) "Content-Type")
       = Ok (contentType, ps) /\
       reader = decoded part) /\
  (forall mediaType params,
     mime_ParseMediaType (mail.Get (mail.Header_ message) "Content-Type")
     = Ok (mediaType, params) ->
     HasPrefix mediaType "multipart/" = true ->
     Forall (other_part contentType)
       (multipart_parts (mail.Body message) (default EmptyString (params !! "boundary"))) ->
     rules.messageMIME message contentType
     = Err (Wrapf ("could not find " ++ contentType ++ " part of message")
              (multipart_end (mail.Body message)
                 (default EmptyString (params !! "boundary"))))).
Proof.
  unfold rules.messageMIME. split.
  - intros reader.
    destruct (mime_ParseMediaType (mail.Get (mail.Header_ message) "Content-Type"))
      as [[mediaType params] | err] eqn:Htype.
    + destruct (HasPrefix mediaType "multipart/") eqn:Hprefix; simpl.
      * rewrite find_part_Ok. split.
        -- intros (pre & part & post & ps & Hparts & Hpre & Hpart & ->).
           by exists mediaType, params, pre, part, post, ps.
        -- intros (mt & pm & pre & part & post & ps & Hmt & _ & Hparts & Hpre & Hpart & ->).
           injection Hmt as <- <-. by exists pre, part, post, ps.
      * split; [done |].
        intros (mt & pm & pre & part & post & ps & Hmt & Hpre' & _).
        injection Hmt as <- <-. congruence.
    + split; [done |]. by intros (mt & pm & pre & part & post & ps & Hmt & _).
  - intros mediaType params -> ->. simpl. apply find_part_none.
Qed.

End ReadFacts.

Lemma messageParse_sections_witness :
  exists header body,
    ("HEADER", Some header) ∈ imap.Body whole_message /\
    ("TEXT", Some body) ∈ imap.Body whole_message /\
    rules.messageParse (W := fetching_world []) whole_message = Ok multipart_message.
Proof.
  destruct (proj2 (messageParse_sections (W := fetching_world []) whole_message))
    as (header & body & Hh & Ht & Hparse).
  - eexists. apply elem_of_cons. left. reflexivity.
  - eexists. apply elem_of_cons. right. apply elem_of_cons. left. reflexivity.
  - exists header, body. split; [exact Hh | split; [exact Ht |]].
    rewrite Hparse. reflexivity.
Defined.

Lemma messageMIME_first_part_witness :
  rules.messageMIME (W := example_world) multipart_message "text/calendar"
  = Err (Wrapf "could not find text/calendar part of message" (Errorf "EOF")).
Proof.
  apply (proj2 (messageMIME_first_part (W := example_world) multipart_message
                  "text/calendar") "multipart/alternative" ∅).
  - reflexivity.
  - reflexivity.
  - repeat constructor.
    + exists "text/plain", ∅. split; [reflexivity |].
      intros Heq. apply (f_equal (fun s => String.eqb s "text/plain")) in Heq.
      vm_compute in Heq. discriminate.
    + exists "text/html", ∅. split; [reflexivity |].
      intros Heq. apply (f_equal (fun s => String.eqb s "text/html")) in Heq.
      vm_compute in Heq. discriminate.
Defined.


(** ** The stream rule that posts to a URL *)

Section HttpFacts.
Context {RE : RegexpLib} {W : World}.

Lemma post_no_panic (r : rules_http.StreamRule) headers body :
  http_NewRequest (rules_http.URL r) = None ->
  snd (rules_http.post r headers body) <> Panic.
Proof.
  unfold rules_http.post. intros ->. simpl.
  destruct (http_Do _ _ _); [| done]. by destruct (rules_http.status_guard _).
Qed.

Lemma handleMessage_no_panic (r : rules_http.StreamRule) (message : imap.Message) :
  deliverable r message -> snd (rules_http.handleMessage r message) <> Panic.
Proof.
  intros [Hreq Hbody]. unfold rules_http.handleMessage.
  case_bool_decide as Hrfc; [by apply post_no_panic |].
  case_bool_decide as Hhtml; [| done].
  specialize (Hbody Hhtml). destruct (rules_http.body_reader message); [| done].
  destruct (mail_ReadMessage _); [| done].
  destruct (rules.messageMIME _ _); [| done].
  destruct (header_Date _); [| done].
  destruct (mime_DecodeHeader _); [| done].
  by apply post_no_panic.
Qed.

Lemma deliver_all (r : rules_http.StreamRule) (fetched : list imap.Message) :
  Forall has_envelope fetched -> Forall (deliverable r) fetched ->
  rules_http.deliver r fetched
  = (concat (map (fun m => fst (rules_http.handleMessage r m)) fetched), Ret tt).
Proof.
  induction fetched as [| m ms IH]; [done |].
  intros [Henv Henvs]%Forall_cons [Hm Hms]%Forall_cons. simpl.
  pose proof (handleMessage_no_panic r m Hm) as Hpanic.
  destruct (rules_http.handleMessage r m) as [evs [[err |] |]]; simpl in *.
  - unfold has_envelope in Henv. destruct (imap.Envelope_ m); [| done].
    by rewrite IH.
  - by rewrite IH.
  - done.
Qed.

Lemma deliver_panics (r : rules_http.StreamRule) (fetched : list imap.Message)
    (message : imap.Message) :
  message ∈ fetched -> imap.Envelope_ message = None -> delivery_fails r message ->
  snd (rules_http.deliver r fetched) = Panic.
Proof.
  intros Hin Henv [err Herr].
  induction fetched as [| m ms IH]; [by apply elem_of_nil in Hin |].
  apply elem_of_cons in Hin as [<- | Hin]; simpl.
  - destruct (rules_http.handleMessage r message) as [evs o]. simpl in Herr. subst o.
    by rewrite Henv.
  - specialize (IH Hin).
    destruct (rules_http.handleMessage r m) as [evs [[e |] |]]; [| | done].
    + destruct (imap.Envelope_ m); [| done].
      by destruct (rules_http.deliver r ms).
    + by destruct (rules_http.deliver r ms).
Qed.

Lemma http_Action_unfold (r : rules_http.StreamRule) :
  rules_http.messages r <> ∅ ->
  rules_http.Action r
  = let r' := snd (rules_http.swap r) in
    let items := [imap.FetchUid; imap.FetchBody] in
    {| after := r';
       events := MailboxRequest (UidFetch (rules_http.messages r) items)
                 :: fst (rules_http.deliver r' (http_fetched r));
       returned :=
         match snd (rules_http.deliver r' (http_fetched r)) with
         | Panic => Panic
         | Ret _ =>
             Ret (match http_fetch_err r with
                  | Some err =>
                      Some (Wrapf ("stream messages to `" ++ rules_http.URL r ++ "`") err)
                  | None => None
                  end)
         end |}.
Proof.
  intros Hne. unfold rules_http.Action, http_fetched, http_fetch_err. simpl.
  unfold imap.Empty. rewrite bool_decide_eq_false_2 by done.
  destruct (client_UidFetch _ _) as [fetched fetch_err]. simpl.
  by destruct (rules_http.deliver _ fetched).
Qed.

(** X7.  The action step of the stream rule that posts to a URL, with
    pending messages, never returns the error of a delivery: whatever
    the fetched messages are, the step panics or returns what the fetch
    gives, which is nil when the fetch has succeeded.  When every fetched
    message has its envelope, the request for the URL of the rule can be
    built ([http.NewRequestWithContext] returns no error) and, for the
    content kind html, every fetched message has a body section with a
    literal, the step does not panic: after the fetch it handles each
    fetched message, in the order of the fetch, whether the ones before
    it have failed or not. *)
Theorem http_action_drops_delivery_errors (r : rules_http.StreamRule) :
  rules_http.messages r <> ∅ ->
  let r' := snd (rules_http.swap r) in
  let fetch_result :=
    Ret (match http_fetch_err r with
         | Some err => Some (Wrapf ("stream messages to `" ++ rules_http.URL r ++ "`") err)
         | None => None
         end) in
  (returned (rules_http.Action r) = Panic \/
   returned (rules_http.Action r) = fetch_result) /\
  (Forall has_envelope (http_fetched r) ->
   Forall (deliverable r') (http_fetched r) ->
   events (rules_http.Action r)
   = MailboxRequest (UidFetch (rules_http.messages r) [imap.FetchUid; imap.FetchBody])
     :: concat (map (fun m => fst (rules_http.handleMessage r' m)) (http_fetched r)) /\
   returned (rules_http.Action r) = fetch_result).
Proof.
  intros Hne r' fetch_result. rewrite http_Action_unfold by done. cbv zeta.
  cbn [events returned]. fold r'. split.
  - destruct (snd (rules_http.deliver r' (http_fetched r))); [by right | by left].
  - intros Henv Hok. by rewrite (deliver_all r' _ Henv Hok).
Qed.

(** X8.  The log line of a failed delivery reads the subject of the
    envelope of the message, and the fetch asks for the identifier and
    the body only.  So when the delivery of a fetched message that has
    no envelope fails, the action step panics. *)
Theorem http_failed_delivery_panics (r : rules_http.StreamRule) (message : imap.Message) :
  rules_http.messages r <> ∅ ->
  message ∈ http_fetched r ->
  imap.Envelope_ message = None ->
  delivery_fails (snd (rules_http.swap r)) message ->
  returned (rules_http.Action r) = Panic.
Proof.
  intros Hne Hin Henv Hfails. rewrite http_Action_unfold by done. cbv zeta.
  cbn [events returned]. by rewrite (deliver_panics _ _ message Hin Henv Hfails).
Qed.

End HttpFacts.

Lemma http_action_drops_delivery_errors_witness :
  rules_http.messages pending_rfc822_rule <> ∅ /\
  returned (rules_http.Action (W := enveloped_world) pending_rfc822_rule) = Ret None /\
  List.length (events (rules_http.Action (W := enveloped_world) pending_rfc822_rule)) = 3%nat.
Proof.
  assert (Hne : rules_http.messages pending_rfc822_rule <> ∅).
  { intros Hempty. apply (f_equal (fun s => bool_decide (7%N ∈ s))) in Hempty.
    vm_compute in Hempty. discriminate. }
  split; [exact Hne |].
  destruct (proj2 (http_action_drops_delivery_errors
                     (W := enveloped_world) pending_rfc822_rule Hne)) as [Hev Hret].
  - repeat constructor; discriminate.
  - repeat constructor; discriminate.
  - rewrite Hev, Hret. split; reflexivity.
Defined.

Lemma http_failed_delivery_panics_witness :
  rules_http.messages pending_rfc822_rule <> ∅ /\
  returned (rules_http.Action (W := unreachable_world) pending_rfc822_rule) = Panic.
Proof.
  assert (Hne : rules_http.messages pending_rfc822_rule <> ∅).
  { intros Hempty. apply (f_equal (fun s => bool_decide (7%N ∈ s))) in Hempty.
    vm_compute in Hempty. discriminate. }
  split; [exact Hne |].
  apply (http_failed_delivery_panics (W := unreachable_world)
           pending_rfc822_rule fetched_message Hne).
  - apply elem_of_cons. left. reflexivity.
  - reflexivity.
  - eexists. reflexivity.
Defined.


(** ** What [Parse] returns *)


(** *** A lexing error *)

Section LexingError.
Context (G : Tables) {XE : SyntaxErrors} (HU : uniform G).
Context (Hend : forall (s : state G) (t : terminal), action G s (Some t) <> Accept).

Lemma failing_look (c : yyconfig G (L := TokenSource)) : failing c -> failing (look c).
Proof.
  destruct c as [stk [la |] lv src]; unfold look, failing, cfg;
    cbn [yyS yychar yylval yylex]; [done |].
  intros [Hfails _].
  destruct (toks src) as [| [t v] rest]; cbn [yyS yychar yylval yylex with_toks at_end
                                                src_fails src_err].
  - split; [done |]. intros _. by rewrite Hfails.
  - split; [done |]. discriminate.
Qed.

Lemma failing_step (c : yyconfig G (L := TokenSource)) :
  failing c ->
  match yystep G c with
  | inl c' => failing c'
  | inr (Ret (_, s)) => src_err s <> None
  | inr Panic => True
  end.
Proof.
  intros Hfail. apply failing_look in Hfail. rewrite <- (yystep_look G c).
  destruct (look_read G c) as (la & lv & src & Hlook). rewrite Hlook in *.
  destruct Hfail as [Hfails Herr]. cbn [cfg yyS yychar yylval yylex] in *.
  unfold yystep, cfg. cbn [yyS yychar yylval yylex].
  destruct (yyS G c) as [| [s sv] stk]; [done |].
  destruct (action G s la) as [s' | p | |] eqn:Hact.
  - split; [done |]. discriminate.
  - destruct (drop _ _) as [| [below bv] rest]; [done |].
    destruct (lhs G p) as [A |]; [| done].
    destruct (goto G below A) as [s' |]; [| done].
    destruct (HU p (rev (map snd (take (List.length (rhs G p)) ((s, sv) :: stk)))))
      as [sh Hsh].
    rewrite Hsh. destruct sh; cbn [run_shape]; [done | done | |].
    + split; [done |]. cbn [yyS yychar yylval yylex]. intros Heq.
      injection Heq as ->. by apply Herr.
    + split; [done |]. cbn [yyS yychar yylval yylex]. intros Heq.
      injection Heq as ->. by apply Herr.
  - destruct la as [t |]; [by apply Hend in Hact |]. by apply Herr.
  - done.
Qed.

Lemma failing_loop (n : nat) (c : yyconfig G (L := TokenSource)) k s :
  failing c -> yyloop G n c = Some (Ret (k, s)) -> src_err s <> None.
Proof.
  revert c. induction n as [| n IH]; intros c Hfail Hrun; [discriminate |].
  simpl in Hrun. pose proof (failing_step c Hfail) as Hstep.
  destruct (yystep G c) as [c' | [[k' s'] |]]; [by apply (IH c') | | discriminate].
  by injection Hrun as <- <-.
Qed.

Lemma Parse_with_lexing_error (input : string) (ts : list (terminal * string))
    (rs : list rules.Rule) (e : option error) :
  lex_all input = Some (ts, true) ->
  Parse_with G input = Some (Ret (rs, e)) -> rs = [] /\ e <> None.
Proof.
  intros Hlex Hparse.
  pose proof (yyParse_on_tokens G HU (parse_fuel input) input ts true Hlex) as Hsame.
  unfold Parse_with in Hparse.
  destruct (yyParse G (parse_fuel input) (NewParser (NewLexer input)))
    as [[[n p] |] |] eqn:Hrun; [| done | done].
  destruct (yyParse G (parse_fuel input) (source ts true)) as [[[n' s] |] |] eqn:Hsrc;
    try done.
  destruct Hsame as [_ [Herr _]].
  assert (Hs : src_err s <> None).
  { apply (failing_loop _ _ n' s) in Hsrc; [done |]. split; [done |]. discriminate. }
  destruct (err p) as [e' |]; [| by destruct Hs; apply Herr].
  by injection Hparse as <- <-.
Qed.

End LexingError.

Lemma gs_accept_at_end {RE : RegexpLib} (s : grammar_stream.state) (t : terminal) :
  action grammar_stream.tables s (Some t) <> Accept.
Proof. destruct s, t; vm_compute; discriminate. Qed.

Lemma gy_accept_at_end {RE : RegexpLib} (s : grammar_rules_y.state) (t : terminal) :
  action grammar_rules_y.tables s (Some t) <> Accept.
Proof. destruct s, t; vm_compute; discriminate. Qed.

(** X10.  When the lexer comes to a text that is no token (a quoted string
    that is not closed, a backslash before another byte, a byte that
    starts nothing) before it comes to the end of the input or to an
    operator that the grammar does not use, [Parse] returns an error and
    no rules, whatever stands before that text.  The same holds with the
    grammar of [rules.y]. *)
Theorem lexing_error_fails_parse {RE : RegexpLib} {XE : SyntaxErrors} (input : string)
    (ts : list (terminal * string)) :
  lex_all input = Some (ts, true) ->
  (exists e, Parse input = Some (Ret ([], Some e))) /\
  (exists e, Parse_with grammar_rules_y.tables input = Some (Ret ([], Some e))).
Proof.
  intros Hlex. split.
  - destruct (Parse_returns input) as (rs & e & Hparse).
    destruct (Parse_with_lexing_error grammar_stream.tables gs_uniform gs_accept_at_end
                input ts rs e Hlex Hparse) as [-> He].
    destruct e as [e |]; [by exists e | done].
  - destruct (Parse_rules_y_returns input) as (rs & e & Hparse).
    destruct (Parse_with_lexing_error grammar_rules_y.tables gy_uniform gy_accept_at_end
                input ts rs e Hlex Hparse) as [-> He].
    destruct e as [e |]; [by exists e | done].
Qed.

Lemma lexing_error_fails_parse_witness :
  lex_all open_quote_text = Some ([(IF, "if"); (IDENTIFIER, "to"); (EQUALS, "=")], true) /\
  exists e, Parse (RE := substring_regexp) (XE := plain_errors) open_quote_text
            = Some (Ret ([], Some e)).
Proof.
  assert (Hlex : lex_all open_quote_text
                 = Some ([(IF, "if"); (IDENTIFIER, "to"); (EQUALS, "=")], true))
    by (vm_compute; reflexivity).
  split; [exact Hlex |].
  exact (proj1 (lexing_error_fails_parse (RE := substring_regexp) (XE := plain_errors)
                  open_quote_text _ Hlex)).
Defined.


(** ** The lexer on a text that is laid out as tokens *)

(** *** Strings *)

Lemma app_cons (c : ascii) (s t : string) : String c s ++ t = String c (s ++ t).
Proof. reflexivity. Qed.

Lemma string_app_nil_l (s : string) : EmptyString ++ s = s.
Proof. reflexivity. Qed.

Lemma len_cons (c : ascii) (s : string) : len (String c s) = S (len s).
Proof. reflexivity. Qed.

Lemma len_app (s t : string) : len (s ++ t) = (len s + len t)%nat.
Proof.
  induction s as [| c s IH]; [done |].
  by rewrite app_cons, !len_cons, IH.
Qed.

Lemma string_app_assoc (s t u : string) : (s ++ t) ++ u = s ++ t ++ u.
Proof. induction s as [| c s IH]; [done |]. by rewrite !app_cons, IH. Qed.

Lemma string_app_nil_r (s : string) : s ++ EmptyString = s.
Proof. induction s as [| c s IH]; [done |]. by rewrite app_cons, IH. Qed.

Lemma slice_from_app (pre s : string) : slice_from (pre ++ s) (len pre) = s.
Proof.
  induction pre as [| c pre IH]; [by destruct s |].
  rewrite app_cons, len_cons. exact IH.
Qed.

Lemma substring_app (pre u v : string) :
  String.substring (len pre) (len u) (pre ++ u ++ v) = u.
Proof.
  induction pre as [| c pre IH]; [| rewrite app_cons, len_cons; exact IH].
  rewrite string_app_nil_l. change (len EmptyString) with O.
  induction u as [| d u IHu]; [by destruct v |].
  rewrite app_cons, len_cons. cbn [String.substring]. by rewrite IHu.
Qed.

Lemma all_bytes_app (f : ascii -> bool) (s t : string) :
  all_bytes f (s ++ t) = all_bytes f s && all_bytes f t.
Proof.
  induction s as [| c s IH]; [done |].
  rewrite app_cons. cbn [all_bytes]. by rewrite IH, andb_assoc.
Qed.

(** *** Positions *)

Lemma at_suffix_start (b : string) : at_suffix b 0 b.
Proof. by exists EmptyString. Qed.

Lemma at_suffix_app (b : string) (p : nat) (u v : string) :
  at_suffix b p (u ++ v) -> at_suffix b (p + len u) v.
Proof.
  intros (pre & -> & <-). exists (pre ++ u). split.
  - by rewrite string_app_assoc.
  - by rewrite len_app.
Qed.

Lemma at_suffix_next (b : string) (p : nat) (c : ascii) (s : string) :
  at_suffix b p (String c s) -> at_suffix b (S p) s.
Proof.
  intros H. apply (at_suffix_app b p (String c EmptyString) s) in H.
  by replace (p + len (String c EmptyString))%nat with (S p) in H by (unfold len; simpl; lia).
Qed.

Lemma at_suffix_len (b : string) (p : nat) (s : string) :
  at_suffix b p s -> (p + len s = len b)%nat.
Proof. intros (pre & -> & <-). by rewrite len_app. Qed.

Lemma at_suffix_slice_from (b : string) (p : nat) (s : string) :
  at_suffix b p s -> slice_from b p = s.
Proof. intros (pre & -> & <-). apply slice_from_app. Qed.

Lemma at_suffix_slice (b : string) (p : nat) (u v : string) :
  at_suffix b p (u ++ v) -> slice b p (p + len u) = u.
Proof.
  intros (pre & -> & <-). unfold slice.
  replace (len pre + len u - len pre)%nat with (len u) by lia.
  apply substring_app.
Qed.

(** *** The lexer at a position *)

Lemma next_at_pos (lex : Lexer) : next lex = at_pos (buf lex) (nextpos lex).
Proof. reflexivity. Qed.

Lemma at_pos_buf (b : string) (p : nat) : buf (at_pos b p) = b.
Proof.
  unfold at_pos, next. cbn [buf nextpos].
  destruct (p <? len b)%nat; [| done].
  destruct (slice_from b p) as [| c s]; [done |].
  destruct (rune c >=? utf8.RuneSelf); [| done]. by destruct (utf8.DecodeRune _).
Qed.

Lemma at_pos_end (b : string) (p : nat) :
  at_suffix b p EmptyString ->
  at_pos b p = {| buf := b; r := -1; rpos := len b; nextpos := len b |}.
Proof.
  intros Hs. apply at_suffix_len in Hs. unfold len at 1 in Hs. simpl in Hs.
  unfold at_pos, next. cbn [buf nextpos].
  replace (p <? len b)%nat with false by (symmetry; apply Nat.ltb_ge; lia).
  f_equal. lia.
Qed.

Lemma at_pos_low (b : string) (p : nat) (c : ascii) (s : string) :
  at_suffix b p (String c s) -> rune c < 128 ->
  at_pos b p = {| buf := b; r := rune c; rpos := p; nextpos := S p |}.
Proof.
  intros Hs Hlow. pose proof (at_suffix_len _ _ _ Hs) as Hlen.
  unfold len at 1 in Hlen. simpl in Hlen.
  unfold at_pos, next. cbn [buf nextpos].
  replace (p <? len b)%nat with true by (symmetry; apply Nat.ltb_lt; lia).
  rewrite (at_suffix_slice_from _ _ _ Hs).
  unfold utf8.RuneSelf.
  replace (rune c >=? 128) with false by (symmetry; rewrite Z.geb_leb; apply Z.leb_gt; lia).
  f_equal. lia.
Qed.

Lemma at_pos_high (b : string) (p : nat) (c : ascii) (s : string) :
  at_suffix b p (String c s) -> 128 <= rune c ->
  at_pos b p = {| buf := b; r := fst (utf8.DecodeRune (String c s)); rpos := p;
                  nextpos := (p + snd (utf8.DecodeRune (String c s)))%nat |}.
Proof.
  intros Hs Hhigh. pose proof (at_suffix_len _ _ _ Hs) as Hlen.
  unfold len at 1 in Hlen. simpl in Hlen.
  unfold at_pos, next. cbn [buf nextpos].
  replace (p <? len b)%nat with true by (symmetry; apply Nat.ltb_lt; lia).
  rewrite (at_suffix_slice_from _ _ _ Hs).
  unfold utf8.RuneSelf.
  replace (rune c >=? 128) with true by (symmetry; rewrite Z.geb_leb; apply Z.leb_le; lia).
  by destruct (utf8.DecodeRune _).
Qed.

(** *** Runes of more than one byte *)

Lemma lor_high (a b : Z) : 0 <= a -> 0 <= b -> 128 <= a \/ 128 <= b -> 128 <= Z.lor a b.
Proof.
  intros Ha Hb Hhigh.
  assert (Hlor : 0 <= Z.lor a b) by (by apply Z.lor_nonneg).
  assert (Hlog : 7 <= Z.log2 (Z.lor a b)).
  { rewrite Z.log2_lor by done.
    destruct Hhigh as [H | H].
    - assert (7 <= Z.log2 a) by (apply Z.log2_le_pow2; [lia | exact H]). lia.
    - assert (7 <= Z.log2 b) by (apply Z.log2_le_pow2; [lia | exact H]). lia. }
  destruct (decide (Z.lor a b = 0)) as [Hz | Hnz].
  - rewrite Hz in Hlog. vm_compute in Hlog. by destruct Hlog.
  - change 128 with (2 ^ 7). apply Z.log2_le_pow2; lia.
Qed.

Lemma first_facts (c0 : ascii) (sz : nat) (lo hi : Z) :
  utf8.first (rune c0) = Some (sz, lo, hi) ->
  128 <= lo /\ hi <= 191 /\
  ((sz = 2%nat /\ 2 <= Z.land (rune c0) 31) \/
   (sz = 3%nat /\ (1 <= Z.land (rune c0) 15 \/ 160 <= lo)) \/
   (sz = 4%nat /\ (1 <= Z.land (rune c0) 7 \/ 144 <= lo))).
Proof.
  destruct c0 as [[] [] [] [] [] [] [] []]; vm_compute; intros H;
    first [discriminate H | injection H as <- <- <-];
    (split; [discriminate |]); (split; [discriminate |]);
    first [ left; split; [reflexivity | discriminate]
          | right; left; split; [reflexivity |];
            first [left; discriminate | right; discriminate]
          | right; right; split; [reflexivity |];
            first [left; discriminate | right; discriminate] ].
Qed.

Lemma cont_facts_bool (c1 : ascii) :
  (0 <=? Z.land (rune c1) 63)
  && implb ((160 <=? rune c1) && (rune c1 <=? 191)) (32 <=? Z.land (rune c1) 63)
  && implb ((144 <=? rune c1) && (rune c1 <=? 191)) (16 <=? Z.land (rune c1) 63) = true.
Proof. destruct c1 as [[] [] [] [] [] [] [] []]; vm_compute; reflexivity. Qed.

Lemma cont_facts (c1 : ascii) :
  0 <= Z.land (rune c1) 63 /\
  (160 <= rune c1 <= 191 -> 32 <= Z.land (rune c1) 63) /\
  (144 <= rune c1 <= 191 -> 16 <= Z.land (rune c1) 63).
Proof.
  pose proof (cont_facts_bool c1) as H.
  apply andb_true_iff in H as [H H3]. apply andb_true_iff in H as [H1 H2].
  apply Z.leb_le in H1. split; [exact H1 |]. split.
  - intros [Hr1 Hr2]. apply Z.leb_le in Hr1, Hr2. rewrite Hr1, Hr2 in H2.
    by apply Z.leb_le.
  - intros [Hr1 Hr2]. apply Z.leb_le in Hr1, Hr2. rewrite Hr1, Hr2 in H3.
    by apply Z.leb_le.
Qed.

Lemma rune_byte (c : ascii) : 0 <= rune c < 256.
Proof.
  destruct c as [[] [] [] [] [] [] [] []]; vm_compute; (split; [discriminate | reflexivity]).
Qed.

(** A rune that starts with a byte of 128 or more is itself 128 or more,
    and the bytes that it takes after the first are 128 or more. *)
Lemma DecodeRune_high (c0 : ascii) (s : string) :
  128 <= rune c0 ->
  128 <= fst (utf8.DecodeRune (String c0 s)) /\
  exists pre post, s = pre ++ post /\ all_bytes high_byte pre = true /\
                   snd (utf8.DecodeRune (String c0 s)) = S (len pre).
Proof.
  intros Hhigh.
  assert (Hnone : 128 <= fst (utf8.RuneError, 1%nat) /\
                  exists pre post, s = pre ++ post /\ all_bytes high_byte pre = true /\
                                   snd (utf8.RuneError, 1%nat) = S (len pre)).
  { split; [vm_compute; discriminate |]. by exists EmptyString, s. }
  unfold utf8.DecodeRune. unfold utf8.RuneSelf.
  replace (rune c0 <? 128) with false by (symmetry; apply Z.ltb_ge; lia).
  destruct (utf8.first (rune c0)) as [[[sz lo] hi] |] eqn:Hfirst; [| exact Hnone].
  destruct (first_facts c0 sz lo hi Hfirst) as (Hlo & Hhi & Hsz).
  destruct (len (String c0 s) <? sz)%nat; [exact Hnone |].
  destruct s as [| c1 s]; [exact Hnone |].
  destruct ((rune c1 <? lo) || (hi <? rune c1)) eqn:Hrange; [exact Hnone |].
  apply orb_false_iff in Hrange as [Hr1 Hr2].
  apply Z.ltb_ge in Hr1. apply Z.ltb_ge in Hr2.
  assert (Hc1 : high_byte c1 = true) by (apply Z.leb_le; lia).
  pose proof (rune_byte c0) as Hb0. pose proof (rune_byte c1) as Hb1.
  destruct (cont_facts c1) as (Hn1 & H160 & H144).
  assert (Hland : forall m, 0 <= Z.land (rune c0) m).
  { intros m. apply Z.land_nonneg. left. lia. }
  destruct (sz <=? 2)%nat eqn:Hsz2.
  { split.
    - cbn [fst]. apply lor_high; [apply Z.shiftl_nonneg, Hland | done |].
      left. rewrite Z.shiftl_mul_pow2 by lia.
      destruct Hsz as [[_ H] | [[-> _] | [-> _]]]; [lia | done | done].
    - exists (String c1 EmptyString), s. split; [reflexivity | split; [cbn [all_bytes]; rewrite ?Hc1, ?Hc2, ?Hc3; reflexivity | reflexivity]]. }
  destruct s as [| c2 s]; [exact Hnone |].
  destruct (utf8.is_cont (rune c2)) eqn:Hcont2; [| exact Hnone]. cbn [negb].
  assert (Hc2 : high_byte c2 = true).
  { unfold utf8.is_cont in Hcont2. apply andb_true_iff in Hcont2 as [H _]. exact H. }
  destruct (cont_facts c2) as (Hn2 & _ & _).
  destruct (sz <=? 3)%nat eqn:Hsz3.
  { split.
    - cbn [fst]. apply lor_high; [| done |].
      + apply Z.lor_nonneg. split; apply Z.shiftl_nonneg; [apply Hland | done].
      + left. apply lor_high; [apply Z.shiftl_nonneg, Hland | by apply Z.shiftl_nonneg |].
        rewrite !Z.shiftl_mul_pow2 by lia.
        destruct Hsz as [[-> _] | [[_ [H | H]] | [-> _]]]; [done | lia | | done].
        right. assert (32 <= Z.land (rune c1) 63) by (apply H160; lia). lia.
    - exists (String c1 (String c2 EmptyString)), s. split; [reflexivity | split; [cbn [all_bytes]; rewrite ?Hc1, ?Hc2, ?Hc3; reflexivity | reflexivity]]. }
  destruct s as [| c3 s]; [exact Hnone |].
  destruct (utf8.is_cont (rune c3)) eqn:Hcont3; [| exact Hnone]. cbn [negb].
  assert (Hc3 : high_byte c3 = true).
  { unfold utf8.is_cont in Hcont3. apply andb_true_iff in Hcont3 as [H _]. exact H. }
  destruct (cont_facts c3) as (Hn3 & _ & _).
  split.
  - cbn [fst]. apply lor_high; [| done |].
    + apply Z.lor_nonneg. split; [| by apply Z.shiftl_nonneg].
      apply Z.lor_nonneg. split; apply Z.shiftl_nonneg; [apply Hland | done].
    + left. apply lor_high; [| by apply Z.shiftl_nonneg |].
      * apply Z.lor_nonneg. split; apply Z.shiftl_nonneg; [apply Hland | done].
      * left. apply lor_high; [apply Z.shiftl_nonneg, Hland | by apply Z.shiftl_nonneg |].
        rewrite !Z.shiftl_mul_pow2 by lia.
        destruct Hsz as [[-> _] | [[-> _] | [_ [H | H]]]]; [done | done | lia |].
        right. assert (16 <= Z.land (rune c1) 63) by (apply H144; lia). lia.
  - exists (String c1 (String c2 (String c3 EmptyString))), s. split; [reflexivity | split; [cbn [all_bytes]; rewrite ?Hc1, ?Hc2, ?Hc3; reflexivity | reflexivity]].
Qed.

Lemma high_prefix (pre post s rest : string) :
  pre ++ post = s ++ rest -> all_bytes high_byte pre = true ->
  starts_with high_byte rest = false ->
  exists s', s = pre ++ s'.
Proof.
  revert s. induction pre as [| c pre IH]; intros s Heq Hpre Hrest; [by exists s |].
  cbn [all_bytes] in Hpre. apply andb_true_iff in Hpre as [Hc Hpre].
  destruct s as [| d s].
  - rewrite string_app_nil_l in Heq. subst rest. rewrite app_cons in Hrest.
    cbn [starts_with] in Hrest. congruence.
  - rewrite !app_cons in Heq. injection Heq as <- Heq.
    destruct (IH s Heq Hpre Hrest) as [s' ->]. by exists s'.
Qed.

(** *** What the lexer holds at a position *)

Lemma at_pos_rpos (b : string) (p : nat) (s : string) :
  at_suffix b p s -> rpos (at_pos b p) = p.
Proof.
  intros Hs. destruct s as [| c s].
  - rewrite (at_pos_end _ _ Hs). apply at_suffix_len in Hs. cbn [rpos].
    change (len EmptyString) with O in Hs. lia.
  - destruct (decide (rune c < 128)) as [Hlow | Hhigh].
    + by rewrite (at_pos_low _ _ _ _ Hs Hlow).
    + rewrite (at_pos_high _ _ _ _ Hs); [done | lia].
Qed.

Lemma at_pos_r_end (b : string) (p : nat) : at_suffix b p EmptyString -> r (at_pos b p) = -1.
Proof. intros Hs. by rewrite (at_pos_end _ _ Hs). Qed.

Lemma at_pos_r_low (b : string) (p : nat) (c : ascii) (s : string) :
  at_suffix b p (String c s) -> rune c < 128 -> r (at_pos b p) = rune c.
Proof. intros Hs Hlow. by rewrite (at_pos_low _ _ _ _ Hs Hlow). Qed.

Lemma at_pos_next_low (b : string) (p : nat) (c : ascii) (s : string) :
  at_suffix b p (String c s) -> rune c < 128 -> next (at_pos b p) = at_pos b (S p).
Proof.
  intros Hs Hlow. rewrite next_at_pos, at_pos_buf. by rewrite (at_pos_low _ _ _ _ Hs Hlow).
Qed.

Lemma at_pos_r_high (b : string) (p : nat) (c : ascii) (s : string) :
  at_suffix b p (String c s) -> 128 <= rune c -> 128 <= r (at_pos b p).
Proof.
  intros Hs Hhigh. rewrite (at_pos_high _ _ _ _ Hs Hhigh). cbn [r].
  by apply DecodeRune_high.
Qed.

Lemma at_pos_next_high (b : string) (p : nat) (c : ascii) (s rest : string) :
  at_suffix b p (String c (s ++ rest)) -> 128 <= rune c ->
  starts_with high_byte rest = false ->
  exists pre s', s = pre ++ s' /\ all_bytes high_byte pre = true /\
                 next (at_pos b p) = at_pos b (p + S (len pre)).
Proof.
  intros Hs Hhigh Hrest.
  destruct (DecodeRune_high c (s ++ rest) Hhigh) as (_ & pre & post & Heq & Hpre & Hw).
  symmetry in Heq. destruct (high_prefix _ _ _ _ Heq Hpre Hrest) as [s' ->].
  exists pre, s'. split; [done | split; [done |]].
  rewrite next_at_pos, at_pos_buf. rewrite (at_pos_high _ _ _ _ Hs Hhigh). cbn [nextpos].
  by rewrite Hw.
Qed.

Lemma at_pos_next_end (b : string) (p : nat) :
  at_suffix b p EmptyString -> next (at_pos b p) = at_pos b p.
Proof.
  intros Hs. rewrite next_at_pos, at_pos_buf. rewrite (at_pos_end _ _ Hs) at 1.
  cbn [nextpos]. apply at_suffix_len in Hs. change (len EmptyString) with O in Hs.
  by replace (len b) with p by lia.
Qed.

(** The current rune does not go on with what a loop reads. *)
Lemma stop_at (cond : Z -> bool) (f : ascii -> bool) (b : string) (q : nat)
    (rest : string) :
  at_suffix b q rest -> starts_with f rest = false ->
  cond (-1) = false ->
  (forall c, rune c < 128 -> f c = false -> cond (rune c) = false) ->
  (forall c z, 128 <= rune c -> f c = false -> 128 <= z -> cond z = false) ->
  cond (r (at_pos b q)) = false.
Proof.
  intros Hs Hrest Hend Hlow Hhigh. destruct rest as [| c rest].
  - by rewrite (at_pos_r_end _ _ Hs).
  - cbn [starts_with] in Hrest. destruct (decide (rune c < 128)) as [Hc | Hc].
    + rewrite (at_pos_r_low _ _ _ _ Hs Hc). by apply Hlow.
    + apply (Hhigh c); [lia | done |]. apply (at_pos_r_high _ _ _ _ Hs). lia.
Qed.

(** *** The loops of the scanners *)

(** A loop over bytes below 128 that its condition accepts. *)
Lemma advance_bytes (cond : Z -> bool) (f : ascii -> bool) (fuel : nat)
    (b : string) (p : nat) (w rest : string) :
  (forall c, f c = true -> rune c < 128 /\ cond (rune c) = true) ->
  at_suffix b p (w ++ rest) -> all_bytes f w = true ->
  cond (r (at_pos b (p + len w))) = false ->
  (len w < fuel)%nat ->
  advance_while cond fuel (at_pos b p) = at_pos b (p + len w).
Proof.
  intros Hf. revert fuel p. induction w as [| c w IH]; intros fuel p Hs Hw Hstop Hfuel.
  - change (len EmptyString) with O in *. rewrite Nat.add_0_r in *.
    destruct fuel as [| fuel]; [lia |]. cbn [advance_while]. by rewrite Hstop.
  - rewrite len_cons in *. cbn [all_bytes] in Hw. apply andb_true_iff in Hw as [Hc Hw].
    destruct (Hf c Hc) as [Hlow Hcond]. rewrite app_cons in Hs.
    destruct fuel as [| fuel]; [lia |]. cbn [advance_while].
    rewrite (at_pos_r_low _ _ _ _ Hs Hlow), Hcond.
    rewrite (at_pos_next_low _ _ _ _ Hs Hlow).
    replace (p + S (len w))%nat with (S p + len w)%nat in * by lia.
    apply IH; [by apply at_suffix_next in Hs | done | done | lia].
Qed.

(** A loop that goes on over every rune of 128 and more, and over the
    bytes below 128 that [f] accepts. *)
Lemma advance_runes (cond : Z -> bool) (f : ascii -> bool) (n : nat) :
  (forall c, rune c < 128 -> f c = true -> cond (rune c) = true) ->
  (forall z, 128 <= z -> cond z = true) ->
  forall (fuel : nat) (b : string) (p : nat) (w rest : string),
    (len w <= n)%nat ->
    at_suffix b p (w ++ rest) -> all_bytes f w = true ->
    starts_with high_byte rest = false ->
    cond (r (at_pos b (p + len w))) = false ->
    (len w < fuel)%nat ->
    advance_while cond fuel (at_pos b p) = at_pos b (p + len w).
Proof.
  intros Hlow Hhigh. induction n as [| n IH]; intros fuel b p w rest Hn Hs Hw Hrest Hstop Hfuel.
  - destruct w; [| rewrite len_cons in Hn; lia].
    change (len EmptyString) with O in *. rewrite Nat.add_0_r in *.
    destruct fuel as [| fuel]; [lia |]. cbn [advance_while]. by rewrite Hstop.
  - destruct w as [| c w].
    + change (len EmptyString) with O in *. rewrite Nat.add_0_r in *.
      destruct fuel as [| fuel]; [lia |]. cbn [advance_while]. by rewrite Hstop.
    + rewrite len_cons in *. cbn [all_bytes] in Hw. apply andb_true_iff in Hw as [Hc Hw].
      rewrite app_cons in Hs. destruct fuel as [| fuel]; [lia |]. cbn [advance_while].
      destruct (decide (rune c < 128)) as [Hc128 | Hc128].
      * rewrite (at_pos_r_low _ _ _ _ Hs Hc128), (Hlow c Hc128 Hc).
        rewrite (at_pos_next_low _ _ _ _ Hs Hc128).
        replace (p + S (len w))%nat with (S p + len w)%nat in * by lia.
        apply (IH _ _ _ _ rest); [lia | by apply at_suffix_next in Hs | done | done | done | lia].
      * assert (Hc' : 128 <= rune c) by lia.
        rewrite (Hhigh _ (at_pos_r_high _ _ _ _ Hs Hc')).
        destruct (at_pos_next_high _ _ _ _ _ Hs Hc' Hrest) as (pre & w' & -> & Hpre & ->).
        rewrite all_bytes_app in Hw. apply andb_true_iff in Hw as [_ Hw].
        rewrite len_app in *.
        replace (p + S (len pre + len w'))%nat with (p + S (len pre) + len w')%nat in *
          by lia.
        apply (IH _ _ _ _ rest); [lia | | done | done | done | lia].
        apply at_suffix_next in Hs. rewrite string_app_assoc in Hs.
        apply at_suffix_app in Hs.
        by replace (p + S (len pre))%nat with (S p + len pre)%nat by lia.
Qed.

(** *** Bytes *)

Lemma rune_inj (c d : ascii) : rune c = rune d -> c = d.
Proof.
  unfold rune. intros H. apply Nat2Z.inj in H.
  rewrite <- (ascii_nat_embedding c), <- (ascii_nat_embedding d). by rewrite H.
Qed.

Ltac runes :=
  change (rune " ") with 32 in *; change (rune tab) with 9 in *;
  change (rune newline) with 10 in *; change (rune carriage_return) with 13 in *;
  change (rune dquote) with 34 in *; change (rune "\") with 92 in *;
  change (rune "/") with 47 in *; change (rune nul) with 0 in *;
  change (rune "a") with 97 in *; change (rune "z") with 122 in *;
  change (rune "A") with 65 in *; change (rune "Z") with 90 in *;
  change (rune "_") with 95 in *; change (rune "$") with 36 in *;
  change (rune "0") with 48 in *; change (rune "9") with 57 in *.

Lemma isSpace_spec (z : Z) : isSpace z = true <-> z = 32 \/ z = 9 \/ z = 10 \/ z = 13.
Proof. unfold isSpace. runes. rewrite !orb_true_iff, !Z.eqb_eq. tauto. Qed.

Lemma isAlpha_spec (z : Z) :
  isAlpha z = true <-> 97 <= z <= 122 \/ 65 <= z <= 90 \/ z = 95 \/ z = 36.
Proof.
  unfold isAlpha. runes.
  rewrite !orb_true_iff, !andb_true_iff, !Z.leb_le, !Z.eqb_eq. tauto.
Qed.

Lemma isDigit_spec (z : Z) : isDigit z = true <-> 48 <= z <= 57.
Proof. unfold isDigit. runes. by rewrite andb_true_iff, !Z.leb_le. Qed.

Lemma not_true_iff (b : bool) (P : Prop) : (b = true <-> P) -> (b = false <-> ~ P).
Proof. intros H. rewrite <- H. symmetry. apply not_true_iff_false. Qed.

Lemma space_byte_low (c : ascii) :
  space_byte c = true -> rune c < 128 /\ isSpace (rune c) = true.
Proof. intros H. split; [| exact H]. apply isSpace_spec in H. lia. Qed.

Lemma word_byte_spec (c : ascii) :
  word_byte c = true <-> isAlpha (rune c) = true \/ isDigit (rune c) = true.
Proof. unfold word_byte. by rewrite orb_true_iff. Qed.

Lemma word_byte_low (c : ascii) :
  word_byte c = true ->
  rune c < 128 /\ isAlpha (rune c) || isDigit (rune c) = true.
Proof.
  intros H. split; [| exact H].
  apply word_byte_spec in H as [H | H]; [apply isAlpha_spec in H | apply isDigit_spec in H];
    lia.
Qed.

(** The white space before a token. *)
Lemma skipNontokens_spaces (b : string) (p : nat) (ws rest : string) :
  at_suffix b p (ws ++ rest) -> all_bytes space_byte ws = true ->
  starts_with space_byte rest = false ->
  skipNontokens (at_pos b p) = at_pos b (p + len ws).
Proof.
  intros Hs Hws Hrest. unfold skipNontokens, loop_fuel. rewrite at_pos_buf.
  apply (advance_bytes isSpace space_byte _ _ _ _ rest space_byte_low Hs Hws).
  - apply (stop_at isSpace space_byte _ _ rest); [by apply at_suffix_app | done | done | |].
    + intros c _ Hc. exact Hc.
    + intros c z _ _ Hz. apply (not_true_iff _ _ (isSpace_spec z)). lia.
  - pose proof (at_suffix_len _ _ _ Hs) as Hlen. rewrite len_app in Hlen. lia.
Qed.

(** The body of a quoted string, up to the quote that closes it. *)
Lemma quote_body_high (pre s : string) :
  all_bytes high_byte pre = true -> quote_body (pre ++ s) = quote_body s.
Proof.
  induction pre as [| c pre IH]; [done |]. cbn [all_bytes]. intros [Hc Hpre]%andb_true_iff.
  rewrite app_cons. cbn [quote_body]. unfold high_byte in Hc. apply Z.leb_le in Hc.
  rewrite !bool_decide_eq_false_2; [by apply IH | | |]; intros ->; runes; lia.
Qed.

Lemma scanQuote_loop_body (n : nat) :
  forall (fuel : nat) (b : string) (p : nat) (body rest : string),
    (len body <= n)%nat ->
    at_suffix b p (body ++ String dquote rest) -> quote_body body = true ->
    (len body < fuel)%nat ->
    scanQuote_loop fuel (at_pos b p) = inr (at_pos b (p + len body)).
Proof.
  induction n as [| n IH]; intros fuel b p body rest Hn Hs Hbody Hfuel.
  - destruct body; [| rewrite len_cons in Hn; lia].
    change (len EmptyString) with O in *. rewrite Nat.add_0_r. rewrite string_app_nil_l in Hs.
    destruct fuel as [| fuel]; [lia |]. cbn [scanQuote_loop].
    rewrite (at_pos_r_low _ _ _ _ Hs) by (runes; lia). by runes.
  - destruct body as [| c body].
    + change (len EmptyString) with O in *. rewrite Nat.add_0_r. rewrite string_app_nil_l in Hs.
      destruct fuel as [| fuel]; [lia |]. cbn [scanQuote_loop].
      rewrite (at_pos_r_low _ _ _ _ Hs) by (runes; lia). by runes.
    + rewrite len_cons in *. rewrite app_cons in Hs.
      destruct fuel as [| fuel]; [lia |]. cbn [scanQuote_loop]. cbn [quote_body] in Hbody.
      case_bool_decide as Hbs.
      * subst c. destruct body as [| d body]; [done |].
        apply andb_true_iff in Hbody as [Hd Hbody].
        rewrite len_cons in *. rewrite app_cons in Hs.
        rewrite (at_pos_r_low _ _ _ _ Hs) by (runes; lia).
        rewrite (at_pos_next_low _ _ _ _ Hs) by (runes; lia).
        apply at_suffix_next in Hs.
        assert (Hd' : rune d = 92 \/ rune d = 34).
        { apply orb_true_iff in Hd as [Hd | Hd]; apply bool_decide_eq_true in Hd;
            subst d; runes; lia. }
        rewrite (at_pos_r_low _ _ _ _ Hs) by lia.
        rewrite (at_pos_next_low _ _ _ _ Hs) by lia.
        apply at_suffix_next in Hs.
        runes.
        replace ((92 >? 0) && negb (92 =? 34)) with true by done.
        replace (92 =? 92) with true by done.
        replace ((rune d =? 92) || (rune d =? 34)) with true
          by (symmetry; apply orb_true_iff; rewrite !Z.eqb_eq; done).
        replace (p + S (S (len body)))%nat with (S (S p) + len body)%nat by lia.
        apply (IH _ _ _ _ rest); [lia | done | done | lia].
      * apply andb_true_iff in Hbody as [Hc Hbody].
        apply andb_true_iff in Hc as [Hnul Hdq].
        apply negb_true_iff, bool_decide_eq_false in Hnul, Hdq.
        assert (Hr0 : rune c <> 0) by (intros H; apply Hnul, rune_inj; by runes).
        assert (Hr34 : rune c <> 34) by (intros H; apply Hdq, rune_inj; by runes).
        assert (Hr92 : rune c <> 92) by (intros H; apply Hbs, rune_inj; by runes).
        pose proof (rune_byte c) as Hbyte.
        destruct (decide (rune c < 128)) as [Hc128 | Hc128].
        -- rewrite (at_pos_r_low _ _ _ _ Hs Hc128).
           rewrite (at_pos_next_low _ _ _ _ Hs Hc128). runes.
           replace ((rune c >? 0) && negb (rune c =? 34)) with true.
           2: { symmetry. apply andb_true_iff. split; [apply Z.gtb_lt; lia |].
                apply negb_true_iff, Z.eqb_neq. done. }
           replace (rune c =? 92) with false by (symmetry; by apply Z.eqb_neq).
           replace (p + S (len body))%nat with (S p + len body)%nat by lia.
           apply (IH _ _ _ _ rest); [lia | by apply at_suffix_next in Hs | done | lia].
        -- assert (Hc' : 128 <= rune c) by lia.
           pose proof (at_pos_r_high _ _ _ _ Hs Hc') as Hr.
           destruct (at_pos_next_high _ _ _ _ (String dquote rest) Hs Hc')
             as (pre & body' & -> & Hpre & ->); [done |].
           rewrite quote_body_high in Hbody by done. rewrite len_app in *. runes.
           replace ((r (at_pos b p) >? 0) && negb (r (at_pos b p) =? 34)) with true.
           2: { symmetry. apply andb_true_iff. split; [apply Z.gtb_lt; lia |].
                apply negb_true_iff, Z.eqb_neq. lia. }
           replace (r (at_pos b p) =? 92) with false by (symmetry; apply Z.eqb_neq; lia).
           replace (p + S (len pre + len body'))%nat with (p + S (len pre) + len body')%nat
             by lia.
           apply (IH _ _ _ _ rest); [lia | | done | lia].
           apply at_suffix_next in Hs. rewrite string_app_assoc in Hs.
           apply at_suffix_app in Hs.
           by replace (p + S (len pre))%nat with (S p + len pre)%nat by lia.
Qed.

(** *** One token *)

Lemma opTable_alpha (c : ascii) : alpha_byte c = true -> opTable (rune c) = TokenError.
Proof.
  destruct c as [[] [] [] [] [] [] [] []]; vm_compute; intros H;
    first [reflexivity | discriminate H].
Qed.

Lemma alpha_not_space (c : ascii) : alpha_byte c = true -> space_byte c = false.
Proof.
  unfold alpha_byte, space_byte. intros H. apply isAlpha_spec in H.
  apply (not_true_iff _ _ (isSpace_spec _)). lia.
Qed.

Lemma alpha_is_word_byte (c : ascii) : alpha_byte c = true -> word_byte c = true.
Proof. unfold alpha_byte, word_byte. by intros ->. Qed.

Lemma word_cons (w : string) :
  word w = true -> exists c w', w = String c w' /\ alpha_byte c = true.
Proof.
  unfold word. intros [Hstart _]%andb_true_iff. destruct w as [| c w']; [done |].
  by exists c, w'.
Qed.

Lemma NextToken_word (b : string) (p : nat) (ws w rest : string) :
  at_suffix b p (ws ++ w ++ rest) -> all_bytes space_byte ws = true ->
  word w = true -> starts_with word_byte rest = false ->
  NextToken (at_pos b p)
  = ({| Typ := default TokenIdentifier (reservedWords w); Value := w;
        Position := (p + len ws)%nat |},
     at_pos b (p + len ws + len w)).
Proof.
  intros Hs Hws Hword Hrest.
  destruct (word_cons w Hword) as (c & w' & Hw & Hc).
  assert (Hskip : skipNontokens (at_pos b p) = at_pos b (p + len ws)).
  { apply (skipNontokens_spaces _ _ _ (w ++ rest)); [done | done |].
    rewrite Hw, app_cons. cbn [starts_with]. by apply alpha_not_space. }
  apply at_suffix_app in Hs. set (q := (p + len ws)%nat) in *.
  pose proof Hc as Hc'. apply isAlpha_spec in Hc'.
  assert (Hlow : rune c < 128) by lia.
  assert (Hr : r (at_pos b q) = rune c).
  { apply (at_pos_r_low _ _ c (w' ++ rest)); [| done]. by rewrite <- app_cons, <- Hw. }
  assert (Hscan : advance_while (fun r => isAlpha r || isDigit r)
                    (loop_fuel (at_pos b q)) (at_pos b q)
                  = at_pos b (q + len w)).
  { unfold loop_fuel. rewrite at_pos_buf.
    apply (advance_bytes (fun r => isAlpha r || isDigit r) word_byte _ _ _ _ rest
             word_byte_low Hs).
    - unfold word in Hword. by apply andb_true_iff in Hword as [_ ?].
    - apply (stop_at (fun r => isAlpha r || isDigit r) word_byte _ _ rest);
        [by apply at_suffix_app | done | done | |].
      + intros d _ Hd. exact Hd.
      + intros d z _ _ Hz. apply orb_false_iff. split.
        * apply (not_true_iff _ _ (isAlpha_spec z)). lia.
        * apply (not_true_iff _ _ (isDigit_spec z)). lia.
    - pose proof (at_suffix_len _ _ _ Hs) as Hlen. rewrite len_app in Hlen. lia. }
  unfold NextToken. rewrite Hskip. cbv zeta. rewrite Hr.
  replace (rune c <? 0) with false by (symmetry; apply Z.ltb_ge; lia).
  replace (rune c <? len_opTable) with true
    by (symmetry; apply Z.ltb_lt; unfold len_opTable; lia).
  rewrite (opTable_alpha c Hc). rewrite bool_decide_eq_false_2 by (by intros H; apply H).
  unfold alpha_byte in Hc. rewrite Hc.
  unfold scanIdentifier. rewrite Hscan. cbv zeta.
  rewrite at_pos_buf, (at_pos_rpos _ _ _ Hs).
  rewrite (at_pos_rpos _ _ rest) by (by apply at_suffix_app).
  rewrite (at_suffix_slice _ _ _ _ Hs).
  by destruct (reservedWords w).
Qed.

Lemma operator_byte (c : ascii) (t : terminal) :
  terminal_of (opTable (rune c)) = Some t ->
  rune c < 127 /\ opTable (rune c) <> TokenError /\ opTable (rune c) <> TokenDivide /\
  space_byte c = false /\ 0 <= rune c.
Proof.
  destruct c as [[] [] [] [] [] [] [] []]; vm_compute; intros H;
    first [discriminate H | repeat split; discriminate].
Qed.

Lemma NextToken_operator (b : string) (p : nat) (ws rest : string) (c : ascii)
    (t : terminal) :
  at_suffix b p (ws ++ String c rest) -> all_bytes space_byte ws = true ->
  terminal_of (opTable (rune c)) = Some t ->
  NextToken (at_pos b p)
  = ({| Typ := opTable (rune c); Value := String c EmptyString; Position := (p + len ws)%nat |},
     at_pos b (p + len ws + 1)).
Proof.
  intros Hs Hws Hop.
  destruct (operator_byte c t Hop) as (Hlow & Herr & Hdiv & Hspace & Hpos).
  assert (Hskip : skipNontokens (at_pos b p) = at_pos b (p + len ws)).
  { by apply (skipNontokens_spaces _ _ _ (String c rest)). }
  apply at_suffix_app in Hs. set (q := (p + len ws)%nat) in *.
  assert (Hr : r (at_pos b q) = rune c) by (apply (at_pos_r_low _ _ c rest); [done | lia]).
  unfold NextToken. rewrite Hskip. cbv zeta. rewrite Hr.
  replace (rune c <? 0) with false by (symmetry; apply Z.ltb_ge; lia).
  replace (rune c <? len_opTable) with true
    by (symmetry; apply Z.ltb_lt; unfold len_opTable; lia).
  rewrite bool_decide_eq_true_2 by done.
  rewrite (bool_decide_eq_false_2 (opTable (rune c) = TokenDivide)) by done.
  cbn [andb].
  rewrite (at_pos_next_low _ _ _ _ Hs) by lia.
  rewrite at_pos_buf, (at_pos_rpos _ _ _ Hs).
  rewrite (at_pos_rpos _ _ rest) by (by apply at_suffix_next in Hs).
  change (String c rest) with (String c EmptyString ++ rest) in Hs.
  pose proof (at_suffix_slice _ _ _ _ Hs) as Hslice.
  change (len (String c EmptyString)) with 1%nat in Hslice.
  replace (q + 1)%nat with (S q) in * by lia. by rewrite Hslice.
Qed.

Lemma NextToken_quote (b : string) (p : nat) (ws body rest : string) :
  at_suffix b p (ws ++ quoted body ++ rest) -> all_bytes space_byte ws = true ->
  quote_body body = true ->
  NextToken (at_pos b p)
  = ({| Typ := TokenQuote; Value := quoted body; Position := (p + len ws)%nat |},
     at_pos b (p + len ws + len (quoted body))).
Proof.
  intros Hs Hws Hbody.
  assert (Hq : quoted body ++ rest = String dquote (body ++ String dquote rest)).
  { unfold quoted. by rewrite app_cons, string_app_assoc. }
  assert (Hlenq : len (quoted body) = S (S (len body))).
  { unfold quoted. rewrite len_cons, len_app. change (len (String dquote EmptyString)) with 1%nat.
    lia. }
  assert (Hskip : skipNontokens (at_pos b p) = at_pos b (p + len ws)).
  { apply (skipNontokens_spaces _ _ _ (quoted body ++ rest)); [done | done |].
    by rewrite Hq. }
  pose proof (at_suffix_app _ _ _ _ Hs) as Hs0. set (q := (p + len ws)%nat) in *.
  pose proof (at_suffix_slice _ _ _ _ Hs0) as Hslice.
  rewrite Hq in Hs0.
  assert (Hr : r (at_pos b q) = 34) by (by apply (at_pos_r_low _ _ _ _ Hs0)).
  pose proof (at_suffix_next _ _ _ _ Hs0) as Hs1.
  pose proof (at_suffix_app _ _ _ _ Hs1) as Hs2.
  pose proof (at_suffix_next _ _ _ _ Hs2) as Hs3.
  unfold NextToken. rewrite Hskip. cbv zeta. rewrite Hr.
  change (34 <? 0) with false. change (34 <? len_opTable) with true.
  change (opTable 34) with TokenError.
  rewrite bool_decide_eq_false_2 by (by intros H; apply H).
  change (isAlpha 34) with false. change (isDigit 34) with false.
  change (34 =? rune dquote) with true. cbv iota.
  unfold scanQuote. cbv zeta.
  rewrite (at_pos_next_low _ _ _ _ Hs0) by done.
  rewrite (scanQuote_loop_body (len body) _ _ _ body rest); [| done | done | done |].
  2: { unfold loop_fuel. rewrite at_pos_buf.
       pose proof (at_suffix_len _ _ _ Hs1) as Hlen. rewrite len_app in Hlen. lia. }
  rewrite (at_pos_r_low _ _ _ _ Hs2) by done.
  change (rune dquote <? 0) with false. cbv iota.
  rewrite (at_pos_next_low _ _ _ _ Hs2) by done.
  rewrite at_pos_buf, (at_pos_rpos _ _ _ Hs0), (at_pos_rpos _ _ _ Hs3).
  rewrite Hlenq in *.
  replace (S (S q + len body)) with (q + S (S (len body)))%nat by lia.
  by rewrite Hslice.
Qed.

Lemma NextToken_end (b : string) (p : nat) (ws : string) :
  at_suffix b p ws -> all_bytes space_byte ws = true ->
  NextToken (at_pos b p)
  = ({| Typ := TokenEOF; Value := EmptyString; Position := len b |}, at_pos b (len b)).
Proof.
  intros Hs Hws.
  assert (Hskip : skipNontokens (at_pos b p) = at_pos b (p + len ws)).
  { apply (skipNontokens_spaces _ _ _ EmptyString); [by rewrite string_app_nil_r | done | done]. }
  pose proof (at_suffix_len _ _ _ Hs) as Hlen. rewrite Hlen in Hskip.
  assert (Hend : at_suffix b (len b) EmptyString).
  { rewrite <- (string_app_nil_r ws) in Hs. apply at_suffix_app in Hs. by rewrite Hlen in Hs. }
  unfold NextToken. rewrite Hskip. cbv zeta. rewrite (at_pos_end _ _ Hend). done.
Qed.

Lemma digit_byte (c : ascii) :
  isDigit (rune c) = true ->
  rune c < 127 /\ opTable (rune c) = TokenError /\ isAlpha (rune c) = false /\
  space_byte c = false.
Proof.
  destruct c as [[] [] [] [] [] [] [] []]; vm_compute; intros H;
    first [discriminate H | repeat split; reflexivity].
Qed.

Lemma stop_operator_byte (c : ascii) :
  opTable (rune c) <> TokenError ->
  rune c < 127 /\ 0 <= rune c /\ space_byte c = false /\
  opTable (rune c) <> TokenEOF /\ opTable (rune c) <> TokenComment /\
  (opTable (rune c) = TokenDivide -> c = "/"%char).
Proof.
  destruct c as [[] [] [] [] [] [] [] []]; vm_compute; intros H;
    first [ exfalso; apply H; reflexivity
          | repeat split; first [discriminate | reflexivity | intros H'; discriminate H'] ].
Qed.

(** A token for which [tokenNumbers] has no entry. *)
Lemma NextToken_stop (b : string) (p : nat) (ws rest : string) (c : ascii) :
  at_suffix b p (ws ++ String c rest) -> all_bytes space_byte ws = true ->
  stops c rest = true ->
  exists tok lex' z,
    NextToken (at_pos b p) = (tok, lex') /\
    Typ tok <> TokenEOF /\ Typ tok <> TokenError /\ Typ tok <> TokenComment /\
    tokenNumbers (Typ tok) = LexInt z.
Proof.
  intros Hs Hws Hstop. unfold stops in Hstop.
  assert (Hspace : space_byte c = false).
  { apply orb_true_iff in Hstop as [Hd | Hop].
    - by destruct (digit_byte c Hd) as (_ & _ & _ & ?).
    - apply andb_true_iff in Hop as [Hop _]. apply andb_true_iff in Hop as [Hne _].
      apply negb_true_iff, bool_decide_eq_false in Hne.
      by destruct (stop_operator_byte c Hne) as (_ & _ & ? & _). }
  assert (Hskip : skipNontokens (at_pos b p) = at_pos b (p + len ws)).
  { by apply (skipNontokens_spaces _ _ _ (String c rest)). }
  apply at_suffix_app in Hs. set (q := (p + len ws)%nat) in *.
  pose proof (rune_byte c) as Hbyte.
  destruct (isDigit (rune c)) eqn:Hdigit.
  - destruct (digit_byte c Hdigit) as (Hlow & Herr & Halpha & _).
    assert (Hr : r (at_pos b q) = rune c) by (apply (at_pos_r_low _ _ c rest); [done | lia]).
    unfold NextToken. rewrite Hskip. cbv zeta. rewrite Hr.
    replace (rune c <? 0) with false by (symmetry; apply Z.ltb_ge; lia).
    replace (rune c <? len_opTable) with true
      by (symmetry; apply Z.ltb_lt; unfold len_opTable; lia).
    rewrite Herr. rewrite bool_decide_eq_false_2 by (by intros H; apply H).
    rewrite Halpha, Hdigit. unfold scanNumber. cbv zeta.
    eexists _, _, 0. split; [reflexivity |]. cbn [Typ tokenNumbers]. by repeat split.
  - cbn [orb] in Hstop. apply andb_true_iff in Hstop as [Hop Hslash].
    apply andb_true_iff in Hop as [Hne Hterm].
    apply negb_true_iff, bool_decide_eq_false in Hne, Hterm.
    destruct (stop_operator_byte c Hne) as (Hlow & Hpos & _ & Heof & Hcomment & Hdiv).
    assert (Hr : r (at_pos b q) = rune c) by (apply (at_pos_r_low _ _ c rest); [done | lia]).
    assert (Hpeek : bool_decide (opTable (rune c) = TokenDivide)
                    && (peekNextByte (at_pos b q) =? rune "/") = false).
    { apply andb_false_iff. destruct (decide (opTable (rune c) = TokenDivide)) as [Hd | Hd];
        [right | left; by apply bool_decide_eq_false].
      specialize (Hdiv Hd). subst c.
      rewrite bool_decide_eq_true_2 in Hslash by done. cbn [andb] in Hslash.
      apply negb_true_iff in Hslash.
      unfold peekNextByte. rewrite at_pos_buf. rewrite (at_pos_low _ _ _ _ Hs) by lia.
      cbn [nextpos]. rewrite (at_suffix_slice_from _ _ _ (at_suffix_next _ _ _ _ Hs)).
      destruct rest as [| d rest]; [done |]. cbn [starts_with] in Hslash.
      apply bool_decide_eq_false in Hslash. apply Z.eqb_neq. intros Heq.
      by apply Hslash, rune_inj. }
    unfold NextToken. rewrite Hskip. cbv zeta. rewrite Hr.
    replace (rune c <? 0) with false by (symmetry; apply Z.ltb_ge; lia).
    replace (rune c <? len_opTable) with true
      by (symmetry; apply Z.ltb_lt; unfold len_opTable; lia).
    rewrite bool_decide_eq_true_2 by done. rewrite Hpeek.
    unfold terminal_of in Hterm.
    destruct (tokenNumbers (opTable (rune c))) as [t | z] eqn:Hnum;
      [exfalso; apply Hterm; by eexists |].
    eexists _, _, z. split; [reflexivity |]. cbn [Typ]. by repeat split.
Qed.

Lemma comment_byte_spec (c : ascii) :
  comment_byte c = true -> rune c <> 0 /\ rune c <> 10.
Proof.
  unfold comment_byte. intros [Hnul Hnl]%andb_true_iff.
  apply negb_true_iff, bool_decide_eq_false in Hnul, Hnl.
  split; intros H; [apply Hnul | apply Hnl]; apply rune_inj; by runes.
Qed.

(** A comment: [tail] is the newline that ends it with what follows, or
    the end of the text. *)
Lemma NextToken_comment (b : string) (p : nat) (ws body tail : string) :
  at_suffix b p (ws ++ "//" ++ body ++ tail) -> all_bytes space_byte ws = true ->
  all_bytes comment_byte body = true ->
  tail = EmptyString \/ (exists rest, tail = String newline rest) ->
  exists tok,
    Typ tok = TokenComment /\
    NextToken (at_pos b p)
    = (tok, at_pos b (p + len ws + 2 + len body + (if tail is EmptyString then 0 else 1))).
Proof.
  intros Hs Hws Hbody Htail.
  assert (Hskip : skipNontokens (at_pos b p) = at_pos b (p + len ws)).
  { by apply (skipNontokens_spaces _ _ _ ("//" ++ body ++ tail)). }
  apply at_suffix_app in Hs. set (q := (p + len ws)%nat) in *.
  change ("//" ++ body ++ tail) with (String "/" (String "/" (body ++ tail))) in Hs.
  assert (Hr : r (at_pos b q) = 47) by (by apply (at_pos_r_low _ _ _ _ Hs)).
  pose proof (at_suffix_next _ _ _ _ Hs) as Hs1.
  assert (Hpeek : peekNextByte (at_pos b q) = 47).
  { unfold peekNextByte. rewrite at_pos_buf. rewrite (at_pos_low _ _ _ _ Hs) by done.
    cbn [nextpos]. by rewrite (at_suffix_slice_from _ _ _ Hs1). }
  assert (Hhigh : starts_with high_byte tail = false).
  { by destruct Htail as [-> | [rest ->]]. }
  assert (Hs2 : at_suffix b (S q + len (String "/" body)) tail).
  { apply at_suffix_app. by rewrite app_cons. }
  assert (Hloop : advance_while (fun r => (r >? 0) && negb (r =? rune newline))
                    (loop_fuel (at_pos b (S q))) (at_pos b (S q))
                  = at_pos b (S q + len (String "/" body))).
  { unfold loop_fuel. rewrite at_pos_buf.
    apply (advance_runes (fun r => (r >? 0) && negb (r =? rune newline)) comment_byte
             (len (String "/" body))) with (rest := tail).
    - intros c _ Hc. apply comment_byte_spec in Hc as [H0 H10].
      pose proof (rune_byte c). runes. apply andb_true_iff. split; [apply Z.gtb_lt; lia |].
      by apply negb_true_iff, Z.eqb_neq.
    - intros z Hz. runes. apply andb_true_iff. split; [apply Z.gtb_lt; lia |].
      apply negb_true_iff, Z.eqb_neq. lia.
    - done.
    - by rewrite app_cons.
    - cbn [all_bytes]. by rewrite Hbody.
    - done.
    - destruct Htail as [-> | [rest ->]].
      + by rewrite (at_pos_r_end _ _ Hs2).
      + by rewrite (at_pos_r_low _ _ _ _ Hs2).
    - pose proof (at_suffix_len _ _ _ Hs1) as Hlen. rewrite len_cons, len_app in Hlen.
      rewrite len_cons. lia. }
  eexists. split; [| unfold NextToken; rewrite Hskip; cbv zeta; rewrite Hr, Hpeek].
  2: { change (47 <? 0) with false. change (47 <? len_opTable) with true.
       change (opTable 47) with TokenDivide.
       rewrite bool_decide_eq_true_2 by done. rewrite bool_decide_eq_true_2 by done.
       change (47 =? rune "/") with true. cbn [andb]. cbv iota.
       unfold scanComment. cbv zeta.
       rewrite (at_pos_next_low _ _ _ _ Hs) by done. rewrite Hloop.
       f_equal. rewrite len_cons in *.
       destruct Htail as [-> | [rest ->]].
       - rewrite (at_pos_next_end _ _ Hs2). f_equal. lia.
       - rewrite (at_pos_next_low _ _ _ _ Hs2) by done. f_equal. lia. }
  reflexivity.
Qed.

(** *** The tokens that [Parser.Lex] hands out *)

Ltac lens := rewrite ?len_app, ?len_cons in *; change (len EmptyString) with O in *.

Lemma gap_len_fuel (b : string) (p : nat) (s : string) :
  at_suffix b p s -> (len s <= len b)%nat.
Proof. intros H. apply at_suffix_len in H. lia. Qed.

Lemma lexeme_not_space (t : terminal) (s rest : string) :
  lexeme t s -> starts_with space_byte (s ++ rest) = false.
Proof.
  intros [w t' Hw _ | c t' Hop | body _].
  - destruct (word_cons w Hw) as (c & w' & -> & Hc). rewrite app_cons.
    by apply alpha_not_space.
  - by destruct (operator_byte c t' Hop) as (_ & _ & _ & H & _).
  - done.
Qed.

(** What [Lex] does on a gap and a token. *)
Lemma Parser_Lex_loop_token (g : string) :
  gap g ->
  forall (fuel : nat) (b : string) (p : nat) (s rest : string) (t : terminal)
         (ps : Parser) (lval : yySymType),
    at_suffix b p (g ++ s ++ rest) -> lexeme t s -> separated s rest ->
    lexer ps = at_pos b p -> (len g <= fuel)%nat ->
    exists tok,
      Parser_Lex_loop fuel ps lval
      = (TokenNumberOf t, set_Value lval s,
         {| lexer := at_pos b (p + len g + len s); last := Some tok;
            result := result ps; err := err ps |}).
Proof.
  induction 1 as [ws Hws | ws body g Hws Hbody Hg IH];
    intros fuel b p s rest t ps lval Hs Hlex Hsep Hps Hfuel.
  - rewrite Parser_Lex_loop_unfold, Hps.
    destruct Hlex as [w t Hw Ht | c t Hop | body].
    + rewrite (NextToken_word _ _ _ _ _ Hs Hws Hw (Hsep Hw)). cbn [Typ Value].
      unfold terminal_of in Ht.
      destruct (default TokenIdentifier (reservedWords w)); try done;
        cbn [tokenNumbers] in *; injection Ht as <-; by eexists.
    + rewrite app_cons, string_app_nil_l in Hs.
      rewrite (NextToken_operator _ _ _ _ _ _ Hs Hws Hop). cbn [Typ Value].
      change (len (String c EmptyString)) with 1%nat.
      unfold terminal_of in Hop.
      destruct (opTable (rune c)); try done;
        cbn [tokenNumbers] in *; injection Hop as <-; by eexists.
    + rewrite (NextToken_quote _ _ _ _ _ Hs Hws H). cbn [Typ Value tokenNumbers].
      by eexists.
  - rewrite !string_app_assoc in Hs. rewrite <- (string_app_assoc "//") in Hs.
    change (("//" ++ body) ++ String newline g ++ s ++ rest)
      with ("//" ++ body ++ String newline (g ++ s ++ rest)) in Hs.
    destruct (NextToken_comment _ _ _ _ _ Hs Hws Hbody) as (tok & Htyp & Hnext);
      [right; by eexists |].
    rewrite Parser_Lex_loop_unfold, Hps, Hnext, Htyp.
    assert (Hfuel' : (len ws + 2 + len body + 1 + len g <= fuel)%nat) by (lens; lia).
    destruct fuel as [| fuel]; [lia |].
    set (q := (p + len ws + 2 + len body + 1)%nat).
    assert (Hs' : at_suffix b q (g ++ s ++ rest)).
    { apply at_suffix_app in Hs.
      change ("//" ++ body ++ String newline (g ++ s ++ rest))
        with (String "/" (String "/" (body ++ String newline (g ++ s ++ rest)))) in Hs.
      do 2 apply at_suffix_next in Hs. apply at_suffix_app in Hs.
      apply at_suffix_next in Hs. unfold q.
      by replace (p + len ws + 2 + len body + 1)%nat
        with (S (S (S (p + len ws)) + len body)) by lia. }
    destruct (IH fuel b q s rest t
                {| lexer := at_pos b q; last := Some tok; result := result ps;
                   err := err ps |} lval Hs' Hlex Hsep eq_refl) as [tok' Hloop]; [lia |].
    exists tok'. cbv zeta. rewrite Hloop. cbn [result err]. do 3 f_equal.
    unfold q. lens. lia.
Qed.

(** What [Lex] does on the gap at the end of the text. *)
Lemma Parser_Lex_loop_end (g : string) :
  gap g ->
  forall (fuel : nat) (b : string) (p : nat) (tail : string) (ps : Parser)
         (lval : yySymType),
    at_suffix b p (g ++ tail) ->
    tail = EmptyString \/
    (exists body, tail = "//" ++ body /\ all_bytes comment_byte body = true) \/
    (exists c rest, tail = String c rest /\ stops c rest = true) ->
    lexer ps = at_pos b p -> (len (g ++ tail) <= fuel)%nat ->
    exists z lval' ps',
      Parser_Lex_loop fuel ps lval = (LexInt z, lval', ps') /\ err ps' = err ps.
Proof.
  assert (Hlast : forall (fuel : nat) (b : string) (ps : Parser) (lval : yySymType),
             lexer ps = at_pos b (len b) ->
             exists z lval' ps',
               Parser_Lex_loop fuel ps lval = (LexInt z, lval', ps') /\ err ps' = err ps).
  { intros fuel b ps lval Hps. rewrite Parser_Lex_loop_unfold, Hps.
    rewrite (NextToken_end b (len b) EmptyString); [| | done].
    - cbn [Typ]. by eexists _, _, _.
    - exists b. by rewrite string_app_nil_r. }
  induction 1 as [ws Hws | ws body g Hws Hbody Hg IH];
    intros fuel b p tail ps lval Hs Htail Hps Hfuel.
  - destruct Htail as [-> | [(body & -> & Hbody) | (c & rest & -> & Hstop)]].
    + rewrite string_app_nil_r in Hs.
      rewrite Parser_Lex_loop_unfold, Hps, (NextToken_end _ _ _ Hs Hws). cbn [Typ].
      by eexists _, _, _.
    + rewrite <- (string_app_nil_r body) in Hs.
      destruct (NextToken_comment _ _ _ _ EmptyString Hs Hws Hbody) as (tok & Htyp & Hnext);
        [by left |].
      rewrite Parser_Lex_loop_unfold, Hps, Hnext, Htyp.
      assert (Hfuel' : (2 <= fuel)%nat) by (lens; lia).
      destruct fuel as [| fuel]; [lia |].
      destruct (Hlast fuel b
                  {| lexer := at_pos b (p + len ws + 2 + len body + 0); last := Some tok;
                     result := result ps; err := err ps |} lval)
        as (z & lval' & ps' & Hl & He).
      { cbn [lexer]. f_equal. apply at_suffix_len in Hs. lens. lia. }
      exists z, lval', ps'. cbv zeta. by rewrite Hl.
    + destruct (NextToken_stop _ _ _ _ _ Hs Hws Hstop)
        as (tok & lex' & z & Hnext & Heof & Herr & Hcomment & Hnum).
      rewrite Parser_Lex_loop_unfold, Hps, Hnext. cbv zeta. rewrite Hnum.
      destruct (Typ tok); try done; by eexists _, _, _.
  - rewrite !string_app_assoc in Hs. rewrite <- (string_app_assoc "//") in Hs.
    change (("//" ++ body) ++ String newline g ++ tail)
      with ("//" ++ body ++ String newline (g ++ tail)) in Hs.
    destruct (NextToken_comment _ _ _ _ _ Hs Hws Hbody) as (tok & Htyp & Hnext);
      [right; by eexists |].
    rewrite Parser_Lex_loop_unfold, Hps, Hnext, Htyp.
    assert (Hfuel' : (len ws + 2 + len body + 1 + len (g ++ tail) <= fuel)%nat)
      by (rewrite !string_app_assoc in Hfuel; lens; lia).
    destruct fuel as [| fuel]; [lia |].
    set (q := (p + len ws + 2 + len body + 1)%nat).
    assert (Hs' : at_suffix b q (g ++ tail)).
    { apply at_suffix_app in Hs.
      change ("//" ++ body ++ String newline (g ++ tail))
        with (String "/" (String "/" (body ++ String newline (g ++ tail)))) in Hs.
      do 2 apply at_suffix_next in Hs. apply at_suffix_app in Hs.
      apply at_suffix_next in Hs. unfold q.
      by replace (p + len ws + 2 + len body + 1)%nat
        with (S (S (S (p + len ws)) + len body)) by lia. }
    destruct (IH fuel b q tail
                {| lexer := at_pos b q; last := Some tok; result := result ps;
                   err := err ps |} lval Hs' Htail eq_refl)
      as (z & lval' & ps' & Hloop & Herr).
    { lia. }
    exists z, lval', ps'. cbv zeta. by rewrite Hloop.
Qed.

Lemma drain_mono (n m : nat) (ps : Parser) x :
  drain n ps = Some x -> (n <= m)%nat -> drain m ps = Some x.
Proof.
  revert m ps x. induction n as [| n IH]; intros m ps x Hrun Hle; [discriminate |].
  destruct m as [| m]; [lia |]. cbn [drain] in *.
  destruct (Parser_Lex ps yyZero) as [[k lval] ps'].
  destruct k as [t | z]; [| done].
  destruct (drain n ps') as [[ts fails] |] eqn:Hrest; [| discriminate].
  by rewrite (IH m ps' _ Hrest) by lia.
Qed.

Lemma drain_laid_out (text : string) (ts : list (terminal * string)) :
  laid_out text ts ->
  forall (b : string) (p : nat) (ps : Parser),
    at_suffix b p text -> lexer ps = at_pos b p -> err ps = None ->
    exists n, drain n ps = Some (ts, false).
Proof.
  induction 1 as [g Hg | g body Hg Hbody | g rest c Hg Hstop
                  | g s rest t ts Hg Hlex Hsep Hrest IH];
    intros b p ps Hs Hps Herr.
  - destruct (Parser_Lex_loop_end g Hg (len b) b p EmptyString ps yyZero)
      as (z & lval' & ps' & Hloop & Herr');
      [by rewrite string_app_nil_r | by left | done | |].
    { rewrite string_app_nil_r. by apply (gap_len_fuel b p). }
    exists 1%nat. cbn [drain]. unfold Parser_Lex. rewrite Hps, at_pos_buf, Hloop.
    rewrite Herr', Herr. done.
  - destruct (Parser_Lex_loop_end g Hg (len b) b p ("//" ++ body) ps yyZero)
      as (z & lval' & ps' & Hloop & Herr'); [done | right; left; by exists body | done | |].
    { by apply (gap_len_fuel b p). }
    exists 1%nat. cbn [drain]. unfold Parser_Lex. rewrite Hps, at_pos_buf, Hloop.
    rewrite Herr', Herr. done.
  - destruct (Parser_Lex_loop_end g Hg (len b) b p (String c rest) ps yyZero)
      as (z & lval' & ps' & Hloop & Herr'); [done | right; right; by exists c, rest | done | |].
    { by apply (gap_len_fuel b p). }
    exists 1%nat. cbn [drain]. unfold Parser_Lex. rewrite Hps, at_pos_buf, Hloop.
    rewrite Herr', Herr. done.
  - destruct (Parser_Lex_loop_token g Hg (len b) b p s rest t ps yyZero Hs Hlex Hsep Hps)
      as [tok Hloop].
    { apply gap_len_fuel in Hs. rewrite len_app in Hs. lia. }
    destruct (IH b (p + len g + len s)%nat
                {| lexer := at_pos b (p + len g + len s); last := Some tok;
                   result := result ps; err := err ps |}) as [n Hn]; [| done | done |].
    { by do 2 apply at_suffix_app in Hs. }
    exists (S n). cbn [drain]. unfold Parser_Lex. rewrite Hps, at_pos_buf, Hloop, Hn.
    done.
Qed.

Lemma lex_all_of_layout (input : string) (ts : list (terminal * string)) :
  laid_out input ts -> lex_all input = Some (ts, false).
Proof.
  intros Hlaid.
  destruct (drain_laid_out input ts Hlaid input 0 (NewParser (NewLexer input)))
    as [n Hn]; [apply at_suffix_start | done | done |].
  destruct (lex_all_total input) as (ts' & fails' & Hlex & _).
  rewrite Hlex. unfold lex_all in Hlex.
  pose proof (drain_mono _ (n + S (len input)) _ _ Hn ltac:(lia)) as H1.
  pose proof (drain_mono _ (n + S (len input)) _ _ Hlex ltac:(lia)) as H2.
  congruence.
Qed.

(** X11.  The lexer and [Parser.Lex] on a text that is laid out as tokens:
    reserved words, identifiers, the operators of the grammar and quoted
    strings, with white space and comments between them where one likes,
    and a word not followed at once by a letter or a digit.  The parser
    is handed these tokens, each with its text, and then the end of the
    input without a lexing error; it is handed the end of the input as
    well at a number and at an operator that is not of the grammar.  A
    quoted string may hold any bytes but the NUL byte, among them bytes
    that are no UTF-8, and quotes and backslashes behind a backslash. *)
Theorem lex_all_laid_out (input : string) (ts : list (terminal * string)) :
  laid_out input ts -> lex_all input = Some (ts, false).
Proof. apply lex_all_of_layout. Qed.

(** *** What [Parse] makes of two texts with the same tokens *)

Lemma Parse_of_tokens {RE : RegexpLib} {XE : SyntaxErrors} (a b : string) :
  lex_all a = lex_all b -> same_parse (Parse a) (Parse b).
Proof.
  intros Heq.
  destruct (lex_all_total a) as (ts & fails & Ha & _).
  assert (Hb : lex_all b = Some (ts, fails)) by congruence.
  pose proof (yyParse_on_tokens grammar_stream.tables gs_uniform (parse_fuel a) a ts fails Ha)
    as Hsa.
  pose proof (yyParse_on_tokens grammar_stream.tables gs_uniform (parse_fuel b) b ts fails Hb)
    as Hsb.
  destruct (Parse_returns a) as (ra & ea & Hpa).
  destruct (Parse_returns b) as (rb & eb & Hpb).
  unfold Parse, Parse_with in *.
  destruct (yyParse grammar_stream.tables (parse_fuel a) (NewParser (NewLexer a)))
    as [[[na pa] |] |]; [| done | done].
  destruct (yyParse grammar_stream.tables (parse_fuel b) (NewParser (NewLexer b)))
    as [[[nb pb] |] |]; [| done | done].
  destruct (yyParse grammar_stream.tables (parse_fuel a) (source ts fails))
    as [[[na' sa] |] |] eqn:Hrun_a; try done.
  destruct (yyParse grammar_stream.tables (parse_fuel b) (source ts fails))
    as [[[nb' sb] |] |] eqn:Hrun_b; try done.
  assert (Hsame : sa = sb).
  { unfold yyParse in Hrun_a, Hrun_b.
    apply (yyloop_mono _ _ (parse_fuel a + parse_fuel b)) in Hrun_a; [| lia].
    apply (yyloop_mono _ _ (parse_fuel a + parse_fuel b)) in Hrun_b; [| lia].
    congruence. }
  subst sb. destruct Hsa as [_ Hsa]. destruct Hsb as [_ Hsb].
  exact (same_outcome_parse pa pb sa Hsa Hsb).
Qed.

(** X12.  [Parse] reads the tokens of a text and nothing else: two texts
    that are laid out as the same tokens, whatever their white space and
    comments are and whatever follows the first number or operator that
    is not of the grammar, give the same rules, or an error both (the
    position that the message of the error names may differ). *)
Theorem Parse_ignores_layout {RE : RegexpLib} {XE : SyntaxErrors} (a b : string)
    (ts : list (terminal * string)) :
  laid_out a ts -> laid_out b ts -> same_parse (Parse a) (Parse b).
Proof.
  intros Ha Hb. apply Parse_of_tokens.
  by rewrite (lex_all_of_layout a ts Ha), (lex_all_of_layout b ts Hb).
Qed.

(** *** Two layouts of the same tokens *)

Lemma commented_text_layout : laid_out commented_text commented_tokens.
Proof.
  apply (laid_out_token ("// the deals" ++ String newline EmptyString) "if"
           (" subject=" ++ quoted ("a\" ++ String dquote "b") ++ " then flag; // done")).
  { apply (gap_comment EmptyString " the deals" EmptyString); [reflexivity | reflexivity |].
    by apply gap_spaces. }
  { by apply lexeme_word. }
  { by intros _. }
  apply (laid_out_token " " "subject"
           ("=" ++ quoted ("a\" ++ String dquote "b") ++ " then flag; // done")).
  { by apply gap_spaces. }
  { by apply lexeme_word. }
  { by intros _. }
  apply (laid_out_token EmptyString "="
           (quoted ("a\" ++ String dquote "b") ++ " then flag; // done")).
  { by apply gap_spaces. }
  { by apply (lexeme_operator "="). }
  { by intros ?. }
  apply (laid_out_token EmptyString (quoted ("a\" ++ String dquote "b")) " then flag; // done").
  { by apply gap_spaces. }
  { by apply lexeme_quote. }
  { by intros ?. }
  apply (laid_out_token " " "then" " flag; // done").
  { by apply gap_spaces. }
  { by apply lexeme_word. }
  { by intros _. }
  apply (laid_out_token " " "flag" "; // done").
  { by apply gap_spaces. }
  { by apply lexeme_word. }
  { by intros _. }
  apply (laid_out_token EmptyString ";" " // done").
  { by apply gap_spaces. }
  { by apply (lexeme_operator ";"). }
  { by intros ?. }
  apply (laid_out_comment " " " done"); [by apply gap_spaces | reflexivity].
Qed.

Lemma stopped_text_layout : laid_out stopped_text commented_tokens.
Proof.
  apply (laid_out_token EmptyString "if"
           (" subject = " ++ quoted ("a\" ++ String dquote "b") ++ " then flag ; 7 if if")).
  { by apply gap_spaces. }
  { by apply lexeme_word. }
  { by intros _. }
  apply (laid_out_token " " "subject"
           (" = " ++ quoted ("a\" ++ String dquote "b") ++ " then flag ; 7 if if")).
  { by apply gap_spaces. }
  { by apply lexeme_word. }
  { by intros _. }
  apply (laid_out_token " " "="
           (" " ++ quoted ("a\" ++ String dquote "b") ++ " then flag ; 7 if if")).
  { by apply gap_spaces. }
  { by apply (lexeme_operator "="). }
  { by intros ?. }
  apply (laid_out_token " " (quoted ("a\" ++ String dquote "b")) " then flag ; 7 if if").
  { by apply gap_spaces. }
  { by apply lexeme_quote. }
  { by intros ?. }
  apply (laid_out_token " " "then" " flag ; 7 if if").
  { by apply gap_spaces. }
  { by apply lexeme_word. }
  { by intros _. }
  apply (laid_out_token " " "flag" " ; 7 if if").
  { by apply gap_spaces. }
  { by apply lexeme_word. }
  { by intros _. }
  apply (laid_out_token " " ";" " 7 if if").
  { by apply gap_spaces. }
  { by apply (lexeme_operator ";"). }
  { by intros ?. }
  apply (laid_out_stop " " " if if" "7"); [by apply gap_spaces | reflexivity].
Qed.

Lemma lex_all_laid_out_witness :
  lex_all commented_text = Some (commented_tokens, false) /\
  lex_all stopped_text = Some (commented_tokens, false).
Proof.
  split.
  - exact (lex_all_laid_out commented_text commented_tokens commented_text_layout).
  - exact (lex_all_laid_out stopped_text commented_tokens stopped_text_layout).
Defined.

Lemma Parse_ignores_layout_witness :
  same_parse (Parse (RE := substring_regexp) (XE := plain_errors) commented_text)
             (Parse (RE := substring_regexp) (XE := plain_errors) stopped_text).
Proof.
  exact (Parse_ignores_layout (RE := substring_regexp) (XE := plain_errors)
           commented_text stopped_text
           commented_tokens commented_text_layout stopped_text_layout).
Defined.


(** ** Rules as text *)

(** *** Quoted strings *)

Lemma strip_quotes_quoted (s : string) : strip_quotes (quoted s) = Some s.
Proof.
  unfold strip_quotes, quoted. rewrite len_cons, len_app.
  change (len (String dquote EmptyString)) with 1%nat.
  replace (2 <=? S (len s + 1))%nat with true by (symmetry; apply Nat.leb_le; lia).
  f_equal. unfold slice.
  replace (S (len s + 1) - 1 - 1)%nat with (len s) by lia.
  exact (substring_app (String dquote EmptyString) s (String dquote EmptyString)).
Qed.

Lemma plain_byte_spec (c : ascii) :
  plain_byte c = true <-> c <> nul /\ c <> dquote /\ c <> "\"%char.
Proof.
  unfold plain_byte. rewrite !andb_true_iff, !negb_true_iff, !bool_decide_eq_false. tauto.
Qed.

Lemma plain_quote_body (s : string) : plain s = true -> quote_body s = true.
Proof.
  unfold plain. induction s as [| c s IH]; [done |]. cbn [all_bytes quote_body].
  intros [Hc Hs]%andb_true_iff. apply plain_byte_spec in Hc as (Hnul & Hdq & Hbs).
  rewrite !bool_decide_eq_false_2 by done. by rewrite IH.
Qed.

Lemma plain_no_backslash (s : string) : plain s = true -> has_byte "\"%char s = false.
Proof.
  unfold plain. induction s as [| c s IH]; [done |]. cbn [all_bytes has_byte].
  intros [Hc Hs]%andb_true_iff. apply plain_byte_spec in Hc as (Hnul & Hdq & Hbs).
  rewrite bool_decide_eq_false_2 by done. by rewrite IH.
Qed.

Lemma has_byte_app (c : ascii) (s t : string) :
  has_byte c (s ++ t) = has_byte c s || has_byte c t.
Proof.
  induction s as [| a s IH]; [done |]. rewrite app_cons. cbn [has_byte].
  by rewrite IH, orb_assoc.
Qed.

Lemma unquote_plain_quoted (s : string) :
  plain s = true -> grammar_stream.unquote (quoted s) = Some s.
Proof.
  intros Hs. rewrite unquote_plain; [apply strip_quotes_quoted |].
  unfold quoted. cbn [has_byte]. rewrite has_byte_app, (plain_no_backslash s Hs).
  by rewrite !bool_decide_eq_false_2.
Qed.

(** *** Escapes *)

Lemma prefix_cons (a b : ascii) (s1 s2 : string) :
  String.prefix (String a s1) (String b s2)
  = if ascii_dec a b then String.prefix s1 s2 else false.
Proof. reflexivity. Qed.

Lemma prefix_nil (s : string) : String.prefix EmptyString s = true.
Proof. by destruct s. Qed.

Lemma ReplaceAll_go_cons (c : ascii) (s old new : string) :
  ReplaceAll_go O (String c s) old new
  = if String.prefix old (String c s)
    then new ++ ReplaceAll_go (len old - 1) s old new
    else String c (ReplaceAll_go O s old new).
Proof. reflexivity. Qed.

Lemma ReplaceAll_go_skip (k : nat) (c : ascii) (s old new : string) :
  ReplaceAll_go (S k) (String c s) old new = ReplaceAll_go k s old new.
Proof. reflexivity. Qed.

(** Decides an equality of bytes, of which one at most is a variable. *)
Ltac bytes_eq a b :=
  let Heq := fresh "Heq" in
  destruct (ascii_dec a b) as [Heq | Heq];
  [ try (exfalso; vm_compute in Heq; discriminate Heq)
  | try (exfalso; apply Heq; reflexivity) ].

Lemma escape_no_quote_start (s : string) :
  String.prefix (String dquote EmptyString) (escape s) = false.
Proof.
  destruct s as [| c s]; [done |]. cbn [escape].
  case_bool_decide as Hbs; [done |]. case_bool_decide as Hdq; [done |].
  rewrite prefix_cons. bytes_eq dquote c; [by subst c | done].
Qed.

Lemma unescape_quotes (s : string) :
  ReplaceAll (escape s) (String "\" (String dquote EmptyString)) (String dquote EmptyString)
  = double_backslashes s.
Proof.
  unfold ReplaceAll. induction s as [| c s IH]; [done |].
  cbn [escape double_backslashes]. case_bool_decide as Hbs.
  - rewrite ReplaceAll_go_cons. rewrite prefix_cons.
    bytes_eq "\"%char "\"%char.
    rewrite prefix_cons. bytes_eq dquote "\"%char.
    f_equal. rewrite ReplaceAll_go_cons, prefix_cons.
    bytes_eq "\"%char "\"%char.
    rewrite escape_no_quote_start. by rewrite IH.
  - case_bool_decide as Hdq.
    + rewrite ReplaceAll_go_cons. rewrite prefix_cons.
      bytes_eq "\"%char "\"%char.
      rewrite prefix_cons. bytes_eq dquote dquote.
      rewrite prefix_nil. change (len (String "\" (String dquote EmptyString)) - 1)%nat with 1%nat.
      rewrite ReplaceAll_go_skip, IH. subst c. reflexivity.
    + rewrite ReplaceAll_go_cons, prefix_cons.
      bytes_eq "\"%char c; [by subst c |]. by rewrite IH.
Qed.

Lemma unescape_backslashes (s : string) :
  ReplaceAll (double_backslashes s) "\\" "\" = s.
Proof.
  unfold ReplaceAll. induction s as [| c s IH]; [done |].
  cbn [double_backslashes]. case_bool_decide as Hbs.
  - subst c. rewrite ReplaceAll_go_cons. rewrite !prefix_cons.
    bytes_eq "\"%char "\"%char. rewrite prefix_nil.
    change (len "\\" - 1)%nat with 1%nat. rewrite ReplaceAll_go_skip, IH. done.
  - rewrite ReplaceAll_go_cons, prefix_cons.
    bytes_eq "\"%char c; [by subst c |]. by rewrite IH.
Qed.

Lemma unquote_escaped (s : string) : grammar_stream.unquote (quoted (escape s)) = Some s.
Proof.
  unfold grammar_stream.unquote. rewrite strip_quotes_quoted.
  by rewrite unescape_quotes, unescape_backslashes.
Qed.

Lemma quote_body_escaped (s : string) : no_nul s = true -> quote_body (escape s) = true.
Proof.
  unfold no_nul. induction s as [| c s IH]; [done |]. cbn [all_bytes escape].
  intros [Hc Hs]%andb_true_iff. apply negb_true_iff, bool_decide_eq_false in Hc.
  case_bool_decide as Hbs.
  - cbn [quote_body]. rewrite !bool_decide_eq_true_2 by done. by rewrite IH.
  - case_bool_decide as Hdq.
    + cbn [quote_body]. rewrite bool_decide_eq_true_2 by done.
      rewrite (bool_decide_eq_false_2 (dquote = "\"%char)) by done.
      rewrite bool_decide_eq_true_2 by done. by rewrite IH.
    + cbn [quote_body]. rewrite !bool_decide_eq_false_2 by done. by rewrite IH.
Qed.

(** X13.  [unquote], the code of the production [string: QUOTE], undoes
    the escaping of a text: when every quote of a text is written as a
    backslash and a quote and every backslash as two, and the result is
    put between quotes, the lexer reads it as one quoted string, whatever
    follows it, as long as the text has no NUL byte, and [unquote] makes
    the text of it again, whatever its bytes. *)
Theorem unquote_escape (s rest : string) :
  grammar_stream.unquote (quoted (escape s)) = Some s /\
  (no_nul s = true ->
   fst (NextToken (NewLexer (quoted (escape s) ++ rest)))
   = {| Typ := TokenQuote; Value := quoted (escape s); Position := 0 |}).
Proof.
  split; [apply unquote_escaped |]. intros Hs.
  change (NewLexer (quoted (escape s) ++ rest))
    with (at_pos (quoted (escape s) ++ rest) 0).
  rewrite (NextToken_quote _ 0 EmptyString (escape s) rest);
    [done | apply at_suffix_start | done | by apply quote_body_escaped].
Qed.

(** *** Laying out a text *)

Lemma gap_space (c : ascii) (g : string) : space_byte c = true -> gap g -> gap (String c g).
Proof.
  intros Hc [ws Hws | ws body g' Hws Hbody Hg].
  - apply gap_spaces. cbn [all_bytes]. by rewrite Hc.
  - change (String c (ws ++ "//" ++ body ++ String newline g'))
      with (String c ws ++ "//" ++ body ++ String newline g').
    apply gap_comment; [| done | done]. cbn [all_bytes]. by rewrite Hc.
Qed.

Lemma laid_out_space (c : ascii) (text : string) (ts : list (terminal * string)) :
  space_byte c = true -> laid_out text ts -> laid_out (String c text) ts.
Proof.
  intros Hc [g Hg | g body Hg Hbody | g rest' d Hg Hstop | g s rest t ts' Hg Hlex Hsep Hrest].
  - apply laid_out_end. by apply gap_space.
  - change (String c (g ++ "//" ++ body)) with (String c g ++ "//" ++ body).
    apply laid_out_comment; [by apply gap_space | done].
  - change (String c (g ++ String d rest')) with (String c g ++ String d rest').
    apply laid_out_stop; [by apply gap_space | done].
  - change (String c (g ++ s ++ rest)) with (String c g ++ s ++ rest).
    apply laid_out_token; [by apply gap_space | done | done | done].
Qed.

Lemma laid_out_next (t : terminal) (s rest : string) (ts : list (terminal * string)) :
  lexeme t s -> separated s rest -> laid_out rest ts -> laid_out (s ++ rest) ((t, s) :: ts).
Proof.
  intros Hlex Hsep Hrest. apply (laid_out_token EmptyString s rest t ts); [| done | done | done].
  by apply gap_spaces.
Qed.

Lemma laid_out_nil : laid_out EmptyString [].
Proof. apply laid_out_end. by apply gap_spaces. Qed.

(** A token that is no word needs no space after it. *)
Lemma separated_operator (c : ascii) (t : terminal) (rest : string) :
  terminal_of (opTable (rune c)) = Some t -> separated (String c EmptyString) rest.
Proof.
  intros Hop Hword. exfalso. unfold word in Hword. cbn [starts_with all_bytes] in Hword.
  apply andb_true_iff in Hword as [Hc _].
  apply opTable_alpha in Hc. rewrite Hc in Hop. done.
Qed.

Lemma separated_quote (body rest : string) : separated (quoted body) rest.
Proof. intros Hword. done. Qed.

Lemma known_field_lexeme (field : string) : known_field field -> lexeme IDENTIFIER field.
Proof. intros [-> | [-> | ->]]; by apply lexeme_word. Qed.

(** The steps of a layout: a space, a reserved word or an operator that
    the text goes on with, and a quoted string. *)
Ltac lay_space := apply (laid_out_space " "); [reflexivity |].
Ltac lay_word w t rest :=
  apply (laid_out_next t w rest); [by apply lexeme_word | by intros _ |].
Ltac lay_operator c t rest :=
  apply (laid_out_next t (String c EmptyString) rest);
  [by apply lexeme_operator | by apply (separated_operator c t) |].

Ltac right_assoc := repeat first [rewrite <- app_assoc | progress cbn [app]].

Section RoundTrip.
Context {RE : RegexpLib} {XE : SyntaxErrors} (enc : string -> string) (ok : string -> bool).
Context (Hbody : forall s, ok s = true -> quote_body (enc s) = true).
Context (Hunquote : forall s, ok s = true -> grammar_stream.unquote (quoted (enc s)) = Some s).

Lemma lay_quote (s rest : string) (ts : list (terminal * string)) :
  ok s = true -> laid_out rest ts ->
  laid_out (quoted (enc s) ++ rest) ((QUOTE, quoted (enc s)) :: ts).
Proof.
  intros Hs Hrest. apply laid_out_next; [| apply separated_quote | done].
  apply lexeme_quote. by apply Hbody.
Qed.

Lemma syntax_flat (p : rules.Predicate) : flat (syntax_of_predicate enc p) = true.
Proof.
  induction p as [field sp | l IHl r IHr | l IHl r IHr | q IHq]; cbn.
  - by destruct sp.
  - by rewrite IHl, IHr.
  - by rewrite IHl, IHr.
  - by rewrite IHq.
Qed.

Lemma known_field_new (field : string) (sp : rules.StringPredicate) :
  known_field field -> rules.NewFieldPredicate field sp = Ok (rules.FieldPredicate field sp).
Proof. by intros [-> | [-> | ->]]. Qed.

Lemma syntax_denotes (p : rules.Predicate) :
  expressible_predicate ok p ->
  denote_cond grammar_stream.unquote (syntax_of_predicate enc p) = Some p.
Proof.
  induction p as [field sp | l IHl r IHr | l IHl r IHr | q IHq]; cbn [expressible_predicate].
  - destruct sp as [s | pattern].
    + intros [Hfield Hs]. cbn. unfold denote_cmp. rewrite (Hunquote s Hs).
      by rewrite (known_field_new _ _ Hfield).
    + intros (Hfield & Hs & Hre). cbn. unfold denote_cmp. rewrite (Hunquote _ Hs), Hre.
      by rewrite (known_field_new _ _ Hfield).
  - intros [Hl Hr]. cbn. by rewrite (IHl Hl), (IHr Hr).
  - intros [Hl Hr]. cbn. by rewrite (IHl Hl), (IHr Hr).
  - intros Hq. cbn. by rewrite (IHq Hq).
Qed.

Lemma written_predicate_laid_out (p : rules.Predicate) :
  expressible_predicate ok p ->
  forall (rest : string) (ts : list (terminal * string)),
    laid_out rest ts ->
    laid_out (written_predicate enc p ++ rest)
             (cond_tokens (syntax_of_predicate enc p) ++ ts)%list.
Proof.
  induction p as [field sp | l IHl r IHr | l IHl r IHr | q IHq];
    cbn [expressible_predicate written_predicate syntax_of_predicate];
    intros Hp rest ts Hrest.
  - destruct sp as [s | pattern]; cbn [written_comparison syntax_of_comparison cond_tokens];
      [destruct Hp as [Hfield Hs] | destruct Hp as (Hfield & Hs & _)];
      rewrite !string_app_assoc.
    + apply laid_out_next; [by apply known_field_lexeme | by intros _ |].
      lay_space. lay_operator "="%char EQUALS (" " ++ quoted (enc s) ++ rest).
      lay_space. by apply lay_quote.
    + apply laid_out_next; [by apply known_field_lexeme | by intros _ |].
      lay_space. lay_operator "~"%char TILDE (" " ++ quoted (enc pattern) ++ rest).
      lay_space. by apply lay_quote.
  - destruct Hp as [Hl Hr]. rewrite !string_app_assoc. cbn [cond_tokens]. right_assoc.
    lay_operator "("%char LPAREN
      (written_predicate enc l ++ ") and (" ++ written_predicate enc r ++ ")" ++ rest).
    apply (IHl Hl).
    lay_operator ")"%char RPAREN (" and (" ++ written_predicate enc r ++ ")" ++ rest).
    lay_space. lay_word "and" AND (" (" ++ written_predicate enc r ++ ")" ++ rest).
    lay_space. lay_operator "("%char LPAREN (written_predicate enc r ++ ")" ++ rest).
    apply (IHr Hr).
    by lay_operator ")"%char RPAREN rest.
  - destruct Hp as [Hl Hr]. rewrite !string_app_assoc. cbn [cond_tokens]. right_assoc.
    lay_operator "("%char LPAREN
      (written_predicate enc l ++ ") or (" ++ written_predicate enc r ++ ")" ++ rest).
    apply (IHl Hl).
    lay_operator ")"%char RPAREN (" or (" ++ written_predicate enc r ++ ")" ++ rest).
    lay_space. lay_word "or" OR (" (" ++ written_predicate enc r ++ ")" ++ rest).
    lay_space. lay_operator "("%char LPAREN (written_predicate enc r ++ ")" ++ rest).
    apply (IHr Hr).
    by lay_operator ")"%char RPAREN rest.
  - rewrite !string_app_assoc. cbn [cond_tokens]. right_assoc.
    lay_word "not" NOT (" (" ++ written_predicate enc q ++ ")" ++ rest).
    lay_space. lay_operator "("%char LPAREN (written_predicate enc q ++ ")" ++ rest).
    apply (IHq Hp).
    by lay_operator ")"%char RPAREN rest.
Qed.

Lemma written_rule_syntax (r : rules.Rule) :
  expressible ok r ->
  exists x : rule_syntax,
    flat (fst x) = true /\
    denote_rule grammar_stream.unquote x = Some r /\
    forall (rest : string) (ts : list (terminal * string)),
      laid_out rest ts ->
      laid_out (written_rule enc r ++ ";" ++ rest) (rule_tokens x ++ ts)%list.
Proof.
  intros ((p & Hp & Hexp) & Hpending & Haction).
  exists (syntax_of_predicate enc p, syntax_of_action enc r).
  split; [apply syntax_flat |]. split.
  - unfold denote_rule. cbn [fst snd]. rewrite (syntax_denotes p Hexp).
    destruct r as [m | f | u | s]; cbn in Hp, Hpending, Haction |- *.
    + rewrite (Hunquote _ Haction). destruct m. cbn in *. by subst.
    + destruct Haction as [Hok Hne]. rewrite (Hunquote _ Hok).
      unfold rules.NewFlagRule. cbn [rules.flag_Flag].
      rewrite bool_decide_eq_false_2 by done. destruct f. cbn in *. by subst.
    + destruct Haction as [Hok Hne]. rewrite (Hunquote _ Hok).
      unfold rules.NewUnflagRule. cbn [rules.unflag_Flag].
      rewrite bool_decide_eq_false_2 by done. destruct u. cbn in *. by subst.
    + rewrite (Hunquote _ Haction). destruct s. cbn in *. by subst.
  - intros rest ts Hrest. unfold written_rule, rule_tokens. rewrite Hp.
    cbn [written_condition fst snd]. rewrite !string_app_assoc. right_assoc.
    lay_word "if" IF (" " ++ written_predicate enc p ++ " then " ++ written_action enc r
                      ++ ";" ++ rest).
    lay_space. apply (written_predicate_laid_out p Hexp).
    lay_space. lay_word "then" THEN (" " ++ written_action enc r ++ ";" ++ rest).
    lay_space.
    destruct r as [m | f | u | s]; cbn [written_action syntax_of_action action_tokens];
      cbn [expressible_action] in Haction; rewrite !string_app_assoc; cbn [app].
    + lay_word "move" MOVE (" " ++ quoted (enc (rules.Mailbox m)) ++ ";" ++ rest).
      lay_space. apply lay_quote; [done |]. by lay_operator ";"%char SEMICOLON rest.
    + destruct Haction as [Hok _].
      lay_word "flag" FLAG (" " ++ quoted (enc (rules.flag_Flag f)) ++ ";" ++ rest).
      lay_space. apply lay_quote; [done |]. by lay_operator ";"%char SEMICOLON rest.
    + destruct Haction as [Hok _].
      lay_word "unflag" UNFLAG (" " ++ quoted (enc (rules.unflag_Flag u)) ++ ";" ++ rest).
      lay_space. apply lay_quote; [done |]. by lay_operator ";"%char SEMICOLON rest.
    + lay_word "stream" STREAM (" " ++ quoted (enc (rules.Command s)) ++ ";" ++ rest).
      lay_space. apply lay_quote; [done |]. by lay_operator ";"%char SEMICOLON rest.
Qed.

Lemma written_file_syntax (rs : list rules.Rule) :
  Forall (expressible ok) rs ->
  exists f : list rule_syntax,
    (rs <> [] -> f <> []) /\ flat_file f /\
    denote_file grammar_stream.unquote f = Some rs /\
    laid_out (written_file enc rs) (file_tokens f).
Proof.
  induction 1 as [| r rs Hr Hrs (f & Hne & Hflat & Hden & Hlaid)].
  - exists []. split; [done |]. split; [constructor |]. split; [done |]. apply laid_out_nil.
  - destruct (written_rule_syntax r Hr) as (x & Hx & Hdx & Hlx).
    exists (x :: f). split; [done |]. split; [by constructor |]. split.
    + cbn [denote_file]. by rewrite Hdx, Hden.
    + cbn [written_file]. change (file_tokens (x :: f)) with (rule_tokens x ++ file_tokens f)%list.
      apply Hlx. by apply (laid_out_space newline).
Qed.

Lemma written_file_parses (rs : list rules.Rule) :
  rs <> [] -> Forall (expressible ok) rs ->
  Parse (written_file enc rs) = Some (Ret (rs, None)).
Proof.
  intros Hne Hall.
  destruct (written_file_syntax rs Hall) as (f & Hf & Hflat & Hden & Hlaid).
  apply (Parse_with_on_tokens grammar_stream.tables gs_rank _ (file_tokens f));
    [apply gs_uniform | apply gs_ranked | by apply lex_all_of_layout |].
  apply gs_forward; [by apply Hf | done | done].
Qed.

End RoundTrip.

(** X14.  Every rule can be written down: a list of rules that have a
    predicate over the fields of [NewFieldPredicate] with patterns that
    compile, no pending message, a flag that is not empty and no NUL byte
    in their strings, written one to a line with their strings escaped
    and with a semicolon after each, is a text that [Parse] turns into
    these very rules, in their order, without an error. *)
Theorem written_rules_parse {RE : RegexpLib} {XE : SyntaxErrors} (rs : list rules.Rule) :
  rs <> [] -> Forall (expressible no_nul) rs ->
  Parse (written_file escape rs) = Some (Ret (rs, None)).
Proof.
  apply written_file_parses.
  - intros s Hs. by apply quote_body_escaped.
  - intros s _. apply unquote_escaped.
Qed.

Lemma Rule_String_written (r : rules.Rule) : Rule_String r = written_rule (fun s => s) r.
Proof.
  assert (Hp : forall p, Predicate_String p = written_predicate (fun s => s) p).
  { induction p as [field sp | l IHl r' IHr | l IHl r' IHr | q IHq]; cbn.
    - by destruct sp.
    - by rewrite IHl, IHr.
    - by rewrite IHl, IHr.
    - by rewrite IHq. }
  assert (Ho : forall o, interface_String o = written_condition (fun s => s) o).
  { intros [p |]; [apply Hp | done]. }
  destruct r as [m | f | u | s]; unfold Rule_String, written_rule;
    cbn [predicate_of written_action]; rewrite Ho; reflexivity.
Qed.

Lemma printed_file_written (rs : list rules.Rule) :
  printed_file rs = written_file (fun s => s) rs.
Proof.
  induction rs as [| r rs IH]; [done |]. cbn [printed_file written_file].
  by rewrite IH, Rule_String_written.
Qed.

(** X15.  What [String] prints of a rule is a text of the rule language as
    long as the strings of the rule have no quote, no backslash and no
    NUL byte: the rules of a list, each printed by [String] and followed
    by a semicolon and a newline, are what [Parse] makes of that text.
    The parentheses that [String] puts around the operands of [and],
    [or] and [not] make the grouping of the printed condition that of the
    predicate. *)
Theorem printed_rules_parse {RE : RegexpLib} {XE : SyntaxErrors} (rs : list rules.Rule) :
  rs <> [] -> Forall (expressible plain) rs ->
  Parse (printed_file rs) = Some (Ret (rs, None)).
Proof.
  rewrite printed_file_written. apply written_file_parses.
  - intros s Hs. by apply plain_quote_body.
  - intros s Hs. by apply unquote_plain_quoted.
Qed.

Lemma unquote_escape_witness :
  no_nul ("say " ++ quoted "hi") = true /\
  fst (NextToken (NewLexer (quoted (escape ("say " ++ quoted "hi")) ++ " then flag;")))
  = {| Typ := TokenQuote; Value := quoted (escape ("say " ++ quoted "hi")); Position := 0 |}.
Proof.
  split; [reflexivity |].
  apply (proj2 (unquote_escape ("say " ++ quoted "hi") " then flag;")). reflexivity.
Defined.

Lemma written_rules_parse_witness :
  Parse (RE := substring_regexp) (XE := plain_errors) (written_file escape [seen_rule; plain_rule])
  = Some (Ret ([seen_rule; plain_rule], None)).
Proof.
  apply (written_rules_parse (RE := substring_regexp) (XE := plain_errors)); [discriminate |].
  repeat constructor.
  - eexists. split; [reflexivity |]. split; [by right; right | reflexivity].
  - discriminate.
  - eexists. split; [reflexivity |]. cbn. repeat split; try reflexivity.
    + by right; right.
    + by right; left.
Defined.

Lemma printed_rules_parse_witness :
  Parse (RE := substring_regexp) (XE := plain_errors) (printed_file [plain_rule])
  = Some (Ret ([plain_rule], None)).
Proof.
  apply (printed_rules_parse (RE := substring_regexp) (XE := plain_errors)); [discriminate |].
  repeat constructor.
  eexists. split; [reflexivity |]. cbn. repeat split; try reflexivity.
  - by right; right.
  - by right; left.
Defined.


(** ** The rules that [Parse] returns *)

Ltac expose_rich_one H :=
  lazymatch type of H with
  | wf_stack _ _ _ ((?s, ?v) :: ?stk) =>
      let sb := fresh "sb" in
      let vb := fresh "vb" in
      let stk' := fresh "stk" in
      let X := fresh "X" in
      let Hacc := fresh "Hacc" in
      let Htr := fresh "Htr" in
      let Hv := fresh "Hv" in
      destruct stk as [| [sb vb] stk'];
      [ exfalso; vm_compute in H; discriminate H
      | apply wf_stack_push in H; destruct H as (X & Hacc & Htr & Hv & H);
        vm_compute in Hacc; injection Hacc as <-;
        destruct sb; try (exfalso; vm_compute in Htr; discriminate Htr); clear Htr;
        cbn [gs_val_rich] in Hv ]
  end.

Ltac expose_rich n H :=
  lazymatch n with
  | O => idtac
  | S ?m => expose_rich_one H; expose_rich m H
  end.

Lemma NewFieldPredicate_Ok (field : string) (sp : rules.StringPredicate)
    (p : rules.Predicate) :
  rules.NewFieldPredicate field sp = Ok p ->
  p = rules.FieldPredicate field sp /\ known_field field.
Proof.
  unfold rules.NewFieldPredicate, known_field.
  destruct (bool_decide (field = "to")) eqn:Hto;
    [| destruct (bool_decide (field = "from")) eqn:Hfrom;
       [| destruct (bool_decide (field = "subject")) eqn:Hsubject]];
    cbn; intros Heq; try discriminate Heq; injection Heq as <-;
    (split; [reflexivity |]).
  - left. by apply bool_decide_eq_true in Hto.
  - right. left. by apply bool_decide_eq_true in Hfrom.
  - right. right. by apply bool_decide_eq_true in Hsubject.
Qed.

Section ParsedFacts.
Context {RE : RegexpLib}.

Lemma parsed_rules_snoc (rs : list rules.Rule) (r : rules.Rule) :
  rs = [] \/ parsed_rules rs -> parsed r -> parsed_rules (rs ++ [r]).
Proof.
  intros Hrs Hr. split; [by destruct rs |].
  apply Forall_app. split; [| by constructor].
  destruct Hrs as [-> | [_ Hall]]; [constructor | done].
Qed.

Lemma comparison_equals_parsed (field str : string) (p : rules.Predicate) :
  rules.NewFieldPredicate field (rules.StringEqualsPredicate str) = Ok p ->
  expressible_predicate any_string p.
Proof. intros H. apply NewFieldPredicate_Ok in H as [-> Hfield]. by split. Qed.

Lemma comparison_tilde_parsed (field str : string) (p : rules.Predicate) :
  regexp_Compile str = None ->
  rules.NewFieldPredicate field (rules.Regexp str) = Ok p ->
  expressible_predicate any_string p.
Proof. intros Hre H. apply NewFieldPredicate_Ok in H as [-> Hfield]. by repeat split. Qed.

Lemma NewFlagRule_flag (str : string) :
  rules.flag_Flag (rules.NewFlagRule None str) <> EmptyString.
Proof. unfold rules.NewFlagRule. cbn. by case_bool_decide. Qed.

Lemma NewUnflagRule_flag (str : string) :
  rules.unflag_Flag (rules.NewUnflagRule None str) <> EmptyString.
Proof. unfold rules.NewUnflagRule. cbn. by case_bool_decide. Qed.

End ParsedFacts.

Lemma gs_rich_step {RE : RegexpLib} {XE : SyntaxErrors}
    (stk : list (grammar_stream.state * yySymType))
    (la : option terminal) (lv : yySymType) (src : TokenSource) :
  wf_stack grammar_stream.tables gs_accessing gs_val_rich stk ->
  yyRules lv = [] ->
  match la with Some t => quote_length (t, yyValue lv) = true | None => True end ->
  match yystep grammar_stream.tables (cfg grammar_stream.tables stk (Some la) lv src) with
  | inl c' =>
      wf_stack grammar_stream.tables gs_accessing gs_val_rich (yyS _ c') /\
      toks (yylex _ c') = toks src /\ yylval _ c' = lv /\
      (yychar _ c' = None \/ yychar _ c' = Some la) /\
      file_reduced (yyS _ c') (yylex _ c')
  | inr Panic => False
  | inr (Ret (_, s)) =>
      src_err s = None -> file_reduced stk src -> parsed_rules (src_result s)
  end.
Proof.
  intros Hwf Hlv Hla.
  destruct stk as [| [s v] stk]; [done |].
  unfold yystep, cfg. cbn [yyS yychar yylval yylex].
  destruct s; destruct la as [[] |];
  match goal with
  | |- context [action grammar_stream.tables ?s ?la] =>
      let a := eval vm_compute in (action grammar_stream.tables s la) in
      change (action grammar_stream.tables s la) with a; cbv iota beta
  end;
  try (cbn; intros H; discriminate H);
  try (cbn [yyS yychar yylval yylex];
       split; [| split; [reflexivity | split; [reflexivity | split; [by left |]]]];
       [ cbn [wf_stack gs_accessing trans];
         split; [split; [reflexivity | split; [exact Hla | exact Hlv]] | exact Hwf]
       | intros ? ? H; discriminate H ]);
  try match goal with
  | |- context [rhs grammar_stream.tables ?p] =>
      let n := eval vm_compute in (List.length (rhs grammar_stream.tables p)) in
      expose_rich n Hwf
  end.
  all: try (intros _ Hfile; exact (Hfile _ _ eq_refl)).
  all: repeat match goal with
              | H : exists _, _ |- _ => let x := fresh "x" in destruct H as [x H]
              | H : _ /\ _ |- _ => destruct H
              end.
  all: cbn.
  all: unfold grammar_stream.rule_of_move, grammar_stream.rule_of_flag,
      grammar_stream.rule_of_unflag, grammar_stream.rule_of_stream,
      grammar_stream.comparison_tilde, grammar_stream.comparison_equals.
  all: try match goal with
        | Hq : quote_length (QUOTE, yyValue ?v) = true
          |- context [grammar_stream.unquote (yyValue ?v)] =>
            let str := fresh "str" in
            let Hstr := fresh "Hstr" in
            destruct (unquote_Some (yyValue v) Hq) as [str Hstr]; rewrite Hstr; cbn
        end.
  all: repeat match goal with
         | H : ?t = Some _ |- context [?t] => rewrite H; cbn
         end.
  all: repeat match goal with
         | |- context [regexp_Compile ?x] => destruct (regexp_Compile x) eqn:?; cbn
         | |- context [rules.NewFieldPredicate ?f ?x] =>
             destruct (rules.NewFieldPredicate f x) eqn:?; cbn
         end.
  all: try (intros H; discriminate H).
  all: try (split; [split; [split; [reflexivity |] | exact Hwf]
                   | split; [reflexivity | split; [reflexivity | split; [by right |]]]]).
  all: try (intros ? ? H; discriminate H).
  all: try done.
  all: try (intros ? ? _; assumption).
  all: try (eexists; split; [reflexivity | cbn [expressible_predicate]; by auto]).
  all: try (apply parsed_rules_snoc; [by auto | done]).
  all: try (eexists; split; [reflexivity |];
            first [ by eapply comparison_equals_parsed
                  | by eapply comparison_tilde_parsed ]).
  all: try (eexists; split; [reflexivity | split; [reflexivity |]];
            first [apply NewFlagRule_flag | apply NewUnflagRule_flag]).
  all: split; [done | eexists; split; [reflexivity |]].
  all: unfold parsed, expressible; cbn.
  all: split; [by eexists | by repeat split].
Qed.

Section ParsedRun.
Context {RE : RegexpLib} {XE : SyntaxErrors}.

Lemma rich_look (c : yyconfig grammar_stream.tables (L := TokenSource)) :
  rich_config c -> rich_config (look c).
Proof.
  destruct c as [stk [la |] lv src]; unfold look, rich_config, cfg;
    cbn [yyS yychar yylval yylex]; [done |].
  intros (Hstack & Htoks & Hlv & _ & Hfile).
  destruct (toks src) as [| [t v] rest]; cbn [yyS yychar yylval yylex toks with_toks at_end].
  - done.
  - simpl in Htoks. apply andb_true_iff in Htoks as [Ht Hrest]. done.
Qed.

Lemma rich_yystep (c : yyconfig grammar_stream.tables (L := TokenSource)) :
  rich_config c ->
  match yystep grammar_stream.tables c with
  | inl c' => rich_config c'
  | inr Panic => False
  | inr (Ret (_, s)) => src_err s = None -> parsed_rules (src_result s)
  end.
Proof.
  intros Hrich. apply rich_look in Hrich.
  rewrite <- (yystep_look grammar_stream.tables c).
  destruct (look_read grammar_stream.tables c) as (la & lv & src & Hlook).
  rewrite Hlook in *.
  destruct Hrich as (Hstack & Htoks & Hlv & Hla & Hfile).
  cbn [cfg yyS yychar yylval yylex] in *.
  assert (Hla' : match la with
                 | Some t => quote_length (t, yyValue lv) = true
                 | None => True
                 end) by (by destruct la).
  pose proof (gs_rich_step _ la lv src Hstack Hlv Hla') as Hnext.
  destruct (yystep grammar_stream.tables (cfg grammar_stream.tables _ (Some la) lv src))
    as [c' | [[k s] |]]; [| by auto | done].
  destruct Hnext as (Hstack' & Htoks' & Hlv' & Hchar & Hfile').
  split; [exact Hstack' | split; [by rewrite Htoks' | split; [by rewrite Hlv' |]]].
  split; [| exact Hfile'].
  destruct Hchar as [-> | ->]; [done |]. rewrite Hlv'. by destruct la.
Qed.

Lemma rich_yyloop (n : nat) (c : yyconfig grammar_stream.tables (L := TokenSource)) k s :
  rich_config c -> yyloop grammar_stream.tables n c = Some (Ret (k, s)) ->
  src_err s = None -> parsed_rules (src_result s).
Proof.
  revert c. induction n as [| n IH]; intros c Hrich Hrun; [discriminate |].
  simpl in Hrun. pose proof (rich_yystep c Hrich) as Hnext.
  destruct (yystep grammar_stream.tables c) as [c' | [[k' s'] |]];
    [by apply (IH c') | | discriminate].
  by injection Hrun as <- <-.
Qed.

(** X16.  What [Parse] returns without an error is never an empty list,
    and every rule of it is one that the match step and the action step
    can work on: it has a predicate, over the fields [to], [from] and
    [subject] only and with patterns that have compiled; its flag is not
    empty; and no message is pending. *)
Theorem Parse_rules_are_parsed (input : string) (rs : list rules.Rule) :
  Parse input = Some (Ret (rs, None)) -> rs <> [] /\ Forall parsed rs.
Proof.
  intros Hparse.
  destruct (lex_all_total input) as (ts & fails & Hlex & _).
  pose proof (yyParse_on_tokens grammar_stream.tables gs_uniform (parse_fuel input)
                input ts fails Hlex) as Hsame.
  unfold Parse, Parse_with in Hparse.
  destruct (yyParse grammar_stream.tables (parse_fuel input) (NewParser (NewLexer input)))
    as [[[n p] |] |] eqn:Hrun; [| done | done].
  destruct (yyParse grammar_stream.tables (parse_fuel input) (source ts fails))
    as [[[n' s] |] |] eqn:Hsrc; try done.
  destruct Hsame as [_ [Herr Hres]].
  destruct (err p) as [e |] eqn:He; [by injection Hparse |].
  injection Hparse as <-. rewrite (Hres eq_refl).
  apply (rich_yyloop _ _ n' s) in Hsrc; [done | | by apply Herr].
  unfold rich_config. cbn [yyS yychar yylval yylex toks source wf_stack].
  split; [done |]. split; [by apply (lex_all_quote_length input ts fails) |].
  split; [done |]. split; [done |]. intros v stk' Heq. discriminate Heq.
Qed.

End ParsedRun.

Lemma Parse_rules_are_parsed_witness :
  Forall (parsed (RE := substring_regexp)) [precedence_rule].
Proof.
  refine (proj2 (Parse_rules_are_parsed (RE := substring_regexp) (XE := plain_errors)
                  precedence_text
                   [precedence_rule] _)).
  vm_compute. reflexivity.
Defined.


(** ** The tokens of any text *)

(** The text of a token that a scanner cuts out of the buffer. *)
Lemma slice_span (b : string) (i j : nat) :
  (i < j)%nat -> (j <= len b)%nat ->
  (1 <= len (slice b i j))%nat /\
  (i + len (slice b i j) <= len b)%nat /\
  slice b i j = slice b i (i + len (slice b i j)) /\
  (i + len (slice b i j) = j)%nat.
Proof.
  intros Hij Hj.
  assert (Hlen : len (slice b i j) = (j - i)%nat).
  { unfold slice, len in *. apply substring_length. lia. }
  rewrite Hlen. replace (i + (j - i))%nat with j by lia.
  repeat split; lia.
Qed.

Ltac span_end :=
  lazymatch goal with
  | |- exists j, _ /\ _ /\ _ /\ slice _ _ ?e = _ => exists e
  end.

(** What [NextToken] returns besides the end of the input and an error:
    a piece of the buffer between the position it has started at and the
    position it has left. *)
Lemma NextToken_span (lex : Lexer) :
  lexer_wf lex ->
  let '(tok, lex') := NextToken lex in
  is_final tok = false ->
  exists j, (rpos lex <= Position tok)%nat /\ (Position tok < j)%nat /\
            (j <= rpos lex')%nat /\ Value tok = slice (buf lex) (Position tok) j.
Proof.
  intros Hwf. unfold NextToken.
  pose proof (scanned_while isSpace (loop_fuel lex) lex Hwf) as Hskip.
  fold (skipNontokens lex) in Hskip. set (lex1 := skipNontokens lex) in *.
  destruct (r lex1 <? 0) eqn:Hneg; [done |].
  assert (Hr : 0 <= r lex1) by lia.
  destruct Hskip as (Hbuf1 & Hwf1 & Hpos1). rewrite Nat.add_0_r in Hpos1.
  assert (Hother :
            let '(tok, lex') :=
              if isAlpha (r lex1) then scanIdentifier lex1
              else if isDigit (r lex1) then scanNumber lex1
              else if r lex1 =? rune dquote then scanQuote lex1
              else (makeErrorToken (rpos lex1), lex1) in
            is_final tok = false ->
            exists j, (rpos lex <= Position tok)%nat /\ (Position tok < j)%nat /\
                      (j <= rpos lex')%nat /\ Value tok = slice (buf lex) (Position tok) j).
  { destruct (isAlpha (r lex1)) eqn:Halpha.
    - unfold scanIdentifier, loop_fuel.
      pose proof (advance_while_progress (fun r => isAlpha r || isDigit r)
                    (len (buf lex1)) lex1 Hwf1) as Hadv.
      assert (Hc : isAlpha (r lex1) || isDigit (r lex1) = true) by (by rewrite Halpha).
      specialize (Hadv Hc Hr). cbv zeta in Hadv. destruct Hadv as (Hb & Hw & Hp).
      destruct (reservedWords _); cbn [Position Value]; intros _;
        (span_end; split; [exact Hpos1 |]; split; [| split]; cycle 2;
         [rewrite Hb, Hbuf1; reflexivity | lia | lia]).
    - destruct (isDigit (r lex1)) eqn:Hdigit.
      + unfold scanNumber, loop_fuel. cbn [Position Value].
        pose proof (advance_while_progress isDigit (len (buf lex1)) lex1 Hwf1
                      Hdigit Hr) as Hadv.
        cbv zeta in Hadv. destruct Hadv as (Hb & Hw & Hp). intros _.
        span_end. split; [exact Hpos1 |]. split; [| split]; cycle 2;
          [rewrite Hb, Hbuf1; reflexivity | lia | lia].
      + destruct (r lex1 =? rune dquote); [| done].
        unfold scanQuote.
        pose proof (scanned_next lex1 Hwf1 Hr) as Hn.
        pose proof (scanQuote_loop_spec (loop_fuel (next lex1)) (next lex1)
                      (proj1 (proj2 Hn))) as Hloop.
        destruct (scanQuote_loop _ _) as [[tok lex'] | lex'].
        * destruct Hloop as [Htok _]. unfold is_final. by rewrite Htok.
        * destruct (r lex' <? 0); [done |]. cbn [Position Value]. intros _.
          pose proof (scanned_next_any lex' (proj1 (proj2 Hloop))) as Hlast.
          destruct Hn as (Hb1 & _ & Hp1). destruct Hloop as (Hb2 & _ & Hp2).
          destruct Hlast as (Hb3 & _ & Hp3).
          span_end. split; [exact Hpos1 |]. split; [| split]; cycle 2;
            [rewrite Hb3, Hb2, Hb1, Hbuf1; reflexivity | lia | lia]. }
  destruct (r lex1 <? len_opTable); [| exact Hother].
  case_bool_decide as Hopname; [| exact Hother].
  destruct (bool_decide (opTable (r lex1) = TokenDivide) && (peekNextByte lex1 =? rune "/")).
  - unfold scanComment. cbn [Position Value]. intros _.
    pose proof (scanned_next lex1 Hwf1 Hr) as Hn.
    pose proof (scanned_while (fun r => (r >? 0) && negb (r =? rune newline))
                  (loop_fuel (next lex1)) (next lex1) (proj1 (proj2 Hn))) as Hw.
    pose proof (scanned_next_any _ (proj1 (proj2 Hw))) as Hlast.
    destruct Hn as (Hb1 & _ & Hp1). destruct Hw as (Hb2 & _ & Hp2).
    destruct Hlast as (Hb3 & _ & Hp3).
    span_end. split; [exact Hpos1 |]. split; [| split]; cycle 2;
      [rewrite Hb2, Hb1, Hbuf1; reflexivity | lia | lia].
  - cbn [Position Value]. intros _.
    pose proof (scanned_next lex1 Hwf1 Hr) as Hn. destruct Hn as (Hb1 & _ & Hp1).
    span_end. split; [exact Hpos1 |]. split; [| split]; cycle 2;
      [rewrite Hb1, Hbuf1; reflexivity | lia | lia].
Qed.

Lemma tokens_from_tiles (fuel : nat) :
  forall (lex : Lexer) (from : nat),
    lexer_wf lex -> (bytes_left lex < fuel)%nat -> (from <= rpos lex)%nat ->
    tiles (buf lex) from (tokens_from fuel lex).
Proof.
  induction fuel as [| fuel IH]; intros lex from Hwf Hfuel Hfrom; [lia |].
  cbn [tokens_from].
  pose proof (NextToken_spec lex Hwf) as Hspec.
  pose proof (NextToken_span lex Hwf) as Hspan.
  destruct (NextToken lex) as [tok lex'].
  destruct (is_final tok) eqn:Hfinal.
  - unfold is_final in Hfinal. destruct (Typ tok) eqn:Hty; try discriminate Hfinal;
      cbn [tiles]; unfold is_final; by rewrite Hty.
  - destruct (Hspan eq_refl) as (j & Hstart & Hlt & Hend & Hvalue).
    assert (Hmoved : scanned lex 1 lex').
    { rewrite bool_decide_eq_false_2 in Hspec; [done |].
      unfold is_final in Hfinal. intros [H | H]; rewrite H in Hfinal; discriminate. }
    destruct Hmoved as (Hbuf & Hwf' & Hpos).
    pose proof (lexer_wf_rpos lex' Hwf') as Hbound. rewrite Hbuf in Hbound.
    destruct (slice_span (buf lex) (Position tok) j Hlt ltac:(lia))
      as (Hone & Hin & Hslice & Hj).
    rewrite <- Hvalue in Hone, Hin, Hslice, Hj.
    assert (Hrest : tiles (buf lex) (Position tok + len (Value tok))
                      (tokens_from fuel lex')).
    { rewrite <- Hbuf. apply IH; [done | | lia].
      unfold bytes_left in *. rewrite Hbuf. lia. }
    unfold is_final in Hfinal.
    destruct (Typ tok) eqn:Hty; try discriminate Hfinal;
      cbn [tiles]; unfold is_final; rewrite Hty;
      (split; [lia | split; [done | split; [done | split; [| done]]]]);
      by rewrite <- Hslice.
Qed.

(** X17.  The tokens of any text.  The list that the lexer makes of a text
    ends with the end of the input or with an error, and with nothing
    else: each call of [NextToken] before takes one byte or more, so the
    calls come to an end.  The tokens before the last are pieces of the
    text: the value of each is the text from its position on, it has one
    byte or more, and it starts where the one before it has ended or
    later. *)
Theorem tokens_tile (input : string) : tiles input 0 (tokens input).
Proof.
  destruct (NewLexer_wf input) as [Hwf Hbuf].
  pose proof (tokens_from_tiles (S (len input)) (NewLexer input) 0 Hwf) as Htiles.
  rewrite Hbuf in Htiles. apply Htiles; [| lia].
  unfold bytes_left. rewrite Hbuf. lia.
Qed.
